(** * Call-graph construction and program slicing of the analyzer

    A shallow embedding of [CallGraph.cc], [Slicing.cc] and [KAMain.cc]
    (directory [analyzer/src/lib]) together with the properties of the
    call-graph builder, the slicer, the path normaliser and the argument
    validation of the driver.

    Pointers into the LLVM IR are modelled as identifiers ([positive]);
    the objects they point to live in the module list of the global
    context, which plays the role of the arena that owns every node.
    Dereferencing an identifier that names no object of the arena is
    undefined behaviour in the C++ program and the [Undefined] outcome
    here. *)

From Stdlib Require Import ZArith NArith Ascii String List Bool Lia DecimalString.
From stdpp Require Import base gmap strings list fin_maps fin_sets.

Local Open Scope string_scope.
Local Open Scope Z_scope.

(* ===================================================================== *)
(** ** Outcomes of fallible or looping code *)
(* ===================================================================== *)

(** [Done a] is a normal return, [OutOfFuel] means that the step budget
    given to a loop was too small, [Undefined] that the program read
    through a pointer or iterator that designates nothing. *)
Inductive outcome (A : Type) : Type :=
| Done (a : A)
| OutOfFuel
| Undefined.
Arguments Done {A} a.
Arguments OutOfFuel {A}.
Arguments Undefined {A}.

Definition obind {A B : Type} (m : outcome A) (k : A -> outcome B) : outcome B :=
  match m with
  | Done a => k a
  | OutOfFuel => OutOfFuel
  | Undefined => Undefined
  end.

Notation "'let*' x ':=' m 'in' k" := (obind m (fun x => k))
  (at level 10, x pattern, m at level 200, k at level 200).

(** Monadic left-to-right iteration: the body of a range-for loop that
    threads the state [s]. *)
Fixpoint foldM {A S : Type} (f : A -> S -> outcome S) (l : list A) (s : S) : outcome S :=
  match l with
  | [] => Done s
  | x :: r => let* s' := f x s in foldM f r s'
  end.

(* ===================================================================== *)
(** ** LLVM types, as far as [isCompatibleType] inspects them *)
(* ===================================================================== *)

Module Types.

(** [llvm::Type::TypeID]. *)
Inductive TypeID : Set :=
| HalfTyID | BFloatTyID | FloatTyID | DoubleTyID | X86_FP80TyID | FP128TyID
| PPC_FP128TyID | VoidTyID | LabelTyID | MetadataTyID | X86_MMXTyID
| X86_AMXTyID | TokenTyID | IntegerTyID | FunctionTyID | PointerTyID
| StructTyID | ArrayTyID | FixedVectorTyID | ScalableVectorTyID.

(** The kinds that carry nothing [isCompatibleType] looks at. *)
Inductive MiscKind : Set :=
| KHalf | KBFloat | KFloat | KDouble | KX86_FP80 | KFP128 | KPPC_FP128
| KVoid | KLabel | KMetadata | KX86_MMX | KX86_AMX | KToken
| KFixedVector | KScalableVector.

(** Typed pointers carry their pointee and address space.  An identified
    (non-literal) struct is compared by name only, so its body, which may
    be recursive, is left out. *)
#[warnings="-register-all"]
Inductive Ty : Type :=
| PointerTy (ElT : Ty) (AddressSpace : N)
| ArrayTy (ElT : Ty) (NumElements : N)
| IntegerTy (BitWidth : N)
| LiteralStructTy (Elements : list Ty)
| NamedStructTy (StructName : string)
| FunctionTy (ReturnType : Ty) (Params : list Ty) (VarArg : bool)
| MiscTy (k : MiscKind).

Definition miscTypeID (k : MiscKind) : TypeID :=
  match k with
  | KHalf => HalfTyID | KBFloat => BFloatTyID | KFloat => FloatTyID
  | KDouble => DoubleTyID | KX86_FP80 => X86_FP80TyID | KFP128 => FP128TyID
  | KPPC_FP128 => PPC_FP128TyID | KVoid => VoidTyID | KLabel => LabelTyID
  | KMetadata => MetadataTyID | KX86_MMX => X86_MMXTyID
  | KX86_AMX => X86_AMXTyID | KToken => TokenTyID
  | KFixedVector => FixedVectorTyID | KScalableVector => ScalableVectorTyID
  end.

Definition getTypeID (T : Ty) : TypeID :=
  match T with
  | PointerTy _ _ => PointerTyID
  | ArrayTy _ _ => ArrayTyID
  | IntegerTy _ => IntegerTyID
  | LiteralStructTy _ | NamedStructTy _ => StructTyID
  | FunctionTy _ _ _ => FunctionTyID
  | MiscTy k => miscTypeID k
  end.

Definition TypeID_eqb (a b : TypeID) : bool :=
  match a, b with
  | HalfTyID, HalfTyID | BFloatTyID, BFloatTyID | FloatTyID, FloatTyID
  | DoubleTyID, DoubleTyID | X86_FP80TyID, X86_FP80TyID
  | FP128TyID, FP128TyID | PPC_FP128TyID, PPC_FP128TyID
  | VoidTyID, VoidTyID | LabelTyID, LabelTyID | MetadataTyID, MetadataTyID
  | X86_MMXTyID, X86_MMXTyID | X86_AMXTyID, X86_AMXTyID
  | TokenTyID, TokenTyID | IntegerTyID, IntegerTyID
  | FunctionTyID, FunctionTyID | PointerTyID, PointerTyID
  | StructTyID, StructTyID | ArrayTyID, ArrayTyID
  | FixedVectorTyID, FixedVectorTyID
  | ScalableVectorTyID, ScalableVectorTyID => true
  | _, _ => false
  end.

(** [T->isIntegerTy(8)]. *)
Definition isIntegerTy8 (T : Ty) : bool :=
  match T with
  | IntegerTy w => N.eqb w 8
  | _ => false
  end.

(** [CallGraphPass::isCompatibleType].  The two loops over struct elements
    and over parameters run over lists of equal length, index by index. *)
Fixpoint isCompatibleType (T1 T2 : Ty) {struct T1} : bool :=
  match T1 with
  | PointerTy ElT1 _ =>
      match T2 with
      | PointerTy ElT2 _ =>
          if isIntegerTy8 ElT1 then true else isCompatibleType ElT1 ElT2
      | _ => false
      end
  | ArrayTy ElT1 _ =>
      match T2 with
      | ArrayTy ElT2 _ => isCompatibleType ElT1 ElT1
      | _ => false
      end
  | IntegerTy w =>
      match T2 with
      | PointerTy _ addrspace => if N.eqb w addrspace then true else false
      | IntegerTy _ => true
      | _ => false
      end
  | LiteralStructTy els1 =>
      match T2 with
      | LiteralStructTy els2 =>
          if negb (Nat.eqb (length els1) (length els2)) then false
          else
            (fix elements (l1 l2 : list Ty) {struct l1} : bool :=
               match l1, l2 with
               | e1 :: r1, e2 :: r2 =>
                   if negb (isCompatibleType e1 e2) then false else elements r1 r2
               | _, _ => true
               end) els1 els2
      | _ => false
      end
  | NamedStructTy n1 =>
      match T2 with
      | NamedStructTy n2 => String.eqb n1 n2
      | _ => false
      end
  | FunctionTy ret1 ps1 va1 =>
      match T2 with
      | FunctionTy ret2 ps2 va2 =>
          if negb (isCompatibleType ret1 ret2) then false
          else if va1 then (if va2 then true else false)
          else if negb (Nat.eqb (length ps1) (length ps2)) then false
          else
            (fix params (l1 l2 : list Ty) {struct l1} : bool :=
               match l1, l2 with
               | p1 :: r1, p2 :: r2 =>
                   if negb (isCompatibleType p1 p2) then false else params r1 r2
               | _, _ => true
               end) ps1 ps2
      | _ => false
      end
  | MiscTy k => TypeID_eqb (miscTypeID k) (getTypeID T2)
  end.

(** The index-by-index loop, as a function of its own. *)
Fixpoint pairwiseCompatible (l1 l2 : list Ty) : bool :=
  match l1, l2 with
  | e1 :: r1, e2 :: r2 =>
      if negb (isCompatibleType e1 e2) then false else pairwiseCompatible r1 r2
  | _, _ => true
  end.

(** Some types used in examples. *)
Definition i8 : Ty := IntegerTy 8.
Definition i32 : Ty := IntegerTy 32.
Definition i64 : Ty := IntegerTy 64.
Definition floatTy : Ty := MiscTy KFloat.
Definition voidTy : Ty := MiscTy KVoid.

End Types.
Import Types.

(* ===================================================================== *)
(** ** Strings: the [std::string] operations the code relies on *)
(* ===================================================================== *)

Module Str.

Definition empty (s : string) : bool :=
  match s with
  | EmptyString => true
  | String _ _ => false
  end.

Definition size (s : string) : N := N.of_nat (String.length s).

(** [size_t] arithmetic wraps modulo [2^64]. *)
Definition size_t_sub (a b : N) : N :=
  Z.to_N ((Z.of_N a - Z.of_N b) mod 2 ^ 64).

(** [s.substr(0, count)]: at most [count] characters from the start. *)
Definition substr0 (s : string) (count : N) : string :=
  String.substring 0 (N.to_nat (N.min count (size s))) s.

(** [s.find(needle) != std::string::npos]. *)
Fixpoint contains (needle s : string) : bool :=
  if String.prefix needle s then true
  else match s with
       | EmptyString => false
       | String _ s' => contains needle s'
       end.

(** [StringRef::startswith]. *)
Definition startswith (s pre : string) : bool := String.prefix pre s.

(** The newline character. *)
Definition nl : string := String "010"%char EmptyString.

(** [std::to_string] of an unsigned number. *)
Definition to_string (n : N) : string :=
  DecimalString.NilZero.string_of_uint (N.to_uint n).



End Str.

(* ===================================================================== *)
(** ** Path normalisation ([Slicing::normalizePath],
       [CallGraphPass::normalizePath]; the two bodies are the same) *)
(* ===================================================================== *)

Module Path.

Definition slash : ascii := "/"%char.

(** The components read by [while (std::getline(ss, component, '/'))]:
    the text between slashes; at the end of the stream a read that
    extracts nothing fails, so no empty component follows a final slash
    and the empty string has no component.  [component] accumulates the
    characters read since the last slash. *)
Fixpoint getlines (component ss : string) : list string :=
  match ss with
  | EmptyString => if Str.empty component then [] else [component]
  | String c ss' =>
      if Ascii.eqb c slash then component :: getlines EmptyString ss'
      else getlines (component ++ String c EmptyString) ss'
  end.

(** One turn of the loop body on the vector [components]. *)
Definition pushComponent (components : list string) (component : string)
  : list string :=
  if String.eqb component ".." then
    match components with
    | [] => components
    | _ :: _ => removelast components
    end
  else if negb (String.eqb component ".") && negb (Str.empty component)
  then components ++ [component]
  else components.

Definition frontIsSlash (pathStr : string) : bool :=
  match pathStr with
  | EmptyString => false
  | String c _ => Ascii.eqb c slash
  end.

Definition normalizePath (pathStr : string) : string :=
  let components := fold_left pushComponent (getlines EmptyString pathStr) [] in
  let normalizedPath :=
    fold_left (fun acc comp => acc ++ (comp ++ "/")) components EmptyString in
  let normalizedPath :=
    if frontIsSlash pathStr then "/" ++ normalizedPath else normalizedPath in
  Str.substr0 normalizedPath (Str.size_t_sub (Str.size normalizedPath) 1).

(** What "begins with a slash" and "ends with a slash" mean. *)
Definition beginsWithSlash (s : string) : bool := frontIsSlash s.

Fixpoint endsWithSlash (s : string) : bool :=
  match s with
  | EmptyString => false
  | String c EmptyString => Ascii.eqb c slash
  | String _ s' => endsWithSlash s'
  end.

End Path.

(* ===================================================================== *)
(** ** Argument validation of the driver ([main] in [KAMain.cc]) *)
(* ===================================================================== *)

Module KAMain.

(** The command-line options after [cl::ParseCommandLineOptions]; an
    option that was not given holds its [cl::init] value. *)
Record Options : Type := {
  TargetName : string;              (* --file *)
  SrcRoot : string;                 (* --srcroot *)
  CallGraph : bool;                 (* --callgraph *)
  ProgramSlicing : bool;            (* --slicing *)
  TargetLine : Z;                   (* --line, an int *)
  TargetFunc : string;              (* --func *)
  MultiTargetPairsConfig : string;  (* --multi *)
  OutputPath : string               (* --output *)
}.

(** The "Validate required arguments" block.  [Some (msg, code)]: the
    message written to [errs()] and the value [main] returns at once;
    [None]: control falls through to the loading of the modules. *)
Definition validateArgs (o : Options) : option (string * Z) :=
  if String.eqb (TargetName o) EmptyString && String.eqb (MultiTargetPairsConfig o) EmptyString
  then Some ("Please provide the target file name with --file or -multi."
             ++ Str.nl, -1)
  else if Z.eqb (TargetLine o) 0 && String.eqb (TargetFunc o) EmptyString
          && String.eqb (MultiTargetPairsConfig o) EmptyString
  then Some ("Please provide the target line number or target func name with --line or --func or -multi."
             ++ Str.nl, -1)
  else if String.eqb (SrcRoot o) EmptyString
  then Some ("Please provide the target source directory with --srcroot."
             ++ Str.nl, -1)
  else None.

(** The validation rule in the words of the specification: exactly one
    of a target file and a batch config, exactly one of a target line, a
    function name and a batch config, and a source root. *)
Definition present (s : string) : bool := negb (String.eqb s EmptyString).

Definition exactlyOne (l : list bool) : bool :=
  Nat.eqb (List.length (List.filter (fun b => b) l)) 1.

Definition specValid (o : Options) : bool :=
  exactlyOne [present (TargetName o); present (MultiTargetPairsConfig o)]
  && exactlyOne [negb (Z.eqb (TargetLine o) 0); present (TargetFunc o);
                 present (MultiTargetPairsConfig o)]
  && present (SrcRoot o).

End KAMain.
Import KAMain.

(* ===================================================================== *)
(** ** The intermediate representation *)
(* ===================================================================== *)

Module IR.

(** Pointers to functions, basic blocks and instructions. *)
Abbreviation FuncId := positive (only parsing).
Abbreviation BlockId := positive (only parsing).
Abbreviation InstId := positive (only parsing).

Record DebugLoc : Type := {
  dlLine : N;
  dlFilename : string;
  dlDirectory : string
}.

Record DISubprogram : Type := {
  spFilename : string;
  spDirectory : string;
  spLine : N
}.

(** The called operand of a call-like instruction.  [CalledFunction F]:
    [getCalledFunction()] returns [F]; in the two other cases it returns
    null. *)
Inductive CalledOperand : Type :=
| CalledFunction (F : FuncId)
| CalledInlineAsm
| CalledValue.

Inductive CallKind : Set := CallInstKind | InvokeInstKind | CallBrInstKind.

(** A [CallBase]: its called operand, its result type [getType()], the
    types of its actual arguments ([arg_begin() .. arg_end()]) and the
    types of the operands that follow the arguments in its operand array
    (up to [op_end()]): the operands of operand bundles, the destinations
    of an invoke or callbr, and the called operand, which is the last
    operand. *)
Record CallBase : Type := {
  cbKind : CallKind;
  calledOperand : CalledOperand;
  cbType : Ty;
  cbArgs : list Ty;
  cbOtherOperands : list Ty
}.

(** The types of the operands from [arg_begin()] to [op_end()]. *)
Definition operandTypes (CB : CallBase) : list Ty :=
  (cbArgs CB ++ cbOtherOperands CB)%list.

Record Instruction : Type := {
  iid : InstId;
  icall : option CallBase;          (* dyn_cast<CallBase>(I) *)
  idebugLoc : option DebugLoc
}.

(** A basic block with its instructions and its CFG neighbours in the
    order in which [successors(BB)] and [predecessors(BB)] list them. *)
Record BasicBlock : Type := {
  bid : BlockId;
  insts : list Instruction;
  bsuccessors : list BlockId;
  bpredecessors : list BlockId
}.

Record Function : Type := {
  fid : FuncId;
  fname : string;
  fExternalLinkage : bool;
  fsection : string;                (* empty: hasSection() is false *)
  fIsVarArg : bool;
  fReturnType : Ty;
  fArgs : list Ty;                  (* types of the formal arguments *)
  fHasAddressTaken : bool;
  fSubprogram : option DISubprogram;
  blocks : list BasicBlock          (* empty for a declaration *)
}.

Record Module : Type := {
  moduleIdentifier : string;
  functions : list Function
}.

Definition getCalledFunction (CB : CallBase) : option FuncId :=
  match calledOperand CB with
  | CalledFunction F => Some F
  | _ => None
  end.

Definition isInlineAsm (CB : CallBase) : bool :=
  match calledOperand CB with
  | CalledInlineAsm => true
  | _ => false
  end.

(** [Function::isIntrinsic]: the name is in the reserved [llvm.] space. *)
Definition isIntrinsic (F : Function) : bool := Str.startswith (fname F) "llvm.".

(** The functions whose calls are [DbgInfoIntrinsic]s. *)
Definition isDbgInfoFunction (F : Function) : bool :=
  isIntrinsic F
  && (String.eqb (fname F) "llvm.dbg.declare"
      || String.eqb (fname F) "llvm.dbg.value"
      || String.eqb (fname F) "llvm.dbg.addr"
      || String.eqb (fname F) "llvm.dbg.label").

(** [F->hasSection() && F->getSection().str() == ".init.text"]. *)
Definition inInitText (F : Function) : bool :=
  negb (Str.empty (fsection F)) && String.eqb (fsection F) ".init.text".

(** [inst_begin(F) .. inst_end(F)]. *)
Definition instructions (F : Function) : list Instruction :=
  flat_map insts (blocks F).

(** *** The arena: looking an object up by its pointer *)

Fixpoint findFunction (id : FuncId) (ms : list Module) : option (Module * Function) :=
  match ms with
  | [] => None
  | M :: r =>
      match List.find (fun F => Pos.eqb (fid F) id) (functions M) with
      | Some F => Some (M, F)
      | None => findFunction id r
      end
  end.

Definition findBlockIn (id : BlockId) (F : Function) : option BasicBlock :=
  List.find (fun BB => Pos.eqb (bid BB) id) (blocks F).

Fixpoint findBlockInFunctions (id : BlockId) (fs : list Function)
  : option (Function * BasicBlock) :=
  match fs with
  | [] => None
  | F :: r =>
      match findBlockIn id F with
      | Some BB => Some (F, BB)
      | None => findBlockInFunctions id r
      end
  end.

Definition allFunctions (ms : list Module) : list Function :=
  flat_map functions ms.

Definition allBlocks (ms : list Module) : list BasicBlock :=
  flat_map blocks (allFunctions ms).

Definition allInstructions (ms : list Module) : list Instruction :=
  flat_map instructions (allFunctions ms).

Fixpoint findInstInBlocks (id : InstId) (bs : list BasicBlock)
  : option (BasicBlock * Instruction) :=
  match bs with
  | [] => None
  | BB :: r =>
      match List.find (fun ins => Pos.eqb (iid ins) id) (insts BB) with
      | Some ins => Some (BB, ins)
      | None => findInstInBlocks id r
      end
  end.

Fixpoint findInstInFunctions (id : InstId) (fs : list Function)
  : option (Function * BasicBlock * Instruction) :=
  match fs with
  | [] => None
  | F :: r =>
      match findInstInBlocks id (blocks F) with
      | Some (BB, ins) => Some (F, BB, ins)
      | None => findInstInFunctions id r
      end
  end.

Definition ofOption {A : Type} (o : option A) : outcome A :=
  match o with
  | Some a => Done a
  | None => Undefined
  end.

(** [*F] with [F->getParent()]. *)
Definition derefFunction (ms : list Module) (F : FuncId) : outcome (Module * Function) :=
  ofOption (findFunction F ms).

(** [*BB] with [BB->getParent()]. *)
Definition derefBlock (ms : list Module) (BB : BlockId) : outcome (Function * BasicBlock) :=
  ofOption (findBlockInFunctions BB (allFunctions ms)).

(** [*I] with [I->getParent()] and [I->getParent()->getParent()]. *)
Definition derefInst (ms : list Module) (ins : InstId)
  : outcome (Function * BasicBlock * Instruction) :=
  ofOption (findInstInFunctions ins (allFunctions ms)).

(** *** Well-formed programs: distinct objects have distinct pointers *)

Definition distinctIds (ids : list positive) : bool :=
  bool_decide (NoDup ids).

Definition wfModules (ms : list Module) : bool :=
  distinctIds (map fid (allFunctions ms))
  && distinctIds (map bid (allBlocks ms))
  && distinctIds (map iid (allInstructions ms)).

End IR.
Import IR.

(* ===================================================================== *)
(** ** The global context and the call-graph pass ([CallGraph.cc],
       [IterativeModulePass::run] and [doBasicInitialization] of
       [KAMain.cc]) *)
(* ===================================================================== *)

Module CG.

(** The registry.  [FuncPtrs], [Gobjs] and [ModuleMaps] are written by
    the loader and by [processInitializers] only and are read by nothing
    in the type-based pipeline ([TYPE_BASED] is defined); they are left
    out together with [processInitializers]. *)
Record GlobalContext : Type := {
  Modules : list Module;
  Funcs : gmap string FuncId;
  AddressTakenFuncs : gset FuncId;
  Callees : gmap InstId (gset FuncId);
  Callers : gmap FuncId (gset InstId);
  IndirectCallInsts : list InstId
}.

Definition setFuncs (v : gmap string FuncId) (c : GlobalContext) : GlobalContext :=
  {| Modules := Modules c; Funcs := v;
     AddressTakenFuncs := AddressTakenFuncs c; Callees := Callees c;
     Callers := Callers c; IndirectCallInsts := IndirectCallInsts c |}.

Definition setAddressTakenFuncs (v : gset FuncId) (c : GlobalContext) : GlobalContext :=
  {| Modules := Modules c; Funcs := Funcs c;
     AddressTakenFuncs := v; Callees := Callees c;
     Callers := Callers c; IndirectCallInsts := IndirectCallInsts c |}.

Definition setCallees (v : gmap InstId (gset FuncId)) (c : GlobalContext) : GlobalContext :=
  {| Modules := Modules c; Funcs := Funcs c;
     AddressTakenFuncs := AddressTakenFuncs c; Callees := v;
     Callers := Callers c; IndirectCallInsts := IndirectCallInsts c |}.

Definition setCallers (v : gmap FuncId (gset InstId)) (c : GlobalContext) : GlobalContext :=
  {| Modules := Modules c; Funcs := Funcs c;
     AddressTakenFuncs := AddressTakenFuncs c; Callees := Callees c;
     Callers := v; IndirectCallInsts := IndirectCallInsts c |}.

Definition setIndirectCallInsts (v : list InstId) (c : GlobalContext) : GlobalContext :=
  {| Modules := Modules c; Funcs := Funcs c;
     AddressTakenFuncs := AddressTakenFuncs c; Callees := Callees c;
     Callers := Callers c; IndirectCallInsts := v |}.

(** The context after the modules are loaded and before any pass ran. *)
Definition emptyContext (ms : list Module) : GlobalContext :=
  {| Modules := ms; Funcs := ∅; AddressTakenFuncs := ∅; Callees := ∅;
     Callers := ∅; IndirectCallInsts := [] |}.

(** [Ctx->Callees[CB]] and [Ctx->Callers[F]] read as sets: a missing
    entry reads as the empty set (and [operator[]] creates it). *)
Definition calleesOf (c : GlobalContext) (CB : InstId) : gset FuncId :=
  default ∅ (Callees c !! CB).

Definition callersOf (c : GlobalContext) (F : FuncId) : gset InstId :=
  default ∅ (Callers c !! F).

(** *** Scope names *)

Fixpoint dropUntilLast (c : ascii) (s : string) : string :=
  match s with
  | EmptyString => EmptyString
  | String a s' =>
      if Str.contains (String c EmptyString) s' then dropUntilLast c s'
      else if Ascii.eqb a c then s' else s
  end.

Fixpoint takeUntilLast (c : ascii) (s : string) : string :=
  match s with
  | EmptyString => EmptyString
  | String a s' =>
      if Str.contains (String c EmptyString) s' then String a (takeUntilLast c s')
      else if Ascii.eqb a c then EmptyString else s
  end.

(** [llvm::sys::path::stem]: the last component of the path without its
    last extension. *)
Definition stem (path : string) : string :=
  let fname := dropUntilLast "/" path in
  if String.eqb fname "." || String.eqb fname ".." then fname
  else takeUntilLast "." fname.

(** [getScopeName]. *)
Definition getScopeName (M : Module) (F : Function) : string :=
  if fExternalLinkage F then fname F
  else "_" ++ stem (moduleIdentifier M) ++ "." ++ fname F.

(** [doBasicInitialization], the part about functions: every externally
    linked definition is registered under its name, [__sys_x] under
    [sys_x]. *)
Definition registerFunction (F : Function) (funcs : gmap string FuncId)
  : gmap string FuncId :=
  if fExternalLinkage F
     && match blocks F with [] => false | _ :: _ => true end
  then
    let FName :=
      if Str.startswith (fname F) "__sys_"
      then "sys_" ++ String.substring 6 (String.length (fname F) - 6) (fname F)
      else fname F in
    <[FName := fid F]> funcs
  else funcs.

Definition doBasicInitialization (M : Module) (c : GlobalContext) : GlobalContext :=
  setFuncs (fold_left (fun funcs F => registerFunction F funcs) (functions M) (Funcs c)) c.

(** The context [main] hands to the pass: every loaded module went
    through [doBasicInitialization]. *)
Definition loadModules (ms : list Module) : GlobalContext :=
  fold_left (fun c M => doBasicInitialization M c) ms (emptyContext ms).

(** *** Resolution of callees *)

(** [CallGraphPass::getFuncDef]. *)
Definition getFuncDef (c : GlobalContext) (F : FuncId) : outcome FuncId :=
  let* (M, Fr) := derefFunction (Modules c) F in
  match Funcs c !! getScopeName M Fr with
  | Some def => Done def
  | None => Done F
  end.

(** The loop of [findCalleesByType] over the formal arguments of [F],
    with the operand iterator [AI] advancing in step from [arg_begin()].
    The loop has no bound on [AI]: when the formals outnumber the
    actuals it goes on to the operands that follow the arguments, and it
    reads past the operand array when the formals outnumber the
    operands. *)
Fixpoint matchArguments (formals operands : list Ty) : outcome bool :=
  match formals with
  | [] => Done true
  | FormalTy :: formals' =>
      match operands with
      | [] => Undefined
      | ActualTy :: operands' =>
          if isCompatibleType FormalTy ActualTy
          then matchArguments formals' operands'
          else Done false
      end
  end.

(** The body of the loop of [findCalleesByType] for one candidate. *)
Definition findCalleesByTypeStep (c : GlobalContext) (CB : CallBase)
    (F : FuncId) (FS : gset FuncId) : outcome (gset FuncId) :=
  let* (_, Fr) := derefFunction (Modules c) F in
  let skip :=
    if fIsVarArg Fr then false
    else if negb (Nat.eqb (length (fArgs Fr)) (length (cbArgs CB))) then true
    else if negb (isCompatibleType (fReturnType Fr) (cbType CB)) then true
    else false in
  if skip then Done FS
  else if isIntrinsic Fr then Done FS
  else
    let* Matched := matchArguments (fArgs Fr) (operandTypes CB) in
    if Matched then Done ({[F]} ∪ FS) else Done FS.

(** [CallGraphPass::findCalleesByType]; the result is always [false]. *)
Definition findCalleesByType (c : GlobalContext) (CB : CallBase)
    (FS : gset FuncId) : outcome (gset FuncId * bool) :=
  let* FS' := foldM (findCalleesByTypeStep c CB)
                    (elements (AddressTakenFuncs c)) FS in
  Done (FS', false).

(** [CallGraphPass::findCallees] on the call [CB] at instruction [ins],
    [FS] being [Ctx->Callees[CB]]. *)
Definition findCallees (c : GlobalContext) (ins : InstId) (CB : CallBase)
    (FS : gset FuncId) : outcome (GlobalContext * gset FuncId * bool) :=
  match getCalledFunction CB with
  | Some CF =>
      let* CF' := getFuncDef c CF in
      Done (c, {[CF']} ∪ FS, bool_decide (CF' ∉ FS))
  | None =>
      let c' := setIndirectCallInsts (IndirectCallInsts c ++ [ins]) c in
      let* (FS', r) := findCalleesByType c' CB FS in
      Done (c', FS', r)
  end.

(** [CB->getCalledFunction() && CB->getCalledFunction()->isIntrinsic()]. *)
Definition callsIntrinsic (ms : list Module) (CB : CallBase) : outcome bool :=
  match getCalledFunction CB with
  | Some CF => let* (_, Fr) := derefFunction ms CF in Done (isIntrinsic Fr)
  | None => Done false
  end.

(** The body of the instruction loop of [runOnFunction].  [Changed] is
    assigned in the parts compiled out by [TYPE_BASED] only, so the body
    leaves it alone. *)
Definition runOnInstruction (ins : Instruction) (c : GlobalContext)
  : outcome GlobalContext :=
  match icall ins with
  | None => Done c
  | Some CB =>
      let* intr := callsIntrinsic (Modules c) CB in
      if isInlineAsm CB || intr then Done c
      else
        let FS := calleesOf c (iid ins) in
        let* (c', FS', _) := findCallees c (iid ins) CB FS in
        Done (setCallees (<[iid ins := FS']> (Callees c')) c')
  end.

(** [CallGraphPass::runOnFunction]: the new context and [Changed]. *)
Definition runOnFunction (F : Function) (c : GlobalContext)
  : outcome (GlobalContext * bool) :=
  if inInitText F then Done (c, false)
  else
    let Changed := false in
    let* c' := foldM runOnInstruction (instructions F) c in
    Done (c', Changed).

(** One sweep of [doModulePass]: [Changed |= runOnFunction(&F)] for every
    function of the module. *)
Definition sweep (M : Module) (c : GlobalContext) : outcome (GlobalContext * bool) :=
  foldM (fun F '(c, Changed) =>
           let* (c', r) := runOnFunction F c in Done (c', Changed || r))
        (functions M) (c, false).

(** [CallGraphPass::doModulePass]: [while (Changed)] around the sweep.
    Besides the context and [ret], the number of sweeps that ran is
    returned; the C++ code keeps no such counter, it is there to state
    how often the loop body runs. *)
Fixpoint doModulePassLoop (fuel : nat) (M : Module) (c : GlobalContext)
    (ret : bool) (sweeps : nat) : outcome (GlobalContext * bool * nat) :=
  match fuel with
  | O => OutOfFuel
  | S fuel' =>
      let* (c', Changed) := sweep M c in
      let ret := ret || Changed in
      if Changed then doModulePassLoop fuel' M c' ret (S sweeps)
      else Done (c', ret, S sweeps)
  end.

Definition doModulePass (fuel : nat) (M : Module) (c : GlobalContext)
  : outcome (GlobalContext * bool * nat) :=
  doModulePassLoop fuel M c false 0.

(** [CallGraphPass::doInitialization], the part that collects the
    address-taken functions; the result is always [false]. *)
Definition doInitialization (M : Module) (c : GlobalContext) : GlobalContext * bool :=
  (fold_left
     (fun c F =>
        if inInitText F then c
        else if fHasAddressTaken F
        then setAddressTakenFuncs ({[fid F]} ∪ AddressTakenFuncs c) c
        else c)
     (functions M) c, false).

(** [isa<DbgInfoIntrinsic>(CB)]: a call instruction whose callee is one of
    the debug-info intrinsics. *)
Definition isDbgInfoIntrinsic (ms : list Module) (CB : CallBase) : outcome bool :=
  match cbKind CB, getCalledFunction CB with
  | CallInstKind, Some CF =>
      let* (_, Fr) := derefFunction ms CF in Done (isDbgInfoFunction Fr)
  | _, _ => Done false
  end.

(** [Ctx->Callers[CF].insert(CB)]. *)
Definition insertCaller (CB : InstId) (CF : FuncId) (c : GlobalContext) : GlobalContext :=
  setCallers (<[CF := {[CB]} ∪ callersOf c CF]> (Callers c)) c.

(** The body of the instruction loop of [doFinalization]. *)
Definition finalizeInstruction (ins : Instruction) (c : GlobalContext)
  : outcome GlobalContext :=
  match icall ins with
  | None => Done c
  | Some CB =>
      let* dbg := isDbgInfoIntrinsic (Modules c) CB in
      if dbg then Done c
      else
        let FS := calleesOf c (iid ins) in
        let c := setCallees (<[iid ins := FS]> (Callees c)) c in
        Done (fold_left (fun c CF => insertCaller (iid ins) CF c) (elements FS) c)
  end.

(** [CallGraphPass::doFinalization]; the result is always [false]. *)
Definition doFinalization (M : Module) (c : GlobalContext)
  : outcome (GlobalContext * bool) :=
  let* c' := foldM (fun F c => foldM finalizeInstruction (instructions F) c)
                   (functions M) c in
  Done (c', false).

(** The three loops of [IterativeModulePass::run]. *)
Fixpoint initializeLoop (fuel : nat) (c : GlobalContext) : outcome GlobalContext :=
  match fuel with
  | O => OutOfFuel
  | S fuel' =>
      let '(c', again) :=
        fold_left (fun '(c, again) M =>
                     let '(c', r) := doInitialization M c in (c', again || r))
                  (Modules c) (c, false) in
      if again then initializeLoop fuel' c' else Done c'
  end.

Fixpoint processLoop (fuel : nat) (c : GlobalContext) : outcome GlobalContext :=
  match fuel with
  | O => OutOfFuel
  | S fuel' =>
      let* (c', changed) :=
        foldM (fun M '(c, changed) =>
                 let* (c', ret, _) := doModulePass fuel M c in
                 Done (c', if ret then S changed else changed))
              (Modules c) (c, O) in
      match changed with
      | O => Done c'
      | S _ => processLoop fuel' c'
      end
  end.

Fixpoint finalizeLoop (fuel : nat) (c : GlobalContext) : outcome GlobalContext :=
  match fuel with
  | O => OutOfFuel
  | S fuel' =>
      let* (c', again) :=
        foldM (fun M '(c, again) =>
                 let* (c', r) := doFinalization M c in Done (c', again || r))
              (Modules c) (c, false) in
      if again then finalizeLoop fuel' c' else Done c'
  end.

(** [IterativeModulePass::run] on the modules of the context. *)
Definition run (fuel : nat) (c : GlobalContext) : outcome GlobalContext :=
  let* c1 := initializeLoop fuel c in
  let* c2 := processLoop fuel c1 in
  finalizeLoop fuel c2.

(** The call-graph phase of [main]: load, then run the pass. *)
Definition callGraphPhase (fuel : nat) (ms : list Module) : outcome GlobalContext :=
  run fuel (loadModules ms).

End CG.
Import CG.

(* ===================================================================== *)
(** ** The slicer ([Slicing.h], [Slicing.cc]) *)
(* ===================================================================== *)

Module Sl.

(** The slicer object.  [Ctx_] points to the global context, which the
    slicer is the only one to touch while it runs; it is kept inside the
    state.  The two caches [fullFuncMap_] and [fullCallBaseMap_] are
    written once and never read and are left out. *)
Record Slicing : Type := {
  Ctx_ : GlobalContext;
  srcRoot_ : string;
  fullFunc_ : gset string;
  slicedFuncCnt_ : Z;
  visitedF_ : gset FuncId;
  verboseF_ : gset FuncId;
  visitedBB_ : gset BlockId;
  fVisitedF_ : gset FuncId;
  verboseBB_ : gset BlockId
}.

Definition setCtx (v : GlobalContext) (s : Slicing) : Slicing :=
  {| Ctx_ := v; srcRoot_ := srcRoot_ s; fullFunc_ := fullFunc_ s;
     slicedFuncCnt_ := slicedFuncCnt_ s; visitedF_ := visitedF_ s;
     verboseF_ := verboseF_ s; visitedBB_ := visitedBB_ s;
     fVisitedF_ := fVisitedF_ s; verboseBB_ := verboseBB_ s |}.

Definition setFullFunc (v : gset string) (s : Slicing) : Slicing :=
  {| Ctx_ := Ctx_ s; srcRoot_ := srcRoot_ s; fullFunc_ := v;
     slicedFuncCnt_ := slicedFuncCnt_ s; visitedF_ := visitedF_ s;
     verboseF_ := verboseF_ s; visitedBB_ := visitedBB_ s;
     fVisitedF_ := fVisitedF_ s; verboseBB_ := verboseBB_ s |}.

Definition setSlicedFuncCnt (v : Z) (s : Slicing) : Slicing :=
  {| Ctx_ := Ctx_ s; srcRoot_ := srcRoot_ s; fullFunc_ := fullFunc_ s;
     slicedFuncCnt_ := v; visitedF_ := visitedF_ s;
     verboseF_ := verboseF_ s; visitedBB_ := visitedBB_ s;
     fVisitedF_ := fVisitedF_ s; verboseBB_ := verboseBB_ s |}.

Definition setVisitedF (v : gset FuncId) (s : Slicing) : Slicing :=
  {| Ctx_ := Ctx_ s; srcRoot_ := srcRoot_ s; fullFunc_ := fullFunc_ s;
     slicedFuncCnt_ := slicedFuncCnt_ s; visitedF_ := v;
     verboseF_ := verboseF_ s; visitedBB_ := visitedBB_ s;
     fVisitedF_ := fVisitedF_ s; verboseBB_ := verboseBB_ s |}.

Definition setVerboseF (v : gset FuncId) (s : Slicing) : Slicing :=
  {| Ctx_ := Ctx_ s; srcRoot_ := srcRoot_ s; fullFunc_ := fullFunc_ s;
     slicedFuncCnt_ := slicedFuncCnt_ s; visitedF_ := visitedF_ s;
     verboseF_ := v; visitedBB_ := visitedBB_ s;
     fVisitedF_ := fVisitedF_ s; verboseBB_ := verboseBB_ s |}.

Definition setVisitedBB (v : gset BlockId) (s : Slicing) : Slicing :=
  {| Ctx_ := Ctx_ s; srcRoot_ := srcRoot_ s; fullFunc_ := fullFunc_ s;
     slicedFuncCnt_ := slicedFuncCnt_ s; visitedF_ := visitedF_ s;
     verboseF_ := verboseF_ s; visitedBB_ := v;
     fVisitedF_ := fVisitedF_ s; verboseBB_ := verboseBB_ s |}.

Definition setFVisitedF (v : gset FuncId) (s : Slicing) : Slicing :=
  {| Ctx_ := Ctx_ s; srcRoot_ := srcRoot_ s; fullFunc_ := fullFunc_ s;
     slicedFuncCnt_ := slicedFuncCnt_ s; visitedF_ := visitedF_ s;
     verboseF_ := verboseF_ s; visitedBB_ := visitedBB_ s;
     fVisitedF_ := v; verboseBB_ := verboseBB_ s |}.

Definition setVerboseBB (v : gset BlockId) (s : Slicing) : Slicing :=
  {| Ctx_ := Ctx_ s; srcRoot_ := srcRoot_ s; fullFunc_ := fullFunc_ s;
     slicedFuncCnt_ := slicedFuncCnt_ s; visitedF_ := visitedF_ s;
     verboseF_ := verboseF_ s; visitedBB_ := visitedBB_ s;
     fVisitedF_ := fVisitedF_ s; verboseBB_ := v |}.

(** The constructor [Slicing(Ctx, srcRoot)]. *)
Definition newSlicing (Ctx : GlobalContext) (srcRoot : string) : Slicing :=
  {| Ctx_ := Ctx; srcRoot_ := srcRoot; fullFunc_ := ∅; slicedFuncCnt_ := 1;
     visitedF_ := ∅; verboseF_ := ∅; visitedBB_ := ∅; fVisitedF_ := ∅;
     verboseBB_ := ∅ |}.

(** [Slicing::clear]. *)
Definition clear (s : Slicing) : Slicing :=
  {| Ctx_ := Ctx_ s; srcRoot_ := srcRoot_ s; fullFunc_ := fullFunc_ s;
     slicedFuncCnt_ := 1; visitedF_ := ∅; verboseF_ := ∅; visitedBB_ := ∅;
     fVisitedF_ := ∅; verboseBB_ := ∅ |}.

Definition modules (s : Slicing) : list Module := Modules (Ctx_ s).

(** [Slicing::cacheAllLLVMObjects], the part that fills [fullFunc_]. *)
Definition cacheAllLLVMObjects (s : Slicing) : Slicing :=
  setFullFunc
    (fold_left
       (fun acc F =>
          match fSubprogram F with
          | Some _ => {[fname F ++ Str.nl]} ∪ acc
          | None => acc
          end)
       (allFunctions (modules s)) ∅) s.

(** *** Backward slicing *)

(** The loop of [Slicing::intraCanReach]; the stack has its top at the
    head of the list. *)
Fixpoint intraCanReachLoop (fuel : nat) (ms : list Module) (dst : BlockId)
    (visited : gset BlockId) (toVisit : list BlockId) : outcome bool :=
  match toVisit with
  | [] => Done false
  | current :: toVisit' =>
      match fuel with
      | O => OutOfFuel
      | S fuel' =>
          if bool_decide (current ∈ visited)
          then intraCanReachLoop fuel' ms dst visited toVisit'
          else
            let visited := {[current]} ∪ visited in
            if Pos.eqb current dst then Done true
            else
              let* (_, BBr) := derefBlock ms current in
              intraCanReachLoop fuel' ms dst visited
                (rev (bsuccessors BBr) ++ toVisit')%list
      end
  end.

Definition intraCanReach (fuel : nat) (ms : list Module) (src dst : BlockId)
  : outcome bool :=
  intraCanReachLoop fuel ms dst ∅ [src].

(** [dyn_cast<IntrinsicInst>(CB)]: a call instruction whose callee is an
    intrinsic. *)
Definition isIntrinsicInst (ms : list Module) (CB : CallBase) : outcome bool :=
  match cbKind CB, getCalledFunction CB with
  | CallInstKind, Some CF =>
      let* (_, Fr) := derefFunction ms CF in Done (isIntrinsic Fr)
  | _, _ => Done false
  end.

(** The innermost loop body of [addToVerbose]: the instruction [ins] of
    the block [BB] of the enclosing function, [fBB] being the block of the
    call to [F]. *)
Definition addToVerboseInst (fuel : nat) (fBB : BlockId) (BB : BasicBlock)
    (ins : Instruction) (s : Slicing) : outcome Slicing :=
  match icall ins with
  | None => Done s
  | Some CB_ =>
      let* intrinsics := isIntrinsicInst (modules s) CB_ in
      if intrinsics then Done s
      else
        let* canReach := intraCanReach fuel (modules s) (bid BB) fBB in
        if canReach then
          match getCalledFunction CB_ with
          | Some otherF => Done (setVerboseF ({[otherF]} ∪ verboseF_ s) s)
          | None => Done s
          end
        else Done s
  end.

(** [Slicing::addToVerbose]. *)
Definition addToVerbose (fuel : nat) (F : FuncId) (s : Slicing) : outcome Slicing :=
  if bool_decide (F ∈ verboseF_ s) then Done s
  else
    let s := setVerboseF ({[F]} ∪ verboseF_ s) s in
    let CBS := callersOf (Ctx_ s) F in
    let s := setCtx (setCallers (<[F := CBS]> (Callers (Ctx_ s))) (Ctx_ s)) s in
    foldM (fun CB s =>
             let* (enclosingF, fBB, _) := derefInst (modules s) CB in
             foldM (fun BB s =>
                      foldM (addToVerboseInst fuel (bid fBB) BB) (insts BB) s)
                   (blocks enclosingF) s)
          (elements CBS) s.

(** The inner loop of [backtracking] over the predecessors of the current
    block, with the [Pred == lastPred] break. *)
Fixpoint pushPredecessors (preds : list BlockId) (lastPred : option BlockId)
    (visitedBB : gset BlockId) (toVisit : list BlockId) : list BlockId :=
  match preds with
  | [] => toVisit
  | Pred :: preds' =>
      if bool_decide (lastPred = Some Pred) then toVisit
      else
        pushPredecessors preds' (Some Pred) visitedBB
          (if bool_decide (Pred ∈ visitedBB) then toVisit else Pred :: toVisit)
  end.

(** The [while (!toVisit.empty())] loop of [backtracking]. *)
Fixpoint backtrackingLoop (fuel : nat) (toVisit : list BlockId) (s : Slicing)
  : outcome Slicing :=
  match toVisit with
  | [] => Done s
  | current :: toVisit' =>
      match fuel with
      | O => OutOfFuel
      | S fuel' =>
          let* (_, BBr) := derefBlock (modules s) current in
          if bool_decide (current ∈ visitedBB_ s)
          then backtrackingLoop fuel' toVisit' s
          else
            let s := setVisitedBB ({[current]} ∪ visitedBB_ s) s in
            backtrackingLoop fuel'
              (pushPredecessors (bpredecessors BBr) None (visitedBB_ s) toVisit') s
      end
  end.

(** The entries of [Ctx_->Callers] whose function has the name [name]. *)
Definition matchingCallers (c : GlobalContext) (name : string)
  : outcome (list (gset InstId)) :=
  foldM (fun '(storedFunc, CBS) acc =>
           let* (_, Sr) := derefFunction (Modules c) storedFunc in
           if String.eqb (fname Sr) name then Done (acc ++ [CBS])%list else Done acc)
        (map_to_list (Callers c)) [].

(** The blocks of the call sites of the matching sets that are not yet
    visited, in the order in which they enter the queue [toProcess]. *)
Definition blocksToProcess (s : Slicing) (matchingCBS : list (gset InstId))
  : outcome (list BlockId) :=
  foldM (fun CBS q =>
           foldM (fun CB q =>
                    let* (_, BB, _) := derefInst (modules s) CB in
                    if bool_decide (bid BB ∈ visitedBB_ s) then Done q
                    else Done (q ++ [bid BB])%list)
                 (elements CBS) q)
        matchingCBS [].

(** [Slicing::sliceFunction] and [Slicing::backtracking], which call each
    other. *)
Fixpoint sliceFunction (fuel : nat) (F : FuncId) (s : Slicing) {struct fuel}
  : outcome Slicing :=
  match fuel with
  | O => OutOfFuel
  | S fuel' =>
      if bool_decide (F ∈ visitedF_ s) then Done s
      else
        let s := setVisitedF ({[F]} ∪ visitedF_ s) s in
        let* (_, Fr) := derefFunction (modules s) F in
        let s := setVisitedBB (list_to_set (map bid (blocks Fr)) ∪ visitedBB_ s) s in
        let* s := addToVerbose fuel F s in
        let* matchingCBS := matchingCallers (Ctx_ s) (fname Fr) in
        match matchingCBS with
        | [] => Done s
        | _ :: _ =>
            let* toProcess := blocksToProcess s matchingCBS in
            let* s := foldM (backtracking fuel') toProcess s in
            if existsb (fun CBS => negb (bool_decide (CBS = ∅))) matchingCBS
            then Done (setSlicedFuncCnt (slicedFuncCnt_ s + 1) s)
            else Done s
        end
  end
with backtracking (fuel : nat) (BB : BlockId) (s : Slicing) {struct fuel}
  : outcome Slicing :=
  match fuel with
  | O => OutOfFuel
  | S fuel' =>
      let* s := backtrackingLoop fuel [BB] s in
      let* (Fp, _) := derefBlock (modules s) BB in
      sliceFunction fuel' (fid Fp) s
  end.

(** *** Forward slicing *)

(** The loop body of [forwardSlicingFunction] for one callee of a call
    site: the state and the queue. *)
Definition enqueueCallee (callee : FuncId) (sq : Slicing * list BlockId)
  : outcome (Slicing * list BlockId) :=
  let '(s, q) := sq in
  if bool_decide (callee ∈ fVisitedF_ s) then Done (s, q)
  else
    let s := setFVisitedF ({[callee]} ∪ fVisitedF_ s) s in
    let* (_, Cr) := derefFunction (modules s) callee in
    Done (s, (q ++ map bid (blocks Cr))%list).

Definition enqueueCallees (ins : Instruction) (sq : Slicing * list BlockId)
  : outcome (Slicing * list BlockId) :=
  match icall ins with
  | None => Done sq
  | Some _ =>
      match Callees (Ctx_ (fst sq)) !! iid ins with
      | None => Done sq
      | Some funcSet => foldM enqueueCallee (elements funcSet) sq
      end
  end.

(** The [while (!toVisit.empty())] loop of [forwardSlicingFunction]. *)
Fixpoint forwardLoop (fuel : nat) (toVisit : list BlockId) (visited : gset BlockId)
    (s : Slicing) : outcome Slicing :=
  match toVisit with
  | [] => Done s
  | current :: toVisit' =>
      match fuel with
      | O => OutOfFuel
      | S fuel' =>
          let s := setVerboseBB ({[current]} ∪ verboseBB_ s) s in
          if bool_decide (current ∈ visited)
          then forwardLoop fuel' toVisit' visited s
          else
            let visited := {[current]} ∪ visited in
            let* (_, BBr) := derefBlock (modules s) current in
            let* (s, toVisit'') := foldM enqueueCallees (insts BBr) (s, toVisit') in
            forwardLoop fuel' toVisit'' visited s
      end
  end.

(** [Slicing::forwardSlicingFunction]. *)
Definition forwardSlicingFunction (fuel : nat) (F : FuncId) (s : Slicing)
  : outcome Slicing :=
  let* (_, Fr) := derefFunction (modules s) F in
  forwardLoop fuel (map bid (blocks Fr)) ∅ s.

(** [m->getFunction(funcName)] over the modules, first hit. *)
Fixpoint getFunctionByName (funcName : string) (ms : list Module) : option FuncId :=
  match ms with
  | [] => None
  | M :: r =>
      match List.find (fun F => String.eqb (fname F) funcName) (functions M) with
      | Some F => Some (fid F)
      | None => getFunctionByName funcName r
      end
  end.

(** [Slicing::forwardSlicingFunctionStub]. *)
Definition forwardSlicingFunctionStub (fuel : nat) (funcName : string) (s : Slicing)
  : outcome Slicing :=
  match getFunctionByName funcName (modules s) with
  | None => Done s
  | Some F => forwardSlicingFunction fuel F s
  end.

(** [Slicing::forwardSlicingFunctionWithDepth].  [depth] is an [int]; the
    recursion goes down by one from it, so no overflow is at hand when it
    starts non-negative.  The fuel bounds the depth of the recursion. *)
Fixpoint forwardSlicingFunctionWithDepth (fuel : nat) (c : GlobalContext)
    (F : FuncId) (depth : Z) (visited : gset FuncId) : outcome (gset FuncId) :=
  match fuel with
  | O => OutOfFuel
  | S fuel' =>
      let visited := {[F]} ∪ visited in
      if Z.eqb depth 0 then Done visited
      else
        let* (_, Fr) := derefFunction (Modules c) F in
        foldM (fun ins visited =>
                 match icall ins with
                 | None => Done visited
                 | Some _ =>
                     match Callees c !! iid ins with
                     | None => Done visited
                     | Some funcSet =>
                         foldM (fun callee visited =>
                                  forwardSlicingFunctionWithDepth fuel' c callee
                                    (depth - 1) visited)
                               (elements funcSet) visited
                     end
                 end)
              (instructions Fr) visited
  end.

(** *** Target lookup *)

(** The test of [findTargetByFunctionName] on a function name. *)
Definition nameMatches (name funcName : string) : bool :=
  String.eqb name funcName
  || (Str.contains funcName name && Str.contains "_Z" name).

(** [Slicing::findTargetByFunctionName]: the file name is not looked at;
    the test sits inside the loop over the blocks, so a function without
    a block is never returned. *)
Definition findTargetByFunctionName (s : Slicing) (fileName funcName : string)
  : option FuncId :=
  option_map fid
    (List.find (fun F => match blocks F with
                         | [] => false
                         | _ :: _ => nameMatches (fname F) funcName
                         end)
               (allFunctions (modules s))).

(** *** Output *)

(** The five files [dump] writes, each as the set of its lines. *)
Record SliceFiles : Type := {
  sliceFile : gset string;            (* <target>.slice *)
  sliceVerboseFile : gset string;     (* <target>.slice.verbose *)
  funcFile : gset string;             (* <target>.func *)
  funcVerboseFile : gset string;      (* <target>.func.verbose *)
  funcBlacklistFile : gset string     (* <target>.func.blacklist *)
}.

Definition noFiles : SliceFiles :=
  {| sliceFile := ∅; sliceVerboseFile := ∅; funcFile := ∅;
     funcVerboseFile := ∅; funcBlacklistFile := ∅ |}.

Definition nl : string := Str.nl.

(** The line for the first instruction of the block that has a debug
    location with a non-zero line, if any. *)
Fixpoint blockLine (l : list Instruction) : option string :=
  match l with
  | [] => None
  | ins :: r =>
      match idebugLoc ins with
      | Some loc =>
          if N.eqb (dlLine loc) 0 then blockLine r
          else
            let file := dlFilename loc in
            let path := dlDirectory loc in
            let file := if Str.contains ".." file
                        then Path.normalizePath file else file in
            Some ("block:" ++ path ++ "/" ++ file ++ ":"
                  ++ Str.to_string (dlLine loc) ++ ":100" ++ nl)
      | None => blockLine r
      end
  end.

(** The working sets of [dump]. *)
Record DumpSets : Type := {
  uniqueOutputs : gset string;
  uniqueOutputsVerbose : gset string;
  uniqueOutputsFunc : gset string;
  uniqueOutputsFuncVerbose : gset string
}.

Definition noOutputs : DumpSets :=
  {| uniqueOutputs := ∅; uniqueOutputsVerbose := ∅; uniqueOutputsFunc := ∅;
     uniqueOutputsFuncVerbose := ∅ |}.

Definition addFunc (line : string) (d : DumpSets) : DumpSets :=
  {| uniqueOutputs := uniqueOutputs d;
     uniqueOutputsVerbose := uniqueOutputsVerbose d;
     uniqueOutputsFunc := {[line]} ∪ uniqueOutputsFunc d;
     uniqueOutputsFuncVerbose := uniqueOutputsFuncVerbose d |}.

Definition addFuncVerbose (line : string) (d : DumpSets) : DumpSets :=
  {| uniqueOutputs := uniqueOutputs d;
     uniqueOutputsVerbose := uniqueOutputsVerbose d;
     uniqueOutputsFunc := uniqueOutputsFunc d;
     uniqueOutputsFuncVerbose := {[line]} ∪ uniqueOutputsFuncVerbose d |}.

Definition addBlockLine (line : string) (d : DumpSets) : DumpSets :=
  {| uniqueOutputs := {[line]} ∪ uniqueOutputs d;
     uniqueOutputsVerbose := {[line]} ∪ uniqueOutputsVerbose d;
     uniqueOutputsFunc := uniqueOutputsFunc d;
     uniqueOutputsFuncVerbose := uniqueOutputsFuncVerbose d |}.

(** The name line of the function a pointer designates. *)
Definition nameLine (ms : list Module) (F : FuncId) : outcome string :=
  let* (_, Fr) := derefFunction ms F in Done (fname Fr ++ nl).

(** The loop of [dump] over [visitedBB_] ([printFunc] is [false]). *)
Definition dumpVisitedBlock (ms : list Module) (BB : BlockId) (d : DumpSets)
  : outcome DumpSets :=
  let* (F, BBr) := derefBlock ms BB in
  let d := addFunc (fname F ++ nl) d in
  let d := addFuncVerbose (fname F ++ nl) d in
  match blockLine (insts BBr) with
  | Some line => Done (addBlockLine line d)
  | None => Done d
  end.

(** The loop of [dump] over [verboseBB_]. *)
Definition dumpVerboseBlock (ms : list Module) (BB : BlockId) (d : DumpSets)
  : outcome DumpSets :=
  let* (F, _) := derefBlock ms BB in
  Done (addFuncVerbose (fname F ++ nl) d).

(** The second loop of [dump] over [verboseF_]: the name of the function
    and its expansion of depth [depth] into [visitedFuncsWithDepth]. *)
Definition dumpVerboseFunction (fuel : nat) (s : Slicing) (depth : Z) (F : FuncId)
    (dv : DumpSets * gset FuncId) : outcome (DumpSets * gset FuncId) :=
  let '(d, visitedFuncsWithDepth) := dv in
  let* line := nameLine (modules s) F in
  let* v := forwardSlicingFunctionWithDepth fuel (Ctx_ s) F depth
              visitedFuncsWithDepth in
  Done (addFunc line d, v).

(** The loop of [dump] over [visitedFuncsWithDepth]. *)
Definition dumpDepthFunction (ms : list Module) (F : FuncId) (d : DumpSets)
  : outcome DumpSets :=
  let* line := nameLine ms F in Done (addFunc line d).

(** [Slicing::dump].  [EC] tells whether the last of the five files
    failed to open; the function then returns before it writes. *)
Definition dump (fuel : nat) (EC : bool) (s : Slicing)
  : outcome (Slicing * SliceFiles) :=
  if EC then Done (s, noFiles)
  else
    let verboseF := elements (verboseF_ s) in
    let* s := foldM (forwardSlicingFunction fuel) verboseF s in
    let ms := modules s in
    let depth := 1 in
    let* (d, visitedFuncsWithDepth) :=
      foldM (dumpVerboseFunction fuel s depth) verboseF (noOutputs, ∅) in
    let* d := foldM (dumpDepthFunction ms) (elements visitedFuncsWithDepth) d in
    let* d := foldM (dumpVisitedBlock ms) (elements (visitedBB_ s)) d in
    let* d := foldM (dumpVerboseBlock ms) (elements (verboseBB_ s)) d in
    Done (s, {| sliceFile := uniqueOutputs d;
                sliceVerboseFile := uniqueOutputsVerbose d;
                funcFile := uniqueOutputsFunc d;
                funcVerboseFile := uniqueOutputsFuncVerbose d;
                funcBlacklistFile :=
                  filter (fun line => line ∉ uniqueOutputsFuncVerbose d)
                         (fullFunc_ s) |}).

(** *** The slicing part of [main] *)

(** What [main] does for a target function that was found: backward
    slice, forward slice, and the three fuzzer entry points. *)
Definition sliceTarget (fuel : nat) (targetFunc : FuncId) (s : Slicing)
  : outcome Slicing :=
  let* s := sliceFunction fuel targetFunc s in
  let* s := forwardSlicingFunction fuel targetFunc s in
  let* s := forwardSlicingFunctionStub fuel "LLVMFuzzerInitialize" s in
  let* s := forwardSlicingFunctionStub fuel "LLVMFuzzerTestOneInput" s in
  forwardSlicingFunctionStub fuel "LLVMFuzzerRunDriver" s.

(** The body of the loop over the lines [file_ func_] of the batch
    file. *)
Definition multiTargetStep (fuel : nat) (target : string * string) (s : Slicing)
  : outcome Slicing :=
  let '(file_, func_) := target in
  match findTargetByFunctionName s file_ func_ with
  | None => Done s
  | Some targetFunc => sliceTarget fuel targetFunc s
  end.

(** Multi-target mode of [main]: the loop over the pairs, then one
    [dump] under the name "merged". *)
Definition multiTarget (fuel : nat) (EC : bool) (pairs : list (string * string))
    (s : Slicing) : outcome (Slicing * SliceFiles) :=
  let* s := foldM (multiTargetStep fuel) pairs s in
  dump fuel EC s.

(** Multi-target mode as the specification words it: the state is
    cleared between two consecutive pairs. *)
Fixpoint multiTargetLoopCleared (fuel : nat) (pairs : list (string * string))
    (s : Slicing) : outcome Slicing :=
  match pairs with
  | [] => Done s
  | [target] => multiTargetStep fuel target s
  | target :: pairs' =>
      let* s := multiTargetStep fuel target s in
      multiTargetLoopCleared fuel pairs' (clear s)
  end.

End Sl.
Import Sl.

(* ===================================================================== *)
(** ** Small programs *)
(* ===================================================================== *)

Module Ex.

(** The type of the called operand of a call of type [ty] with the
    arguments [args]: a pointer to a function type. *)
Definition calleeType (ty : Ty) (args : list Ty) : Ty :=
  PointerTy (FunctionTy ty args false) 0.

(** A direct call to the function [CF]: a call instruction without
    operand bundles, whose operands are its arguments and the called
    operand. *)
Definition callTo (CF : FuncId) (ty : Ty) (args : list Ty) : CallBase :=
  {| cbKind := CallInstKind; calledOperand := CalledFunction CF;
     cbType := ty; cbArgs := args; cbOtherOperands := [calleeType ty args] |}.

Definition directCall (id : InstId) (CF : FuncId) (ty : Ty) (args : list Ty)
  : Instruction :=
  {| iid := id; icall := Some (callTo CF ty args); idebugLoc := None |}.

(** A call through a function pointer. *)
Definition callThrough (ty : Ty) (args : list Ty) : CallBase :=
  {| cbKind := CallInstKind; calledOperand := CalledValue;
     cbType := ty; cbArgs := args; cbOtherOperands := [calleeType ty args] |}.

Definition indirectCall (id : InstId) (ty : Ty) (args : list Ty) : Instruction :=
  {| iid := id; icall := Some (callThrough ty args); idebugLoc := None |}.

Definition block (id : BlockId) (l : list Instruction) : BasicBlock :=
  {| bid := id; insts := l; bsuccessors := []; bpredecessors := [] |}.

(** An externally linked function without section or debug info. *)
Definition function (id : FuncId) (name : string) (ret : Ty) (args : list Ty)
    (varArg addressTaken : bool) (bs : list BasicBlock) : Function :=
  {| fid := id; fname := name; fExternalLinkage := true;
     fsection := EmptyString; fIsVarArg := varArg; fReturnType := ret;
     fArgs := args; fHasAddressTaken := addressTaken; fSubprogram := None;
     blocks := bs |}.

Definition inSection (sec : string) (F : Function) : Function :=
  {| fid := fid F; fname := fname F; fExternalLinkage := fExternalLinkage F;
     fsection := sec; fIsVarArg := fIsVarArg F; fReturnType := fReturnType F;
     fArgs := fArgs F; fHasAddressTaken := fHasAddressTaken F;
     fSubprogram := fSubprogram F; blocks := blocks F |}.

Definition module (name : string) (fs : list Function) : Module :=
  {| moduleIdentifier := name; functions := fs |}.

(** [void f() { g(); }] and [void g() {}], the latter in [.init.text]. *)
Definition fCallsG : Function :=
  function 1 "f" voidTy [] false false [block 1 [directCall 1 2 voidTy []]].

Definition gInit : Function :=
  inSection ".init.text" (function 2 "g" voidTy [] false false [block 2 []]).

Definition progDirect : list Module := [module "a.bc" [fCallsG; gInit]].

(** A caller with the indirect call [int r = p();] and two address-taken
    candidates: [float vf(...)], variadic, and [int k(void)]. *)
Definition callerIndirect : Function :=
  function 1 "caller" voidTy [] false false [block 1 [indirectCall 1 i32 []]].





(** A caller with the indirect call [int r = p();] and two address-taken
    variadic candidates with one formal argument more than the call has
    actual ones: [int logf_like(char *, ...)] and
    [int count_like(int, ...)]. *)
Definition logfLike : Function :=
  function 2 "logf_like" i32 [PointerTy i8 0] true true [block 2 []].

Definition countLike : Function :=
  function 3 "count_like" i32 [i32] true true [block 3 []].

Definition progOver : list Module :=
  [module "o.bc" [callerIndirect; logfLike; countLike]].

(** The instruction [ins] at line [line] of the file [file]. *)
Definition atLine (dir file : string) (line : N) (ins : Instruction) : Instruction :=
  {| iid := iid ins; icall := icall ins;
     idebugLoc := Some {| dlLine := line; dlFilename := file; dlDirectory := dir |} |}.

(** [void t() { ext(); }] where [ext] is declared only. *)
Definition tCallsExt : Function :=
  function 1 "t" voidTy [] false false
    [block 1 [atLine "/src" "lib/../d.c" 7 (directCall 1 2 voidTy [])]].

Definition extDecl : Function :=
  function 2 "ext" voidTy [] false false [].

Definition progDecl : list Module := [module "d.bc" [tCallsExt; extDecl]].

(** Two functions that call nothing. *)
Definition progTwo : list Module :=
  [module "two.bc" [function 1 "a" voidTy [] false false [block 1 []];
                    function 2 "b" voidTy [] false false [block 2 []]]].

(** The batch file naming [a] and then [b]. *)
Definition twoTargets : list (string * string) :=
  [("two.c", "a"); ("two.c", "b")].

(** A call graph with a cycle: [f -> g], [g -> f], [g -> h], [h -> k]. *)
Definition progCycle : list Module :=
  [module "c.bc"
     [function 1 "f" voidTy [] false false [block 1 [directCall 1 2 voidTy []]];
      function 2 "g" voidTy [] false false
        [block 2 [directCall 2 1 voidTy []; directCall 3 3 voidTy []]];
      function 3 "h" voidTy [] false false [block 3 [directCall 4 4 voidTy []]];
      function 4 "k" voidTy [] false false [block 4 []]]].

(** Command lines: a target file together with a batch config, and a
    line together with a function name. *)
Definition optsFileAndMulti : Options :=
  {| TargetName := "a.c"; SrcRoot := "/src"; CallGraph := true;
     ProgramSlicing := true; TargetLine := 0; TargetFunc := EmptyString;
     MultiTargetPairsConfig := "targets.txt"; OutputPath := "out" |}.


Definition optsNoRoot : Options :=
  {| TargetName := "a.c"; SrcRoot := EmptyString; CallGraph := true;
     ProgramSlicing := true; TargetLine := 12; TargetFunc := EmptyString;
     MultiTargetPairsConfig := EmptyString; OutputPath := "out" |}.

End Ex.
Import Ex.

(* ===================================================================== *)
(** ** Notions used to state the properties *)
(* ===================================================================== *)

Module Spec.

(** The instructions [runOnFunction] looks at: none for a function in
    [.init.text]. *)
Definition analyzed (F : Function) : list Instruction :=
  if inInitText F then [] else instructions F.

Definition analyzedInstructions (ms : list Module) : list Instruction :=
  flat_map (fun M => flat_map analyzed (functions M)) ms.

(** The context after the initialisation loop. *)
Definition collectAddressTaken (c : GlobalContext) (F : Function) : GlobalContext :=
  if inInitText F then c
  else if fHasAddressTaken F
  then setAddressTakenFuncs ({[fid F]} ∪ AddressTakenFuncs c) c
  else c.

Definition initialized (c : GlobalContext) : GlobalContext :=
  fold_left collectAddressTaken (allFunctions (Modules c)) c.

(** The fields the resolution of callees reads. *)
Definition sameProgram (c1 c2 : GlobalContext) : Prop :=
  Modules c1 = Modules c2 /\ Funcs c1 = Funcs c2
  /\ AddressTakenFuncs c1 = AddressTakenFuncs c2.

(** The callee set [findCallees] computes for the call [CB] from the set
    [FS] that is there already. *)
Definition resolved (c : GlobalContext) (CB : CallBase) (FS : gset FuncId)
  : outcome (gset FuncId) :=
  match getCalledFunction CB with
  | Some CF => let* CF' := getFuncDef c CF in Done ({[CF']} ∪ FS)
  | None => foldM (findCalleesByTypeStep c CB) (elements (AddressTakenFuncs c)) FS
  end.

(** [findCallees] records an indirect call in [IndirectCallInsts]. *)
Definition recordIndirect (c : GlobalContext) (ins : Instruction) (CB : CallBase)
  : GlobalContext :=
  match getCalledFunction CB with
  | Some _ => c
  | None => setIndirectCallInsts (IndirectCallInsts c ++ [iid ins]) c
  end.

(** What [runOnInstruction] leaves in [Callees] under the key of its
    instruction. *)
Definition keyResult (c : GlobalContext) (ins : Instruction)
    (o : option (gset FuncId)) : Prop :=
  match icall ins with
  | None => o = Callees c !! iid ins
  | Some CB =>
      exists intr, callsIntrinsic (Modules c) CB = Done intr
        /\ if isInlineAsm CB || intr then o = Callees c !! iid ins
           else exists FS', resolved c CB (calleesOf c (iid ins)) = Done FS'
                            /\ o = Some FS'
  end.

(** A call-like instruction that [doFinalization] does not filter out. *)
Definition finalizedCall (ms : list Module) (ins : Instruction) : Prop :=
  exists CB, icall ins = Some CB /\ isDbgInfoIntrinsic ms CB = Done false.

(** [F] is a function of the program [ms]. *)
Definition functionOf (ms : list Module) (F : Function) : Prop :=
  exists M, M ∈ ms /\ F ∈ functions M.



(** One call hop: some call-like instruction of the function [F] has [G]
    among its callees. *)
Definition callsTo (c : GlobalContext) (F G : FuncId) : Prop :=
  exists M Fr ins CB funcSet,
    findFunction F (Modules c) = Some (M, Fr)
    /\ ins ∈ instructions Fr /\ icall ins = Some CB
    /\ Callees c !! iid ins = Some funcSet /\ G ∈ funcSet.

(** [G] is reached from [F] by exactly [n] call hops. *)
Inductive reachIn (c : GlobalContext) : nat -> FuncId -> FuncId -> Prop :=
| reach_here (F : FuncId) : reachIn c 0 F F
| reach_hop (n : nat) (F G H : FuncId) :
    callsTo c F G -> reachIn c n G H -> reachIn c (S n) F H.

(** Every pointer held in a callee set designates a function. *)
Definition calleesValid (c : GlobalContext) : bool :=
  bool_decide
    (map_Forall
       (fun _ funcSet =>
          set_Forall (fun G => is_Some (findFunction G (Modules c))) funcSet)
       (Callees c)).

(** The slicer state [s'] holds all that [s] holds: no set lost an
    element, the counter did not go down, and the program and its callee
    sets are the same. *)
Definition extends (s s' : Slicing) : Prop :=
  visitedF_ s ⊆ visitedF_ s' /\ verboseF_ s ⊆ verboseF_ s'
  /\ visitedBB_ s ⊆ visitedBB_ s' /\ fVisitedF_ s ⊆ fVisitedF_ s'
  /\ verboseBB_ s ⊆ verboseBB_ s' /\ slicedFuncCnt_ s <= slicedFuncCnt_ s'
  /\ Modules (Ctx_ s') = Modules (Ctx_ s)
  /\ Callees (Ctx_ s') = Callees (Ctx_ s)
  /\ fullFunc_ s' = fullFunc_ s.

(** The state [Slicing::clear] is meant to leave: the one of a new
    slicer. *)
Definition cleared (s : Slicing) : Prop :=
  visitedF_ s = ∅ /\ verboseF_ s = ∅ /\ visitedBB_ s = ∅
  /\ fVisitedF_ s = ∅ /\ verboseBB_ s = ∅ /\ slicedFuncCnt_ s = 1.

(** Every block of every function that forward slicing has entered is
    in [verboseBB_] or still in the queue [q]. *)
Definition blocksQueued (s : Slicing) (q : list BlockId) : Prop :=
  forall g M Gr b,
    g ∈ fVisitedF_ s -> findFunction g (modules s) = Some (M, Gr) ->
    b ∈ blocks Gr -> bid b ∈ verboseBB_ s \/ bid b ∈ q.

(** The state between two runs of forward slicing: the queue is empty. *)
Definition forwardClosed (s : Slicing) : Prop := blocksQueued s [].

(** The same, as a test. *)
Definition forwardClosedb (s : Slicing) : bool :=
  forallb
    (fun g =>
       match findFunction g (modules s) with
       | Some (_, Gr) =>
           forallb (fun b => bool_decide (bid b ∈ verboseBB_ s)) (blocks Gr)
       | None => true
       end)
    (elements (fVisitedF_ s)).

(** What forward slicing does to the state: it adds to [fVisitedF_] and
    [verboseBB_] and leaves the rest alone. *)
Definition forwardStep (s s' : Slicing) : Prop :=
  Ctx_ s' = Ctx_ s /\ verboseF_ s' = verboseF_ s /\ visitedBB_ s' = visitedBB_ s
  /\ fullFunc_ s' = fullFunc_ s
  /\ fVisitedF_ s ⊆ fVisitedF_ s' /\ verboseBB_ s ⊆ verboseBB_ s'.

(** The same for a state with a queue, when [verboseBB_] is left alone
    as well: the queue keeps its blocks, and no block of an entered
    function gets lost. *)
Definition enqueueStep (sq sq' : Slicing * list BlockId) : Prop :=
  forwardStep (fst sq) (fst sq')
  /\ verboseBB_ (fst sq') = verboseBB_ (fst sq)
  /\ (forall b, b ∈ snd sq -> b ∈ snd sq')
  /\ (blocksQueued (fst sq) (snd sq) -> blocksQueued (fst sq') (snd sq')).

(** The call sites of an instruction with their callees. *)
Definition instCallee (c : GlobalContext) (ins : Instruction) (G : FuncId) : Prop :=
  exists CB funcSet,
    icall ins = Some CB /\ Callees c !! iid ins = Some funcSet /\ G ∈ funcSet.

(** [G] is a callee of a call site in the block [b]. *)
Definition blockCallee (c : GlobalContext) (b : BlockId) (G : FuncId) : Prop :=
  exists F BBr ins,
    findBlockInFunctions b (allFunctions (Modules c)) = Some (F, BBr)
    /\ ins ∈ insts BBr /\ instCallee c ins G.

(** The functions whose names [dump] writes to the function file on
    account of [verboseF_]: its members and their callees. *)
Definition verboseSource (s : Slicing) (G : FuncId) : Prop :=
  G ∈ verboseF_ s \/ exists F, F ∈ verboseF_ s /\ callsTo (Ctx_ s) F G.

(** What the loops of [dump] keep true of its working sets: the two
    slice sets are the same, and a name in the function set that is
    missing from the verbose function set is the name of a member of
    [verboseF_] or of a callee of one. *)
Definition dumpInvariant (s : Slicing) (d : DumpSets) : Prop :=
  uniqueOutputs d = uniqueOutputsVerbose d
  /\ forall line, line ∈ uniqueOutputsFunc d ->
       line ∈ uniqueOutputsFuncVerbose d
       \/ exists G, verboseSource s G /\ nameLine (modules s) G = Done line.

(** One set of [dump] holds what another holds. *)
Definition funcVerboseGrows (d d' : DumpSets) : Prop :=
  uniqueOutputsFuncVerbose d ⊆ uniqueOutputsFuncVerbose d'
  /\ uniqueOutputsFunc d' = uniqueOutputsFunc d
  /\ uniqueOutputs d' = uniqueOutputs d
  /\ uniqueOutputsVerbose d' = uniqueOutputsVerbose d.

(** The name of a function without basic block. *)
Definition bodylessName (ms : list Module) (line : string) : Prop :=
  exists G M Gr,
    findFunction G ms = Some (M, Gr) /\ blocks Gr = []
    /\ line = fname Gr ++ Sl.nl.

(** *** Paths *)

Fixpoint hasSlash (s : string) : bool :=
  match s with
  | EmptyString => false
  | String c s' => Ascii.eqb c Path.slash || hasSlash s'
  end.

(** A component that [normalizePath] keeps: not empty, neither [.] nor
    [..], and without slash. *)
Definition goodComponent (c : string) : Prop :=
  c <> EmptyString /\ c <> "." /\ c <> ".." /\ hasSlash c = false.

(** The vector [components] when the loop of [normalizePath] is over. *)
Definition components (pathStr : string) : list string :=
  fold_left Path.pushComponent (Path.getlines EmptyString pathStr) [].

(** The string the second loop builds: every component followed by a
    slash. *)
Definition joinSlash (cs : list string) : string :=
  fold_left (fun acc comp => acc ++ (comp ++ "/")) cs EmptyString.

(** The length of [joinSlash cs]. *)
Fixpoint weight (cs : list string) : nat :=
  match cs with
  | [] => O
  | c :: r => (String.length c + 1 + weight r)%nat
  end.

(** The lengths [size_t] can hold, with room for one more character. *)
Definition fitsSizeT (s : string) : Prop :=
  Z.of_nat (String.length s) + 1 < 2 ^ 64.

End Spec.
Import Spec.

(* ===================================================================== *)
(** ** Induction over types and a tactic *)
(* ===================================================================== *)

(** Induction over types that reaches the members of a literal struct
    and the parameters of a function type. *)
Section TyInduction.
Variable P : Ty -> Prop.
Hypothesis HPointer : forall ElT a, P ElT -> P (PointerTy ElT a).
Hypothesis HArray : forall ElT n, P ElT -> P (ArrayTy ElT n).
Hypothesis HInteger : forall w, P (IntegerTy w).
Hypothesis HLiteral : forall els, Forall P els -> P (LiteralStructTy els).
Hypothesis HNamed : forall n, P (NamedStructTy n).
Hypothesis HFunction :
  forall ret ps va, P ret -> Forall P ps -> P (FunctionTy ret ps va).
Hypothesis HMisc : forall k, P (MiscTy k).

Fixpoint Ty_nested_ind (T : Ty) : P T :=
  match T with
  | PointerTy ElT a => HPointer ElT a (Ty_nested_ind ElT)
  | ArrayTy ElT n => HArray ElT n (Ty_nested_ind ElT)
  | IntegerTy w => HInteger w
  | LiteralStructTy els =>
      HLiteral els
        ((fix all (l : list Ty) : Forall P l :=
            match l with
            | [] => Forall_nil_2 P
            | e :: r => Forall_cons_2 P e r (Ty_nested_ind e) (all r)
            end) els)
  | NamedStructTy n => HNamed n
  | FunctionTy ret ps va =>
      HFunction ret ps va (Ty_nested_ind ret)
        ((fix all (l : list Ty) : Forall P l :=
            match l with
            | [] => Forall_nil_2 P
            | e :: r => Forall_cons_2 P e r (Ty_nested_ind e) (all r)
            end) ps)
  | MiscTy k => HMisc k
  end.
End TyInduction.

(** A state built from [s] by adding to its sets extends [s]. *)
Ltac extends_step :=
  unfold extends; simpl; repeat split; try reflexivity; try lia; set_solver.


(* ===================================================================== *)
(** ** The output of the call-graph pass ([dumpCallees] and
       [dumpCallers] of [CallGraph.cc]) *)
(* ===================================================================== *)

Module Dump.















End Dump.

(* ===================================================================== *)
(** ** File names ([extractFilenameWithoutExtension] of [Slicing.cc]) *)
(* ===================================================================== *)

Module Filename.

(** Whether the character [c] is one of [chars]. *)
Fixpoint isOneOf (c : ascii) (chars : string) : bool :=
  match chars with
  | EmptyString => false
  | String d chars' => Ascii.eqb c d || isOneOf c chars'
  end.

(** [s.find_last_of(chars)]: the index of the last character of [s] that
    is one of [chars]; [None] stands for [std::string::npos]. *)
Fixpoint find_last_of (chars s : string) : option nat :=
  match s with
  | EmptyString => None
  | String c s' =>
      match find_last_of chars s' with
      | Some i => Some (S i)
      | None => if isOneOf c chars then Some O else None
      end
  end.

(** [s.substr(pos)] for [pos <= s.size()]. *)
Definition substr_from (s : string) (pos : nat) : string :=
  String.substring pos (String.length s - pos) s.

(** The two separators: a slash and a backslash. *)
Definition separators : string :=
  String "/"%char (String "092"%char EmptyString).

Definition extractFilenameWithoutExtension (path : string) : string :=
  let lastSlash := find_last_of separators path in
  let filenameWithExtension :=
    match lastSlash with
    | None => path
    | Some lastSlash => substr_from path (lastSlash + 1)
    end in
  let lastDot := find_last_of "." filenameWithExtension in
  match lastDot with
  | None => filenameWithExtension
  | Some lastDot => String.substring 0 lastDot filenameWithExtension
  end.

(** Some character of [s] is one of [chars]. *)
Fixpoint hasOneOf (chars s : string) : bool :=
  match s with
  | EmptyString => false
  | String c s' => isOneOf c chars || hasOneOf chars s'
  end.

End Filename.

(* ===================================================================== *)
(** ** Merging function sets ([mergeFuncSet] of [CallGraph.cc]) *)
(* ===================================================================== *)

Module FuncPtrs.

(** [Ctx->FuncPtrs]: the functions a symbolic identifier may stand for.
    Only the assignment-based resolution reads and writes it. *)
Abbreviation FuncPtrMap := (gmap string (gset FuncId)) (only parsing).

(** [mergeFuncSet(FuncSet &Dst, const FuncSet &Src)]: the new [Dst] and
    [Changed].  The sets of the model hold pointers to functions only,
    so the assertion of the loop body, that the element is not null,
    cannot fail. *)
Definition mergeFuncSet (Dst Src : gset FuncId) : gset FuncId * bool :=
  fold_left
    (fun '(Dst, Changed) i => ({[i]} ∪ Dst, Changed || bool_decide (i ∉ Dst)))
    (elements Src) (Dst, false).

(** [mergeFuncSet(FuncSet &S, const std::string &Id, bool InsertEmpty)]:
    the registry, the new [S] and the result. *)
Definition mergeFuncSetFromId (FuncPtrs : FuncPtrMap) (S : gset FuncId)
    (Id : string) (InsertEmpty : bool) : FuncPtrMap * gset FuncId * bool :=
  match FuncPtrs !! Id with
  | Some second =>
      let '(S', Changed) := mergeFuncSet S second in (FuncPtrs, S', Changed)
  | None =>
      if InsertEmpty then (<[Id := ∅]> FuncPtrs, S, false)
      else (FuncPtrs, S, false)
  end.

(** [mergeFuncSet(std::string &Id, const FuncSet &S, bool InsertEmpty)]:
    the registry and the result. *)
Definition mergeFuncSetIntoId (FuncPtrs : FuncPtrMap) (Id : string)
    (S : gset FuncId) (InsertEmpty : bool) : FuncPtrMap * bool :=
  match FuncPtrs !! Id with
  | Some second =>
      let '(second', Changed) := mergeFuncSet second S in
      (<[Id := second']> FuncPtrs, Changed)
  | None =>
      if negb (bool_decide (S = ∅)) then
        let '(second', Changed) := mergeFuncSet ∅ S in
        (<[Id := second']> FuncPtrs, Changed)
      else if InsertEmpty then (<[Id := ∅]> FuncPtrs, false)
      else (FuncPtrs, false)
  end.

(** The set an identifier stands for; none when it has no entry. *)
Definition funcsOf (FuncPtrs : FuncPtrMap) (Id : string) : gset FuncId :=
  default ∅ (FuncPtrs !! Id).

End FuncPtrs.

(* ===================================================================== *)
(** ** Target lookup by line ([findTargetByLine], [findFunctionByLine]
       and [findCallInstByLine] of [Slicing.cc]) *)
(* ===================================================================== *)

Module Lookup.

(** [Loc.getLine() == line] with an [unsigned] on the left and an [int]
    on the right: the [int] is converted to [unsigned]. *)
Definition lineIs (l : N) (line : Z) : bool :=
  Z.eqb (Z.of_N l) (line mod 2 ^ 32).

(** Some instruction of the block has a debug location at [line]. *)
Definition blockAtLine (line : Z) (BB : BasicBlock) : bool :=
  existsb (fun ins => match idebugLoc ins with
                      | Some Loc => lineIs (dlLine Loc) line
                      | None => false
                      end)
          (insts BB).

(** The blocks of the modules whose name holds [fileName], in the order
    in which the loops of [findTargetByLine] reach them. *)
Definition blocksOfFile (ms : list Module) (fileName : string) : list BasicBlock :=
  flat_map (fun M => if Str.contains fileName (moduleIdentifier M)
                     then flat_map blocks (functions M) else [])
           ms.

(** [Slicing::findTargetByLine]: the first block with an instruction at
    the line; [None] for [NULL]. *)
Definition findTargetByLine (s : Slicing) (fileName : string) (line : Z)
  : option BlockId :=
  option_map bid (List.find (blockAtLine line) (blocksOfFile (modules s) fileName)).

(** What a lookup that may throw [std::out_of_range] yields. *)
Inductive lookup (A : Type) : Type :=
| Returned (r : option A)
| OutOfRange.
Arguments Returned {A} r.
Arguments OutOfRange {A}.

(** [name.substr(2, name.length() - 7)]: [substr] throws when its
    position lies behind the end of the string; the count is a [size_t]
    and wraps for a name shorter than seven characters, and [substr]
    takes what is there when the count exceeds it. *)
Definition trimModuleName (name : string) : option string :=
  if Nat.ltb (String.length name) 2 then None
  else
    let count := Str.size_t_sub (Str.size name) 7 in
    Some (String.substring 2 (N.to_nat (N.min count (Str.size name - 2))) name).

(** The test of [findFunctionByLine] on a function. *)
Definition functionAtLine (inputFile : string) (line : Z) (F : Function) : bool :=
  match fSubprogram F with
  | Some SP =>
      lineIs (spLine SP) line
      && Str.contains (Path.normalizePath (spFilename SP)) inputFile
  | None => false
  end.

(** [Slicing::findFunctionByLine] over the modules [ms]. *)
Fixpoint findFunctionByLineIn (ms : list Module) (inputFile : string) (line : Z)
  : lookup FuncId :=
  match ms with
  | [] => Returned None
  | M :: ms' =>
      match trimModuleName (moduleIdentifier M) with
      | None => OutOfRange
      | Some t =>
          if Str.contains t inputFile then
            match List.find (functionAtLine inputFile line) (functions M) with
            | Some F => Returned (Some (fid F))
            | None => findFunctionByLineIn ms' inputFile line
            end
          else findFunctionByLineIn ms' inputFile line
      end
  end.

Definition findFunctionByLine (s : Slicing) (fileName : string) (line : Z)
  : lookup FuncId :=
  findFunctionByLineIn (modules s) fileName line.

(** The test of [findCallInstByLine] on an instruction: a [CallInst]
    with a debug location at the line in a file whose normalised name
    occurs in [inputFile]. *)
Definition callInstAtLine (inputFile : string) (line : Z) (ins : Instruction) : bool :=
  match icall ins with
  | Some CB =>
      match cbKind CB, idebugLoc ins with
      | CallInstKind, Some Loc =>
          lineIs (dlLine Loc) line
          && Str.contains (Path.normalizePath (dlFilename Loc)) inputFile
      | _, _ => false
      end
  | None => false
  end.

(** [Slicing::findCallInstByLine] over the modules [ms]. *)
Fixpoint findCallInstByLineIn (ms : list Module) (inputFile : string) (line : Z)
  : lookup InstId :=
  match ms with
  | [] => Returned None
  | M :: ms' =>
      match trimModuleName (moduleIdentifier M) with
      | None => OutOfRange
      | Some t =>
          if Str.contains t inputFile then
            match List.find (callInstAtLine inputFile line)
                            (flat_map instructions (functions M)) with
            | Some ins => Returned (Some (iid ins))
            | None => findCallInstByLineIn ms' inputFile line
            end
          else findCallInstByLineIn ms' inputFile line
      end
  end.

Definition findCallInstByLine (s : Slicing) (fileName : string) (line : Z)
  : lookup InstId :=
  findCallInstByLineIn (modules s) fileName line.

End Lookup.

(* ===================================================================== *)
(** ** The driver ([main] of [KAMain.cc]) *)
(* ===================================================================== *)

Module Driver.




End Driver.

(* ===================================================================== *)
(** ** More notions used to state the properties *)
(* ===================================================================== *)

Module Spec2.

(** The block [BB] lies in a module whose name holds [fileName] and has
    an instruction with a debug location at [line]. *)
Definition blockQualifies (ms : list Module) (fileName : string) (line : Z)
    (BB : BasicBlock) : Prop :=
  exists M F ins Loc,
    M ∈ ms /\ Str.contains fileName (moduleIdentifier M) = true
    /\ F ∈ functions M /\ BB ∈ blocks F /\ ins ∈ insts BB
    /\ idebugLoc ins = Some Loc /\ Z.of_N (dlLine Loc) = line mod 2 ^ 32.

(** The function [F] has a body and a name that is [funcName] or holds
    both [funcName] and the mark [_Z] of a mangled name. *)
Definition functionQualifies (funcName : string) (F : Function) : Prop :=
  blocks F <> []
  /\ (fname F = funcName
      \/ (Str.contains funcName (fname F) = true
          /\ Str.contains "_Z" (fname F) = true)).

(** The function [F] of the module [M] was declared at [line] of a file
    whose normalised name occurs in [inputFile], and so does the trimmed
    name of the module. *)
Definition declaredAt (inputFile : string) (line : Z) (M : Module) (F : Function)
  : Prop :=
  exists t SP,
    Lookup.trimModuleName (moduleIdentifier M) = Some t
    /\ Str.contains t inputFile = true
    /\ F ∈ functions M /\ fSubprogram F = Some SP
    /\ Z.of_N (spLine SP) = line mod 2 ^ 32
    /\ Str.contains (Path.normalizePath (spFilename SP)) inputFile = true.

(** The instruction [ins] of the module [M] is a [CallInst] at [line] of
    a file whose normalised name occurs in [inputFile], and so does the
    trimmed name of the module. *)
Definition callAt (inputFile : string) (line : Z) (M : Module) (ins : Instruction)
  : Prop :=
  exists t F CB Loc,
    Lookup.trimModuleName (moduleIdentifier M) = Some t
    /\ Str.contains t inputFile = true
    /\ F ∈ functions M /\ ins ∈ instructions F
    /\ icall ins = Some CB /\ cbKind CB = CallInstKind
    /\ idebugLoc ins = Some Loc
    /\ Z.of_N (dlLine Loc) = line mod 2 ^ 32
    /\ Str.contains (Path.normalizePath (dlFilename Loc)) inputFile = true.

(** The name of the module is shorter than two characters. *)
Definition shortName (M : Module) : Prop :=
  (String.length (moduleIdentifier M) < 2)%nat.

(** The shape the two lookups by line share: the modules are tried in
    turn, a module with a short name throws, a module whose trimmed name
    does not occur in [inputFile] is passed over, and the first hit of
    [hit] in a module is the result. *)
Fixpoint firstInModules {A : Type} (hit : Module -> option A) (inputFile : string)
    (ms : list Module) : Lookup.lookup A :=
  match ms with
  | [] => Lookup.Returned None
  | M :: ms' =>
      match Lookup.trimModuleName (moduleIdentifier M) with
      | None => Lookup.OutOfRange
      | Some t =>
          if Str.contains t inputFile then
            match hit M with
            | Some a => Lookup.Returned (Some a)
            | None => firstInModules hit inputFile ms'
            end
          else firstInModules hit inputFile ms'
      end
  end.

(** The module [M] is looked into and [hit] finds [a] there. *)
Definition hitIn {A : Type} (hit : Module -> option A) (inputFile : string)
    (M : Module) (a : A) : Prop :=
  exists t, Lookup.trimModuleName (moduleIdentifier M) = Some t
            /\ Str.contains t inputFile = true /\ hit M = Some a.

(** *** The registry of definitions *)

(** The name under which [doBasicInitialization] registers [F]. *)
Definition registeredName (F : Function) : string :=
  if Str.startswith (fname F) "__sys_"
  then "sys_" ++ String.substring 6 (String.length (fname F) - 6) (fname F)
  else fname F.

(** [F] is a definition with external linkage that is registered under
    the name [n]. *)
Definition registeredAs (n : string) (F : Function) : bool :=
  fExternalLinkage F
  && match blocks F with [] => false | _ :: _ => true end
  && String.eqb (registeredName F) n.

(** The last function of the program, in the order of loading, that is
    registered under [n]. *)
Definition lastRegistered (ms : list Module) (n : string) : option FuncId :=
  fid <$> last (List.filter (registeredAs n) (allFunctions ms)).

(** The call sites that get an entry in [Callees]: the call-like
    instructions of the program that are no debug intrinsics. *)
Definition callSite (ms : list Module) (k : InstId) : Prop :=
  exists ins, ins ∈ allInstructions ms /\ iid ins = k /\ finalizedCall ms ins.

(** *** Programs on which the phase is defined *)

(** The called function of every call-like instruction designates a
    function of the program. *)
Definition calleesDesignated (ms : list Module) : bool :=
  forallb
    (fun ins =>
       match icall ins with
       | Some CB =>
           match getCalledFunction CB with
           | Some CF => bool_decide (is_Some (findFunction CF ms))
           | None => true
           end
       | None => true
       end)
    (allInstructions ms).

(** The functions [doInitialization] puts in [AddressTakenFuncs]. *)
Definition candidate (F : Function) : bool :=
  negb (inInitText F) && fHasAddressTaken F.

(** The candidate [F] gets as far as the loop over its formal arguments
    at the call [CB]: it passes the tests before the loop. *)
Definition reachesLoop (F : Function) (CB : CallBase) : bool :=
  (fIsVarArg F
   || (Nat.eqb (length (fArgs F)) (length (cbArgs CB))
       && isCompatibleType (fReturnType F) (cbType CB)))
  && negb (isIntrinsic F).

(** The loop over the formal arguments of [F] stays inside the operand
    array of [CB]: it ends at an incompatible pair, or at the last formal
    argument, before the operands are used up. *)
Definition insideOperands (F : Function) (CB : CallBase) : bool :=
  match matchArguments (fArgs F) (operandTypes CB) with
  | Undefined => false
  | _ => true
  end.

(** No indirect call of a function outside [.init.text] makes the loop
    of [findCalleesByType] read past its operand array for a
    candidate. *)
Definition operandsSuffice (ms : list Module) : bool :=
  forallb
    (fun ins =>
       match icall ins with
       | Some CB =>
           match calledOperand CB with
           | CalledValue =>
               forallb
                 (fun F =>
                    negb (candidate F && reachesLoop F CB) || insideOperands F CB)
                 (allFunctions ms)
           | _ => true
           end
       | None => true
       end)
    (analyzedInstructions ms).

(** The programs on which the C++ code of the phase has a defined
    behaviour: distinct objects have distinct pointers, called functions
    are functions of the program, and no read goes past an operand
    array. *)
Definition phaseDefined (ms : list Module) : bool :=
  wfModules ms && calleesDesignated ms && operandsSuffice ms.

(** *** The driver *)


End Spec2.
Import Spec2.

(* ===================================================================== *)
(** ** The control-flow graph and the call graph *)
(* ===================================================================== *)

Module Graph.

(** An edge of the control-flow graph: [b] is a successor of the block
    the pointer [a] designates. *)
Definition succOf (ms : list Module) (a b : BlockId) : Prop :=
  exists F BB,
    findBlockInFunctions a (allFunctions ms) = Some (F, BB) /\ b ∈ bsuccessors BB.

(** [dst] is reached from [src] along successor edges. *)
Definition cfgReach (ms : list Module) (src dst : BlockId) : Prop :=
  rtc (succOf ms) src dst.

(** The successor edges of the blocks whose pointer is not in [visited]. *)
Fixpoint pending (bs : list BasicBlock) (visited : gset BlockId) : nat :=
  match bs with
  | [] => O
  | BB :: r =>
      ((if bool_decide (bid BB ∈ visited) then O else length (bsuccessors BB))
       + pending r visited)%nat
  end.

(** The number of successor edges of the program. *)
Definition edgeCount (ms : list Module) : nat := pending (allBlocks ms) ∅.

(** Every pointer in a successor list designates a block. *)
Definition successorsValid (ms : list Module) : bool :=
  forallb
    (fun BB =>
       forallb (fun b => bool_decide
                           (is_Some (findBlockInFunctions b (allFunctions ms))))
               (bsuccessors BB))
    (allBlocks ms).

(** Every pointer in a predecessor list designates a block of the same
    function. *)
Definition predecessorsLocal (ms : list Module) : bool :=
  forallb
    (fun F =>
       forallb
         (fun BB =>
            forallb (fun p => existsb (fun B => Pos.eqb (bid B) p) (blocks F))
                    (bpredecessors BB))
         (blocks F))
    (allFunctions ms).

End Graph.

(** A function with a loop: the blocks [1 -> 2], [2 -> 3], [2 -> 1] and
    the block [4] that nothing leads to. *)
Module Ex2.

Definition cfgBlock (id : BlockId) (succs preds : list BlockId) : BasicBlock :=
  {| bid := id; insts := []; bsuccessors := succs; bpredecessors := preds |}.

Definition loopFn : Function :=
  function 1 "loop" voidTy [] false false
    [cfgBlock 1 [2%positive] [2%positive];
     cfgBlock 2 [3%positive; 1%positive] [1%positive];
     cfgBlock 3 [] [2%positive];
     cfgBlock 4 [] []].

Definition progLoop : list Module := [module "loop.bc" [loopFn]].

End Ex2.

(* ===================================================================== *)
(** ** Notions about the slice *)
(* ===================================================================== *)

Module SliceSpec.

(** [b] points to a block of the function [F] points to. *)
Definition blockOf (ms : list Module) (F : FuncId) (b : BlockId) : Prop :=
  exists M Fr BB, findFunction F ms = Some (M, Fr) /\ BB ∈ blocks Fr /\ bid BB = b.

(** The sliced blocks are the blocks of the sliced functions. *)
Definition wholeFunctions (s : Slicing) : Prop :=
  forall b, b ∈ visitedBB_ s <->
            exists F, F ∈ visitedF_ s /\ blockOf (modules s) F b.

(** The state [s'] differs from [s] in the forward and verbose sets and
    in the registry of callers at most. *)
Definition sameSlice (s s' : Slicing) : Prop :=
  visitedF_ s' = visitedF_ s /\ visitedBB_ s' = visitedBB_ s
  /\ modules s' = modules s.

(** *** Forward slicing *)

(** [G] is reached from [F] by one call hop or more. *)
Definition reachedFrom (c : GlobalContext) (F G : FuncId) : Prop :=
  exists n : nat, reachIn c (S n) F G.

(** The callees of every function forward slicing has entered are
    entered too. *)
Definition calleeClosed (s : Slicing) : Prop :=
  forall g G, g ∈ fVisitedF_ s -> callsTo (Ctx_ s) g G -> G ∈ fVisitedF_ s.

(** The callees of the call sites of the block [b] are entered. *)
Definition calleesEntered (s : Slicing) (b : BlockId) : Prop :=
  forall G, blockCallee (Ctx_ s) b G -> G ∈ fVisitedF_ s.

(** Every block of an entered function is in the queue [q], is the
    block [cur] at hand, or has its callees entered. *)
Definition blocksPending (s : Slicing) (q : list BlockId) (cur : option BlockId)
  : Prop :=
  forall g M Gr b,
    g ∈ fVisitedF_ s -> findFunction g (modules s) = Some (M, Gr) ->
    b ∈ blocks Gr ->
    bid b ∈ q \/ cur = Some (bid b) \/ calleesEntered s (bid b).

(** The blocks of the functions whose pointer is not in [entered]. *)
Fixpoint pendingBlocks (fs : list Function) (entered : gset FuncId) : nat :=
  match fs with
  | [] => O
  | F :: r =>
      ((if bool_decide (fid F ∈ entered) then O else length (blocks F))
       + pendingBlocks r entered)%nat
  end.

(** The state and the queue while forward slicing works on a block: the
    context is [c], the queue holds pointers to blocks, and the queue
    and the blocks of the functions not yet entered fit in [K]. *)
Definition fits (c : GlobalContext) (K : nat) (sq : Slicing * list BlockId) : Prop :=
  Ctx_ (fst sq) = c
  /\ (forall x, x ∈ snd sq ->
        is_Some (findBlockInFunctions x (allFunctions (Modules c))))
  /\ (length (snd sq)
      + pendingBlocks (allFunctions (Modules c)) (fVisitedF_ (fst sq)) <= K)%nat.

(** [g] is [F] or reached from it. *)
Definition fromTarget (c : GlobalContext) (F g : FuncId) : Prop :=
  g = F \/ reachedFrom c F g.

(** Forward slicing from [F] over the entered functions [old]: what is
    entered was in [old] or is reached from [F], and the queued blocks
    belong to [F] or to functions reached from it. *)
Definition enteredFrom (c : GlobalContext) (F : FuncId) (old : gset FuncId)
    (sq : Slicing * list BlockId) : Prop :=
  Ctx_ (fst sq) = c
  /\ (forall G, G ∈ fVisitedF_ (fst sq) -> G ∈ old \/ reachedFrom c F G)
  /\ (forall x, x ∈ snd sq ->
        exists g, blockOf (Modules c) g x /\ fromTarget c F g).

(** *** Backward slicing *)

(** [G] holds a call site that [Callers] records for a function of the
    name of [F]: the step [sliceFunction] takes from [F]. *)
Definition callerByName (c : GlobalContext) (F G : FuncId) : Prop :=
  exists M Fr stored Ms Sr CB Gr BB ins,
    findFunction F (Modules c) = Some (M, Fr)
    /\ findFunction stored (Modules c) = Some (Ms, Sr)
    /\ fname Sr = fname Fr
    /\ CB ∈ callersOf c stored
    /\ findInstInFunctions CB (allFunctions (Modules c)) = Some (Gr, BB, ins)
    /\ fid Gr = G.

(** [G] is [F] or is reached from it along such steps. *)
Definition callersFrom (c : GlobalContext) (F G : FuncId) : Prop :=
  rtc (callerByName c) F G.

(** The callers of every function of [V] outside [A] are in [V]. *)
Definition callerClosed (c : GlobalContext) (A V : gset FuncId) : Prop :=
  forall g G, g ∈ V -> g ∉ A -> callerByName c g G -> G ∈ V.

(** Every key of [Callers] designates a function and every call site in
    its sets an instruction. *)
Definition callersValid (c : GlobalContext) : bool :=
  bool_decide
    (map_Forall
       (fun F CBS =>
          is_Some (findFunction F (Modules c))
          /\ set_Forall
               (fun CB => is_Some (findInstInFunctions CB (allFunctions (Modules c))))
               CBS)
       (Callers c)).

(** The called function of every call instruction designates a
    function. *)
Definition calledValid (ms : list Module) : bool :=
  forallb
    (fun ins =>
       match icall ins with
       | Some CB =>
           match cbKind CB, getCalledFunction CB with
           | CallInstKind, Some CF => bool_decide (is_Some (findFunction CF ms))
           | _, _ => true
           end
       | None => true
       end)
    (allInstructions ms).

(** The pointers the backward slice follows designate objects. *)
Definition pointersValid (c : GlobalContext) : bool :=
  Graph.successorsValid (Modules c) && Graph.predecessorsLocal (Modules c)
  && calledValid (Modules c) && callersValid c.

(** The predecessor edges of the blocks whose pointer is not in
    [visited]. *)
Fixpoint pendingPreds (bs : list BasicBlock) (visited : gset BlockId) : nat :=
  match bs with
  | [] => O
  | BB :: r =>
      ((if bool_decide (bid BB ∈ visited) then O else length (bpredecessors BB))
       + pendingPreds r visited)%nat
  end.

(** The number of predecessor edges of the program. *)
Definition predCount (ms : list Module) : nat := pendingPreds (allBlocks ms) ∅.

(** The number of functions whose pointer is not in [visited]. *)
Fixpoint unsliced (fs : list Function) (visited : gset FuncId) : nat :=
  match fs with
  | [] => O
  | F :: r =>
      ((if bool_decide (fid F ∈ visited) then O else 1) + unsliced r visited)%nat
  end.

(** The steps a loop of the backward slice may take, and the steps that
    are enough for the slice of any function. *)
Definition loopFuel (ms : list Module) : nat :=
  (Graph.edgeCount ms + predCount ms + 1)%nat.

Definition sliceFuel (ms : list Module) : nat :=
  (2 * length (allFunctions ms) + loopFuel ms + 2)%nat.

(** The state [s] runs on the program of [c] with the callers of [c]:
    [addToVerbose] may have added keys with no call site to [Callers]. *)
Definition runsOn (c : GlobalContext) (s : Slicing) : Prop :=
  Modules (Ctx_ s) = Modules c
  /\ (forall f, callersOf (Ctx_ s) f = callersOf c f)
  /\ (forall k, is_Some (Callers (Ctx_ s) !! k) ->
                is_Some (findFunction k (Modules c))).

(** [s'] differs from [s] in [verboseF_] at most. *)
Definition verboseOnly (s s' : Slicing) : Prop :=
  Ctx_ s' = Ctx_ s /\ visitedF_ s' = visitedF_ s /\ visitedBB_ s' = visitedBB_ s.

(** The block [b] of the call site [CB], when it is not sliced in [s]. *)
Definition unvisitedSite (c : GlobalContext) (s : Slicing) (CB : InstId) (b : BlockId)
  : Prop :=
  exists Gr BB ins,
    findInstInFunctions CB (allFunctions (Modules c)) = Some (Gr, BB, ins)
    /\ bid BB = b /\ b ∉ visitedBB_ s.

(** What the walk over the callers of [F] keeps while it goes from the
    state with the sliced functions [V0] on: the program, whole
    functions, the callers of the sliced functions outside [A], and
    that what it slices calls [F]. *)
Definition sliceInv (c : GlobalContext) (F : FuncId) (V0 A : gset FuncId)
    (s : Slicing) : Prop :=
  runsOn c s /\ wholeFunctions s
  /\ callerClosed c A (visitedF_ s)
  /\ (forall G, G ∈ visitedF_ s -> G ∈ V0 \/ callersFrom c F G).

(** *** The slice of a target *)

(** [s'] differs from [s] in what the backward slice writes at most:
    the forward sets, the program and its callee sets are the same. *)
Definition backwardOnly (s s' : Slicing) : Prop :=
  fVisitedF_ s' = fVisitedF_ s /\ verboseBB_ s' = verboseBB_ s
  /\ Modules (Ctx_ s') = Modules (Ctx_ s) /\ Callees (Ctx_ s') = Callees (Ctx_ s).

(** The names of the fuzzer entry points [main] slices forward from. *)
Definition entryPoints : list string :=
  ["LLVMFuzzerInitialize"; "LLVMFuzzerTestOneInput"; "LLVMFuzzerRunDriver"].

(** The functions forward slicing starts from for the target [F]: [F]
    and the entry points the program holds. *)
Definition forwardRoot (ms : list Module) (F E : FuncId) : Prop :=
  E = F \/ exists name, name ∈ entryPoints /\ getFunctionByName name ms = Some E.

(** The steps that are enough for the slice of a target. *)
Definition targetFuel (ms : list Module) : nat :=
  Nat.max (sliceFuel ms) (2 * length (allBlocks ms)).

(** *** The verbose functions *)

(** The instruction [ins] of the block [BB] is a call of [G] that is no
    intrinsic call, and [BB] leads to the block [fBB]. *)
Definition callsBefore (ms : list Module) (fBB : BlockId) (BB : BasicBlock)
    (ins : Instruction) (G : FuncId) : Prop :=
  exists CB_,
    icall ins = Some CB_ /\ isIntrinsicInst ms CB_ = Done false
    /\ Graph.cfgReach ms (bid BB) fBB /\ getCalledFunction CB_ = Some G.

(** [G] is called in a function around a call site of [F], from a block
    that leads to the block of the call site. *)
Definition calledBefore (c : GlobalContext) (F G : FuncId) : Prop :=
  exists CB enclosingF fBB i BB ins,
    CB ∈ callersOf c F
    /\ findInstInFunctions CB (allFunctions (Modules c)) = Some (enclosingF, fBB, i)
    /\ BB ∈ blocks enclosingF /\ ins ∈ insts BB
    /\ callsBefore (Modules c) (bid fBB) BB ins G.

(** *** The states [dump] is called on *)

(** [main] calls [dump] in three places, each time on the state a new
    slicer with its caches is in after the slicing of the mode at hand:
    the loop over the pairs of the batch file, the backward slice from
    the block of the target line, or the slice of the target
    function. *)
Definition handedToDump (fuel : nat) (c : GlobalContext) (srcRoot : string)
    (s : Slicing) : Prop :=
  let Sl := cacheAllLLVMObjects (newSlicing c srcRoot) in
  (exists pairs, foldM (multiTargetStep fuel) pairs Sl = Done s)
  \/ (exists targetBB, backtracking fuel targetBB Sl = Done s)
  \/ (exists targetFunc, sliceTarget fuel targetFunc Sl = Done s).

End SliceSpec.
Import SliceSpec.

(* ===================================================================== *)
(** ** Notions about the run of [main] *)
(* ===================================================================== *)

Module MainSpec.


(** The verbose functions and the verbose blocks of the state are
    functions and blocks of the program. *)
Definition verboseValid (ms : list Module) (s : Slicing) : Prop :=
  (forall F, F ∈ verboseF_ s -> is_Some (findFunction F ms))
  /\ (forall b, b ∈ verboseBB_ s ->
        is_Some (findBlockInFunctions b (allFunctions ms))).

(** The state runs on the program [ms] and its verbose sets hold
    functions and blocks of it. *)
Definition onProgram (ms : list Module) (s : Slicing) : Prop :=
  modules s = ms /\ verboseValid ms s.

(** The same with the queue of forward slicing, which holds blocks of
    the program. *)
Definition queueOnProgram (ms : list Module) (sq : Slicing * list BlockId) : Prop :=
  onProgram ms (fst sq)
  /\ forall x, x ∈ snd sq -> is_Some (findBlockInFunctions x (allFunctions ms)).


End MainSpec.
Import MainSpec.

(* ===================================================================== *)
(** * Properties *)
(* ===================================================================== *)

(** ** The outcome monad *)

Lemma obind_Done {A B : Type} (m : outcome A) (k : A -> outcome B) (b : B) :
  obind m k = Done b -> exists a, m = Done a /\ k a = Done b.
Proof. destruct m; simpl; intros H; try discriminate. eauto. Qed.

Lemma foldM_app {A S : Type} (f : A -> S -> outcome S) (l1 l2 : list A) (s : S) :
  foldM f (l1 ++ l2) s = obind (foldM f l1 s) (foldM f l2).
Proof.
  revert s. induction l1 as [|x l1 IH]; intros s; simpl; [reflexivity|].
  destruct (f x s); simpl; auto.
Qed.

(** An invariant kept by every step is kept by the loop. *)
Lemma foldM_invariant {A S : Type} (P : S -> Prop) (f : A -> S -> outcome S) :
  forall (l : list A) (s s' : S),
    (forall x t t', x ∈ l -> P t -> f x t = Done t' -> P t') ->
    P s -> foldM f l s = Done s' -> P s'.
Proof.
  induction l as [|x l IH]; intros s s' Hstep Hs Hrun; simpl in Hrun.
  - congruence.
  - apply obind_Done in Hrun as (t & Hx & Hrest).
    eapply IH; [ | | exact Hrest].
    + intros y t1 t2 Hy. apply Hstep. set_solver.
    + eapply Hstep; [ | exact Hs | exact Hx]. set_solver.
Qed.

(** ** Type compatibility *)


Lemma isCompatibleType_literal (els1 els2 : list Ty) :
  isCompatibleType (LiteralStructTy els1) (LiteralStructTy els2)
  = if negb (Nat.eqb (length els1) (length els2)) then false
    else pairwiseCompatible els1 els2.
Proof.
  (* the loop inside [isCompatibleType] and [pairwiseCompatible] are the
     same fixpoint *)
  simpl. destruct (negb _); reflexivity.
Qed.

Lemma isCompatibleType_function ret1 ps1 va1 ret2 ps2 va2 :
  isCompatibleType (FunctionTy ret1 ps1 va1) (FunctionTy ret2 ps2 va2)
  = if negb (isCompatibleType ret1 ret2) then false
    else if va1 then va2
    else if negb (Nat.eqb (length ps1) (length ps2)) then false
    else pairwiseCompatible ps1 ps2.
Proof.
  simpl. destruct (negb (isCompatibleType ret1 ret2)); [reflexivity|].
  destruct va1; [destruct va2; reflexivity|].
  destruct (negb (Nat.eqb _ _)); reflexivity.
Qed.

Lemma pairwiseCompatible_refl (l : list Ty) :
  Forall (fun T => isCompatibleType T T = true) l -> pairwiseCompatible l l = true.
Proof.
  induction 1 as [|e r He _ IH]; simpl; [reflexivity|].
  rewrite He. simpl. exact IH.
Qed.

Lemma TypeID_eqb_refl (a : TypeID) : TypeID_eqb a a = true.
Proof. destruct a; reflexivity. Qed.

(** Every type is compatible with itself. *)
Lemma isCompatibleType_refl (T : Ty) : isCompatibleType T T = true.
Proof.
  induction T using Ty_nested_ind.
  - simpl. rewrite IHT. destruct (isIntegerTy8 T); reflexivity.
  - simpl. exact IHT.
  - reflexivity.
  - rewrite isCompatibleType_literal, Nat.eqb_refl. simpl.
    apply pairwiseCompatible_refl. assumption.
  - simpl. apply String.eqb_refl.
  - rewrite isCompatibleType_function, IHT. simpl.
    destruct va; [reflexivity|]. rewrite Nat.eqb_refl. simpl.
    apply pairwiseCompatible_refl. assumption.
  - simpl. apply TypeID_eqb_refl.
Qed.

(** The array case compares the element type of [T1] with itself: any two
    array types are compatible. *)
Lemma isCompatibleType_arrays (ElT1 ElT2 : Ty) (n1 n2 : N) :
  isCompatibleType (ArrayTy ElT1 n1) (ArrayTy ElT2 n2) = true.
Proof. simpl. apply isCompatibleType_refl. Qed.

(** C3 (the code departs from the claim): the claim makes two array
    types compatible exactly when their element types are; the array case
    of [isCompatibleType] passes the first element type twice, so
    [[4 x i32]] and [[4 x float]] are compatible although [i32] and
    [float] are not. *)
Theorem isCompatibleType_array_of_incompatible_elements :
  isCompatibleType (ArrayTy i32 4) (ArrayTy floatTy 4) = true
  /\ isCompatibleType i32 floatTy = false.
Proof. split; reflexivity. Qed.

(** ** Argument validation *)

(** C9, counterexample: a command line with both [--file] and [--multi]
    breaks the exclusive-or rule of the claim and still passes the
    validation of [main]. *)
Lemma validateArgs_accepts_file_and_multi :
  specValid optsFileAndMulti = false /\ validateArgs optsFileAndMulti = None.
Proof. split; reflexivity. Qed.

Lemma string_eqb_empty (s : string) : String.eqb s EmptyString = true <-> s = EmptyString.
Proof. apply String.eqb_eq. Qed.

(** C9, amended: the validation passes exactly when at least one of a
    target file and a batch config is present, at least one of a non-zero
    target line, a function name and a batch config is present, and a
    source root is present; in every other case [main] reports an error
    and returns -1.  Options given in excess are accepted. *)
Theorem validateArgs_at_least_one (o : Options) :
  (validateArgs o = None <->
     (TargetName o <> EmptyString \/ MultiTargetPairsConfig o <> EmptyString)
     /\ (TargetLine o <> 0 \/ TargetFunc o <> EmptyString
         \/ MultiTargetPairsConfig o <> EmptyString)
     /\ SrcRoot o <> EmptyString)
  /\ (validateArgs o = None \/ exists msg, validateArgs o = Some (msg, -1)).
Proof.
  unfold validateArgs.
  destruct (String.eqb_spec (TargetName o) EmptyString) as [Hf|Hf];
  destruct (String.eqb_spec (MultiTargetPairsConfig o) EmptyString) as [Hm|Hm];
  destruct (Z.eqb_spec (TargetLine o) 0) as [Hl|Hl];
  destruct (String.eqb_spec (TargetFunc o) EmptyString) as [Hn|Hn];
  destruct (String.eqb_spec (SrcRoot o) EmptyString) as [Hr|Hr];
  simpl; (split; [split; [try discriminate; intros _ | intros (H1 & H2 & H3)] | ]);
  try reflexivity; try (left; reflexivity); try (right; eexists; reflexivity);
  try tauto; intuition congruence.
Qed.

(** ** Path normalisation *)

Example normalizePath_dot_dotdot : Path.normalizePath "/a/./b/../c" = "/a/c".
Proof. reflexivity. Qed.

Example normalizePath_double_slash : Path.normalizePath "a//b" = "a/b".
Proof. reflexivity. Qed.

(** ** Well-formed programs and the arena *)

Lemma wfModules_NoDup (ms : list Module) :
  wfModules ms = true ->
  NoDup (map fid (allFunctions ms)) /\ NoDup (map bid (allBlocks ms))
  /\ NoDup (map iid (allInstructions ms)).
Proof.
  unfold wfModules, distinctIds. rewrite !andb_true_iff, !bool_decide_eq_true.
  tauto.
Qed.

Lemma functionOf_allFunctions (ms : list Module) (F : Function) :
  functionOf ms F <-> F ∈ allFunctions ms.
Proof.
  unfold functionOf, allFunctions. rewrite list_elem_of_In, in_flat_map.
  split; intros (M & HM & HF); exists M.
  - rewrite <- !list_elem_of_In. auto.
  - rewrite !list_elem_of_In. auto.
Qed.

Lemma find_fid_Some (id : FuncId) (l : list Function) (F : Function) :
  List.find (fun F => Pos.eqb (fid F) id) l = Some F -> F ∈ l /\ fid F = id.
Proof.
  intros H. apply find_some in H as [Hin Heq].
  apply Pos.eqb_eq in Heq. rewrite list_elem_of_In. auto.
Qed.

Lemma findFunction_Some (id : FuncId) (ms : list Module) (M : Module) (F : Function) :
  findFunction id ms = Some (M, F) -> M ∈ ms /\ F ∈ functions M /\ fid F = id.
Proof.
  induction ms as [|M0 ms IH]; simpl; [discriminate|].
  destruct (List.find _ (functions M0)) as [F0|] eqn:Hfind.
  - intros [= <- <-]. apply find_fid_Some in Hfind as [Hin Hid].
    split; [left | auto].
  - intros H. apply IH in H as (HM & HF & Hid). split; [right; exact HM | auto].
Qed.

Lemma findFunction_functionOf (id : FuncId) (ms : list Module) (M : Module) (F : Function) :
  findFunction id ms = Some (M, F) -> functionOf ms F /\ fid F = id.
Proof.
  intros H. apply findFunction_Some in H as (HM & HF & Hid).
  split; [exists M; auto | exact Hid].
Qed.

Lemma findFunction_is_Some (ms : list Module) (F : Function) :
  functionOf ms F -> is_Some (findFunction (fid F) ms).
Proof.
  intros (M & HM & HF). induction ms as [|M0 ms IH]; simpl; [inversion HM|].
  destruct (List.find _ (functions M0)) as [F0|] eqn:Hfind; [eauto|].
  apply elem_of_cons in HM as [-> | HM]; [|auto].
  exfalso. apply list_elem_of_In in HF.
  apply (find_none _ _ Hfind) in HF. simpl in HF.
  rewrite Pos.eqb_refl in HF. discriminate.
Qed.

(** Objects with distinct pointers: the pointer tells the object. *)
Lemma NoDup_key_inj {A : Type} (key : A -> positive) (l : list A) (x y : A) :
  NoDup (map key l) -> x ∈ l -> y ∈ l -> key x = key y -> x = y.
Proof.
  induction l as [|a l IH]; intros Hnd Hx Hy Heq; [inversion Hx|].
  simpl in Hnd. apply NoDup_cons in Hnd as [Hfresh Hnd].
  apply elem_of_cons in Hx as [-> | Hx]; apply elem_of_cons in Hy as [-> | Hy];
    auto.
  - exfalso. apply Hfresh. rewrite Heq. apply list_elem_of_fmap_2. exact Hy.
  - exfalso. apply Hfresh. rewrite <- Heq. apply list_elem_of_fmap_2. exact Hx.
Qed.

Lemma NoDup_fid_inj (l : list Function) (F G : Function) :
  NoDup (map fid l) -> F ∈ l -> G ∈ l -> fid F = fid G -> F = G.
Proof. apply NoDup_key_inj. Qed.

Lemma findFunction_unique (ms : list Module) (F : Function) :
  NoDup (map fid (allFunctions ms)) -> functionOf ms F ->
  exists M, findFunction (fid F) ms = Some (M, F).
Proof.
  intros Hnd HF. destruct (findFunction_is_Some ms F HF) as [[M G] Hfind].
  exists M. rewrite Hfind. f_equal. f_equal.
  apply findFunction_functionOf in Hfind as [HG Hid].
  apply (NoDup_fid_inj (allFunctions ms)); auto;
    apply functionOf_allFunctions; assumption.
Qed.

(** A loop returns when each of its steps does and keeps [I]. *)
Lemma foldM_total {A S : Type} (I : S -> Prop) (f : A -> S -> outcome S) (l : list A) :
  (forall x t, x ∈ l -> I t -> exists t', f x t = Done t' /\ I t') ->
  forall s, I s -> exists s', foldM f l s = Done s' /\ I s'.
Proof.
  induction l as [|x l IH]; intros Hstep s Hs; simpl; [eauto|].
  destruct (Hstep x s (list_elem_of_here _ _) Hs) as (t & Hx & Ht).
  rewrite Hx. cbn [obind]. apply IH; [|exact Ht].
  intros y u Hy. apply Hstep. apply list_elem_of_further. exact Hy.
Qed.

(** ** The passes as loops over instructions *)

Lemma foldM_flat_map {A B S : Type} (f : B -> S -> outcome S) (g : A -> list B)
    (l : list A) (s : S) :
  foldM f (flat_map g l) s = foldM (fun x s => foldM f (g x) s) l s.
Proof.
  revert s. induction l as [|x l IH]; intros s; simpl; [reflexivity|].
  rewrite foldM_app. destruct (foldM f (g x) s); simpl; auto.
Qed.

Lemma runOnFunction_analyzed (F : Function) (c : GlobalContext) :
  runOnFunction F c
  = let* c' := foldM runOnInstruction (analyzed F) c in Done (c', false).
Proof.
  unfold runOnFunction, analyzed. destruct (inInitText F); reflexivity.
Qed.

Lemma sweep_analyzed (M : Module) (c : GlobalContext) :
  sweep M c
  = let* c' := foldM runOnInstruction (flat_map analyzed (functions M)) c in
    Done (c', false).
Proof.
  unfold sweep. rewrite foldM_flat_map.
  generalize (functions M) as l. intros l. revert c.
  induction l as [|F l IH]; intros c; simpl; [reflexivity|].
  rewrite runOnFunction_analyzed.
  destruct (foldM runOnInstruction (analyzed F) c) as [c1| |]; simpl; auto.
Qed.

(** With fuel for one turn, [doModulePass] is one sweep. *)
Lemma doModulePass_one_sweep (fuel : nat) (M : Module) (c : GlobalContext) :
  doModulePass (S fuel) M c
  = let* c' := foldM runOnInstruction (flat_map analyzed (functions M)) c in
    Done (c', false, 1%nat).
Proof.
  unfold doModulePass. simpl. rewrite sweep_analyzed.
  destruct (foldM runOnInstruction _ c); reflexivity.
Qed.

Lemma processLoop_analyzed (fuel : nat) (c : GlobalContext) :
  processLoop (S fuel) c
  = foldM runOnInstruction (analyzedInstructions (Modules c)) c.
Proof.
  unfold analyzedInstructions. rewrite foldM_flat_map.
  cbn [processLoop].
  assert (H : forall (l : list Module) (c0 : GlobalContext),
    foldM (fun M '(c, changed) =>
             let* (c', ret, _) := doModulePass (S fuel) M c in
             Done (c', if ret then S changed else changed)) l (c0, O)
    = let* c' := foldM (fun M c =>
                          foldM runOnInstruction (flat_map analyzed (functions M)) c)
                       l c0 in
      Done (c', O)).
  { induction l as [|M l IH]; intros c0; simpl; [reflexivity|].
    rewrite doModulePass_one_sweep.
    destruct (foldM runOnInstruction (flat_map analyzed (functions M)) c0);
      simpl; auto. }
  rewrite H.
  destruct (foldM _ (Modules c) c); reflexivity.
Qed.

Lemma doFinalization_instructions (M : Module) (c : GlobalContext) :
  doFinalization M c
  = let* c' := foldM finalizeInstruction (flat_map instructions (functions M)) c in
    Done (c', false).
Proof. unfold doFinalization. rewrite foldM_flat_map. reflexivity. Qed.

Lemma finalizeLoop_instructions (fuel : nat) (c : GlobalContext) :
  finalizeLoop (S fuel) c
  = foldM finalizeInstruction (allInstructions (Modules c)) c.
Proof.
  unfold allInstructions, allFunctions. cbn [finalizeLoop].
  assert (H : forall (l : list Module) (c0 : GlobalContext),
    foldM (fun M '(c, again) =>
             let* (c', r) := doFinalization M c in Done (c', again || r))
          l (c0, false)
    = let* c' := foldM finalizeInstruction
                       (flat_map instructions (flat_map functions l)) c0 in
      Done (c', false)).
  { induction l as [|M l IH]; intros c0; simpl; [reflexivity|].
    rewrite doFinalization_instructions, flat_map_app, foldM_app.
    destruct (foldM finalizeInstruction (flat_map instructions (functions M)) c0);
      simpl; auto. }
  rewrite H. destruct (foldM _ _ c); reflexivity.
Qed.

Lemma initializeLoop_initialized (fuel : nat) (c : GlobalContext) :
  initializeLoop (S fuel) c = Done (initialized c).
Proof.
  unfold initialized, allFunctions. cbn [initializeLoop].
  assert (H : forall (l : list Module) (c0 : GlobalContext),
    fold_left (fun '(c, again) M =>
                 let '(c', r) := doInitialization M c in (c', again || r))
              l (c0, false)
    = (fold_left collectAddressTaken (flat_map functions l) c0, false)).
  { induction l as [|M l IH]; intros c0; simpl; [reflexivity|].
    rewrite fold_left_app. apply IH. }
  rewrite H. reflexivity.
Qed.

(** C4, amended: in the type-based mode that is compiled, an insertion
    into a callee set never sets the changed flag.  Whatever the sweep
    inserts, [doModulePass] runs the sweep over the functions of the
    module once, does not run it again, and returns [false]. *)
Theorem doModulePass_single_sweep (fuel : nat) (M : Module) (c : GlobalContext) :
  doModulePass (S fuel) M c = let* p := sweep M c in Done (fst p, false, 1%nat).
Proof.
  rewrite doModulePass_one_sweep, sweep_analyzed.
  destruct (foldM runOnInstruction _ c); reflexivity.
Qed.

(** C4, counterexample: on [f] calling [g] directly the first sweep puts
    [g] into the empty callee set of the call, and with fuel for two more
    sweeps [doModulePass] stops after that one sweep and returns
    [false]. *)
Lemma doModulePass_no_second_sweep_after_insertion :
  exists c1,
    doModulePass 3 (module "a.bc" [fCallsG; gInit]) (loadModules progDirect)
    = Done (c1, false, 1%nat)
    /\ calleesOf (loadModules progDirect) 1 = ∅
    /\ calleesOf c1 1 = {[2%positive]}.
Proof.
  eexists. split; [vm_compute; reflexivity|].
  split; vm_compute; reflexivity.
Qed.

(** ** What the instruction loop of [runOnFunction] writes *)

Lemma runOnInstruction_resolved (ins : Instruction) (c : GlobalContext) :
  runOnInstruction ins c
  = match icall ins with
    | None => Done c
    | Some CB =>
        let* intr := callsIntrinsic (Modules c) CB in
        if isInlineAsm CB || intr then Done c
        else
          let* FS' := resolved c CB (calleesOf c (iid ins)) in
          Done (setCallees (<[iid ins := FS']> (Callees c)) (recordIndirect c ins CB))
    end.
Proof.
  unfold runOnInstruction. destruct (icall ins) as [CB|]; [|reflexivity].
  destruct (callsIntrinsic (Modules c) CB) as [intr| |]; simpl; try reflexivity.
  destruct (isInlineAsm CB || intr); [reflexivity|].
  unfold findCallees, resolved, recordIndirect.
  destruct (getCalledFunction CB) as [CF|].
  - destruct (getFuncDef c CF); reflexivity.
  - unfold findCalleesByType. simpl.
    change (findCalleesByTypeStep
              (setIndirectCallInsts (IndirectCallInsts c ++ [iid ins]) c) CB)
      with (findCalleesByTypeStep c CB).
    destruct (foldM (findCalleesByTypeStep c CB) _ _); reflexivity.
Qed.

Lemma sameProgram_refl (c : GlobalContext) : sameProgram c c.
Proof. repeat split. Qed.

Lemma sameProgram_trans (c1 c2 c3 : GlobalContext) :
  sameProgram c1 c2 -> sameProgram c2 c3 -> sameProgram c1 c3.
Proof. unfold sameProgram. intuition congruence. Qed.

Lemma resolved_sameProgram (c1 c2 : GlobalContext) (CB : CallBase) (FS : gset FuncId) :
  sameProgram c1 c2 -> resolved c1 CB FS = resolved c2 CB FS.
Proof.
  intros (Hm & Hf & Ha). unfold resolved, getFuncDef, findCalleesByTypeStep.
  rewrite Hm, Hf, Ha. reflexivity.
Qed.

Lemma runOnInstruction_effect (ins : Instruction) (c c' : GlobalContext) :
  runOnInstruction ins c = Done c' ->
  sameProgram c c' /\ Callers c' = Callers c
  /\ (forall s, s <> iid ins -> Callees c' !! s = Callees c !! s)
  /\ keyResult c ins (Callees c' !! iid ins).
Proof.
  rewrite runOnInstruction_resolved. unfold keyResult.
  destruct (icall ins) as [CB|].
  2:{ intros [= <-]. repeat split. }
  destruct (callsIntrinsic (Modules c) CB) as [intr| |]; simpl; try discriminate.
  destruct (isInlineAsm CB || intr) eqn:Hskip.
  { intros [= <-]. repeat split. exists intr. rewrite Hskip. auto. }
  destruct (resolved c CB (calleesOf c (iid ins))) as [FS'| |] eqn:Hres;
    simpl; try discriminate.
  intros [= <-].
  assert (Hsame : sameProgram c (recordIndirect c ins CB))
    by (unfold recordIndirect; destruct (getCalledFunction CB); repeat split).
  assert (Hcallers : Callers (recordIndirect c ins CB) = Callers c)
    by (unfold recordIndirect; destruct (getCalledFunction CB); reflexivity).
  split; [destruct Hsame as (? & ? & ?); repeat split; assumption|].
  split; [exact Hcallers|]. simpl. split.
  - intros s Hs. rewrite lookup_insert_ne by congruence. reflexivity.
  - exists intr. split; [reflexivity|]. rewrite Hskip.
    exists FS'. rewrite lookup_insert_eq. auto.
Qed.

Lemma keyResult_sameProgram (c1 c2 : GlobalContext) (ins : Instruction)
    (o : option (gset FuncId)) :
  sameProgram c1 c2 -> Callees c1 !! iid ins = Callees c2 !! iid ins ->
  keyResult c1 ins o -> keyResult c2 ins o.
Proof.
  intros Hsame Hkey. unfold keyResult, calleesOf.
  destruct Hsame as (Hm & Hf & Ha).
  destruct (icall ins) as [CB|]; [|congruence].
  intros (intr & Hintr & H). exists intr. rewrite <- Hm. split; [exact Hintr|].
  destruct (isInlineAsm CB || intr); [congruence|].
  destruct H as (FS' & Hres & ->). exists FS'. split; [|reflexivity].
  rewrite <- Hkey.
  rewrite <- (resolved_sameProgram c1 c2) by (repeat split; assumption).
  exact Hres.
Qed.

(** The loop over a list of instructions with distinct pointers: every
    key outside the list is untouched, and the key of an instruction of
    the list holds what that instruction alone writes from the first
    context. *)
Lemma runOnInstructions_effect (L : list Instruction) :
  forall c c' : GlobalContext,
    foldM runOnInstruction L c = Done c' ->
    sameProgram c c' /\ Callers c' = Callers c
    /\ (forall s, s ∉ map iid L -> Callees c' !! s = Callees c !! s)
    /\ (NoDup (map iid L) ->
        forall ins, ins ∈ L -> keyResult c ins (Callees c' !! iid ins)).
Proof.
  induction L as [|x L IH]; intros c c' Hrun; simpl in Hrun.
  - injection Hrun as <-. repeat split. intros _ ins Hin. inversion Hin.
  - apply obind_Done in Hrun as (c1 & Hx & Hrest).
    apply runOnInstruction_effect in Hx as (Hsame1 & Hcallers1 & Hother1 & Hkey1).
    apply IH in Hrest as (Hsame2 & Hcallers2 & Hother2 & Hkeys2).
    split; [eapply sameProgram_trans; eassumption|].
    split; [congruence|]. split.
    + intros s Hs. simpl in Hs. rewrite not_elem_of_cons in Hs. destruct Hs as [Hne Hs].
      rewrite Hother2 by assumption. apply Hother1. assumption.
    + intros Hnd ins Hin. simpl in Hnd. apply NoDup_cons in Hnd as [Hfresh Hnd].
      apply elem_of_cons in Hin as [-> | Hin].
      * rewrite Hother2 by assumption. exact Hkey1.
      * assert (Hne : iid ins <> iid x).
        { intros Heq. apply Hfresh. rewrite <- Heq. apply list_elem_of_fmap_2. exact Hin. }
        apply (keyResult_sameProgram c1 c).
        -- destruct Hsame1 as (? & ? & ?). repeat split; congruence.
        -- apply Hother1. exact Hne.
        -- apply Hkeys2; assumption.
Qed.

(** ** What [doFinalization] writes *)

Lemma insertCallers_effect (s : InstId) (l : list FuncId) :
  forall c : GlobalContext,
    let c' := fold_left (fun c CF => insertCaller s CF c) l c in
    sameProgram c c' /\ Callees c' = Callees c
    /\ (forall f t, t ∈ callersOf c' f <-> t ∈ callersOf c f \/ (t = s /\ f ∈ l)).
Proof.
  induction l as [|CF l IH]; intros c; simpl.
  - repeat split; [tauto | intros [H | [_ H]]; [exact H | inversion H]].
  - destruct (IH (insertCaller s CF c)) as (Hsame & Hcallees & Hcallers).
    split; [exact Hsame|]. split; [exact Hcallees|].
    intros f t. rewrite Hcallers. unfold insertCaller, callersOf. simpl.
    destruct (decide (CF = f)) as [->|Hne].
    + rewrite lookup_insert_eq. simpl. rewrite elem_of_union, elem_of_singleton.
      rewrite elem_of_cons. tauto.
    + rewrite lookup_insert_ne by exact Hne. rewrite elem_of_cons.
      intuition congruence.
Qed.

Lemma calleesOf_touch (c : GlobalContext) (k s : InstId) :
  default ∅ (<[k := calleesOf c k]> (Callees c) !! s) = calleesOf c s.
Proof.
  unfold calleesOf. destruct (decide (k = s)) as [->|Hne].
  - rewrite lookup_insert_eq. reflexivity.
  - rewrite lookup_insert_ne by exact Hne. reflexivity.
Qed.

Lemma finalizeInstruction_effect (ins : Instruction) (c c' : GlobalContext) :
  finalizeInstruction ins c = Done c' ->
  sameProgram c c'
  /\ (forall s, calleesOf c' s = calleesOf c s)
  /\ (forall f t, t ∈ callersOf c' f <->
        t ∈ callersOf c f
        \/ (t = iid ins /\ f ∈ calleesOf c (iid ins)
            /\ finalizedCall (Modules c) ins)).
Proof.
  unfold finalizeInstruction, finalizedCall.
  destruct (icall ins) as [CB|].
  2:{ intros [= <-]. repeat split; [tauto|]. intros [H | (_ & _ & CB & ? & _)];
      [exact H | discriminate]. }
  destruct (isDbgInfoIntrinsic (Modules c) CB) as [dbg| |] eqn:Hdbg;
    simpl; try discriminate.
  destruct dbg; simpl.
  { intros [= <-]. repeat split; [tauto|].
    intros [H | (_ & _ & CB' & [= <-] & ?)]; [exact H | congruence]. }
  intros [= <-].
  pose proof (insertCallers_effect (iid ins) (elements (calleesOf c (iid ins)))
    (setCallees (<[iid ins := calleesOf c (iid ins)]> (Callees c)) c))
    as (Hsame & Hcallees & Hcallers).
  split; [exact Hsame|]. split.
  - intros s. unfold calleesOf at 1. rewrite Hcallees. simpl. apply calleesOf_touch.
  - intros f t. rewrite Hcallers. rewrite elem_of_elements.
    change (callersOf (setCallees _ c) f) with (callersOf c f).
    split; intros [H | H]; auto; right.
    + destruct H. repeat split; eauto.
    + destruct H as (? & ? & _). auto.
Qed.

Lemma finalizeInstructions_effect (L : list Instruction) :
  forall c c' : GlobalContext,
    foldM finalizeInstruction L c = Done c' ->
    sameProgram c c'
    /\ (forall s, calleesOf c' s = calleesOf c s)
    /\ (forall f t, t ∈ callersOf c' f <->
          t ∈ callersOf c f
          \/ (f ∈ calleesOf c t
              /\ exists ins, ins ∈ L /\ iid ins = t /\ finalizedCall (Modules c) ins)).
Proof.
  induction L as [|x L IH]; intros c c' Hrun; simpl in Hrun.
  - injection Hrun as <-. split; [apply sameProgram_refl|]. split; [reflexivity|].
    intros f t. split; [tauto|]. intros [H | (_ & ins & Hin & _)]; [exact H|].
    inversion Hin.
  - apply obind_Done in Hrun as (c1 & Hx & Hrest).
    apply finalizeInstruction_effect in Hx as (Hsame1 & Hcallees1 & Hcallers1).
    apply IH in Hrest as (Hsame2 & Hcallees2 & Hcallers2).
    split; [eapply sameProgram_trans; eassumption|]. split.
    + intros s. rewrite Hcallees2. apply Hcallees1.
    + intros f t. rewrite Hcallers2, Hcallers1, Hcallees1.
      destruct Hsame1 as (Hm & _). rewrite <- Hm.
      split.
      * intros [[H | (-> & Hf & Hfin)] | (Hf & ins & Hin & Hid & Hfin)].
        -- left. exact H.
        -- right. split; [exact Hf|]. exists x. split; [left|]. auto.
        -- right. split; [exact Hf|]. exists ins. split; [right; exact Hin|]. auto.
      * intros [H | (Hf & ins & Hin & Hid & Hfin)]; [left; left; exact H|].
        apply elem_of_cons in Hin as [-> | Hin].
        -- left. right. subst t. auto.
        -- right. split; [exact Hf|]. exists ins. auto.
Qed.

(** ** The call-graph phase as a whole *)

Lemma loadModules_effect (ms : list Module) :
  Modules (loadModules ms) = ms /\ AddressTakenFuncs (loadModules ms) = ∅
  /\ Callees (loadModules ms) = ∅ /\ Callers (loadModules ms) = ∅.
Proof.
  unfold loadModules.
  assert (H : forall (l : list Module) (c : GlobalContext),
    let c' := fold_left (fun c M => doBasicInitialization M c) l c in
    Modules c' = Modules c /\ AddressTakenFuncs c' = AddressTakenFuncs c
    /\ Callees c' = Callees c /\ Callers c' = Callers c).
  { induction l as [|M l IH]; intros c; simpl; [repeat split|].
    destruct (IH (doBasicInitialization M c)) as (H1 & H2 & H3 & H4).
    repeat split; assumption. }
  apply (H ms (emptyContext ms)).
Qed.

Lemma initialized_effect (c : GlobalContext) :
  Modules (initialized c) = Modules c /\ Funcs (initialized c) = Funcs c
  /\ Callees (initialized c) = Callees c /\ Callers (initialized c) = Callers c
  /\ (forall f, f ∈ AddressTakenFuncs (initialized c) <->
        f ∈ AddressTakenFuncs c
        \/ exists F, F ∈ allFunctions (Modules c) /\ fid F = f
                     /\ inInitText F = false /\ fHasAddressTaken F = true).
Proof.
  unfold initialized. generalize (allFunctions (Modules c)) as l. intros l.
  revert c. induction l as [|F l IH]; intros c; simpl.
  - repeat split; [tauto|]. intros [H | (F & Hin & _)]; [exact H | inversion Hin].
  - destruct (IH (collectAddressTaken c F)) as (H1 & H2 & H3 & H4 & H5).
    assert (Hstep : Modules (collectAddressTaken c F) = Modules c
                    /\ Funcs (collectAddressTaken c F) = Funcs c
                    /\ Callees (collectAddressTaken c F) = Callees c
                    /\ Callers (collectAddressTaken c F) = Callers c
                    /\ (forall f, f ∈ AddressTakenFuncs (collectAddressTaken c F) <->
                          f ∈ AddressTakenFuncs c
                          \/ (fid F = f /\ inInitText F = false
                              /\ fHasAddressTaken F = true))).
    { unfold collectAddressTaken.
      destruct (inInitText F).
      { do 4 (split; [reflexivity|]). intros f. split; [tauto|].
        intros [H | (_ & H & _)]; [exact H | discriminate]. }
      destruct (fHasAddressTaken F); simpl.
      - do 4 (split; [reflexivity|]). intros f.
        rewrite elem_of_union, elem_of_singleton. split.
        + intros [-> | H]; [right; auto | left; exact H].
        + intros [H | (H & _)]; [right; exact H | left; symmetry; exact H].
      - do 4 (split; [reflexivity|]). intros f. split; [tauto|].
        intros [H | (_ & _ & H)]; [exact H | discriminate]. }
    destruct Hstep as (S1 & S2 & S3 & S4 & S5).
    repeat split; try congruence.
    + rewrite H5, S5. intros [[H | (Hid & Hi & Ha)] | (G & Hin & Hrest)].
      * left. exact H.
      * right. exists F. split; [left|]. auto.
      * right. exists G. split; [right; exact Hin | exact Hrest].
    + rewrite H5, S5. intros [H | (G & Hin & Hid & Hi & Ha)]; [left; left; exact H|].
      apply elem_of_cons in Hin as [-> | Hin].
      * left. right. auto.
      * right. exists G. auto.
Qed.

(** The three loops of [run] need fuel for one turn each, and then are
    the initialisation, the loop over the analysed instructions and the
    loop over all instructions. *)
Lemma run_phases (fuel : nat) (c c' : GlobalContext) :
  run fuel c = Done c' ->
  exists c2,
    foldM runOnInstruction (analyzedInstructions (Modules c)) (initialized c) = Done c2
    /\ foldM finalizeInstruction (allInstructions (Modules c)) c2 = Done c'
    /\ sameProgram (initialized c) c2.
Proof.
  destruct fuel as [|fuel]; [discriminate|].
  unfold run. rewrite initializeLoop_initialized. cbn [obind].
  rewrite processLoop_analyzed.
  destruct (initialized_effect c) as (Hm & _).
  rewrite Hm.
  destruct (foldM runOnInstruction _ (initialized c)) as [c2| |] eqn:Hp;
    cbn [obind]; try discriminate.
  rewrite finalizeLoop_instructions.
  pose proof (runOnInstructions_effect _ _ _ Hp) as (Hsame & _).
  destruct Hsame as (Hm2 & Hf2 & Ha2).
  rewrite <- Hm2, Hm. intros Hfin. exists c2. repeat split; assumption.
Qed.

(** None of the steps of the phase loops by itself. *)
Lemma obind_fuel {A B : Type} (m : outcome A) (k : A -> outcome B) :
  m <> OutOfFuel -> (forall a, k a <> OutOfFuel) -> obind m k <> OutOfFuel.
Proof. destruct m; simpl; auto. Qed.

Lemma foldM_fuel {A S : Type} (f : A -> S -> outcome S) (l : list A) :
  (forall x t, f x t <> OutOfFuel) -> forall s, foldM f l s <> OutOfFuel.
Proof.
  intros Hf. induction l as [|x l IH]; intros s; simpl; [discriminate|].
  apply obind_fuel; auto.
Qed.

Lemma derefFunction_fuel (ms : list Module) (F : FuncId) :
  derefFunction ms F <> OutOfFuel.
Proof. unfold derefFunction, ofOption. destruct (findFunction F ms); discriminate. Qed.

Lemma matchArguments_fuel (formals actuals : list Ty) :
  matchArguments formals actuals <> OutOfFuel.
Proof.
  revert actuals. induction formals as [|a l IH]; intros [|b l2]; simpl;
    try discriminate.
  destruct (isCompatibleType a b); [apply IH | discriminate].
Qed.

Lemma resolved_fuel (c : GlobalContext) (CB : CallBase) (FS : gset FuncId) :
  resolved c CB FS <> OutOfFuel.
Proof.
  unfold resolved. destruct (getCalledFunction CB) as [CF|].
  - apply obind_fuel; [|discriminate]. unfold getFuncDef.
    apply obind_fuel; [apply derefFunction_fuel|]. intros [M Fr].
    destruct (Funcs c !! _); discriminate.
  - apply foldM_fuel. intros F FS0. unfold findCalleesByTypeStep.
    apply obind_fuel; [apply derefFunction_fuel|]. intros [M Fr].
    destruct (if fIsVarArg Fr then _ else _); [discriminate|].
    destruct (isIntrinsic Fr); [discriminate|].
    apply obind_fuel; [apply matchArguments_fuel|]. intros [|]; discriminate.
Qed.

Lemma runOnInstruction_fuel (ins : Instruction) (c : GlobalContext) :
  runOnInstruction ins c <> OutOfFuel.
Proof.
  rewrite runOnInstruction_resolved. destruct (icall ins) as [CB|]; [|discriminate].
  apply obind_fuel.
  - unfold callsIntrinsic. destruct (getCalledFunction CB); [|discriminate].
    apply obind_fuel; [apply derefFunction_fuel|]. intros [M Fr]. discriminate.
  - intros intr. destruct (isInlineAsm CB || intr); [discriminate|].
    apply obind_fuel; [apply resolved_fuel | discriminate].
Qed.

Lemma finalizeInstruction_fuel (ins : Instruction) (c : GlobalContext) :
  finalizeInstruction ins c <> OutOfFuel.
Proof.
  unfold finalizeInstruction. destruct (icall ins) as [CB|]; [|discriminate].
  apply obind_fuel.
  - unfold isDbgInfoIntrinsic.
    destruct (cbKind CB), (getCalledFunction CB); try discriminate.
    apply obind_fuel; [apply derefFunction_fuel|]. intros [M Fr]. discriminate.
  - intros [|]; discriminate.
Qed.

(** With fuel for one turn of each loop the phase does not run out of
    fuel. *)
Lemma run_fuel (fuel : nat) (c : GlobalContext) : run (S fuel) c <> OutOfFuel.
Proof.
  unfold run. rewrite initializeLoop_initialized. cbn [obind].
  apply obind_fuel.
  - rewrite processLoop_analyzed. apply foldM_fuel, runOnInstruction_fuel.
  - intros c2. rewrite finalizeLoop_instructions.
    apply foldM_fuel, finalizeInstruction_fuel.
Qed.

Lemma analyzedInstructions_subset (ms : list Module) (ins : Instruction) :
  ins ∈ analyzedInstructions ms -> ins ∈ allInstructions ms.
Proof.
  unfold analyzedInstructions, allInstructions, allFunctions, analyzed.
  rewrite !list_elem_of_In, !in_flat_map.
  intros (M & HM & Hin). apply in_flat_map in Hin as (F & HF & Hin).
  exists F. split; [apply in_flat_map; eauto|].
  destruct (inInitText F); [inversion Hin | exact Hin].
Qed.

Lemma callsIntrinsic_false_not_dbg (ms : list Module) (CB : CallBase) :
  callsIntrinsic ms CB = Done false -> isDbgInfoIntrinsic ms CB = Done false.
Proof.
  unfold callsIntrinsic, isDbgInfoIntrinsic, isDbgInfoFunction.
  destruct (getCalledFunction CB) as [CF|]; [|destruct (cbKind CB); reflexivity].
  destruct (derefFunction ms CF) as [[M Fr]| |]; simpl; try discriminate.
  intros [= ->]. destruct (cbKind CB); reflexivity.
Qed.

(** Every call site with a callee after the instruction loop is a call
    that [doFinalization] does not filter out. *)
Lemma runOnInstructions_sites (L : list Instruction) (c c' : GlobalContext) :
  foldM runOnInstruction L c = Done c' ->
  forall s f, f ∈ calleesOf c' s ->
    f ∈ calleesOf c s
    \/ exists ins, ins ∈ L /\ iid ins = s /\ finalizedCall (Modules c) ins.
Proof.
  intros Hrun.
  apply (foldM_invariant
           (fun c' => sameProgram c c' /\
              forall s f, f ∈ calleesOf c' s ->
                f ∈ calleesOf c s
                \/ exists ins, ins ∈ L /\ iid ins = s /\ finalizedCall (Modules c) ins)
           runOnInstruction L c c'); [ | | exact Hrun].
  - intros x t t' Hx (Hsame & Hinv) Hstep.
    apply runOnInstruction_effect in Hstep as (Hsame' & _ & Hother & Hkey).
    split; [eapply sameProgram_trans; eassumption|].
    intros s f Hf. destruct (decide (s = iid x)) as [->|Hne].
    + unfold keyResult in Hkey. unfold calleesOf in Hf.
      destruct (icall x) as [CB|] eqn:Hcall.
      * destruct Hkey as (intr & Hintr & Hkey).
        destruct (isInlineAsm CB || intr) eqn:Hskip.
        -- apply Hinv. unfold calleesOf. rewrite <- Hkey. exact Hf.
        -- right. exists x. split; [exact Hx|]. split; [reflexivity|].
           exists CB. split; [exact Hcall|].
           apply callsIntrinsic_false_not_dbg.
           destruct Hsame as (-> & _). rewrite Hintr.
           apply orb_false_iff in Hskip as [_ ->]. reflexivity.
      * apply Hinv. unfold calleesOf. rewrite <- Hkey. exact Hf.
    + apply Hinv. unfold calleesOf in *. rewrite <- Hother by exact Hne. exact Hf.
  - split; [apply sameProgram_refl | auto].
Qed.

(** The phase in two steps: the instruction loop from the initialised
    context, and the finalisation, which leaves the callee sets as they
    are and fills the caller sets from them. *)
Lemma callGraphPhase_steps (fuel : nat) (ms : list Module) (c' : GlobalContext) :
  callGraphPhase fuel ms = Done c' ->
  exists c2,
    foldM runOnInstruction (analyzedInstructions ms) (initialized (loadModules ms))
    = Done c2
    /\ sameProgram (initialized (loadModules ms)) c2 /\ sameProgram c2 c'
    /\ (forall s, calleesOf c' s = calleesOf c2 s)
    /\ (forall f t, t ∈ callersOf c' f <->
          f ∈ calleesOf c2 t
          /\ exists ins, ins ∈ allInstructions ms /\ iid ins = t
                         /\ finalizedCall ms ins).
Proof.
  unfold callGraphPhase. intros Hrun.
  apply run_phases in Hrun as (c2 & Hproc & Hfin & Hsame).
  destruct (loadModules_effect ms) as (Hms & _ & Hcallees0 & Hcallers0).
  destruct (initialized_effect (loadModules ms)) as (Hm1 & _ & Hcallees1 & Hcallers1 & _).
  rewrite Hms in *.
  pose proof (runOnInstructions_effect _ _ _ Hproc) as (_ & Hcallers2 & _).
  apply finalizeInstructions_effect in Hfin as (Hsame' & Hcallees' & Hcallers').
  exists c2. do 4 (split; [assumption|]).
  intros f t. rewrite Hcallers'.
  assert (Hnone : callersOf c2 f = ∅).
  { unfold callersOf. rewrite Hcallers2, Hcallers1, Hcallers0, lookup_empty. reflexivity. }
  rewrite Hnone. destruct Hsame as (Hm2 & _). rewrite <- Hm2, Hm1.
  split; [intros [H | H]; [set_solver | exact H] | auto].
Qed.

(** ** The phase returns *)

(** [run] with fuel for one turn of its loops. *)
Lemma run_once (n : nat) (c : GlobalContext) :
  run (S n) c
  = let* c2 := foldM runOnInstruction (analyzedInstructions (Modules c))
                     (initialized c) in
    foldM finalizeInstruction (allInstructions (Modules c)) c2.
Proof.
  unfold run. rewrite initializeLoop_initialized. cbn [obind].
  rewrite processLoop_analyzed.
  destruct (initialized_effect c) as (Hm & _). rewrite Hm.
  destruct (foldM runOnInstruction _ (initialized c)) as [c2| |] eqn:Hp;
    cbn [obind]; try reflexivity.
  rewrite finalizeLoop_instructions.
  pose proof (runOnInstructions_effect _ _ _ Hp) as ((Hm2 & _) & _).
  rewrite <- Hm2, Hm. reflexivity.
Qed.

Lemma phaseDefined_elim (ms : list Module) :
  phaseDefined ms = true ->
  wfModules ms = true /\ calleesDesignated ms = true /\ operandsSuffice ms = true.
Proof. unfold phaseDefined. rewrite !andb_true_iff. tauto. Qed.

Lemma calleesDesignated_elim (ms : list Module) (ins : Instruction) (CB : CallBase)
    (CF : FuncId) :
  calleesDesignated ms = true -> ins ∈ allInstructions ms -> icall ins = Some CB ->
  getCalledFunction CB = Some CF -> is_Some (findFunction CF ms).
Proof.
  unfold calleesDesignated. rewrite forallb_forall. intros Hall Hin Hcall Hcalled.
  specialize (Hall ins (proj1 (list_elem_of_In _ _) Hin)).
  rewrite Hcall, Hcalled in Hall.
  apply (bool_decide_unpack _). apply Is_true_true. exact Hall.
Qed.

Lemma operandsSuffice_elim (ms : list Module) (ins : Instruction) (CB : CallBase)
    (F : Function) :
  operandsSuffice ms = true -> ins ∈ analyzedInstructions ms -> icall ins = Some CB ->
  calledOperand CB = CalledValue -> F ∈ allFunctions ms -> candidate F = true ->
  reachesLoop F CB = true -> insideOperands F CB = true.
Proof.
  unfold operandsSuffice. rewrite forallb_forall.
  intros Hall Hin Hcall Hop HF Hcand Hreach.
  specialize (Hall ins (proj1 (list_elem_of_In _ _) Hin)).
  rewrite Hcall, Hop in Hall. rewrite forallb_forall in Hall.
  specialize (Hall F (proj1 (list_elem_of_In _ _) HF)).
  rewrite Hcand, Hreach in Hall. exact Hall.
Qed.

(** A candidate is examined without a read past the operands. *)
Lemma findCalleesByTypeStep_returns (ms : list Module) (c : GlobalContext)
    (ins : Instruction) (CB : CallBase) (F : Function) (FS : gset FuncId) :
  phaseDefined ms = true -> Modules c = ms ->
  ins ∈ analyzedInstructions ms -> icall ins = Some CB ->
  calledOperand CB = CalledValue -> F ∈ allFunctions ms -> candidate F = true ->
  exists FS', findCalleesByTypeStep c CB (fid F) FS = Done FS'.
Proof.
  intros Hdef Hm Hin Hcall Hop HF Hcand.
  destruct (phaseDefined_elim ms Hdef) as (Hwf & _ & Hops).
  apply wfModules_NoDup in Hwf as (Hndf & _).
  destruct (findFunction_unique ms F Hndf) as (M & Hfind);
    [apply functionOf_allFunctions; exact HF|].
  unfold findCalleesByTypeStep, derefFunction. rewrite Hm, Hfind.
  cbn [ofOption obind].
  pose proof (operandsSuffice_elim ms ins CB F Hops Hin Hcall Hop HF Hcand) as Hinside.
  unfold reachesLoop, insideOperands in Hinside.
  destruct (fIsVarArg F); simpl in *.
  - destruct (isIntrinsic F); simpl in *; [eauto|].
    specialize (Hinside eq_refl).
    pose proof (matchArguments_fuel (fArgs F) (operandTypes CB)) as Hfuel.
    destruct (matchArguments (fArgs F) (operandTypes CB)) as [[|]| |];
      simpl; try discriminate; try congruence; eauto.
  - destruct (Nat.eqb (length (fArgs F)) (length (cbArgs CB))); simpl in *; [|eauto].
    destruct (isCompatibleType (fReturnType F) (cbType CB)); simpl in *; [|eauto].
    destruct (isIntrinsic F); simpl in *; [eauto|].
    specialize (Hinside eq_refl).
    pose proof (matchArguments_fuel (fArgs F) (operandTypes CB)) as Hfuel.
    destruct (matchArguments (fArgs F) (operandTypes CB)) as [[|]| |];
      simpl; try discriminate; try congruence; eauto.
Qed.

Lemma runOnInstruction_returns (ms : list Module) (ins : Instruction)
    (c : GlobalContext) :
  phaseDefined ms = true -> ins ∈ analyzedInstructions ms -> Modules c = ms ->
  (forall f, f ∈ AddressTakenFuncs c ->
     exists F, F ∈ allFunctions ms /\ fid F = f /\ candidate F = true) ->
  exists c', runOnInstruction ins c = Done c'.
Proof.
  intros Hdef Hin Hm Hat.
  destruct (phaseDefined_elim ms Hdef) as (_ & Hcalled & _).
  rewrite runOnInstruction_resolved.
  destruct (icall ins) as [CB|] eqn:Hcall; [|eauto].
  pose proof (analyzedInstructions_subset ms ins Hin) as Hall.
  unfold callsIntrinsic, resolved, getFuncDef, isInlineAsm.
  destruct (getCalledFunction CB) as [CF|] eqn:Hcalledf.
  - destruct (calleesDesignated_elim ms ins CB CF Hcalled Hall Hcall Hcalledf)
      as [[M Fr] Hfind].
    unfold derefFunction. rewrite Hm, Hfind. cbn [ofOption obind].
    destruct (_ || isIntrinsic Fr); [eauto|].
    destruct (Funcs c !! getScopeName M Fr); cbn [obind]; eauto.
  - cbn [obind]. unfold getCalledFunction in Hcalledf.
    destruct (calledOperand CB) eqn:Hop; try discriminate; simpl; [eauto|].
    destruct (foldM_total (fun _ : gset FuncId => True) (findCalleesByTypeStep c CB)
                (elements (AddressTakenFuncs c))) with (s := calleesOf c (iid ins))
      as (FS' & Hrun & _); [|exact I|].
    + intros f FS Hf _. apply elem_of_elements in Hf.
      destruct (Hat f Hf) as (F & HF & <- & Hcand).
      destruct (findCalleesByTypeStep_returns ms c ins CB F FS) as [FS' H];
        try assumption. eauto.
    + rewrite Hrun. cbn [obind]. eauto.
Qed.

Lemma finalizeInstruction_returns (ms : list Module) (ins : Instruction)
    (c : GlobalContext) :
  calleesDesignated ms = true -> ins ∈ allInstructions ms -> Modules c = ms ->
  exists c', finalizeInstruction ins c = Done c'.
Proof.
  intros Hcalled Hin Hm. unfold finalizeInstruction.
  destruct (icall ins) as [CB|] eqn:Hcall; [|eauto].
  unfold isDbgInfoIntrinsic.
  destruct (cbKind CB); cbn [obind]; eauto.
  destruct (getCalledFunction CB) as [CF|] eqn:Hcalledf; cbn [obind]; [|eauto].
  destruct (calleesDesignated_elim ms ins CB CF Hcalled Hin Hcall Hcalledf)
    as [[M Fr] Hfind].
  unfold derefFunction. rewrite Hm, Hfind. cbn [ofOption obind].
  destruct (isDbgInfoFunction Fr); eauto.
Qed.

(** On a program on which it is defined, the phase returns. *)
Lemma callGraphPhase_returns (fuel : nat) (ms : list Module) :
  phaseDefined ms = true -> exists c', callGraphPhase (S fuel) ms = Done c'.
Proof.
  intros Hdef. destruct (phaseDefined_elim ms Hdef) as (_ & Hcalled & _).
  unfold callGraphPhase. rewrite run_once.
  destruct (loadModules_effect ms) as (Hms & Ha0 & _).
  destruct (initialized_effect (loadModules ms)) as (Hm1 & _ & _ & _ & Ha1).
  rewrite Hms in *.
  destruct (foldM_total (fun c => sameProgram (initialized (loadModules ms)) c)
              runOnInstruction (analyzedInstructions ms))
    with (s := initialized (loadModules ms)) as (c2 & Hproc & Hsame).
  - intros ins c Hin (Hm & Hf & Ha).
    destruct (runOnInstruction_returns ms ins c Hdef Hin) as [c' Hrun];
      [congruence | | ].
    + intros f Hf'. rewrite <- Ha in Hf'. apply Ha1 in Hf' as [H | (F & HF & Hid & Hi & Hh)].
      * rewrite Ha0 in H. exfalso. exact (not_elem_of_empty (C := gset FuncId) f H).
      * exists F. unfold candidate. rewrite Hi, Hh. auto.
    + exists c'. split; [exact Hrun|].
      apply runOnInstruction_effect in Hrun as (Hsame' & _).
      eapply sameProgram_trans; [|exact Hsame']. repeat split; assumption.
  - apply sameProgram_refl.
  - rewrite Hproc. cbn [obind].
    destruct (foldM_total (fun c => Modules c = ms) finalizeInstruction
                (allInstructions ms)) with (s := c2) as (c' & Hfin & _).
    + intros ins c Hin Hm.
      destruct (finalizeInstruction_returns ms ins c Hcalled Hin Hm) as [c' Hrun].
      exists c'. split; [exact Hrun|].
      apply finalizeInstruction_effect in Hrun as ((Hm' & _) & _). congruence.
    + destruct Hsame as (Hm & _). congruence.
    + eauto.
Qed.

(** What holds of every context the phase returns holds of the context
    it returns on a program on which it is defined. *)
Lemma callGraphPhase_total (fuel : nat) (ms : list Module) (P : GlobalContext -> Prop) :
  phaseDefined ms = true ->
  (forall c', callGraphPhase (S fuel) ms = Done c' -> P c') ->
  exists c', callGraphPhase (S fuel) ms = Done c' /\ P c'.
Proof.
  intros Hdef HP. destruct (callGraphPhase_returns fuel ms Hdef) as [c' Hrun].
  exists c'. split; [exact Hrun | apply HP; exact Hrun].
Qed.

(** The two maps of a context the phase returned are inverse to each
    other. *)
Lemma callers_inverse_when_done (fuel : nat) (ms : list Module)
    (c' : GlobalContext) :
  callGraphPhase fuel ms = Done c' ->
  forall (s : InstId) (f : FuncId), s ∈ callersOf c' f <-> f ∈ calleesOf c' s.
Proof.
  intros Hrun s f.
  apply callGraphPhase_steps in Hrun
    as (c2 & Hproc & Hsame & _ & Hcallees' & Hcallers').
  rewrite Hcallers', Hcallees'. split; [tauto|].
  intros Hf. split; [exact Hf|].
  (* a call site with a callee was seen by the instruction loop, and what
     that loop looks at is what the finalisation looks at *)
  destruct (runOnInstructions_sites _ _ _ Hproc s f Hf) as [H0 | (ins & Hin & Hid & Hfc)].
  - destruct (loadModules_effect ms) as (_ & _ & Hcallees0 & _).
    destruct (initialized_effect (loadModules ms)) as (_ & _ & Hcallees1 & _).
    unfold calleesOf in H0. rewrite Hcallees1, Hcallees0, lookup_empty in H0.
    set_solver.
  - destruct (loadModules_effect ms) as (Hms & _).
    destruct (initialized_effect (loadModules ms)) as (Hm1 & _).
    rewrite Hm1, Hms in Hfc. exists ins.
    split; [apply analyzedInstructions_subset; exact Hin | auto].
Qed.

(** C2: the call-graph phase returns on every program on which its code
    is defined (distinct objects have distinct pointers, called
    functions are functions of the program, no candidate makes the loop
    over its formal arguments read past the operands of a call), and
    the two maps are then inverse to each other: a call site is among
    the callers of a function exactly when the function is among the
    callees of the call site. *)
Theorem callers_inverse_of_callees (fuel : nat) (ms : list Module) :
  phaseDefined ms = true ->
  exists c',
    callGraphPhase (S fuel) ms = Done c'
    /\ forall (s : InstId) (f : FuncId), s ∈ callersOf c' f <-> f ∈ calleesOf c' s.
Proof.
  intros Hdef. apply (callGraphPhase_total fuel ms _ Hdef).
  intros c' Hrun. exact (callers_inverse_when_done _ _ _ Hrun).
Qed.

(** The phase on a caller of [p()] with the address-taken variadic
    candidates [logf_like(i8*, ...)] and [count_like(int, ...)]. *)
Lemma callers_inverse_of_callees_witness :
  phaseDefined progOver = true
  /\ exists c',
       callGraphPhase 1 progOver = Done c'
       /\ forall (s : InstId) (f : FuncId), s ∈ callersOf c' f <-> f ∈ calleesOf c' s.
Proof.
  split; [vm_compute; reflexivity|].
  apply (callers_inverse_of_callees 0 progOver). vm_compute. reflexivity.
Defined.

(** ** Type-based resolution of an indirect call *)





(** ** The callee set of a call site after the phase *)

Lemma analyzedInstructions_sublist (ms : list Module) :
  sublist (analyzedInstructions ms) (allInstructions ms).
Proof.
  unfold analyzedInstructions, allInstructions, allFunctions.
  induction ms as [|M ms IH]; simpl; [constructor|].
  rewrite flat_map_app. apply sublist_app; [|exact IH].
  generalize (functions M) as l. intros l.
  induction l as [|F l IHl]; simpl; [constructor|].
  apply sublist_app; [|exact IHl].
  unfold analyzed. destruct (inInitText F); [apply sublist_nil_l | reflexivity].
Qed.

Lemma analyzedInstructions_NoDup (ms : list Module) :
  NoDup (map iid (allInstructions ms)) -> NoDup (map iid (analyzedInstructions ms)).
Proof.
  intros H. eapply sublist_NoDup; [exact H|].
  apply (fmap_sublist iid). apply analyzedInstructions_sublist.
Qed.

Lemma analyzedInstructions_elem (ms : list Module) (Fn : Function) (ins : Instruction) :
  functionOf ms Fn -> inInitText Fn = false -> ins ∈ instructions Fn ->
  ins ∈ analyzedInstructions ms.
Proof.
  intros (M & HM & HF) Hinit Hin. unfold analyzedInstructions.
  rewrite list_elem_of_In, in_flat_map. exists M.
  split; [apply list_elem_of_In; exact HM|]. apply in_flat_map. exists Fn.
  split; [apply list_elem_of_In; exact HF|]. unfold analyzed. rewrite Hinit.
  apply list_elem_of_In. exact Hin.
Qed.

(** The state of [Callees] under the key of an analysed instruction when
    the phase is over. *)
Lemma callGraphPhase_key (fuel : nat) (ms : list Module) (c' : GlobalContext)
    (ins : Instruction) :
  wfModules ms = true -> callGraphPhase fuel ms = Done c' ->
  ins ∈ analyzedInstructions ms ->
  exists o, keyResult (initialized (loadModules ms)) ins o
            /\ calleesOf c' (iid ins) = default ∅ o.
Proof.
  intros Hwf Hrun Hin.
  apply callGraphPhase_steps in Hrun as (c2 & Hproc & _ & _ & Hcallees' & _).
  apply wfModules_NoDup in Hwf as (_ & _ & Hnd).
  pose proof (runOnInstructions_effect _ _ _ Hproc) as (_ & _ & _ & Hkeys).
  specialize (Hkeys (analyzedInstructions_NoDup ms Hnd) ins Hin).
  exists (Callees c2 !! iid ins). split; [exact Hkeys|]. apply Hcallees'.
Qed.





Lemma functionOf_single (name : string) (fs : list Function) (F : Function) :
  In F fs -> functionOf [module name fs] F.
Proof.
  intros H. exists (module name fs).
  split; [left | apply list_elem_of_In; exact H].
Qed.



(** ** Functions in [.init.text] *)





(** ** Bounded forward slicing *)

(** A loop whose every step returns and adds the elements related to its
    item returns and adds the elements related to some item. *)
Lemma foldM_collect {A : Type} (P : A -> positive -> Prop)
    (f : A -> gset positive -> outcome (gset positive)) (l : list A) :
  (forall x v, x ∈ l ->
     exists v', f x v = Done v' /\ forall G, G ∈ v' <-> G ∈ v \/ P x G) ->
  forall v, exists v',
    foldM f l v = Done v'
    /\ forall G, G ∈ v' <-> G ∈ v \/ exists x, x ∈ l /\ P x G.
Proof.
  induction l as [|x l IH]; intros Hstep v; simpl.
  - exists v. split; [reflexivity|]. intros G. split; [tauto|].
    intros [H | (x & Hx & _)]; [exact H | inversion Hx].
  - destruct (Hstep x v) as (v1 & Hx & Hv1); [left|]. rewrite Hx. simpl.
    destruct (IH (fun y w Hy => Hstep y w (list_elem_of_further _ _ _ Hy)) v1)
      as (v' & Hrun & Hv').
    exists v'. split; [exact Hrun|]. intros G. rewrite Hv', Hv1. split.
    + intros [[H | H] | (y & Hy & H)]; eauto.
      * right. exists x. split; [left | exact H].
      * right. exists y. split; [right; exact Hy | exact H].
    + intros [H | (y & Hy & H)]; [tauto|].
      apply elem_of_cons in Hy as [-> | Hy]; eauto.
Qed.

Lemma calleesValid_elim (c : GlobalContext) (k : InstId) (funcSet : gset FuncId)
    (G : FuncId) :
  calleesValid c = true -> Callees c !! k = Some funcSet -> G ∈ funcSet ->
  is_Some (findFunction G (Modules c)).
Proof.
  unfold calleesValid. rewrite bool_decide_eq_true. intros Hall Hk HG.
  exact (Hall k funcSet Hk G HG).
Qed.

Lemma reachIn_zero (c : GlobalContext) (F G : FuncId) : reachIn c 0 F G <-> G = F.
Proof.
  split; [inversion 1; reflexivity | intros ->; constructor].
Qed.

(** The functions within [depth] hops of [F]: [F] itself and what lies
    within [depth - 1] hops of a callee of one of its call sites. *)
Lemma reach_within_step (c : GlobalContext) (F G : FuncId) (depth : Z) :
  0 < depth ->
  ((exists n : nat, Z.of_nat n <= depth /\ reachIn c n F G) <->
   G = F \/ exists H, callsTo c F H
                      /\ exists n : nat, Z.of_nat n <= depth - 1 /\ reachIn c n H G).
Proof.
  intros Hpos. split.
  - intros (n & Hn & Hreach). inversion Hreach; subst.
    + left. reflexivity.
    + right. eexists. split; [eassumption|]. eexists. split; [|eassumption]. lia.
  - intros [-> | (H & Hcall & n & Hn & Hreach)].
    + exists O. split; [lia | constructor].
    + exists (S n). split; [lia | econstructor; eassumption].
Qed.

(** C10: for every depth that is not negative the walk returns, cycles in
    the call graph or not, once the fuel exceeds the depth (the recursion
    is on the depth alone), and the set it returns is the given set
    together with [F] and every function within [depth] call hops of [F]
    over [Callees].  The pointers involved must designate functions. *)
Theorem forwardSlicingFunctionWithDepth_reach (fuel : nat) (c : GlobalContext) :
  forall (F : FuncId) (depth : Z) (visited : gset FuncId),
    0 <= depth -> (Z.to_nat depth < fuel)%nat ->
    is_Some (findFunction F (Modules c)) -> calleesValid c = true ->
    exists visited',
      forwardSlicingFunctionWithDepth fuel c F depth visited = Done visited'
      /\ forall G, G ∈ visited' <->
           G ∈ visited \/ exists n : nat, Z.of_nat n <= depth /\ reachIn c n F G.
Proof.
  induction fuel as [|fuel IH]; intros F depth visited Hdepth Hfuel HF Hvalid;
    [lia|].
  cbn [forwardSlicingFunctionWithDepth].
  destruct (Z.eqb_spec depth 0) as [-> | Hne].
  - (* depth 0: only [F] is added *)
    eexists. split; [reflexivity|]. intros G.
    rewrite elem_of_union, elem_of_singleton. split.
    + intros [-> | H]; [right; exists O; split; [lia | constructor] | left; exact H].
    + intros [H | (n & Hn & Hreach)]; [right; exact H|].
      assert (n = O) by lia. subst n. apply reachIn_zero in Hreach. left. exact Hreach.
  - (* depth > 0: one call to every callee of every call site *)
    destruct HF as [[M Fr] Hfind]. unfold derefFunction. rewrite Hfind. simpl.
    pose (P := fun (ins : Instruction) (G : FuncId) =>
                 exists CB funcSet callee,
                   icall ins = Some CB /\ Callees c !! iid ins = Some funcSet
                   /\ callee ∈ funcSet
                   /\ exists n : nat, Z.of_nat n <= depth - 1 /\ reachIn c n callee G).
    edestruct (foldM_collect P) as (v' & Hrun & Hv').
    2:{ exists v'. split; [exact Hrun|]. intros G. rewrite Hv'.
        rewrite elem_of_union, elem_of_singleton.
        rewrite (reach_within_step c F G depth) by lia.
        unfold P, callsTo. split.
        - intros [[-> | H] | (ins & Hin & CB & fs & callee & H1 & H2 & H3 & H4)];
            eauto 15.
        - intros [H | [-> | (H & (M' & Fr' & ins & CB & fs & Hf & Hin & H1 & H2 & H3)
                             & H4)]]; eauto.
          rewrite Hfind in Hf. injection Hf as <- <-. right. exists ins.
          split; [exact Hin|]. exists CB, fs, H. auto. }
    intros ins v Hin. unfold P.
    destruct (icall ins) as [CB|] eqn:Hcall.
    2:{ exists v. split; [reflexivity|]. intros G. split; [tauto|].
        intros [H | (? & ? & ? & ? & _)]; [exact H | discriminate]. }
    destruct (Callees c !! iid ins) as [funcSet|] eqn:Hset.
    2:{ exists v. split; [reflexivity|]. intros G. split; [tauto|].
        intros [H | (? & ? & ? & _ & ? & _)]; [exact H | discriminate]. }
    edestruct (foldM_collect
                 (fun (callee : FuncId) (G : FuncId) =>
                    exists n : nat, Z.of_nat n <= depth - 1 /\ reachIn c n callee G))
      as (v1 & Hrun1 & Hv1).
    2:{ exists v1. split; [exact Hrun1|]. intros G. rewrite Hv1. split.
        - intros [H | (callee & Hc & Hreach)]; [left; exact H|].
          right. exists CB, funcSet, callee. apply elem_of_elements in Hc. auto.
        - intros [H | (CB' & fs' & callee & _ & [= <-] & Hc & Hreach)];
            [left; exact H|].
          right. exists callee. split; [apply elem_of_elements; exact Hc | exact Hreach]. }
    intros callee w Hc. apply elem_of_elements in Hc.
    apply IH; [lia | lia | | exact Hvalid].
    eapply calleesValid_elim; eassumption.
Qed.

(** The walk of depth 2 from [f] in the program with the cycle
    [f -> g -> f]. *)
Lemma forwardSlicingFunctionWithDepth_reach_witness :
  exists c, callGraphPhase 1 progCycle = Done c
    /\ exists visited',
         forwardSlicingFunctionWithDepth 3 c 1 2 ∅ = Done visited'
         /\ forall G, G ∈ visited' <->
              G ∈ (∅ : gset FuncId)
              \/ exists n : nat, Z.of_nat n <= 2 /\ reachIn c n 1 G.
Proof.
  eexists. split; [vm_compute; reflexivity|].
  apply (forwardSlicingFunctionWithDepth_reach 3 _ 1 2 ∅).
  - lia.
  - simpl. lia.
  - vm_compute. eauto.
  - vm_compute. reflexivity.
Defined.

(** ** The slicer only adds to its state *)

Lemma extends_refl (s : Slicing) : extends s s.
Proof. unfold extends. repeat split; try reflexivity. Qed.

Lemma extends_trans (s1 s2 s3 : Slicing) :
  extends s1 s2 -> extends s2 s3 -> extends s1 s3.
Proof.
  unfold extends.
  intros (A1 & A2 & A3 & A4 & A5 & A6 & A7 & A8 & A9)
         (B1 & B2 & B3 & B4 & B5 & B6 & B7 & B8 & B9).
  repeat split; try (etransitivity; eassumption); congruence.
Qed.

Lemma foldM_extends {A : Type} (f : A -> Slicing -> outcome Slicing) (l : list A) :
  (forall x t t', x ∈ l -> f x t = Done t' -> extends t t') ->
  forall s s', foldM f l s = Done s' -> extends s s'.
Proof.
  intros Hstep s s' Hrun.
  apply (foldM_invariant (extends s) f l s s'); [ | apply extends_refl | exact Hrun].
  intros x t t' Hx Ht Hf. eapply extends_trans; [exact Ht | eauto].
Qed.

Lemma addToVerboseInst_extends (fuel : nat) (fBB : BlockId) (BB : BasicBlock)
    (ins : Instruction) (s s' : Slicing) :
  addToVerboseInst fuel fBB BB ins s = Done s' -> extends s s'.
Proof.
  unfold addToVerboseInst. destruct (icall ins) as [CB|].
  2:{ intros [= <-]. apply extends_refl. }
  destruct (isIntrinsicInst (modules s) CB) as [[|]| |]; simpl; try discriminate.
  { intros [= <-]. apply extends_refl. }
  destruct (intraCanReach fuel (modules s) (bid BB) fBB) as [[|]| |]; simpl;
    try discriminate.
  - destruct (getCalledFunction CB); intros [= <-];
      [extends_step | apply extends_refl].
  - intros [= <-]. apply extends_refl.
Qed.

Lemma addToVerbose_extends (fuel : nat) (F : FuncId) (s s' : Slicing) :
  addToVerbose fuel F s = Done s' -> extends s s'.
Proof.
  unfold addToVerbose. destruct (bool_decide (F ∈ verboseF_ s)).
  { intros [= <-]. apply extends_refl. }
  intros Hrun. eapply extends_trans; [|eapply foldM_extends; [|exact Hrun]].
  - extends_step.
  - intros CB t t' _ Hstep.
    apply obind_Done in Hstep as ([[enclosingF fBB] ?] & _ & Hstep).
    eapply foldM_extends; [|exact Hstep].
    intros BB u u' _ Hbb. eapply foldM_extends; [|exact Hbb].
    intros ins v v' _. apply addToVerboseInst_extends.
Qed.

Lemma backtrackingLoop_extends (fuel : nat) :
  forall (toVisit : list BlockId) (s s' : Slicing),
    backtrackingLoop fuel toVisit s = Done s' -> extends s s'.
Proof.
  induction fuel as [|fuel IH]; intros [|current toVisit] s s'; simpl;
    try discriminate; try (intros [= <-]; apply extends_refl).
  intros Hrun. apply obind_Done in Hrun as ([Fp BBr] & _ & Hrun).
  destruct (bool_decide (current ∈ visitedBB_ s)).
  - eapply IH. exact Hrun.
  - eapply extends_trans; [|eapply IH; exact Hrun]. extends_step.
Qed.

Lemma sliceFunction_unfold (fuel : nat) (F : FuncId) (s : Slicing) :
  sliceFunction (S fuel) F s
  = if bool_decide (F ∈ visitedF_ s) then Done s
    else
      let s := setVisitedF ({[F]} ∪ visitedF_ s) s in
      let* (_, Fr) := derefFunction (modules s) F in
      let s := setVisitedBB (list_to_set (map bid (blocks Fr)) ∪ visitedBB_ s) s in
      let* s := addToVerbose (S fuel) F s in
      let* matchingCBS := matchingCallers (Ctx_ s) (fname Fr) in
      match matchingCBS with
      | [] => Done s
      | _ :: _ =>
          let* toProcess := blocksToProcess s matchingCBS in
          let* s := foldM (backtracking fuel) toProcess s in
          if existsb (fun CBS => negb (bool_decide (CBS = ∅))) matchingCBS
          then Done (setSlicedFuncCnt (slicedFuncCnt_ s + 1) s)
          else Done s
      end.
Proof. reflexivity. Qed.

Lemma backtracking_unfold (fuel : nat) (BB : BlockId) (s : Slicing) :
  backtracking (S fuel) BB s
  = let* s := backtrackingLoop (S fuel) [BB] s in
    let* (Fp, _) := derefBlock (modules s) BB in
    sliceFunction fuel (fid Fp) s.
Proof. reflexivity. Qed.

Lemma slicing_extends (fuel : nat) :
  (forall F s s', sliceFunction fuel F s = Done s' -> extends s s')
  /\ (forall BB s s', backtracking fuel BB s = Done s' -> extends s s').
Proof.
  induction fuel as [|fuel [IHs IHb]]; [split; discriminate|]. split.
  - intros F s s'. rewrite sliceFunction_unfold.
    destruct (bool_decide (F ∈ visitedF_ s)).
    { intros [= <-]. apply extends_refl. }
    cbn zeta. intros Hrun.
    apply obind_Done in Hrun as ([M Fr] & _ & Hrun).
    apply obind_Done in Hrun as (s1 & Hverbose & Hrun).
    apply addToVerbose_extends in Hverbose.
    apply obind_Done in Hrun as (matchingCBS & _ & Hrun).
    assert (H0 : extends s s1).
    { eapply extends_trans; [|exact Hverbose]. extends_step. }
    destruct matchingCBS as [|CBS rest].
    { injection Hrun as <-. exact H0. }
    apply obind_Done in Hrun as (toProcess & _ & Hrun).
    apply obind_Done in Hrun as (s2 & Hback & Hrun).
    assert (H1 : extends s1 s2).
    { eapply foldM_extends; [|exact Hback]. intros BB t t' _. apply IHb. }
    destruct (existsb _ _); injection Hrun as <-.
    + eapply extends_trans; [exact H0|]. eapply extends_trans; [exact H1|].
      extends_step.
    + eapply extends_trans; eassumption.
  - intros BB s s'. rewrite backtracking_unfold. intros Hrun.
    apply obind_Done in Hrun as (s1 & Hloop & Hrun).
    apply backtrackingLoop_extends in Hloop.
    apply obind_Done in Hrun as ([Fp BBr] & _ & Hrun).
    eapply extends_trans; [exact Hloop | eapply IHs; exact Hrun].
Qed.

Lemma enqueueCallee_extends (callee : FuncId) (sq sq' : Slicing * list BlockId) :
  enqueueCallee callee sq = Done sq' -> extends (fst sq) (fst sq').
Proof.
  destruct sq as [s q]. unfold enqueueCallee.
  destruct (bool_decide (callee ∈ fVisitedF_ s)).
  { intros [= <-]. apply extends_refl. }
  intros Hrun. apply obind_Done in Hrun as ([M Cr] & _ & Hrun).
  injection Hrun as <-. extends_step.
Qed.

Lemma enqueueCallees_extends (ins : Instruction) (sq sq' : Slicing * list BlockId) :
  enqueueCallees ins sq = Done sq' -> extends (fst sq) (fst sq').
Proof.
  unfold enqueueCallees. destruct (icall ins).
  2:{ intros [= <-]. apply extends_refl. }
  destruct (Callees (Ctx_ (fst sq)) !! iid ins) as [funcSet|].
  2:{ intros [= <-]. apply extends_refl. }
  intros Hrun.
  apply (foldM_invariant (fun t => extends (fst sq) (fst t)) enqueueCallee
           (elements funcSet) sq sq'); [ | apply extends_refl | exact Hrun].
  intros x t t' _ Ht Hx. eapply extends_trans; [exact Ht|].
  eapply enqueueCallee_extends. exact Hx.
Qed.

Lemma forwardLoop_extends (fuel : nat) :
  forall (toVisit : list BlockId) (visited : gset BlockId) (s s' : Slicing),
    forwardLoop fuel toVisit visited s = Done s' -> extends s s'.
Proof.
  induction fuel as [|fuel IH]; intros [|current toVisit] visited s s'; simpl;
    try discriminate; try (intros [= <-]; apply extends_refl).
  destruct (bool_decide (current ∈ visited)).
  - intros Hrun. eapply extends_trans; [|eapply IH; exact Hrun]. extends_step.
  - intros Hrun. apply obind_Done in Hrun as ([Fp BBr] & _ & Hrun).
    apply obind_Done in Hrun as ([s1 q] & Henq & Hrun).
    pose (s0 := setVerboseBB ({[current]} ∪ verboseBB_ s) s).
    assert (H01 : extends s0 s1).
    { apply (foldM_invariant (fun t => extends s0 (fst t)) enqueueCallees
               (insts BBr) (s0, toVisit) (s1, q));
        [ | apply extends_refl | exact Henq].
      intros x t t' _ Ht Hx. eapply extends_trans; [exact Ht|].
      eapply enqueueCallees_extends. exact Hx. }
    eapply extends_trans; [|eapply IH; exact Hrun].
    eapply extends_trans; [|exact H01]. extends_step.
Qed.

Lemma forwardSlicingFunction_extends (fuel : nat) (F : FuncId) (s s' : Slicing) :
  forwardSlicingFunction fuel F s = Done s' -> extends s s'.
Proof.
  unfold forwardSlicingFunction. intros Hrun.
  apply obind_Done in Hrun as ([M Fr] & _ & Hrun).
  eapply forwardLoop_extends. exact Hrun.
Qed.

Lemma forwardSlicingFunctionStub_extends (fuel : nat) (name : string)
    (s s' : Slicing) :
  forwardSlicingFunctionStub fuel name s = Done s' -> extends s s'.
Proof.
  unfold forwardSlicingFunctionStub. destruct (getFunctionByName name (modules s)).
  - apply forwardSlicingFunction_extends.
  - intros [= <-]. apply extends_refl.
Qed.

Lemma sliceTarget_extends (fuel : nat) (F : FuncId) (s s' : Slicing) :
  sliceTarget fuel F s = Done s' -> extends s s' /\ F ∈ visitedF_ s'.
Proof.
  unfold sliceTarget. intros Hrun.
  apply obind_Done in Hrun as (s1 & H1 & Hrun).
  apply obind_Done in Hrun as (s2 & H2 & Hrun).
  apply obind_Done in Hrun as (s3 & H3 & Hrun).
  apply obind_Done in Hrun as (s4 & H4 & H5).
  assert (HF : F ∈ visitedF_ s1).
  { destruct fuel as [|fuel]; [discriminate|].
    rewrite sliceFunction_unfold in H1.
    destruct (bool_decide_reflect (F ∈ visitedF_ s)) as [Hin|Hout].
    - injection H1 as <-. exact Hin.
    - cbn zeta in H1.
      apply obind_Done in H1 as ([M Fr] & _ & H1).
      apply obind_Done in H1 as (t1 & Hv & H1).
      apply addToVerbose_extends in Hv.
      apply obind_Done in H1 as (matchingCBS & _ & H1).
      assert (Ht1 : F ∈ visitedF_ t1).
      { destruct Hv as (Hv & _). apply Hv. simpl. set_solver. }
      destruct matchingCBS as [|CBS rest]; [injection H1 as <-; exact Ht1|].
      apply obind_Done in H1 as (toProcess & _ & H1).
      apply obind_Done in H1 as (t2 & Hback & H1).
      assert (Ht2 : extends t1 t2).
      { eapply foldM_extends; [|exact Hback].
        intros BB t t' _. apply (proj2 (slicing_extends fuel)). }
      destruct Ht2 as (Ht2 & _).
      destruct (existsb _ _); injection H1 as <-; simpl; set_solver. }
  apply (proj1 (slicing_extends fuel)) in H1.
  apply forwardSlicingFunction_extends in H2.
  apply forwardSlicingFunctionStub_extends in H3, H4, H5.
  assert (Hall : extends s1 s').
  { eapply extends_trans; [exact H2|]. eapply extends_trans; [exact H3|].
    eapply extends_trans; eassumption. }
  split; [eapply extends_trans; eassumption|].
  destruct Hall as (Hall & _). set_solver.
Qed.

Lemma multiTargetStep_extends (fuel : nat) (target : string * string)
    (s s' : Slicing) :
  multiTargetStep fuel target s = Done s' -> extends s s'.
Proof.
  destruct target as [file_ func_]. unfold multiTargetStep.
  destruct (findTargetByFunctionName s file_ func_).
  - intros H. apply sliceTarget_extends in H as [H _]. exact H.
  - intros [= <-]. apply extends_refl.
Qed.

Lemma findTargetByFunctionName_extends (s t : Slicing) (file_ func_ : string) :
  extends s t ->
  findTargetByFunctionName t file_ func_ = findTargetByFunctionName s file_ func_.
Proof.
  intros (_ & _ & _ & _ & _ & _ & Hm & _).
  unfold findTargetByFunctionName, modules. rewrite Hm. reflexivity.
Qed.

(** [dump] slices forward from the members of [verboseF_] and takes
    nothing away. *)
Lemma dump_extends (fuel : nat) (EC : bool) (s s' : Slicing) (files : SliceFiles) :
  dump fuel EC s = Done (s', files) -> extends s s'.
Proof.
  unfold dump. destruct EC; [intros [= <- _]; apply extends_refl|].
  intros Hrun. apply obind_Done in Hrun as (s1 & Hforward & Hrun).
  apply obind_Done in Hrun as ([d1 v] & _ & Hrun).
  apply obind_Done in Hrun as (d2 & _ & Hrun).
  apply obind_Done in Hrun as (d3 & _ & Hrun).
  apply obind_Done in Hrun as (d4 & _ & Hrun).
  injection Hrun as <- _.
  eapply foldM_extends; [|exact Hforward].
  intros F t t' _. apply forwardSlicingFunction_extends.
Qed.

(** The loop over the pairs keeps what the state holds, and the target
    of every pair that was found is sliced when it is over. *)
Lemma multiTargetLoop_accumulates (fuel : nat) (pairs : list (string * string))
    (s s' : Slicing) :
  foldM (multiTargetStep fuel) pairs s = Done s' ->
  extends s s'
  /\ (forall file_ func_ F,
        (file_, func_) ∈ pairs ->
        findTargetByFunctionName s file_ func_ = Some F -> F ∈ visitedF_ s').
Proof.
  intros Hrun. split.
  - eapply foldM_extends; [|exact Hrun].
    intros target t t' _. apply multiTargetStep_extends.
  - revert s Hrun. induction pairs as [|[file0 func0] pairs IH]; intros s Hrun;
      intros file_ func_ F Hin Hfind; [inversion Hin|].
    cbn [foldM] in Hrun. apply obind_Done in Hrun as (s1 & Hstep & Hrest).
    pose proof (multiTargetStep_extends _ _ _ _ Hstep) as Hext.
    apply elem_of_cons in Hin as [[= -> ->] | Hin].
    + (* the pair at hand: its target is visited now and stays so *)
      unfold multiTargetStep in Hstep. rewrite Hfind in Hstep.
      apply sliceTarget_extends in Hstep as [_ HF].
      assert (Hrest' : extends s1 s').
      { eapply foldM_extends; [|exact Hrest].
        intros target t t' _. apply multiTargetStep_extends. }
      destruct Hrest' as (Hv & _). set_solver.
    + (* a later pair: the lookup does not depend on the state *)
      apply (IH s1 Hrest file_ func_ F Hin).
      rewrite (findTargetByFunctionName_extends s s1) by exact Hext. exact Hfind.
Qed.

(** C7, amended: [Slicing::clear] empties the five sets and puts the
    counter back to 1, but multi-target mode does not call it.  When
    [multiTarget] returns, the loop over the pairs has run on one state
    from the first pair to the last and the one call of [dump] has
    written the files from the state [sLoop] the loop left: whatever
    the sets held when the first pair started they hold in [sLoop] and
    in the state [dump] leaves, the target function of every pair that
    was found is among the visited functions of both, and only a
    [clear] after the run would bring the state back to the one of a
    new slicer. *)
Theorem multiTarget_state_accumulates (fuel : nat) (EC : bool)
    (pairs : list (string * string)) (s s' : Slicing) (files : SliceFiles) :
  multiTarget fuel EC pairs s = Done (s', files) ->
  exists sLoop,
    foldM (multiTargetStep fuel) pairs s = Done sLoop
    /\ dump fuel EC sLoop = Done (s', files)
    /\ extends s sLoop /\ extends sLoop s'
    /\ (forall file_ func_ F,
          (file_, func_) ∈ pairs ->
          findTargetByFunctionName s file_ func_ = Some F ->
          F ∈ visitedF_ sLoop /\ F ∈ visitedF_ s')
    /\ cleared (clear s').
Proof.
  unfold multiTarget. intros Hrun.
  apply obind_Done in Hrun as (sLoop & Hloop & Hdump).
  exists sLoop. split; [exact Hloop|]. split; [exact Hdump|].
  destruct (multiTargetLoop_accumulates fuel pairs s sLoop Hloop) as [Hext Htargets].
  pose proof (dump_extends fuel EC sLoop s' files Hdump) as Hext'.
  split; [exact Hext|]. split; [exact Hext'|]. split.
  - intros file_ func_ F Hin Hfind.
    pose proof (Htargets file_ func_ F Hin Hfind) as HF.
    split; [exact HF|]. destruct Hext' as (Hv & _). set_solver.
  - unfold cleared, clear. simpl. repeat split.
Qed.

(** The two targets [a] and [b] of the program without calls. *)
Lemma multiTarget_state_accumulates_witness :
  exists c s' files,
    callGraphPhase 1 progTwo = Done c
    /\ multiTarget 5 false twoTargets (newSlicing c "/src") = Done (s', files)
    /\ exists sLoop,
         foldM (multiTargetStep 5) twoTargets (newSlicing c "/src") = Done sLoop
         /\ dump 5 false sLoop = Done (s', files)
         /\ extends (newSlicing c "/src") sLoop /\ extends sLoop s'
         /\ (forall file_ func_ F,
               (file_, func_) ∈ twoTargets ->
               findTargetByFunctionName (newSlicing c "/src") file_ func_ = Some F ->
               F ∈ visitedF_ sLoop /\ F ∈ visitedF_ s')
         /\ cleared (clear s').
Proof.
  eexists. eexists. eexists. split; [vm_compute; reflexivity|].
  split; [vm_compute; reflexivity|].
  apply (multiTarget_state_accumulates 5 false twoTargets).
  vm_compute. reflexivity.
Defined.

(** C7, counterexample: with the two targets [a] and [b], multi-target
    mode ends in a state that still holds [a], the target of the first
    pair, and the merged function file holds the name of [a]; had the
    state been cleared between the pairs, as the claim has it, [a]
    would be gone from the state the second pair leaves. *)
Lemma multiTarget_keeps_first_target :
  exists c s files sCleared,
    callGraphPhase 1 progTwo = Done c
    /\ multiTarget 5 false twoTargets (newSlicing c "/src") = Done (s, files)
    /\ multiTargetLoopCleared 5 twoTargets (newSlicing c "/src") = Done sCleared
    /\ 1%positive ∈ visitedF_ s
    /\ "a" ++ Str.nl ∈ funcFile files
    /\ 1%positive ∉ visitedF_ sCleared.
Proof.
  eexists. eexists. eexists. eexists. split; [vm_compute; reflexivity|].
  split; [vm_compute; reflexivity|]. split; [vm_compute; reflexivity|].
  repeat split; apply (bool_decide_unpack _); vm_compute; exact I.
Qed.

(** ** Forward slicing *)

(** A loop whose steps are related by a preorder [R] and establish [Q]
    for their item, where [Q] survives further steps. *)
Lemma foldM_each {A S : Type} (R : S -> S -> Prop) (Q : A -> S -> Prop)
    (f : A -> S -> outcome S) (l : list A) :
  (forall t, R t t) -> (forall t1 t2 t3, R t1 t2 -> R t2 t3 -> R t1 t3) ->
  (forall x t t', x ∈ l -> f x t = Done t' -> R t t' /\ Q x t') ->
  (forall x t t', Q x t -> R t t' -> Q x t') ->
  forall s s', foldM f l s = Done s' -> R s s' /\ forall x, x ∈ l -> Q x s'.
Proof.
  intros Hrefl Htrans Hstep Hkeep.
  induction l as [|x l IH]; intros s s' Hrun; simpl in Hrun.
  - injection Hrun as <-. split; [apply Hrefl | intros x Hx; inversion Hx].
  - apply obind_Done in Hrun as (t & Hx & Hrest).
    destruct (Hstep x s t) as [HR HQ]; [left | exact Hx |].
    destruct IH with (s := t) (s' := s') as [HR' HQ'].
    { intros y u u' Hy. apply Hstep. right. exact Hy. }
    { exact Hrest. }
    split; [eapply Htrans; eassumption|].
    intros y Hy. apply elem_of_cons in Hy as [-> | Hy]; [|auto].
    eapply Hkeep; eassumption.
Qed.

Lemma forwardStep_refl (s : Slicing) : forwardStep s s.
Proof. unfold forwardStep. repeat split; reflexivity. Qed.

Lemma forwardStep_trans (s1 s2 s3 : Slicing) :
  forwardStep s1 s2 -> forwardStep s2 s3 -> forwardStep s1 s3.
Proof.
  unfold forwardStep.
  intros (A1 & A2 & A3 & A4 & A5 & A6) (B1 & B2 & B3 & B4 & B5 & B6).
  repeat split; try congruence; etransitivity; eassumption.
Qed.

Lemma enqueueStep_refl (sq : Slicing * list BlockId) : enqueueStep sq sq.
Proof.
  unfold enqueueStep. split; [apply forwardStep_refl|]. repeat split; auto.
Qed.

Lemma enqueueStep_trans (a b c : Slicing * list BlockId) :
  enqueueStep a b -> enqueueStep b c -> enqueueStep a c.
Proof.
  unfold enqueueStep. intros (A1 & A2 & A3 & A4) (B1 & B2 & B3 & B4).
  split; [eapply forwardStep_trans; eassumption|].
  split; [congruence|]. split; auto.
Qed.

Lemma enqueueCallee_spec (callee : FuncId) (sq sq' : Slicing * list BlockId) :
  enqueueCallee callee sq = Done sq' ->
  enqueueStep sq sq' /\ callee ∈ fVisitedF_ (fst sq').
Proof.
  destruct sq as [s q]. unfold enqueueCallee.
  destruct (bool_decide_reflect (callee ∈ fVisitedF_ s)) as [Hin|Hout].
  { intros [= <-]. split; [apply enqueueStep_refl | exact Hin]. }
  intros Hrun. apply obind_Done in Hrun as ([M Cr] & Hderef & Hrun).
  injection Hrun as <-. unfold derefFunction, ofOption in Hderef.
  change (modules (setFVisitedF ({[callee]} ∪ fVisitedF_ s) s)) with (modules s)
    in Hderef.
  destruct (findFunction callee (modules s)) as [[M' Cr']|] eqn:Hfind;
    [|discriminate]. injection Hderef as -> ->.
  split; [|simpl; set_solver].
  unfold enqueueStep, forwardStep. simpl.
  split; [repeat split; try reflexivity; set_solver|].
  split; [reflexivity|]. split; [intros b Hb; set_solver|].
  intros Hq g M0 Gr b Hg Hfg Hb. simpl in Hg.
  change (modules (setFVisitedF ({[callee]} ∪ fVisitedF_ s) s)) with (modules s)
    in Hfg.
  apply elem_of_union in Hg as [Hg | Hg].
  - apply elem_of_singleton in Hg. subst g. rewrite Hfind in Hfg.
    injection Hfg as <- <-. right. apply elem_of_app. right.
    apply list_elem_of_fmap_2. exact Hb.
  - destruct (Hq g M0 Gr b Hg Hfg Hb) as [H | H]; [left; exact H|].
    right. apply elem_of_app. left. exact H.
Qed.

Lemma enqueueStep_fVisited (a b : Slicing * list BlockId) (G : FuncId) :
  enqueueStep a b -> G ∈ fVisitedF_ (fst a) -> G ∈ fVisitedF_ (fst b).
Proof. intros ((_ & _ & _ & _ & H & _) & _). set_solver. Qed.

Lemma enqueueStep_Ctx (a b : Slicing * list BlockId) :
  enqueueStep a b -> Ctx_ (fst b) = Ctx_ (fst a).
Proof. intros ((H & _) & _). exact H. Qed.

Lemma enqueueCallees_spec (ins : Instruction) (sq sq' : Slicing * list BlockId) :
  enqueueCallees ins sq = Done sq' ->
  enqueueStep sq sq'
  /\ forall G, instCallee (Ctx_ (fst sq)) ins G -> G ∈ fVisitedF_ (fst sq').
Proof.
  unfold enqueueCallees, instCallee. destruct (icall ins) as [CB|].
  2:{ intros [= <-]. split; [apply enqueueStep_refl|].
      intros G (? & ? & ? & _). discriminate. }
  destruct (Callees (Ctx_ (fst sq)) !! iid ins) as [funcSet|].
  2:{ intros [= <-]. split; [apply enqueueStep_refl|].
      intros G (? & ? & _ & ? & _). discriminate. }
  intros Hrun.
  destruct (foldM_each enqueueStep (fun callee t => callee ∈ fVisitedF_ (fst t))
              enqueueCallee (elements funcSet)) with (s := sq) (s' := sq')
    as [HR HQ].
  - apply enqueueStep_refl.
  - apply enqueueStep_trans.
  - intros x t t' _. apply enqueueCallee_spec.
  - intros x t t' Hx Ht. eapply enqueueStep_fVisited; eassumption.
  - exact Hrun.
  - split; [exact HR|]. intros G (CB' & fs & _ & [= <-] & HG).
    apply HQ. apply elem_of_elements. exact HG.
Qed.

Lemma enqueueBlock_spec (l : list Instruction) (sq sq' : Slicing * list BlockId) :
  foldM enqueueCallees l sq = Done sq' ->
  enqueueStep sq sq'
  /\ forall ins G, ins ∈ l -> instCallee (Ctx_ (fst sq)) ins G ->
                   G ∈ fVisitedF_ (fst sq').
Proof.
  intros Hrun.
  destruct (foldM_each enqueueStep
              (fun ins t => forall G, instCallee (Ctx_ (fst t)) ins G ->
                                      G ∈ fVisitedF_ (fst t))
              enqueueCallees l) with (s := sq) (s' := sq') as [HR HQ].
  - apply enqueueStep_refl.
  - apply enqueueStep_trans.
  - intros x t t' _ Hx. apply enqueueCallees_spec in Hx as [HR HQ].
    split; [exact HR|]. intros G. rewrite (enqueueStep_Ctx _ _ HR). apply HQ.
  - intros x t t' HQ HR G. rewrite (enqueueStep_Ctx _ _ HR). intros HG.
    eapply enqueueStep_fVisited; [exact HR | apply HQ; exact HG].
  - exact Hrun.
  - split; [exact HR|]. intros ins G Hin.
    rewrite <- (enqueueStep_Ctx _ _ HR). apply HQ. exact Hin.
Qed.

Lemma blocksQueued_visit (s : Slicing) (current : BlockId) (q : list BlockId) :
  blocksQueued s (current :: q) ->
  blocksQueued (setVerboseBB ({[current]} ∪ verboseBB_ s) s) q.
Proof.
  intros Hq g M Gr b Hg Hfind Hb.
  destruct (Hq g M Gr b Hg Hfind Hb) as [H | H]; simpl.
  - left. set_solver.
  - apply elem_of_cons in H as [-> | H]; [left; set_solver | right; exact H].
Qed.

(** The loop of [forwardSlicingFunction]: every block that was in the
    queue ends in [verboseBB_]; no block of an entered function is lost;
    and the callees of the call sites of every block that was in the
    queue or was visited are entered. *)
Lemma forwardLoop_spec (fuel : nat) :
  forall (toVisit : list BlockId) (visited : gset BlockId) (s s' : Slicing),
    forwardLoop fuel toVisit visited s = Done s' ->
    forwardStep s s'
    /\ (forall b, b ∈ toVisit -> b ∈ verboseBB_ s')
    /\ (blocksQueued s toVisit -> forwardClosed s')
    /\ ((forall b G, b ∈ visited -> blockCallee (Ctx_ s) b G -> G ∈ fVisitedF_ s) ->
        forall b G, b ∈ toVisit \/ b ∈ visited ->
                    blockCallee (Ctx_ s) b G -> G ∈ fVisitedF_ s').
Proof.
  induction fuel as [|fuel IH]; intros [|current toVisit] visited s s'; simpl;
    try discriminate.
  - intros [= <-]. split; [apply forwardStep_refl|]. split; [intros b Hb; inversion Hb|].
    split; [auto|]. intros Hv b G [Hb | Hb]; [inversion Hb | apply Hv; exact Hb].
  - intros [= <-]. split; [apply forwardStep_refl|]. split; [intros b Hb; inversion Hb|].
    split; [auto|]. intros Hv b G [Hb | Hb]; [inversion Hb | apply Hv; exact Hb].
  - set (s0 := setVerboseBB ({[current]} ∪ verboseBB_ s) s).
    assert (H0 : forwardStep s s0).
    { unfold forwardStep, s0. simpl. repeat split; try reflexivity.
      apply union_subseteq_r. }
    destruct (bool_decide_reflect (current ∈ visited)) as [Hin|Hout].
    + intros Hrun. apply IH in Hrun as (Hstep & Hall & Hclosed & Hcallees).
      split; [eapply forwardStep_trans; eassumption|].
      destruct Hstep as (_ & _ & _ & _ & _ & Hbb).
      split; [|split].
      * intros b Hb. apply elem_of_cons in Hb as [-> | Hb]; [|auto].
        apply Hbb. unfold s0. simpl. apply elem_of_union_l, elem_of_singleton.
        reflexivity.
      * intros Hq. apply Hclosed. apply blocksQueued_visit. exact Hq.
      * intros Hv b G Hb. apply Hcallees; [exact Hv|].
        destruct Hb as [Hb | Hb]; [|right; exact Hb].
        apply elem_of_cons in Hb as [-> | Hb]; [right; exact Hin | left; exact Hb].
    + intros Hrun. apply obind_Done in Hrun as ([Fp BBr] & Hderef & Hrun).
      apply obind_Done in Hrun as ([s1 q1] & Henq & Hrun).
      apply enqueueBlock_spec in Henq as [Hstep1 Hcal1].
      apply IH in Hrun as (Hstep & Hall & Hclosed & Hcallees).
      destruct Hstep1 as (Hf1 & Hvb1 & Hq1 & Hbq1). simpl in Hf1, Hvb1, Hq1, Hbq1.
      assert (Hs1 : forwardStep s s1) by (eapply forwardStep_trans; eassumption).
      split; [eapply forwardStep_trans; eassumption|].
      destruct Hstep as (_ & _ & _ & _ & Hfv & Hbb).
      split; [|split].
      * intros b Hb. apply elem_of_cons in Hb as [-> | Hb]; [|auto].
        apply Hbb. rewrite Hvb1. unfold s0. simpl.
        apply elem_of_union_l, elem_of_singleton. reflexivity.
      * intros Hq. apply Hclosed, Hbq1. apply blocksQueued_visit. exact Hq.
      * intros Hv b G Hb.
        assert (Hctx : Ctx_ s1 = Ctx_ s) by (destruct Hs1 as (H & _); exact H).
        rewrite <- Hctx. apply Hcallees.
        -- intros b' G' Hb' Hbc. rewrite Hctx in Hbc.
           apply elem_of_union in Hb' as [Hb' | Hb'].
           ++ apply elem_of_singleton in Hb'. subst b'.
              destruct Hbc as (F & BBr' & ins & Hfind & Hins & Hic).
              unfold derefBlock, ofOption in Hderef.
              change (modules s0) with (Modules (Ctx_ s)) in Hderef.
              rewrite Hfind in Hderef. injection Hderef as -> ->.
              apply (Hcal1 ins G' Hins). exact Hic.
           ++ destruct Hs1 as (_ & _ & _ & _ & Hfv1 & _).
              apply Hfv1. eapply Hv; eassumption.
        -- destruct Hb as [Hb | Hb]; [|right; apply elem_of_union_r; exact Hb].
           apply elem_of_cons in Hb as [-> | Hb]; [|left; auto].
           right. apply elem_of_union_l, elem_of_singleton. reflexivity.
Qed.

(** [forwardSlicingFunction] on [F]: the blocks of [F] end in
    [verboseBB_], the callees of its call sites are entered, and the
    state stays closed. *)
Lemma forwardSlicingFunction_spec (fuel : nat) (F : FuncId) (s s' : Slicing) :
  forwardSlicingFunction fuel F s = Done s' ->
  forwardStep s s'
  /\ (forwardClosed s -> forwardClosed s')
  /\ exists M Fr,
       findFunction F (modules s) = Some (M, Fr)
       /\ (forall b, b ∈ blocks Fr -> bid b ∈ verboseBB_ s')
       /\ (forall b G, b ∈ blocks Fr -> blockCallee (Ctx_ s) (bid b) G ->
                       G ∈ fVisitedF_ s').
Proof.
  unfold forwardSlicingFunction. intros Hrun.
  apply obind_Done in Hrun as ([M Fr] & Hderef & Hrun).
  unfold derefFunction, ofOption in Hderef.
  destruct (findFunction F (modules s)) as [[M' Fr']|] eqn:Hfind; [|discriminate].
  injection Hderef as -> ->.
  apply forwardLoop_spec in Hrun as (Hstep & Hall & Hclosed & Hcallees).
  split; [exact Hstep|]. split.
  - intros Hc. apply Hclosed. intros g M0 Gr b Hg Hfg Hb.
    destruct (Hc g M0 Gr b Hg Hfg Hb) as [H | H]; [left; exact H | inversion H].
  - exists M, Fr. split; [reflexivity|]. split.
    + intros b Hb. apply Hall. apply list_elem_of_fmap_2. exact Hb.
    + intros b G Hb. apply Hcallees; [set_solver|].
      left. apply list_elem_of_fmap_2. exact Hb.
Qed.

(** ** The arena of blocks *)

Lemma findBlock_unique (fs : list Function) (Fr : Function) (b : BasicBlock) :
  NoDup (map bid (flat_map blocks fs)) -> Fr ∈ fs -> b ∈ blocks Fr ->
  findBlockInFunctions (bid b) fs = Some (Fr, b).
Proof.
  induction fs as [|F0 fs IH]; intros Hnd HF Hb; [inversion HF|].
  simpl in Hnd. rewrite map_app in Hnd.
  apply NoDup_app in Hnd as (Hnd0 & Hdisj & Hnd). simpl. unfold findBlockIn.
  assert (Htail : Fr ∈ fs -> bid b ∈ map bid (flat_map blocks fs)).
  { intros H. apply list_elem_of_fmap_2. rewrite list_elem_of_In, in_flat_map.
    exists Fr. rewrite <- !list_elem_of_In. auto. }
  destruct (List.find _ (blocks F0)) as [b0|] eqn:Hfind.
  - apply find_some in Hfind as [Hin0 Heq0]. apply Pos.eqb_eq in Heq0.
    apply list_elem_of_In in Hin0.
    apply elem_of_cons in HF as [-> | HF].
    + f_equal. f_equal. apply (NoDup_key_inj bid (blocks F0)); assumption.
    + exfalso. apply (Hdisj (bid b)); [|auto].
      rewrite <- Heq0. apply list_elem_of_fmap_2. exact Hin0.
  - apply elem_of_cons in HF as [-> | HF]; [|auto].
    exfalso. apply list_elem_of_In in Hb.
    apply (find_none _ _ Hfind) in Hb. simpl in Hb.
    rewrite Pos.eqb_refl in Hb. discriminate.
Qed.

Lemma wf_block_owner (ms : list Module) (G : FuncId) (M : Module) (Gr : Function)
    (b : BasicBlock) :
  wfModules ms = true -> findFunction G ms = Some (M, Gr) -> b ∈ blocks Gr ->
  findBlockInFunctions (bid b) (allFunctions ms) = Some (Gr, b).
Proof.
  intros Hwf Hfind Hb. apply wfModules_NoDup in Hwf as (_ & Hnd & _).
  apply findBlock_unique; [exact Hnd | | exact Hb].
  apply functionOf_allFunctions. eapply findFunction_functionOf. exact Hfind.
Qed.

(** A callee of [F] is a callee of one of the blocks of [F]. *)
Lemma callsTo_blockCallee (c : GlobalContext) (F G : FuncId) :
  wfModules (Modules c) = true -> callsTo c F G ->
  exists M Fr b, findFunction F (Modules c) = Some (M, Fr) /\ b ∈ blocks Fr
                 /\ blockCallee c (bid b) G.
Proof.
  intros Hwf (M & Fr & ins & CB & fs & Hfind & Hins & Hcall & Hfs & HG).
  unfold instructions in Hins. rewrite list_elem_of_In, in_flat_map in Hins.
  destruct Hins as (b & Hb & Hins). rewrite <- !list_elem_of_In in *.
  exists M, Fr, b. split; [exact Hfind|]. split; [exact Hb|].
  exists Fr, b, ins. split; [eapply wf_block_owner; eassumption|].
  split; [exact Hins|]. exists CB, fs. auto.
Qed.

(** ** The output of [dump] *)

Lemma forwardSlicingFunctions_spec (fuel : nat) (l : list FuncId) (s s' : Slicing) :
  foldM (forwardSlicingFunction fuel) l s = Done s' ->
  forwardStep s s'
  /\ (forwardClosed s -> forwardClosed s')
  /\ forall F, F ∈ l ->
       exists M Fr,
         findFunction F (modules s) = Some (M, Fr)
         /\ (forall b, b ∈ blocks Fr -> bid b ∈ verboseBB_ s')
         /\ (forall b G, b ∈ blocks Fr -> blockCallee (Ctx_ s) (bid b) G ->
                         G ∈ fVisitedF_ s').
Proof.
  intros Hrun.
  destruct (foldM_each
              (fun a b => forwardStep a b /\ (forwardClosed a -> forwardClosed b))
              (fun F t => exists M Fr,
                 findFunction F (modules t) = Some (M, Fr)
                 /\ (forall b, b ∈ blocks Fr -> bid b ∈ verboseBB_ t)
                 /\ (forall b G, b ∈ blocks Fr -> blockCallee (Ctx_ t) (bid b) G ->
                                 G ∈ fVisitedF_ t))
              (forwardSlicingFunction fuel) l) with (s := s) (s' := s')
    as [[HR HC] HQ].
  - intros t. split; [apply forwardStep_refl | auto].
  - intros t1 t2 t3 [A1 A2] [B1 B2].
    split; [eapply forwardStep_trans; eassumption | auto].
  - intros F t t' _ HF. apply forwardSlicingFunction_spec in HF
      as (Hstep & Hclosed & M & Fr & Hfind & Hbb & Hcal).
    split; [split; assumption|]. exists M, Fr.
    destruct Hstep as (Hctx & _). unfold modules. rewrite Hctx. auto.
  - intros F t t' (M & Fr & Hfind & Hbb & Hcal) [(Hctx & _ & _ & _ & Hfv & Hvb) _].
    exists M, Fr. unfold modules. rewrite Hctx.
    split; [exact Hfind|]. split; [intros b Hb; apply Hvb; auto|].
    intros b G Hb HG. apply Hfv. eapply Hcal; eassumption.
  - exact Hrun.
  - split; [exact HR|]. split; [exact HC|]. intros F HF.
    destruct (HQ F HF) as (M & Fr & Hfind & Hbb & Hcal).
    destruct HR as (Hctx & _). unfold modules in *. rewrite Hctx in *. eauto.
Qed.

(** The expansion of depth 1 adds [F] and callees of [F] only. *)
Lemma forwardSlicingFunctionWithDepth_one (fuel : nat) (c : GlobalContext)
    (F : FuncId) (v v' : gset FuncId) :
  forwardSlicingFunctionWithDepth fuel c F 1 v = Done v' ->
  forall G, G ∈ v' -> G ∈ v \/ G = F \/ callsTo c F G.
Proof.
  destruct fuel as [|fuel]; [discriminate|].
  cbn [forwardSlicingFunctionWithDepth]. change (Z.eqb 1 0) with false. cbn iota.
  intros Hrun. apply obind_Done in Hrun as ([M Fr] & Hderef & Hrun).
  unfold derefFunction, ofOption in Hderef.
  destruct (findFunction F (Modules c)) as [[M' Fr']|] eqn:Hfind; [|discriminate].
  injection Hderef as -> ->.
  eapply (foldM_invariant
            (fun w => forall G, G ∈ w -> G ∈ v \/ G = F \/ callsTo c F G));
    [ | | exact Hrun].
  - intros ins w w' Hins Hw Hstep. cbv beta in Hstep.
    destruct (icall ins) as [CB|] eqn:Hcall; [|injection Hstep as <-; exact Hw].
    destruct (Callees c !! iid ins) as [fs|] eqn:Hfs;
      [|injection Hstep as <-; exact Hw].
    eapply (foldM_invariant
              (fun w => forall G, G ∈ w -> G ∈ v \/ G = F \/ callsTo c F G));
      [ | exact Hw | exact Hstep].
    intros callee u u' Hc Hu Hcallee. cbv beta in Hcallee.
    destruct fuel as [|fuel]; [discriminate|].
    cbn [forwardSlicingFunctionWithDepth] in Hcallee.
    change (Z.eqb (1 - 1) 0) with true in Hcallee. cbn iota in Hcallee.
    injection Hcallee as <-. intros G HG.
    apply elem_of_union in HG as [HG | HG]; [|auto].
    apply elem_of_singleton in HG. subst G. right. right.
    exists M, Fr, ins, CB, fs. apply elem_of_elements in Hc. auto.
  - intros G HG. apply elem_of_union in HG as [HG | HG]; [|auto].
    apply elem_of_singleton in HG. auto.
Qed.

Lemma nameLine_Done (ms : list Module) (G : FuncId) (line : string) :
  nameLine ms G = Done line ->
  exists M Gr, findFunction G ms = Some (M, Gr) /\ line = fname Gr ++ Sl.nl.
Proof.
  unfold nameLine, derefFunction, ofOption.
  destruct (findFunction G ms) as [[M Gr]|]; simpl; [|discriminate].
  intros [= <-]. eauto.
Qed.

Lemma dumpVerboseFunction_spec (fuel : nat) (s : Slicing) (F : FuncId)
    (dv dv' : DumpSets * gset FuncId) :
  F ∈ verboseF_ s ->
  dumpVerboseFunction fuel s 1 F dv = Done dv' ->
  dumpInvariant s (fst dv) /\ (forall G, G ∈ snd dv -> verboseSource s G) ->
  dumpInvariant s (fst dv') /\ (forall G, G ∈ snd dv' -> verboseSource s G).
Proof.
  destruct dv as [d v]. unfold dumpVerboseFunction. intros HF Hrun [[Heq Hinv] Hv].
  apply obind_Done in Hrun as (line & Hline & Hrun).
  apply obind_Done in Hrun as (v1 & Hdepth & Hrun). injection Hrun as <-.
  simpl in *. split; [split; [exact Heq|]|].
  - intros l Hl. apply elem_of_union in Hl as [Hl | Hl]; [|auto].
    apply elem_of_singleton in Hl. subst l. right. exists F.
    split; [left; exact HF | exact Hline].
  - intros G HG.
    destruct (forwardSlicingFunctionWithDepth_one _ _ _ _ _ Hdepth G HG)
      as [H | [-> | H]]; [auto | left; exact HF | right; eauto].
Qed.

Lemma dumpDepthFunction_spec (s : Slicing) (G : FuncId) (d d' : DumpSets) :
  verboseSource s G -> dumpDepthFunction (modules s) G d = Done d' ->
  dumpInvariant s d -> dumpInvariant s d'.
Proof.
  unfold dumpDepthFunction. intros HG Hrun [Heq Hinv].
  apply obind_Done in Hrun as (line & Hline & Hrun). injection Hrun as <-.
  split; [exact Heq|]. simpl. intros l Hl.
  apply elem_of_union in Hl as [Hl | Hl]; [|auto].
  apply elem_of_singleton in Hl. subst l. right. eauto.
Qed.

Lemma dumpVisitedBlock_spec (s : Slicing) (BB : BlockId) (d d' : DumpSets) :
  dumpVisitedBlock (modules s) BB d = Done d' ->
  dumpInvariant s d -> dumpInvariant s d'.
Proof.
  unfold dumpVisitedBlock. intros Hrun [Heq Hinv].
  apply obind_Done in Hrun as ([F BBr] & _ & Hrun).
  assert (Hnames : forall l,
            l ∈ {[fname F ++ Sl.nl]} ∪ uniqueOutputsFunc d ->
            l ∈ {[fname F ++ Sl.nl]} ∪ uniqueOutputsFuncVerbose d
            \/ exists G, verboseSource s G /\ nameLine (modules s) G = Done l).
  { intros l Hl. apply elem_of_union in Hl as [Hl | Hl].
    - left. apply elem_of_union_l. exact Hl.
    - destruct (Hinv l Hl) as [H | H]; [left; apply elem_of_union_r; exact H | auto]. }
  destruct (blockLine (insts BBr)); injection Hrun as <-; split; simpl;
    try exact Hnames; congruence.
Qed.

Lemma dumpVerboseBlock_spec (s : Slicing) (BB : BlockId) (d d' : DumpSets) :
  dumpVerboseBlock (modules s) BB d = Done d' ->
  funcVerboseGrows d d'
  /\ exists F BBr,
       findBlockInFunctions BB (allFunctions (modules s)) = Some (F, BBr)
       /\ fname F ++ Sl.nl ∈ uniqueOutputsFuncVerbose d'.
Proof.
  unfold dumpVerboseBlock, derefBlock, ofOption. intros Hrun.
  destruct (findBlockInFunctions BB (allFunctions (modules s))) as [[F BBr]|];
    simpl in Hrun; [|discriminate].
  injection Hrun as <-. split.
  - unfold funcVerboseGrows. simpl. repeat split. apply union_subseteq_r.
  - exists F, BBr. split; [reflexivity|]. simpl.
    apply elem_of_union_l, elem_of_singleton. reflexivity.
Qed.

Lemma dumpVerboseBlocks_spec (s : Slicing) (l : list BlockId) (d d' : DumpSets) :
  foldM (dumpVerboseBlock (modules s)) l d = Done d' ->
  funcVerboseGrows d d'
  /\ forall BB, BB ∈ l ->
       exists F BBr,
         findBlockInFunctions BB (allFunctions (modules s)) = Some (F, BBr)
         /\ fname F ++ Sl.nl ∈ uniqueOutputsFuncVerbose d'.
Proof.
  apply (foldM_each funcVerboseGrows
           (fun BB t => exists F BBr,
              findBlockInFunctions BB (allFunctions (modules s)) = Some (F, BBr)
              /\ fname F ++ Sl.nl ∈ uniqueOutputsFuncVerbose t)).
  - intros t. unfold funcVerboseGrows. repeat split; reflexivity.
  - unfold funcVerboseGrows. intros t1 t2 t3 (A1 & A2 & A3 & A4) (B1 & B2 & B3 & B4).
    repeat split; try congruence. etransitivity; eassumption.
  - intros BB t t' _. apply dumpVerboseBlock_spec.
  - intros BB t t' (F & BBr & Hfind & Hin) (Hsub & _). exists F, BBr.
    split; [exact Hfind | apply Hsub; exact Hin].
Qed.

Lemma forwardClosedb_spec (s : Slicing) : forwardClosedb s = true -> forwardClosed s.
Proof.
  unfold forwardClosedb, forwardClosed, blocksQueued.
  rewrite forallb_forall. intros Hall g M Gr b Hg Hfind Hb.
  apply elem_of_elements, list_elem_of_In in Hg. specialize (Hall g Hg).
  rewrite Hfind in Hall. rewrite forallb_forall in Hall.
  apply list_elem_of_In in Hb. specialize (Hall b Hb).
  apply bool_decide_eq_true in Hall. left. exact Hall.
Qed.

(** The files of [dump] on a state that forward slicing has left with
    an empty queue. *)
Lemma dump_files_of_closed_state (fuel : nat) (EC : bool) (s s' : Slicing)
    (files : SliceFiles) :
  wfModules (modules s) = true -> forwardClosed s ->
  dump fuel EC s = Done (s', files) ->
  sliceFile files = sliceVerboseFile files
  /\ forall line, line ∈ funcFile files ->
       line ∈ funcVerboseFile files \/ bodylessName (modules s) line.
Proof.
  intros Hwf Hclosed. unfold dump. destruct EC.
  { intros [= <- <-]. split; [reflexivity|]. intros line Hl. simpl in Hl. set_solver. }
  intros Hrun.
  apply obind_Done in Hrun as (s1 & Hforward & Hrun).
  apply obind_Done in Hrun as ([d1 v] & Hd1 & Hrun).
  apply obind_Done in Hrun as (d2 & Hd2 & Hrun).
  apply obind_Done in Hrun as (d3 & Hd3 & Hrun).
  apply obind_Done in Hrun as (d4 & Hd4 & Hrun).
  injection Hrun as <- <-. simpl.
  (* the forward slices of the members of [verboseF_] *)
  apply forwardSlicingFunctions_spec in Hforward as (Hstep & Hclosed1 & Hmembers).
  specialize (Hclosed1 Hclosed).
  destruct Hstep as (Hctx & HverboseF & _).
  assert (Hms : modules s1 = modules s) by (unfold modules; rewrite Hctx; reflexivity).
  (* the working sets after the loops that fill the function set *)
  assert (H1 : dumpInvariant s1 d1 /\ forall G, G ∈ v -> verboseSource s1 G).
  { apply (foldM_invariant
             (fun dv => dumpInvariant s1 (fst dv)
                        /\ forall G, G ∈ snd dv -> verboseSource s1 G)
             (dumpVerboseFunction fuel s1 1) (elements (verboseF_ s))
             (noOutputs, ∅) (d1, v)); [ | | exact Hd1].
    - intros F dv dv' HF Hdv Hrun. eapply dumpVerboseFunction_spec; [|exact Hrun|exact Hdv].
      rewrite HverboseF. apply elem_of_elements. exact HF.
    - split; [split; [reflexivity|] | ]; simpl; intros x Hx; set_solver. }
  destruct H1 as [H1 Hv].
  assert (H2 : dumpInvariant s1 d2).
  { apply (foldM_invariant (dumpInvariant s1) (dumpDepthFunction (modules s1))
             (elements v) d1 d2); [ | exact H1 | exact Hd2].
    intros G t t' HG Ht Hrun. eapply dumpDepthFunction_spec; [|exact Hrun|exact Ht].
    apply Hv. apply elem_of_elements. exact HG. }
  assert (H3 : dumpInvariant s1 d3).
  { apply (foldM_invariant (dumpInvariant s1) (dumpVisitedBlock (modules s1))
             (elements (visitedBB_ s1)) d2 d3); [ | exact H2 | exact Hd3].
    intros BB t t' _ Ht Hrun. eapply dumpVisitedBlock_spec; eassumption. }
  apply dumpVerboseBlocks_spec in Hd4 as ((Hsub & Hfunc & Hout & Houtv) & Hblocks).
  destruct H3 as [Heq Hnames].
  split; [congruence|].
  intros line Hline. rewrite Hfunc in Hline.
  destruct (Hnames line Hline) as [Hin | (G & Hsrc & Hname)]; [left; auto|].
  apply nameLine_Done in Hname as (M & Gr & Hfind & ->).
  destruct (blocks Gr) as [|b bs] eqn:Hbs.
  { right. exists G, M, Gr. rewrite <- Hms. auto. }
  left.
  (* a block of [G] is in [verboseBB_], and the loop over it wrote the name *)
  assert (Hb : b ∈ blocks Gr) by (rewrite Hbs; left).
  assert (Hvb : bid b ∈ verboseBB_ s1).
  { destruct Hsrc as [HG | (F & HF & Hcall)].
    - rewrite HverboseF in HG. apply elem_of_elements in HG.
      destruct (Hmembers G HG) as (M' & Fr' & Hfind' & Hbb & _).
      rewrite <- Hms, Hfind in Hfind'. injection Hfind' as <- <-. auto.
    - rewrite HverboseF in HF. apply elem_of_elements in HF.
      destruct (Hmembers F HF) as (M0 & Fr0 & Hfind0 & _ & Hcal).
      rewrite Hctx in Hcall.
      apply callsTo_blockCallee in Hcall as (M1 & Fr1 & b0 & Hfind1 & Hb0 & Hbc);
        [|exact Hwf].
      change (Modules (Ctx_ s)) with (modules s) in Hfind1.
      rewrite Hfind0 in Hfind1. injection Hfind1 as <- <-.
      assert (HG : G ∈ fVisitedF_ s1) by (eapply Hcal; eassumption).
      destruct (Hclosed1 G M Gr b HG Hfind Hb) as [H | H]; [exact H | inversion H]. }
  apply elem_of_elements in Hvb.
  destruct (Hblocks (bid b) Hvb) as (F' & BBr & Hfind' & Hin).
  rewrite Hms in Hfind, Hfind'.
  rewrite (wf_block_owner (modules s) G M Gr b Hwf Hfind Hb) in Hfind'.
  injection Hfind' as <- <-. exact Hin.
Qed.


(** ** Path normalisation: what holds of every path *)

Lemma append_cons (c : ascii) (s t : string) : String c s ++ t = String c (s ++ t).
Proof. reflexivity. Qed.

Lemma append_empty_l (s : string) : EmptyString ++ s = s.
Proof. reflexivity. Qed.

Lemma append_empty_r (s : string) : s ++ EmptyString = s.
Proof.
  induction s as [|c s IH]; [reflexivity|]. rewrite append_cons, IH. reflexivity.
Qed.

Lemma append_assoc (s1 s2 s3 : string) : (s1 ++ s2) ++ s3 = s1 ++ (s2 ++ s3).
Proof.
  induction s1 as [|c s1 IH]; [reflexivity|]. rewrite !append_cons, IH. reflexivity.
Qed.

Lemma length_append (s1 s2 : string) :
  String.length (s1 ++ s2) = (String.length s1 + String.length s2)%nat.
Proof.
  induction s1 as [|c s1 IH]; [reflexivity|]. rewrite append_cons. simpl.
  rewrite IH. reflexivity.
Qed.

Lemma substring_prefix (s t : string) :
  String.substring 0 (String.length s) (s ++ t) = s.
Proof.
  induction s as [|c s IH].
  - rewrite append_empty_l. destruct t; reflexivity.
  - rewrite append_cons. simpl. rewrite IH. reflexivity.
Qed.

(** The final [substr] cuts the slash at the end off. *)
Lemma substr0_strip (s : string) :
  Z.of_nat (String.length s) < 2 ^ 64 ->
  Str.substr0 (s ++ "/") (Str.size_t_sub (Str.size (s ++ "/")) 1) = s.
Proof.
  intros Hlen. unfold Str.substr0, Str.size_t_sub, Str.size.
  rewrite length_append. simpl String.length.
  replace (Z.of_N (N.of_nat (String.length s + 1)) - Z.of_N 1)
    with (Z.of_nat (String.length s)) by lia.
  rewrite Z.mod_small by lia.
  replace (N.to_nat (N.min (Z.to_N (Z.of_nat (String.length s)))
                           (N.of_nat (String.length s + 1))))
    with (String.length s) by lia.
  apply substring_prefix.
Qed.

Lemma joinSlash_from (cs : list string) (acc : string) :
  fold_left (fun acc comp => acc ++ (comp ++ "/")) cs acc = acc ++ joinSlash cs.
Proof.
  unfold joinSlash. revert acc. induction cs as [|c r IH]; intros acc;
    cbn [fold_left].
  - symmetry. apply append_empty_r.
  - rewrite (IH (acc ++ (c ++ "/"))), (IH (EmptyString ++ (c ++ "/"))).
    rewrite append_empty_l, append_assoc. reflexivity.
Qed.

Lemma joinSlash_cons (c : string) (r : list string) :
  joinSlash (c :: r) = c ++ "/" ++ joinSlash r.
Proof.
  unfold joinSlash at 1. cbn [fold_left]. rewrite joinSlash_from.
  rewrite append_empty_l. apply append_assoc.
Qed.

Lemma joinSlash_concat (cs : list string) :
  cs <> [] -> joinSlash cs = String.concat "/" cs ++ "/".
Proof.
  induction cs as [|c r IH]; intros Hne; [contradiction|].
  rewrite joinSlash_cons. destruct r as [|c2 r].
  - reflexivity.
  - rewrite IH by discriminate. simpl String.concat.
    rewrite !append_assoc. reflexivity.
Qed.

Lemma joinSlash_length (cs : list string) : String.length (joinSlash cs) = weight cs.
Proof.
  induction cs as [|c r IH]; [reflexivity|].
  rewrite joinSlash_cons, !length_append, IH. simpl. lia.
Qed.

(** *** The components *)

Lemma hasSlash_append (s t : string) : hasSlash (s ++ t) = hasSlash s || hasSlash t.
Proof.
  induction s as [|c s IH]; simpl; [reflexivity|]. rewrite IH. apply orb_assoc.
Qed.

Lemma getlines_noSlash (ss : string) :
  forall component, hasSlash component = false ->
    Forall (fun c => hasSlash c = false) (Path.getlines component ss).
Proof.
  induction ss as [|a ss IH]; intros component Hc; simpl.
  - destruct (Str.empty component); repeat constructor. exact Hc.
  - destruct (Ascii.eqb a Path.slash) eqn:Ha.
    + constructor; [exact Hc | apply IH; reflexivity].
    + apply IH. rewrite hasSlash_append, Hc. simpl. rewrite Ha. reflexivity.
Qed.

Lemma getlines_weight (ss : string) :
  forall component,
    (weight (Path.getlines component ss)
     <= String.length component + String.length ss + 1)%nat.
Proof.
  induction ss as [|a ss IH]; intros component; simpl.
  - destruct (Str.empty component); simpl; lia.
  - destruct (Ascii.eqb a Path.slash).
    + simpl. specialize (IH EmptyString). simpl in IH. lia.
    + specialize (IH (component ++ String a EmptyString)).
      rewrite length_append in IH. simpl in IH. lia.
Qed.

Lemma removelast_Forall {A : Type} (P : A -> Prop) (l : list A) :
  Forall P l -> Forall P (removelast l).
Proof.
  induction 1 as [|x l Hx Hl IH]; simpl; [constructor|].
  destruct l; [constructor | constructor; assumption].
Qed.

Lemma removelast_weight (l : list string) : (weight (removelast l) <= weight l)%nat.
Proof.
  induction l as [|x l IH]; simpl; [lia|]. destruct l; simpl in *; lia.
Qed.

Lemma weight_app (l1 l2 : list string) :
  weight (l1 ++ l2) = (weight l1 + weight l2)%nat.
Proof. induction l1 as [|x l1 IH]; simpl; [reflexivity | rewrite IH; lia]. Qed.

Lemma str_empty_iff (s : string) : Str.empty s = true <-> s = EmptyString.
Proof. destruct s; simpl; split; congruence. Qed.

Lemma pushComponent_good (cs : list string) (comp : string) :
  Forall goodComponent cs -> hasSlash comp = false ->
  Forall goodComponent (Path.pushComponent cs comp).
Proof.
  intros Hcs Hcomp. unfold Path.pushComponent.
  destruct (String.eqb_spec comp "..") as [Hdd|Hdd].
  - destruct cs; [exact Hcs | apply removelast_Forall; exact Hcs].
  - destruct (String.eqb_spec comp ".") as [Hd|Hd]; [exact Hcs|].
    destruct (Str.empty comp) eqn:He; [exact Hcs|]. simpl.
    apply Forall_app. split; [exact Hcs|]. constructor; [|constructor].
    repeat split; try assumption. intros ->. discriminate.
Qed.

Lemma pushComponent_weight (cs : list string) (comp : string) :
  (weight (Path.pushComponent cs comp) <= weight cs + String.length comp + 1)%nat.
Proof.
  unfold Path.pushComponent. destruct (String.eqb comp "..").
  - destruct cs as [|x cs]; [simpl; lia|].
    pose proof (removelast_weight (x :: cs)). lia.
  - destruct (negb (String.eqb comp ".") && negb (Str.empty comp)); [|lia].
    rewrite weight_app. simpl. lia.
Qed.

Lemma components_good (pathStr : string) : Forall goodComponent (components pathStr).
Proof.
  unfold components.
  pose proof (getlines_noSlash pathStr EmptyString eq_refl) as Hl.
  generalize (@nil string) (Forall_nil_2 goodComponent).
  induction Hl as [|x l Hx Hl IH]; intros cs Hcs; simpl; [exact Hcs|].
  apply IH. apply pushComponent_good; assumption.
Qed.

Lemma components_weight (pathStr : string) :
  (weight (components pathStr) <= String.length pathStr + 1)%nat.
Proof.
  unfold components.
  pose proof (getlines_weight pathStr EmptyString) as Hw. simpl in Hw.
  assert (H : forall l cs, (weight (fold_left Path.pushComponent l cs)
                            <= weight cs + weight l)%nat).
  { induction l as [|x l IH]; intros cs; simpl; [lia|].
    specialize (IH (Path.pushComponent cs x)).
    pose proof (pushComponent_weight cs x). lia. }
  specialize (H (Path.getlines EmptyString pathStr) []). simpl in H. lia.
Qed.

(** *** The result *)

(** The result of [normalizePath]: empty when no component is left,
    else the components with slashes between them, after a slash when
    the path began with one. *)
Lemma normalizePath_form (pathStr : string) :
  fitsSizeT pathStr ->
  Path.normalizePath pathStr
  = match components pathStr with
    | [] => EmptyString
    | _ :: _ =>
        (if Path.frontIsSlash pathStr then "/" else EmptyString)
        ++ String.concat "/" (components pathStr)
    end.
Proof.
  intros Hfit. unfold Path.normalizePath. fold (components pathStr).
  fold (joinSlash (components pathStr)).
  pose proof (components_weight pathStr) as Hw.
  destruct (components pathStr) as [|c r] eqn:Hcs.
  - destruct (Path.frontIsSlash pathStr); reflexivity.
  - rewrite <- joinSlash_length in Hw.
    rewrite joinSlash_concat in * by discriminate.
    set (body := String.concat "/" (c :: r)) in *.
    rewrite length_append in Hw. change (String.length "/") with 1%nat in Hw.
    unfold fitsSizeT in Hfit.
    destruct (Path.frontIsSlash pathStr).
    + rewrite <- append_assoc. apply substr0_strip.
      rewrite length_append. change (String.length "/") with 1%nat. lia.
    + rewrite append_empty_l. apply substr0_strip. lia.
Qed.

(** *** Reading a normalised path again *)

Lemma getlines_append (c rest : string) :
  hasSlash c = false ->
  forall component,
    Path.getlines component (c ++ rest) = Path.getlines (component ++ c) rest.
Proof.
  induction c as [|a c IH]; intros Hc component.
  - rewrite append_empty_l, append_empty_r. reflexivity.
  - simpl in Hc. apply orb_false_iff in Hc as [Ha Hc].
    rewrite append_cons. simpl. rewrite Ha. rewrite (IH Hc).
    rewrite append_assoc. reflexivity.
Qed.

Lemma getlines_concat (cs : list string) :
  Forall goodComponent cs -> cs <> [] ->
  Path.getlines EmptyString (String.concat "/" cs) = cs.
Proof.
  induction 1 as [|c r (Hne & _ & _ & Hslash) Hr IH]; intros Hnil; [contradiction|].
  destruct r as [|c2 r].
  - simpl String.concat. rewrite <- (append_empty_r c) at 1.
    rewrite (getlines_append c EmptyString Hslash), append_empty_l. simpl.
    destruct c; [contradiction | reflexivity].
  - change (String.concat "/" (c :: c2 :: r))
      with (c ++ String Path.slash (String.concat "/" (c2 :: r))).
    rewrite (getlines_append c _ Hslash), append_empty_l.
    cbn [Path.getlines]. change (Ascii.eqb Path.slash Path.slash) with true.
    cbv iota. destruct c; [contradiction|].
    rewrite IH by discriminate. reflexivity.
Qed.

Lemma pushComponents_good (cs : list string) :
  Forall goodComponent cs ->
  forall acc, fold_left Path.pushComponent cs acc = (acc ++ cs)%list.
Proof.
  induction 1 as [|c r (Hne & Hd & Hdd & _) Hr IH]; intros acc; simpl.
  - rewrite app_nil_r. reflexivity.
  - rewrite IH. unfold Path.pushComponent.
    destruct (String.eqb_spec c ".."); [contradiction|].
    destruct (String.eqb_spec c "."); [contradiction|].
    destruct c; [contradiction|]. simpl. rewrite <- app_assoc. reflexivity.
Qed.

Lemma components_concat (cs : list string) (abs : bool) :
  Forall goodComponent cs -> cs <> [] ->
  components ((if abs then "/" else EmptyString) ++ String.concat "/" cs) = cs.
Proof.
  intros Hgood Hne. unfold components. destruct abs.
  - change ("/" ++ String.concat "/" cs)
      with (String Path.slash (String.concat "/" cs)).
    simpl. rewrite getlines_concat by assumption.
    change (Path.pushComponent [] EmptyString) with (@nil string).
    apply (pushComponents_good cs Hgood []).
  - rewrite append_empty_l, getlines_concat by assumption.
    apply (pushComponents_good cs Hgood []).
Qed.

Lemma frontIsSlash_good (c rest : string) :
  goodComponent c -> Path.frontIsSlash (c ++ rest) = false.
Proof.
  intros (Hne & _ & _ & Hslash). destruct c as [|a c]; [contradiction|].
  simpl in Hslash. apply orb_false_iff in Hslash as [Ha _]. exact Ha.
Qed.

Lemma frontIsSlash_concat (cs : list string) :
  Forall goodComponent cs -> cs <> [] ->
  Path.frontIsSlash (String.concat "/" cs) = false.
Proof.
  intros Hgood Hne. destruct Hgood as [|c r Hc Hr]; [contradiction|].
  destruct r.
  - rewrite <- (append_empty_r c). apply frontIsSlash_good. exact Hc.
  - apply (frontIsSlash_good c _ Hc).
Qed.

Lemma concat_length (cs : list string) :
  cs <> [] -> (String.length (String.concat "/" cs) + 1 = weight cs)%nat.
Proof.
  intros Hne. rewrite <- joinSlash_length, joinSlash_concat by exact Hne.
  rewrite length_append. reflexivity.
Qed.

(** The result is no longer than the path. *)
Lemma normalizePath_length (pathStr : string) :
  fitsSizeT pathStr ->
  (String.length (Path.normalizePath pathStr) <= String.length pathStr)%nat.
Proof.
  intros Hfit. rewrite (normalizePath_form pathStr Hfit).
  destruct (components pathStr) as [|c r] eqn:Hcs; [simpl; lia|].
  rewrite <- Hcs. assert (Hne : components pathStr <> []) by (rewrite Hcs; discriminate).
  pose proof (concat_length _ Hne) as Hlen.
  destruct pathStr as [|a s']; [discriminate Hcs|].
  simpl Path.frontIsSlash. destruct (Ascii.eqb a Path.slash) eqn:Ha.
  - (* the empty component before the leading slash is dropped *)
    assert (Hc : components (String a s') = components s').
    { unfold components. simpl. rewrite Ha. reflexivity. }
    rewrite Hc in *. pose proof (components_weight s').
    rewrite length_append. simpl. lia.
  - pose proof (components_weight (String a s')).
    rewrite append_empty_l. simpl in *. lia.
Qed.

(** Normalising a normalised path changes nothing. *)
Lemma normalizePath_twice (pathStr : string) :
  fitsSizeT pathStr ->
  Path.normalizePath (Path.normalizePath pathStr) = Path.normalizePath pathStr.
Proof.
  intros Hfit.
  assert (Hfit' : fitsSizeT (Path.normalizePath pathStr)).
  { pose proof (normalizePath_length pathStr Hfit). unfold fitsSizeT in *. lia. }
  rewrite (normalizePath_form _ Hfit').
  rewrite (normalizePath_form pathStr Hfit).
  pose proof (components_good pathStr) as Hgood.
  destruct (components pathStr) as [|c r] eqn:Hcs; [reflexivity|].
  rewrite (components_concat (c :: r) (Path.frontIsSlash pathStr) Hgood)
    by discriminate.
  destruct (Path.frontIsSlash pathStr).
  - reflexivity.
  - rewrite append_empty_l, frontIsSlash_concat by (assumption || discriminate).
    reflexivity.
Qed.

(** X1: normalising twice is normalising once. *)
Theorem normalizePath_idempotent (pathStr : string) :
  fitsSizeT pathStr ->
  Path.normalizePath (Path.normalizePath pathStr) = Path.normalizePath pathStr.
Proof. apply normalizePath_twice. Qed.

Lemma normalizePath_idempotent_witness :
  fitsSizeT "/a/./b/../c"
  /\ Path.normalizePath (Path.normalizePath "/a/./b/../c")
     = Path.normalizePath "/a/./b/../c".
Proof.
  assert (H : fitsSizeT "/a/./b/../c") by (unfold fitsSizeT; simpl; lia).
  split; [exact H | apply (normalizePath_idempotent "/a/./b/../c" H)].
Defined.

Lemma endsWithSlash_append (s t : string) :
  t <> EmptyString -> Path.endsWithSlash (s ++ t) = Path.endsWithSlash t.
Proof.
  intros Ht. induction s as [|a s IH]; [reflexivity|].
  rewrite append_cons. simpl. rewrite IH.
  destruct (s ++ t) eqn:Heq; [|reflexivity].
  destruct s; [rewrite append_empty_l in Heq; contradiction | discriminate].
Qed.

Lemma endsWithSlash_noSlash (c : string) : hasSlash c = false -> Path.endsWithSlash c = false.
Proof.
  induction c as [|a c IH]; [reflexivity|]. simpl.
  intros H. apply orb_false_iff in H as [Ha Hc].
  destruct c; [exact Ha | apply IH; exact Hc].
Qed.

Lemma concat_not_empty (cs : list string) :
  Forall goodComponent cs -> cs <> [] -> String.concat "/" cs <> EmptyString.
Proof.
  intros Hgood Hne. destruct Hgood as [|c r (Hc & _) Hr]; [contradiction|].
  destruct r; simpl; [exact Hc|]. destruct c; [contradiction | discriminate].
Qed.

Lemma endsWithSlash_concat (cs : list string) :
  Forall goodComponent cs -> cs <> [] ->
  Path.endsWithSlash (String.concat "/" cs) = false.
Proof.
  induction 1 as [|c r (Hne & _ & _ & Hslash) Hr IH]; intros Hnil; [contradiction|].
  destruct r as [|c2 r].
  - apply endsWithSlash_noSlash. exact Hslash.
  - change (String.concat "/" (c :: c2 :: r))
      with (c ++ ("/" ++ String.concat "/" (c2 :: r))).
    rewrite <- append_assoc.
    rewrite endsWithSlash_append by (apply concat_not_empty; [assumption | discriminate]).
    apply IH. discriminate.
Qed.

(** No slash is left at the end. *)
Lemma normalizePath_end (pathStr : string) :
  fitsSizeT pathStr -> Path.endsWithSlash (Path.normalizePath pathStr) = false.
Proof.
  intros Hfit. rewrite (normalizePath_form pathStr Hfit).
  pose proof (components_good pathStr) as Hgood.
  destruct (components pathStr) as [|c r] eqn:Hcs; [reflexivity|].
  rewrite endsWithSlash_append
    by (apply concat_not_empty; [assumption | discriminate]).
  apply endsWithSlash_concat; [assumption | discriminate].
Qed.

(** X2: the result never ends with a slash. *)
Theorem normalizePath_no_trailing_slash (pathStr : string) :
  fitsSizeT pathStr -> Path.endsWithSlash (Path.normalizePath pathStr) = false.
Proof. apply normalizePath_end. Qed.

Lemma normalizePath_no_trailing_slash_witness :
  fitsSizeT "a//b/" /\ Path.endsWithSlash (Path.normalizePath "a//b/") = false.
Proof.
  assert (H : fitsSizeT "a//b/") by (unfold fitsSizeT; simpl; lia).
  split; [exact H | apply (normalizePath_no_trailing_slash "a//b/" H)].
Defined.

(** The slash in front is kept when a component follows it. *)
Lemma normalizePath_front (pathStr : string) :
  fitsSizeT pathStr ->
  (Path.beginsWithSlash (Path.normalizePath pathStr) = true <->
   Path.beginsWithSlash pathStr = true /\ components pathStr <> []).
Proof.
  intros Hfit. rewrite (normalizePath_form pathStr Hfit).
  pose proof (components_good pathStr) as Hgood.
  unfold Path.beginsWithSlash.
  destruct (components pathStr) as [|c r] eqn:Hcs.
  - simpl. split; [discriminate | intros [_ H]; contradiction].
  - destruct (Path.frontIsSlash pathStr).
    + split; [intros _; split; [reflexivity | discriminate] | reflexivity].
    + rewrite append_empty_l, frontIsSlash_concat by (assumption || discriminate).
      split; [discriminate | intros [H _]; discriminate].
Qed.

(** A path of which no component is left, the root among them, gives
    the empty string. *)
Lemma normalizePath_no_component (pathStr : string) :
  fitsSizeT pathStr -> components pathStr = [] ->
  Path.normalizePath pathStr = EmptyString.
Proof.
  intros Hfit Hcs. rewrite (normalizePath_form pathStr Hfit), Hcs. reflexivity.
Qed.

(** X3: the result begins with a slash exactly when the path begins with one
    and some component is left of it; an absolute path of which no
    component is left, one that resolves to the root, yields the empty
    string. *)
Theorem normalizePath_leading_slash (pathStr : string) :
  fitsSizeT pathStr ->
  (Path.beginsWithSlash (Path.normalizePath pathStr) = true <->
   Path.beginsWithSlash pathStr = true /\ components pathStr <> [])
  /\ (Path.beginsWithSlash pathStr = true -> components pathStr = [] ->
      Path.normalizePath pathStr = EmptyString).
Proof.
  intros Hfit. split; [apply normalizePath_front; exact Hfit|].
  intros _. apply normalizePath_no_component. exact Hfit.
Qed.

Lemma normalizePath_leading_slash_witness :
  fitsSizeT "/a/.."
  /\ Path.beginsWithSlash "/a/.." = true
  /\ components "/a/.." = []
  /\ Path.normalizePath "/a/.." = EmptyString.
Proof.
  assert (H : fitsSizeT "/a/..") by (unfold fitsSizeT; simpl; lia).
  split; [exact H|]. split; [reflexivity|]. split; [reflexivity|].
  apply (proj2 (normalizePath_leading_slash "/a/.." H)); reflexivity.
Defined.

(** C8, amended: normalising twice is normalising once; the two paths
    of the claim normalise as it says; the result never ends with a
    slash; and the result begins with a slash exactly when the path
    begins with one and a component is left after the removal of the
    empty components, of "." and of the components that ".." pops.  A
    path of which no component is left gives the empty string, also
    when it began with a slash. *)
Theorem normalizePath_properties (pathStr : string) :
  fitsSizeT pathStr ->
  Path.normalizePath (Path.normalizePath pathStr) = Path.normalizePath pathStr
  /\ Path.normalizePath "/a/./b/../c" = "/a/c"
  /\ Path.normalizePath "a//b" = "a/b"
  /\ Path.endsWithSlash (Path.normalizePath pathStr) = false
  /\ (Path.beginsWithSlash (Path.normalizePath pathStr) = true <->
      Path.beginsWithSlash pathStr = true /\ components pathStr <> [])
  /\ (components pathStr = [] -> Path.normalizePath pathStr = EmptyString).
Proof.
  intros Hfit.
  split; [apply normalizePath_twice; exact Hfit|].
  split; [reflexivity|]. split; [reflexivity|].
  split; [apply normalizePath_end; exact Hfit|].
  split; [apply normalizePath_front; exact Hfit|].
  apply normalizePath_no_component. exact Hfit.
Qed.

Lemma normalizePath_properties_witness :
  fitsSizeT "/usr/../lib//x/"
  /\ Path.normalizePath "/usr/../lib//x/" = "/lib/x"
  /\ Path.normalizePath (Path.normalizePath "/usr/../lib//x/")
     = Path.normalizePath "/usr/../lib//x/"
  /\ Path.endsWithSlash (Path.normalizePath "/usr/../lib//x/") = false.
Proof.
  assert (H : fitsSizeT "/usr/../lib//x/") by (unfold fitsSizeT; simpl; lia).
  split; [exact H|]. split; [reflexivity|].
  destruct (normalizePath_properties "/usr/../lib//x/" H) as (H1 & _ & _ & H4 & _).
  split; [exact H1 | exact H4].
Defined.

(** C8, counterexample: the root path begins with a slash and its
    result does not; the slash that was put in front is the one the
    final [substr] cuts off, and the result is empty. *)
Lemma normalizePath_root_loses_slash :
  Path.normalizePath "/" = EmptyString
  /\ Path.beginsWithSlash "/" = true
  /\ Path.beginsWithSlash (Path.normalizePath "/") = false.
Proof. repeat split; reflexivity. Qed.

(* ===================================================================== *)
(** ** The callee sets hold functions of the program *)
(* ===================================================================== *)

Lemma registerFunctions_valid (ms : list Module) (fl : list Function) :
  (forall F, F ∈ fl -> functionOf ms F) ->
  forall funcs : gmap string FuncId,
    map_Forall (fun _ G => is_Some (findFunction G ms)) funcs ->
    map_Forall (fun _ G => is_Some (findFunction G ms))
               (fold_left (fun funcs F => registerFunction F funcs) fl funcs).
Proof.
  induction fl as [|F fl IH]; intros Hfl funcs Hfuncs; simpl; [exact Hfuncs|].
  apply IH; [intros G HG; apply Hfl; right; exact HG|].
  unfold registerFunction.
  destruct (fExternalLinkage F && _); [|exact Hfuncs].
  apply map_Forall_insert_2; [|exact Hfuncs].
  apply findFunction_is_Some, Hfl. left.
Qed.

(** Every name registered by the loader designates a function. *)
Lemma loadModules_valid (ms : list Module) :
  map_Forall (fun _ G => is_Some (findFunction G ms)) (Funcs (loadModules ms)).
Proof.
  unfold loadModules.
  assert (H : forall (l : list Module) (c : GlobalContext),
    (forall M, M ∈ l -> M ∈ ms) ->
    map_Forall (fun _ G => is_Some (findFunction G ms)) (Funcs c) ->
    map_Forall (fun _ G => is_Some (findFunction G ms))
               (Funcs (fold_left (fun c M => doBasicInitialization M c) l c))).
  { induction l as [|M l IH]; intros c Hl Hc; simpl; [exact Hc|].
    apply IH; [intros M' HM'; apply Hl; right; exact HM'|].
    unfold doBasicInitialization. simpl.
    apply registerFunctions_valid; [|exact Hc].
    intros F HF. exists M. split; [apply Hl; left | exact HF]. }
  apply H; [auto|]. simpl. apply map_Forall_empty.
Qed.

Lemma derefFunction_valid (ms : list Module) (F : FuncId) (r : Module * Function) :
  derefFunction ms F = Done r -> is_Some (findFunction F ms).
Proof.
  unfold derefFunction, ofOption. destruct (findFunction F ms); [eauto | discriminate].
Qed.

(** The set [findCallees] computes holds functions when the set it starts
    from does. *)
Lemma resolved_valid (c : GlobalContext) (CB : CallBase) (FS FS' : gset FuncId) :
  map_Forall (fun _ G => is_Some (findFunction G (Modules c))) (Funcs c) ->
  set_Forall (fun G => is_Some (findFunction G (Modules c))) FS ->
  resolved c CB FS = Done FS' ->
  set_Forall (fun G => is_Some (findFunction G (Modules c))) FS'.
Proof.
  intros Hfuncs HFS. unfold resolved.
  destruct (getCalledFunction CB) as [CF|].
  - intros Hres. apply obind_Done in Hres as (CF' & Hdef & [= <-]).
    unfold getFuncDef in Hdef.
    apply obind_Done in Hdef as ([M Fr] & Hderef & Hdef).
    apply derefFunction_valid in Hderef.
    apply set_Forall_union; [|exact HFS]. apply set_Forall_singleton.
    destruct (Funcs c !! getScopeName M Fr) as [def|] eqn:Hlookup;
      injection Hdef as <-; [exact (Hfuncs _ _ Hlookup) | exact Hderef].
  - apply (foldM_invariant
             (fun FS => set_Forall (fun G => is_Some (findFunction G (Modules c))) FS));
      [|exact HFS].
    intros F t t' _ Ht Hstep. unfold findCalleesByTypeStep in Hstep.
    apply obind_Done in Hstep as ([M Fr] & Hderef & Hstep).
    apply derefFunction_valid in Hderef.
    destruct (if fIsVarArg Fr then false else _); [injection Hstep as <-; exact Ht|].
    destruct (isIntrinsic Fr); [injection Hstep as <-; exact Ht|].
    apply obind_Done in Hstep as (Matched & _ & Hstep).
    destruct Matched; injection Hstep as <-; [|exact Ht].
    apply set_Forall_union; [|exact Ht]. apply set_Forall_singleton. exact Hderef.
Qed.

Lemma runOnInstructions_valid (L : list Instruction) (c c' : GlobalContext) :
  map_Forall (fun _ G => is_Some (findFunction G (Modules c))) (Funcs c) ->
  (forall s G, G ∈ calleesOf c s -> is_Some (findFunction G (Modules c))) ->
  foldM runOnInstruction L c = Done c' ->
  forall s G, G ∈ calleesOf c' s -> is_Some (findFunction G (Modules c)).
Proof.
  intros Hfuncs Hc Hrun.
  apply (foldM_invariant
           (fun c' => sameProgram c c' /\
              forall s G, G ∈ calleesOf c' s -> is_Some (findFunction G (Modules c)))
           runOnInstruction L c c'); [ | | exact Hrun].
  - intros x t t' _ (Hsame & Hinv) Hstep.
    apply runOnInstruction_effect in Hstep as (Hsame' & _ & Hother & Hkey).
    split; [eapply sameProgram_trans; eassumption|].
    intros s G HG. destruct (decide (s = iid x)) as [->|Hne].
    2:{ apply (Hinv s). unfold calleesOf in *. rewrite <- Hother by exact Hne. exact HG. }
    unfold keyResult in Hkey. unfold calleesOf in HG.
    destruct (icall x) as [CB|].
    2:{ apply (Hinv (iid x)). unfold calleesOf. rewrite <- Hkey. exact HG. }
    destruct Hkey as (intr & _ & Hkey).
    destruct (isInlineAsm CB || intr).
    { apply (Hinv (iid x)). unfold calleesOf. rewrite <- Hkey. exact HG. }
    destruct Hkey as (FS' & Hres & Heq). rewrite Heq in HG. simpl in HG.
    destruct Hsame as (Hm & Hf & _).
    apply resolved_valid in Hres.
    + rewrite Hm. exact (Hres G HG).
    + rewrite <- Hm, <- Hf. exact Hfuncs.
    + intros H HH. rewrite <- Hm. exact (Hinv _ _ HH).
  - split; [apply sameProgram_refl | exact Hc].
Qed.

(** The pointers in the callee sets of a context the phase returned. *)
Lemma callees_valid_when_done (fuel : nat) (ms : list Module)
    (c' : GlobalContext) :
  callGraphPhase fuel ms = Done c' -> calleesValid c' = true.
Proof.
  intros Hrun.
  apply callGraphPhase_steps in Hrun as (c2 & Hproc & Hsame1 & Hsame2 & Hcallees & _).
  destruct (loadModules_effect ms) as (Hms & _ & Hcallees0 & _).
  destruct (initialized_effect (loadModules ms)) as (Hm1 & Hf1 & Hcallees1 & _).
  assert (Hmods : Modules c' = ms).
  { destruct Hsame1 as (H1 & _), Hsame2 as (H2 & _). congruence. }
  pose proof (runOnInstructions_valid
                (analyzedInstructions ms) (initialized (loadModules ms)) c2) as Hvalid.
  rewrite Hm1, Hms, Hf1 in Hvalid.
  specialize (Hvalid (loadModules_valid ms)).
  unfold calleesValid. rewrite bool_decide_eq_true, Hmods.
  intros k funcSet Hk G HG. apply (Hvalid) with (s := k).
  - intros s H. unfold calleesOf. rewrite Hcallees1, Hcallees0, lookup_empty.
    simpl. set_solver.
  - exact Hproc.
  - rewrite <- Hcallees. unfold calleesOf. rewrite Hk. exact HG.
Qed.

(** X4: on a program on which the code of the phase is defined the
    phase returns, and every pointer it leaves in a callee set
    designates a function of the program. *)
Theorem callGraphPhase_calleesValid (fuel : nat) (ms : list Module) :
  phaseDefined ms = true ->
  exists c', callGraphPhase (S fuel) ms = Done c' /\ calleesValid c' = true.
Proof.
  intros Hdef. apply (callGraphPhase_total fuel ms _ Hdef).
  intros c' Hrun. exact (callees_valid_when_done _ _ _ Hrun).
Qed.

Lemma callGraphPhase_calleesValid_witness :
  phaseDefined progOver = true
  /\ exists c', callGraphPhase 1 progOver = Done c' /\ calleesValid c' = true.
Proof.
  split; [vm_compute; reflexivity|].
  apply (callGraphPhase_calleesValid 0 progOver). vm_compute. reflexivity.
Defined.

(* ===================================================================== *)
(** ** More on type compatibility *)
(* ===================================================================== *)

Lemma TypeID_eqb_eq (a b : TypeID) : TypeID_eqb a b = true -> a = b.
Proof. destruct a, b; simpl; intros H; try discriminate H; reflexivity. Qed.

Lemma pairwiseCompatible_Forall2 (l1 l2 : list Ty) :
  length l1 = length l2 ->
  (pairwiseCompatible l1 l2 = true <->
   Forall2 (fun T1 T2 => isCompatibleType T1 T2 = true) l1 l2).
Proof.
  revert l2. induction l1 as [|e1 r1 IH]; intros [|e2 r2] Hlen;
    simpl in Hlen; try discriminate Hlen.
  - split; [constructor | reflexivity].
  - simpl. injection Hlen as Hlen. specialize (IH r2 Hlen).
    destruct (isCompatibleType e1 e2) eqn:He; simpl.
    + rewrite IH. split.
      * intros H. constructor; assumption.
      * intros H. inversion H; subst. assumption.
    + split; [discriminate|]. intros H. inversion H; subst. congruence.
Qed.

(** X5: every type is compatible with itself, but compatibility is no
    equivalence: it is neither symmetric ([i8*] accepts [float*], not the
    other way round) nor transitive ([i32] accepts [i64], [i64] accepts
    a pointer in address space 64, [i32] does not). *)
Theorem isCompatibleType_no_equivalence :
  (forall T, isCompatibleType T T = true)
  /\ (exists T1 T2,
        isCompatibleType T1 T2 = true /\ isCompatibleType T2 T1 = false)
  /\ (exists T1 T2 T3,
        isCompatibleType T1 T2 = true /\ isCompatibleType T2 T3 = true
        /\ isCompatibleType T1 T3 = false).
Proof.
  split; [exact isCompatibleType_refl|]. split.
  - exists (PointerTy i8 0), (PointerTy floatTy 0). split; reflexivity.
  - exists i32, i64, (PointerTy i8 64). repeat split; reflexivity.
Qed.

(** X6: compatible types are of the same kind (the same [TypeID]), with
    one exception: an integer type is compatible with a pointer type
    whose address space number equals the integer's bit width. *)
Theorem isCompatibleType_same_kind (T1 T2 : Ty) :
  isCompatibleType T1 T2 = true ->
  getTypeID T1 = getTypeID T2
  \/ exists w ElT, T1 = IntegerTy w /\ T2 = PointerTy ElT w.
Proof.
  destruct T1 as [ElT1 a1|ElT1 n1|w|els1|n1|ret1 ps1 va1|k];
    destruct T2 as [ElT2 a2|ElT2 n2|w2|els2|n2|ret2 ps2 va2|k2];
    simpl; intros H; try discriminate H; try (left; reflexivity).
  { destruct (N.eqb w a2) eqn:Hw; [|discriminate H].
    apply N.eqb_eq in Hw. subst a2. right. eauto. }
  all: left; apply TypeID_eqb_eq in H; exact H.
Qed.

Lemma isCompatibleType_same_kind_witness :
  isCompatibleType (IntegerTy 64) (PointerTy (IntegerTy 8) 64) = true
  /\ (getTypeID (IntegerTy 64) = getTypeID (PointerTy (IntegerTy 8) 64)
      \/ exists w ElT, IntegerTy 64 = IntegerTy w
                       /\ PointerTy (IntegerTy 8) 64 = PointerTy ElT w).
Proof.
  split; [reflexivity|].
  apply (isCompatibleType_same_kind (IntegerTy 64) (PointerTy (IntegerTy 8) 64)).
  reflexivity.
Defined.

(** X7: struct types.  Two literal structs are compatible exactly when
    they have the same number of members and the members are compatible
    one by one; two identified structs exactly when they have the same
    name; a literal and an identified struct never. *)
Theorem isCompatibleType_structs :
  (forall els1 els2,
     isCompatibleType (LiteralStructTy els1) (LiteralStructTy els2) = true <->
     Forall2 (fun T1 T2 => isCompatibleType T1 T2 = true) els1 els2)
  /\ (forall n1 n2,
        isCompatibleType (NamedStructTy n1) (NamedStructTy n2) = true <-> n1 = n2)
  /\ (forall els n,
        isCompatibleType (LiteralStructTy els) (NamedStructTy n) = false
        /\ isCompatibleType (NamedStructTy n) (LiteralStructTy els) = false).
Proof.
  split; [|split].
  - intros els1 els2. rewrite isCompatibleType_literal.
    destruct (Nat.eqb (length els1) (length els2)) eqn:Hlen; simpl.
    + apply Nat.eqb_eq in Hlen. apply pairwiseCompatible_Forall2. exact Hlen.
    + apply Nat.eqb_neq in Hlen. split; [discriminate|].
      intros H. apply Forall2_length in H. contradiction.
  - intros n1 n2. simpl. apply String.eqb_eq.
  - intros els n. split; reflexivity.
Qed.

(** X8: function types.  The return types must be compatible.  When the
    first type is variadic the second must be variadic too and the
    parameters are not compared; when the first is not variadic the
    parameters must be compatible one by one, and whether the second is
    variadic is not looked at. *)
Theorem isCompatibleType_function_types (ret1 ret2 : Ty) (ps1 ps2 : list Ty)
    (va1 va2 : bool) :
  isCompatibleType (FunctionTy ret1 ps1 va1) (FunctionTy ret2 ps2 va2) = true <->
  isCompatibleType ret1 ret2 = true
  /\ (if va1 then va2 = true
      else Forall2 (fun T1 T2 => isCompatibleType T1 T2 = true) ps1 ps2).
Proof.
  rewrite isCompatibleType_function.
  destruct (isCompatibleType ret1 ret2); simpl; [|intuition discriminate].
  destruct va1.
  - tauto.
  - destruct (Nat.eqb (length ps1) (length ps2)) eqn:Hlen; simpl.
    + apply Nat.eqb_eq in Hlen.
      rewrite (pairwiseCompatible_Forall2 ps1 ps2 Hlen). tauto.
    + apply Nat.eqb_neq in Hlen. split; [discriminate|].
      intros [_ H]. apply Forall2_length in H. contradiction.
Qed.

(* ===================================================================== *)
(** ** File names *)
(* ===================================================================== *)

Lemma find_last_of_None (chars s : string) :
  Filename.find_last_of chars s = None <-> Filename.hasOneOf chars s = false.
Proof.
  induction s as [|c s IH]; simpl; [tauto|].
  destruct (Filename.find_last_of chars s) as [i|].
  - split; [discriminate|]. intros H. apply orb_false_iff in H as [_ H].
    apply IH in H. discriminate H.
  - destruct (Filename.isOneOf c chars); simpl; [split; discriminate|].
    split; intros _; [apply IH|]; reflexivity.
Qed.

(** The index [find_last_of] returns cuts the string in two: the part
    before it, the character found, and a rest without such a
    character. *)
Lemma find_last_of_Some (chars s : string) (i : nat) :
  Filename.find_last_of chars s = Some i ->
  exists pre c post,
    s = pre ++ String c post /\ String.length pre = i
    /\ Filename.isOneOf c chars = true /\ Filename.hasOneOf chars post = false.
Proof.
  revert i. induction s as [|c s IH]; simpl; intros i; [discriminate|].
  destruct (Filename.find_last_of chars s) as [j|] eqn:Hs.
  - intros [= <-]. destruct (IH j eq_refl) as (pre & d & post & -> & Hlen & Hd & Hpost).
    exists (String c pre), d, post. simpl. rewrite Hlen. auto.
  - destruct (Filename.isOneOf c chars) eqn:Hc; [|discriminate].
    intros [= <-]. exists EmptyString, c, s. repeat split; try assumption.
    apply find_last_of_None. exact Hs.
Qed.

Lemma substring_all (s : string) : String.substring 0 (String.length s) s = s.
Proof. induction s as [|c s IH]; simpl; [reflexivity | rewrite IH; reflexivity]. Qed.

Lemma substr_from_append (pre post : string) :
  Filename.substr_from (pre ++ post) (String.length pre) = post.
Proof.
  unfold Filename.substr_from. rewrite length_append.
  replace (String.length pre + String.length post - String.length pre)%nat
    with (String.length post) by lia.
  induction pre as [|c pre IH]; simpl.
  - rewrite append_empty_l. apply substring_all.
  - exact IH.
Qed.

Lemma hasOneOf_append (chars s t : string) :
  Filename.hasOneOf chars (s ++ t)
  = Filename.hasOneOf chars s || Filename.hasOneOf chars t.
Proof.
  induction s as [|c s IH].
  - rewrite append_empty_l. reflexivity.
  - rewrite append_cons. simpl. rewrite IH, orb_assoc. reflexivity.
Qed.

(** X9: [extractFilenameWithoutExtension] cuts the path in three: a
    directory part that is empty or ends with a slash or backslash, the
    result, and an extension that is empty or a dot followed by
    characters other than a dot.  Neither the result nor the extension
    holds a separator, and the result holds a dot only when an extension
    was cut off: the result is what lies between the last separator and
    the last dot after it. *)
Theorem extractFilenameWithoutExtension_parts (path : string) :
  exists dir ext,
    path = dir ++ Filename.extractFilenameWithoutExtension path ++ ext
    /\ (dir = EmptyString
        \/ exists d c, dir = d ++ String c EmptyString
                       /\ Filename.isOneOf c Filename.separators = true)
    /\ Filename.hasOneOf Filename.separators
         (Filename.extractFilenameWithoutExtension path ++ ext) = false
    /\ ((ext = EmptyString
         /\ Filename.hasOneOf "." (Filename.extractFilenameWithoutExtension path) = false)
        \/ exists e, ext = String "."%char e /\ Filename.hasOneOf "." e = false).
Proof.
  unfold Filename.extractFilenameWithoutExtension.
  (* the file name with its extension *)
  assert (Hname : exists dir name,
    path = dir ++ name
    /\ match Filename.find_last_of Filename.separators path with
       | None => path
       | Some lastSlash => Filename.substr_from path (lastSlash + 1)
       end = name
    /\ (dir = EmptyString
        \/ exists d c, dir = d ++ String c EmptyString
                       /\ Filename.isOneOf c Filename.separators = true)
    /\ Filename.hasOneOf Filename.separators name = false).
  { destruct (Filename.find_last_of Filename.separators path) as [i|] eqn:Hslash.
    - apply find_last_of_Some in Hslash as (pre & c & post & -> & Hlen & Hc & Hpost).
      exists (pre ++ String c EmptyString), post.
      rewrite append_assoc, append_cons, append_empty_l.
      split; [reflexivity|]. split.
      + replace (i + 1)%nat with (String.length (pre ++ String c EmptyString))
          by (rewrite length_append; simpl; lia).
        rewrite <- (substr_from_append (pre ++ String c EmptyString) post) at 2.
        rewrite append_assoc, append_cons, append_empty_l. reflexivity.
      + split; [right; eauto | exact Hpost].
    - exists EmptyString, path. rewrite append_empty_l.
      repeat split; [left; reflexivity|]. apply find_last_of_None. exact Hslash. }
  destruct Hname as (dir & name & Hpath & -> & Hdir & Hsep).
  destruct (Filename.find_last_of "." name) as [j|] eqn:Hdot.
  - apply find_last_of_Some in Hdot as (pre & c & post & -> & Hlen & Hc & Hpost).
    assert (c = "."%char) as ->.
    { simpl in Hc. rewrite orb_false_r in Hc. apply Ascii.eqb_eq in Hc. exact Hc. }
    rewrite <- Hlen, substring_prefix.
    exists dir, (String "."%char post). repeat split; try assumption. right. eauto.
  - exists dir, EmptyString. rewrite append_empty_r.
    repeat split; try assumption. left. split; [reflexivity|].
    apply find_last_of_None. exact Hdot.
Qed.

(* ===================================================================== *)
(** ** Merging function sets *)
(* ===================================================================== *)

Lemma mergeFuncSet_loop (l : list FuncId) :
  forall (Dst : gset FuncId) (Changed : bool),
    let r := fold_left
               (fun '(Dst, Changed) i =>
                  ({[i]} ∪ Dst, Changed || bool_decide (i ∉ Dst)))
               l (Dst, Changed) in
    fst r = Dst ∪ list_to_set l
    /\ (snd r = true <-> Changed = true \/ exists i, i ∈ l /\ i ∉ Dst).
Proof.
  induction l as [|x l IH]; intros Dst Changed; cbv zeta; simpl.
  - split; [set_unfold; intros y; tauto|]. split; [auto|].
    intros [H | (i & Hi & _)]; [exact H|].
    inversion Hi.
  - specialize (IH ({[x]} ∪ Dst) (Changed || bool_decide (x ∉ Dst))).
    cbv zeta in IH. destruct IH as [Hset Hflag].
    split; [rewrite Hset; set_unfold; intros y; tauto|].
    rewrite Hflag, orb_true_iff, bool_decide_eq_true. split.
    + intros [[H | H] | (i & Hi & Hnew)].
      * left. exact H.
      * right. exists x. split; [left | exact H].
      * right. exists i. split; [right; exact Hi|].
        intros Hin. apply Hnew, elem_of_union_r. exact Hin.
    + intros [H | (i & Hi & Hnew)]; [left; left; exact H|].
      apply elem_of_cons in Hi as [-> | Hi]; [left; right; exact Hnew|].
      destruct (decide (i = x)) as [-> | Hne]; [left; right; exact Hnew|].
      right. exists i. split; [exact Hi|].
      rewrite elem_of_union, elem_of_singleton. tauto.
Qed.

Lemma mergeFuncSet_spec (Dst Src : gset FuncId) :
  fst (FuncPtrs.mergeFuncSet Dst Src) = Dst ∪ Src
  /\ (snd (FuncPtrs.mergeFuncSet Dst Src) = true <-> ~ Src ⊆ Dst).
Proof.
  unfold FuncPtrs.mergeFuncSet.
  destruct (mergeFuncSet_loop (elements Src) Dst false) as [Hset Hflag].
  split.
  - rewrite Hset. apply set_eq. intros x.
    rewrite !elem_of_union, elem_of_list_to_set, elem_of_elements. tauto.
  - rewrite Hflag. split.
    + intros [H | (i & Hi & Hnew)]; [discriminate H|].
      intros Hsub. apply Hnew, Hsub. apply elem_of_elements. exact Hi.
    + intros Hsub. right.
      destruct (decide (Src ∖ Dst = ∅)) as [Hempty | Hne].
      { exfalso. apply Hsub. intros y Hy.
        destruct (decide (y ∈ Dst)) as [Hin | Hout]; [exact Hin|]. exfalso.
        apply (not_elem_of_empty (C := gset FuncId) y). rewrite <- Hempty.
        apply elem_of_difference. auto. }
      apply set_choose_L in Hne as (i & Hi). exists i.
      rewrite elem_of_elements. set_solver.
Qed.

(** X10: merging a set [Src] into a set [Dst] leaves [Dst ∪ Src] and
    reports a change exactly when [Src] held an element [Dst] lacked;
    merging the same set again changes nothing and reports no change. *)
Theorem mergeFuncSet_union (Dst Src : gset FuncId) :
  fst (FuncPtrs.mergeFuncSet Dst Src) = Dst ∪ Src
  /\ (snd (FuncPtrs.mergeFuncSet Dst Src) = true <-> ~ Src ⊆ Dst)
  /\ FuncPtrs.mergeFuncSet (fst (FuncPtrs.mergeFuncSet Dst Src)) Src
     = (Dst ∪ Src, false).
Proof.
  destruct (mergeFuncSet_spec Dst Src) as [Hset Hflag].
  split; [exact Hset|]. split; [exact Hflag|].
  rewrite Hset.
  destruct (mergeFuncSet_spec (Dst ∪ Src) Src) as [Hset2 Hflag2].
  destruct (FuncPtrs.mergeFuncSet (Dst ∪ Src) Src) as [D ch]. simpl in *.
  f_equal.
  - rewrite Hset2. set_unfold. intros y. tauto.
  - destruct ch; [|reflexivity]. exfalso. apply Hflag2; [reflexivity|].
    apply union_subseteq_r.
Qed.

(** X11: what is merged into the entry of an identifier is found there:
    after [S] was merged into the entry of [Id], the entry holds what it
    held before together with [S], the entries of the other identifiers
    are as before, and merging the entry of [Id] into a set [T] leaves
    [T] together with the entry.  An identifier without entry adds
    nothing to [T] and reports no change; it gets an empty entry when
    [InsertEmpty] is set. *)
Theorem mergeFuncSet_by_id (FuncPtrs : FuncPtrs.FuncPtrMap) (Id : string)
    (S T : gset FuncId) (InsertEmpty InsertEmpty' : bool) :
  let FuncPtrs' := fst (FuncPtrs.mergeFuncSetIntoId FuncPtrs Id S InsertEmpty) in
  FuncPtrs.funcsOf FuncPtrs' Id = FuncPtrs.funcsOf FuncPtrs Id ∪ S
  /\ (forall Id', Id' <> Id -> FuncPtrs' !! Id' = FuncPtrs !! Id')
  /\ (let '(_, T', _) := FuncPtrs.mergeFuncSetFromId FuncPtrs' T Id InsertEmpty' in
      T' = T ∪ FuncPtrs.funcsOf FuncPtrs Id ∪ S)
  /\ (FuncPtrs !! Id = None ->
      FuncPtrs.mergeFuncSetFromId FuncPtrs T Id InsertEmpty'
      = (if InsertEmpty' then <[Id := ∅]> FuncPtrs else FuncPtrs, T, false)).
Proof.
  cbv zeta.
  assert (Hentry :
    FuncPtrs.funcsOf (fst (FuncPtrs.mergeFuncSetIntoId FuncPtrs Id S InsertEmpty)) Id
    = FuncPtrs.funcsOf FuncPtrs Id ∪ S).
  { unfold FuncPtrs.mergeFuncSetIntoId, FuncPtrs.funcsOf.
    destruct (FuncPtrs !! Id) as [second|] eqn:Hid.
    - pose proof (mergeFuncSet_spec second S) as [Hset _].
      destruct (FuncPtrs.mergeFuncSet second S) as [second' ch]. simpl in *.
      rewrite lookup_insert_eq. simpl. exact Hset.
    - destruct (bool_decide (S = ∅)) eqn:HS; simpl.
      + apply bool_decide_eq_true in HS. subst S.
        destruct InsertEmpty; simpl.
        * rewrite lookup_insert_eq. simpl. set_solver.
        * rewrite Hid. simpl. set_solver.
      + pose proof (mergeFuncSet_spec ∅ S) as [Hset _].
        destruct (FuncPtrs.mergeFuncSet ∅ S) as [second' ch]. simpl in *.
        rewrite lookup_insert_eq. simpl. exact Hset. }
  split; [exact Hentry|]. split; [|split].
  - intros Id' Hne. unfold FuncPtrs.mergeFuncSetIntoId.
    destruct (FuncPtrs !! Id) as [second|].
    + destruct (FuncPtrs.mergeFuncSet second S). simpl.
      apply lookup_insert_ne. congruence.
    + destruct (negb (bool_decide (S = ∅))).
      * destruct (FuncPtrs.mergeFuncSet ∅ S). simpl.
        apply lookup_insert_ne. congruence.
      * destruct InsertEmpty; simpl; [apply lookup_insert_ne; congruence | reflexivity].
  - revert Hentry.
    generalize (fst (FuncPtrs.mergeFuncSetIntoId FuncPtrs Id S InsertEmpty)).
    intros FP Hentry. unfold FuncPtrs.mergeFuncSetFromId.
    unfold FuncPtrs.funcsOf at 1 in Hentry.
    destruct (FP !! Id) as [second|]; simpl in Hentry.
    + pose proof (mergeFuncSet_spec T second) as [Hset _].
      destruct (FuncPtrs.mergeFuncSet T second) as [T' ch]. simpl in *.
      rewrite Hset, Hentry. set_unfold. intros y. tauto.
    + assert (Hx : T = T ∪ FuncPtrs.funcsOf FuncPtrs Id ∪ S).
      { rewrite <- (assoc_L (∪)), <- Hentry, (right_id_L ∅ (∪)). reflexivity. }
      destruct InsertEmpty'; exact Hx.
  - intros Hnone. unfold FuncPtrs.mergeFuncSetFromId. rewrite Hnone.
    destruct InsertEmpty'; reflexivity.
Qed.

(* ===================================================================== *)
(** ** Target lookup *)
(* ===================================================================== *)

Lemma find_Some_elem {A : Type} (p : A -> bool) (l : list A) (x : A) :
  List.find p l = Some x -> x ∈ l /\ p x = true.
Proof.
  intros H. apply find_some in H as [Hin Hp]. rewrite list_elem_of_In. auto.
Qed.

Lemma find_None_elem {A : Type} (p : A -> bool) (l : list A) :
  List.find p l = None <-> forall x, x ∈ l -> p x = false.
Proof.
  split.
  - intros H x Hx. apply (find_none p l H). apply list_elem_of_In. exact Hx.
  - intros H. destruct (List.find p l) as [x|] eqn:Hfind; [|reflexivity].
    apply find_Some_elem in Hfind as [Hin Hp]. rewrite (H x Hin) in Hp. discriminate.
Qed.

Lemma blockAtLine_true (line : Z) (BB : BasicBlock) :
  Lookup.blockAtLine line BB = true <->
  exists ins Loc, ins ∈ insts BB /\ idebugLoc ins = Some Loc
                  /\ Z.of_N (dlLine Loc) = line mod 2 ^ 32.
Proof.
  unfold Lookup.blockAtLine. rewrite existsb_exists. split.
  - intros (ins & Hin & Hloc). destruct (idebugLoc ins) as [Loc|] eqn:HLoc;
      [|discriminate]. exists ins, Loc. rewrite list_elem_of_In.
    apply Z.eqb_eq in Hloc. auto.
  - intros (ins & Loc & Hin & HLoc & Hline). exists ins.
    rewrite <- list_elem_of_In. split; [exact Hin|]. rewrite HLoc.
    apply Z.eqb_eq. exact Hline.
Qed.

Lemma blocksOfFile_elem (ms : list Module) (fileName : string) (BB : BasicBlock) :
  BB ∈ Lookup.blocksOfFile ms fileName <->
  exists M F, M ∈ ms /\ Str.contains fileName (moduleIdentifier M) = true
              /\ F ∈ functions M /\ BB ∈ blocks F.
Proof.
  unfold Lookup.blocksOfFile. rewrite list_elem_of_In, in_flat_map. split.
  - intros (M & HM & HBB).
    destruct (Str.contains fileName (moduleIdentifier M)) eqn:Hname;
      [|inversion HBB].
    apply in_flat_map in HBB as (F & HF & HBB).
    exists M, F. rewrite !list_elem_of_In. auto.
  - intros (M & F & HM & Hname & HF & HBB). exists M.
    rewrite <- list_elem_of_In. split; [exact HM|]. rewrite Hname.
    apply in_flat_map. exists F. rewrite <- !list_elem_of_In. auto.
Qed.

Lemma blockQualifies_iff (ms : list Module) (fileName : string) (line : Z)
    (BB : BasicBlock) :
  blockQualifies ms fileName line BB <->
  BB ∈ Lookup.blocksOfFile ms fileName /\ Lookup.blockAtLine line BB = true.
Proof.
  rewrite blocksOfFile_elem, blockAtLine_true. unfold blockQualifies. split.
  - intros (M & F & ins & Loc & ? & ? & ? & ? & ? & ? & ?). eauto 12.
  - intros [(M & F & ? & ? & ? & ?) (ins & Loc & ? & ? & ?)].
    exists M, F, ins, Loc. auto 10.
Qed.

Lemma findTargetByLine_None (s : Slicing) (fileName : string) (line : Z) :
  Lookup.findTargetByLine s fileName line = None <->
  forall BB, ~ blockQualifies (modules s) fileName line BB.
Proof.
  unfold Lookup.findTargetByLine.
  destruct (List.find _ _) as [BB|] eqn:HBB; simpl.
  - split; [discriminate|]. intros Hnone. exfalso. apply (Hnone BB).
    apply blockQualifies_iff. apply find_Some_elem in HBB. exact HBB.
  - split; [|reflexivity]. intros _ BB HQ. apply blockQualifies_iff in HQ as [Hin Hp].
    rewrite find_None_elem in HBB. rewrite (HBB BB Hin) in Hp. discriminate.
Qed.

(** X12: [findTargetByLine] returns a block of a module whose name holds
    the file name, with an instruction whose debug location is at the
    line, and returns null exactly when the program has no such
    block. *)
Theorem findTargetByLine_match (s : Slicing) (fileName : string) (line : Z) :
  (forall b, Lookup.findTargetByLine s fileName line = Some b ->
     exists BB, bid BB = b /\ blockQualifies (modules s) fileName line BB)
  /\ (Lookup.findTargetByLine s fileName line = None <->
      forall BB, ~ blockQualifies (modules s) fileName line BB).
Proof.
  unfold Lookup.findTargetByLine. split.
  - intros b Hfind.
    destruct (List.find _ _) as [BB|] eqn:HBB; [|discriminate].
    injection Hfind as <-. exists BB. split; [reflexivity|].
    apply blockQualifies_iff. apply find_Some_elem in HBB. exact HBB.
  - apply findTargetByLine_None.
Qed.

Lemma nameMatches_true (name funcName : string) :
  nameMatches name funcName = true <->
  name = funcName
  \/ (Str.contains funcName name = true /\ Str.contains "_Z" name = true).
Proof.
  unfold nameMatches. rewrite orb_true_iff, andb_true_iff, String.eqb_eq. tauto.
Qed.

Lemma functionQualifies_test (funcName : string) (Fr : Function) :
  match blocks Fr with [] => false | _ :: _ => nameMatches (fname Fr) funcName end
  = true <-> functionQualifies funcName Fr.
Proof.
  unfold functionQualifies. rewrite <- nameMatches_true.
  destruct (blocks Fr); split.
  - discriminate.
  - intros [H _]. contradiction.
  - intros H. split; [discriminate | exact H].
  - intros [_ H]. exact H.
Qed.

Lemma findTargetByFunctionName_None (s : Slicing) (fileName funcName : string) :
  findTargetByFunctionName s fileName funcName = None <->
  forall Fr, Fr ∈ allFunctions (modules s) -> ~ functionQualifies funcName Fr.
Proof.
  unfold findTargetByFunctionName.
  destruct (List.find _ _) as [Fr|] eqn:HFr; simpl.
  - split; [discriminate|]. intros Hnone. exfalso.
    apply find_Some_elem in HFr as [Hin Hp].
    apply (Hnone Fr Hin), functionQualifies_test. exact Hp.
  - split; [|reflexivity]. intros _ Fr Hin HQ. apply functionQualifies_test in HQ.
    rewrite find_None_elem in HFr. rewrite (HFr Fr Hin) in HQ. discriminate.
Qed.

(** X13: [findTargetByFunctionName] returns a function with a body
    whose name is the given one, or holds the given one and the mark
    [_Z]; it returns null exactly when the program has no such function,
    so never a declaration; and the file name it is given plays no
    part. *)
Theorem findTargetByFunctionName_match (s : Slicing) (fileName funcName : string) :
  (forall F, findTargetByFunctionName s fileName funcName = Some F ->
     exists Fr, Fr ∈ allFunctions (modules s) /\ fid Fr = F
                /\ functionQualifies funcName Fr)
  /\ (findTargetByFunctionName s fileName funcName = None <->
      forall Fr, Fr ∈ allFunctions (modules s) -> ~ functionQualifies funcName Fr)
  /\ (forall fileName',
        findTargetByFunctionName s fileName' funcName
        = findTargetByFunctionName s fileName funcName).
Proof.
  split; [|split].
  - unfold findTargetByFunctionName. intros F Hfind.
    destruct (List.find _ _) as [Fr|] eqn:HFr; [|discriminate].
    injection Hfind as <-. apply find_Some_elem in HFr as [Hin Hp].
    exists Fr. split; [exact Hin|]. split; [reflexivity|].
    apply functionQualifies_test. exact Hp.
  - apply findTargetByFunctionName_None.
  - reflexivity.
Qed.

(** *** The two lookups that trim the module name *)

Lemma trimModuleName_None (M : Module) :
  Lookup.trimModuleName (moduleIdentifier M) = None <-> shortName M.
Proof.
  unfold Lookup.trimModuleName, shortName.
  destruct (Nat.ltb_spec (String.length (moduleIdentifier M)) 2).
  - tauto.
  - split; [discriminate | lia].
Qed.

Lemma firstInModules_spec {A : Type} (hit : Module -> option A) (inputFile : string)
    (ms : list Module) :
  (forall a, firstInModules hit inputFile ms = Lookup.Returned (Some a) ->
     exists M, M ∈ ms /\ hitIn hit inputFile M a)
  /\ (firstInModules hit inputFile ms = Lookup.Returned None <->
      (forall M, M ∈ ms -> ~ shortName M)
      /\ forall M a, M ∈ ms -> ~ hitIn hit inputFile M a)
  /\ (firstInModules hit inputFile ms = Lookup.OutOfRange <->
      exists ms1 M ms2,
        ms = (ms1 ++ M :: ms2)%list /\ shortName M
        /\ firstInModules hit inputFile ms1 = Lookup.Returned None).
Proof.
  induction ms as [|M ms (IHsome & IHnone & IHthrow)].
  - simpl. split; [discriminate|]. split.
    + split; [|reflexivity]. intros _. split; intros M; [|intros a]; intros HM;
        inversion HM.
    + split; [discriminate|]. intros (ms1 & M & ms2 & Heq & _).
      destruct ms1; discriminate Heq.
  - cbn [firstInModules].
    destruct (Lookup.trimModuleName (moduleIdentifier M)) as [t|] eqn:Htrim.
    + assert (Hlong : ~ shortName M).
      { intros Hshort. apply trimModuleName_None in Hshort. congruence. }
      (* what the rest of the list yields carries over *)
      assert (Hrest :
        (forall a, firstInModules hit inputFile ms = Lookup.Returned (Some a) ->
           exists M', M' ∈ M :: ms /\ hitIn hit inputFile M' a)
        /\ ((forall a, ~ hitIn hit inputFile M a) ->
            (firstInModules hit inputFile ms = Lookup.Returned None <->
             (forall M', M' ∈ M :: ms -> ~ shortName M')
             /\ forall M' a, M' ∈ M :: ms -> ~ hitIn hit inputFile M' a))
        /\ ((forall a, ~ hitIn hit inputFile M a) ->
            (firstInModules hit inputFile ms = Lookup.OutOfRange <->
             exists ms1 M' ms2,
               M :: ms = (ms1 ++ M' :: ms2)%list /\ shortName M'
               /\ firstInModules hit inputFile ms1 = Lookup.Returned None))).
      { split; [|split].
        - intros a Ha. destruct (IHsome a Ha) as (M' & HM' & Hhit).
          exists M'. split; [right; exact HM' | exact Hhit].
        - intros Hmiss. rewrite IHnone. split.
          + intros [Hs Hh]. split.
            * intros M' HM'. apply elem_of_cons in HM' as [-> | HM']; auto.
            * intros M' a HM'. apply elem_of_cons in HM' as [-> | HM']; auto.
          + intros [Hs Hh]. split.
            * intros M' HM'. apply Hs. right. exact HM'.
            * intros M' a HM'. apply Hh. right. exact HM'.
        - intros Hmiss. rewrite IHthrow. split.
          + intros (ms1 & M' & ms2 & -> & Hshort & Hnone).
            exists (M :: ms1), M', ms2. split; [reflexivity|]. split; [exact Hshort|].
            cbn [firstInModules]. rewrite Htrim.
            destruct (Str.contains t inputFile) eqn:Hc; [|exact Hnone].
            destruct (hit M) as [a|] eqn:Hhit; [|exact Hnone].
            exfalso. apply (Hmiss a). exists t. auto.
          + intros (ms1 & M' & ms2 & Heq & Hshort & Hnone).
            destruct ms1 as [|M1 ms1]; simpl in Heq; injection Heq as <- ->.
            * contradiction.
            * exists ms1, M', ms2. split; [reflexivity|]. split; [exact Hshort|].
              cbn [firstInModules] in Hnone. rewrite Htrim in Hnone.
              destruct (Str.contains t inputFile); [|exact Hnone].
              destruct (hit M); [discriminate Hnone | exact Hnone]. }
      destruct Hrest as (Rsome & Rnone & Rthrow).
      destruct (Str.contains t inputFile) eqn:Hc.
      * destruct (hit M) as [a|] eqn:Hhit.
        -- split; [|split].
           ++ intros a' [= <-]. exists M. split; [left|]. exists t. auto.
           ++ split; [discriminate|]. intros [_ Hh]. exfalso.
              apply (Hh M a); [left|]. exists t. auto.
           ++ split; [discriminate|].
              intros (ms1 & M' & ms2 & Heq & Hshort & Hnone). exfalso.
              destruct ms1 as [|M1 ms1]; simpl in Heq; injection Heq as <- ->.
              ** contradiction.
              ** cbn [firstInModules] in Hnone. rewrite Htrim, Hc, Hhit in Hnone.
                 discriminate Hnone.
        -- assert (Hmiss : forall a, ~ hitIn hit inputFile M a).
           { intros a (t' & _ & _ & Ha). congruence. }
           auto.
      * assert (Hmiss : forall a, ~ hitIn hit inputFile M a).
        { intros a (t' & Ht' & Hc' & _). congruence. }
        auto.
    + apply trimModuleName_None in Htrim.
      split; [discriminate|]. split.
      * split; [discriminate|]. intros [Hs _]. exfalso. apply (Hs M); [left | exact Htrim].
      * split; [|reflexivity]. intros _. exists [], M, ms. auto.
Qed.

Lemma findFunctionByLineIn_shape (ms : list Module) (inputFile : string) (line : Z) :
  Lookup.findFunctionByLineIn ms inputFile line
  = firstInModules
      (fun M => option_map fid
                  (List.find (Lookup.functionAtLine inputFile line) (functions M)))
      inputFile ms.
Proof.
  induction ms as [|M ms IH]; [reflexivity|]. simpl. rewrite IH.
  destruct (Lookup.trimModuleName (moduleIdentifier M)); [|reflexivity].
  destruct (Str.contains s inputFile); [|reflexivity].
  destruct (List.find _ (functions M)); reflexivity.
Qed.

Lemma findCallInstByLineIn_shape (ms : list Module) (inputFile : string) (line : Z) :
  Lookup.findCallInstByLineIn ms inputFile line
  = firstInModules
      (fun M => option_map iid
                  (List.find (Lookup.callInstAtLine inputFile line)
                             (flat_map instructions (functions M))))
      inputFile ms.
Proof.
  induction ms as [|M ms IH]; [reflexivity|]. simpl. rewrite IH.
  destruct (Lookup.trimModuleName (moduleIdentifier M)); [|reflexivity].
  destruct (Str.contains s inputFile); [|reflexivity].
  destruct (List.find _ (flat_map instructions (functions M))); reflexivity.
Qed.

Lemma functionAtLine_true (inputFile : string) (line : Z) (F : Function) :
  Lookup.functionAtLine inputFile line F = true <->
  exists SP, fSubprogram F = Some SP /\ Z.of_N (spLine SP) = line mod 2 ^ 32
             /\ Str.contains (Path.normalizePath (spFilename SP)) inputFile = true.
Proof.
  unfold Lookup.functionAtLine, Lookup.lineIs.
  destruct (fSubprogram F) as [SP|].
  - rewrite andb_true_iff, Z.eqb_eq. split.
    + intros [? ?]. eauto.
    + intros (SP' & [= <-] & ? & ?). auto.
  - split; [discriminate | intros (SP & H & _); discriminate].
Qed.

Lemma callInstAtLine_true (inputFile : string) (line : Z) (ins : Instruction) :
  Lookup.callInstAtLine inputFile line ins = true <->
  exists CB Loc, icall ins = Some CB /\ cbKind CB = CallInstKind
                 /\ idebugLoc ins = Some Loc
                 /\ Z.of_N (dlLine Loc) = line mod 2 ^ 32
                 /\ Str.contains (Path.normalizePath (dlFilename Loc)) inputFile = true.
Proof.
  unfold Lookup.callInstAtLine, Lookup.lineIs.
  destruct (icall ins) as [CB|].
  2:{ split; [discriminate | intros (CB & Loc & H & _); discriminate]. }
  destruct (cbKind CB) eqn:Hkind, (idebugLoc ins) as [Loc|];
    try (split; [discriminate | intros (CB' & Loc' & [= <-] & ? & ? & _); congruence]).
  rewrite andb_true_iff, Z.eqb_eq. split.
  - intros [? ?]. exists CB, Loc. auto.
  - intros (CB' & Loc' & [= <-] & _ & [= <-] & ? & ?). auto.
Qed.

(** X14: [findFunctionByLine] tries the modules in turn.  It returns a
    function declared at the line, in a file whose normalised name occurs
    in the file name given, of a module whose trimmed name occurs there
    too; it returns null exactly when no module has a name shorter than
    two characters and no module holds such a function; and it throws
    [std::out_of_range] exactly when it comes to a module with a name
    shorter than two characters before it finds a function. *)
Theorem findFunctionByLine_result (s : Slicing) (fileName : string) (line : Z) :
  (forall F, Lookup.findFunctionByLine s fileName line = Lookup.Returned (Some F) ->
     exists M Fr, M ∈ modules s /\ fid Fr = F /\ declaredAt fileName line M Fr)
  /\ (Lookup.findFunctionByLine s fileName line = Lookup.Returned None <->
      (forall M, M ∈ modules s -> ~ shortName M)
      /\ forall M Fr, M ∈ modules s -> ~ declaredAt fileName line M Fr)
  /\ (Lookup.findFunctionByLine s fileName line = Lookup.OutOfRange <->
      exists ms1 M ms2,
        modules s = (ms1 ++ M :: ms2)%list /\ shortName M
        /\ Lookup.findFunctionByLineIn ms1 fileName line = Lookup.Returned None).
Proof.
  unfold Lookup.findFunctionByLine.
  set (hit := fun M => option_map fid
                (List.find (Lookup.functionAtLine fileName line) (functions M))).
  assert (Hhit : forall M,
    (exists a, hitIn hit fileName M a) <-> exists Fr, declaredAt fileName line M Fr).
  { intros M. unfold hitIn, declaredAt, hit. split.
    - intros (a & t & Ht & Hc & Hfind).
      destruct (List.find _ (functions M)) as [Fr|] eqn:HFr; [|discriminate].
      apply find_Some_elem in HFr as [Hin Hp].
      apply functionAtLine_true in Hp as (SP & ? & ? & ?).
      exists Fr, t, SP. auto 10.
    - intros (Fr & t & SP & Ht & Hc & Hin & HSP & Hline & Hfile).
      destruct (List.find (Lookup.functionAtLine fileName line) (functions M))
        as [Gr|] eqn:HGr.
      + exists (fid Gr), t. auto.
      + exfalso. rewrite find_None_elem in HGr. specialize (HGr Fr Hin).
        assert (Lookup.functionAtLine fileName line Fr = true)
          by (apply functionAtLine_true; eauto).
        congruence. }
  destruct (firstInModules_spec hit fileName (modules s)) as (Hsome & Hnone & Hthrow).
  rewrite !findFunctionByLineIn_shape. fold hit.
  split; [|split].
  - intros F HF. destruct (Hsome F HF) as (M & HM & t & Ht & Hc & Hfind).
    unfold hit in Hfind.
    destruct (List.find _ (functions M)) as [Fr|] eqn:HFr; [|discriminate].
    injection Hfind as <-. apply find_Some_elem in HFr as [Hin Hp].
    apply functionAtLine_true in Hp as (SP & ? & ? & ?).
    exists M, Fr. split; [exact HM|]. split; [reflexivity|]. exists t, SP. auto 10.
  - rewrite Hnone. split; intros [Hs Hh]; (split; [exact Hs|]).
    + intros M Fr HM Hd.
      destruct (proj2 (Hhit M) (ex_intro _ Fr Hd)) as (a & Ha). exact (Hh M a HM Ha).
    + intros M a HM Ha.
      destruct (proj1 (Hhit M) (ex_intro _ a Ha)) as (Fr & Hd). exact (Hh M Fr HM Hd).
  - rewrite Hthrow. split; intros (ms1 & M & ms2 & Heq & Hshort & Hrest);
      exists ms1, M, ms2; (split; [exact Heq|]); (split; [exact Hshort|]).
    + rewrite findFunctionByLineIn_shape. exact Hrest.
    + rewrite findFunctionByLineIn_shape in Hrest. exact Hrest.
Qed.

(** X15: [findCallInstByLine] tries the modules in turn.  It returns a
    call instruction ([CallInst], not an invoke) at the line, in a file
    whose normalised name occurs in the file name given, of a module
    whose trimmed name occurs there too; it returns null exactly when no
    module has a name shorter than two characters and no module holds
    such a call; and it throws [std::out_of_range] exactly when it comes
    to a module with a name shorter than two characters before it finds
    a call. *)
Theorem findCallInstByLine_result (s : Slicing) (fileName : string) (line : Z) :
  (forall CI, Lookup.findCallInstByLine s fileName line = Lookup.Returned (Some CI) ->
     exists M ins, M ∈ modules s /\ iid ins = CI /\ callAt fileName line M ins)
  /\ (Lookup.findCallInstByLine s fileName line = Lookup.Returned None <->
      (forall M, M ∈ modules s -> ~ shortName M)
      /\ forall M ins, M ∈ modules s -> ~ callAt fileName line M ins)
  /\ (Lookup.findCallInstByLine s fileName line = Lookup.OutOfRange <->
      exists ms1 M ms2,
        modules s = (ms1 ++ M :: ms2)%list /\ shortName M
        /\ Lookup.findCallInstByLineIn ms1 fileName line = Lookup.Returned None).
Proof.
  unfold Lookup.findCallInstByLine.
  set (hit := fun M => option_map iid
                (List.find (Lookup.callInstAtLine fileName line)
                           (flat_map instructions (functions M)))).
  assert (Helem : forall M ins,
    ins ∈ flat_map instructions (functions M) <->
    exists F, F ∈ functions M /\ ins ∈ instructions F).
  { intros M ins. rewrite list_elem_of_In, in_flat_map.
    split; intros (F & HF & Hins); exists F.
    - rewrite !list_elem_of_In. auto.
    - rewrite <- !list_elem_of_In. auto. }
  assert (Hhit : forall M,
    (exists a, hitIn hit fileName M a) <-> exists ins, callAt fileName line M ins).
  { intros M. unfold hitIn, callAt, hit. split.
    - intros (a & t & Ht & Hc & Hfind).
      destruct (List.find _ _) as [ins|] eqn:Hins; [|discriminate].
      apply find_Some_elem in Hins as [Hin Hp].
      apply Helem in Hin as (F & HF & Hin).
      apply callInstAtLine_true in Hp as (CB & Loc & ? & ? & ? & ? & ?).
      exists ins, t, F, CB, Loc. auto 12.
    - intros (ins & t & F & CB & Loc & Ht & Hc & HF & Hin & ? & ? & ? & ? & ?).
      destruct (List.find (Lookup.callInstAtLine fileName line)
                          (flat_map instructions (functions M))) as [j|] eqn:Hj.
      + exists (iid j), t. auto.
      + exfalso. rewrite find_None_elem in Hj.
        assert (Hin' : ins ∈ flat_map instructions (functions M))
          by (apply Helem; eauto).
        specialize (Hj ins Hin').
        assert (Lookup.callInstAtLine fileName line ins = true)
          by (apply callInstAtLine_true; eauto 10).
        congruence. }
  destruct (firstInModules_spec hit fileName (modules s)) as (Hsome & Hnone & Hthrow).
  rewrite !findCallInstByLineIn_shape. fold hit.
  split; [|split].
  - intros CI HCI. destruct (Hsome CI HCI) as (M & HM & t & Ht & Hc & Hfind).
    unfold hit in Hfind.
    destruct (List.find _ _) as [ins|] eqn:Hins; [|discriminate].
    injection Hfind as <-. apply find_Some_elem in Hins as [Hin Hp].
    apply Helem in Hin as (F & HF & Hin).
    apply callInstAtLine_true in Hp as (CB & Loc & ? & ? & ? & ? & ?).
    exists M, ins. split; [exact HM|]. split; [reflexivity|].
    exists t, F, CB, Loc. auto 12.
  - rewrite Hnone. split; intros [Hs Hh]; (split; [exact Hs|]).
    + intros M ins HM Hd.
      destruct (proj2 (Hhit M) (ex_intro _ ins Hd)) as (a & Ha). exact (Hh M a HM Ha).
    + intros M a HM Ha.
      destruct (proj1 (Hhit M) (ex_intro _ a Ha)) as (ins & Hd). exact (Hh M ins HM Hd).
  - rewrite Hthrow. split; intros (ms1 & M & ms2 & Heq & Hshort & Hrest);
      exists ms1, M, ms2; (split; [exact Heq|]); (split; [exact Hshort|]).
    + rewrite findCallInstByLineIn_shape. exact Hrest.
    + rewrite findCallInstByLineIn_shape in Hrest. exact Hrest.
Qed.

(* ===================================================================== *)
(** ** More on the call-graph pass *)
(* ===================================================================== *)

(** X16: on every program [IterativeModulePass::run] goes through each
    of its three loops once, since none of the three passes ever reports
    a change: with fuel for one turn it does not run out of fuel, more
    fuel changes nothing, and the result is that of the instruction loop
    over the functions outside [.init.text] from the initialised context,
    followed by the finalisation loop over all instructions. *)
Theorem run_single_round (fuel : nat) (c : GlobalContext) :
  run (S fuel) c = run 1 c
  /\ run 1 c <> OutOfFuel
  /\ run 1 c
     = let* c2 := foldM runOnInstruction (analyzedInstructions (Modules c))
                        (initialized c) in
       foldM finalizeInstruction (allInstructions (Modules c)) c2.
Proof.
  assert (H : forall n, run (S n) c
    = let* c2 := foldM runOnInstruction (analyzedInstructions (Modules c))
                       (initialized c) in
      foldM finalizeInstruction (allInstructions (Modules c)) c2).
  { intros n. unfold run. rewrite initializeLoop_initialized. cbn [obind].
    rewrite processLoop_analyzed.
    destruct (initialized_effect c) as (Hm & _). rewrite Hm.
    destruct (foldM runOnInstruction _ (initialized c)) as [c2| |] eqn:Hp;
      cbn [obind]; try reflexivity.
    rewrite finalizeLoop_instructions.
    pose proof (runOnInstructions_effect _ _ _ Hp) as ((Hm2 & _) & _).
    rewrite <- Hm2, Hm. reflexivity. }
  split; [rewrite !H; reflexivity|]. split; [apply run_fuel | apply H].
Qed.

(** *** The registry of definitions *)

Lemma registerFunction_lookup (F : Function) (funcs : gmap string FuncId) (n : string) :
  registerFunction F funcs !! n
  = if registeredAs n F then Some (fid F) else funcs !! n.
Proof.
  unfold registerFunction, registeredAs, registeredName.
  destruct (fExternalLinkage F && _); simpl; [|reflexivity].
  destruct (String.eqb_spec
              (if Str.startswith (fname F) "__sys_"
               then "sys_" ++ String.substring 6 (String.length (fname F) - 6) (fname F)
               else fname F) n) as [Heq | Hne].
  - rewrite Heq. apply lookup_insert_eq.
  - apply lookup_insert_ne. exact Hne.
Qed.

Lemma registerFunctions_lookup (l : list Function) (n : string) :
  forall funcs : gmap string FuncId,
    fold_left (fun funcs F => registerFunction F funcs) l funcs !! n
    = match last (List.filter (registeredAs n) l) with
      | Some F => Some (fid F)
      | None => funcs !! n
      end.
Proof.
  induction l as [|F l IH]; intros funcs; simpl; [reflexivity|].
  rewrite IH, registerFunction_lookup.
  destruct (registeredAs n F); [|reflexivity].
  rewrite last_cons. destruct (last (List.filter (registeredAs n) l)); reflexivity.
Qed.

Lemma loadModules_Funcs (ms : list Module) :
  Funcs (loadModules ms)
  = fold_left (fun funcs F => registerFunction F funcs) (allFunctions ms) ∅.
Proof.
  unfold loadModules, allFunctions.
  assert (H : forall (l : list Module) (c : GlobalContext),
    Funcs (fold_left (fun c M => doBasicInitialization M c) l c)
    = fold_left (fun funcs F => registerFunction F funcs) (flat_map functions l)
                (Funcs c)).
  { induction l as [|M l IH]; intros c; simpl; [reflexivity|].
    rewrite IH, fold_left_app. reflexivity. }
  apply H.
Qed.

Lemma Funcs_lastRegistered (ms : list Module) (n : string) :
  Funcs (loadModules ms) !! n = lastRegistered ms n.
Proof.
  rewrite loadModules_Funcs, registerFunctions_lookup, lookup_empty.
  unfold lastRegistered. destruct (last _); reflexivity.
Qed.

Lemma registeredAs_true (n : string) (F : Function) :
  registeredAs n F = true <->
  fExternalLinkage F = true /\ blocks F <> [] /\ registeredName F = n.
Proof.
  unfold registeredAs. rewrite !andb_true_iff, String.eqb_eq.
  destruct (blocks F); intuition congruence.
Qed.

(** X17: the registry [Funcs] that [doBasicInitialization] fills maps a
    name to the last function, in the order of loading, that has
    external linkage and a body and is registered under that name: its
    own name, or [sys_x] for a function named [__sys_x].  A later
    definition replaces an earlier one of the same name; every entry is
    such a function of the program, and a name under which some such
    function is registered has an entry. *)
Theorem doBasicInitialization_last_definition (ms : list Module) (n : string) :
  Funcs (loadModules ms) !! n = lastRegistered ms n
  /\ (forall g, Funcs (loadModules ms) !! n = Some g ->
        exists F, functionOf ms F /\ fid F = g /\ fExternalLinkage F = true
                  /\ blocks F <> [] /\ registeredName F = n)
  /\ (forall F, functionOf ms F -> fExternalLinkage F = true -> blocks F <> [] ->
        registeredName F = n -> is_Some (Funcs (loadModules ms) !! n)).
Proof.
  split; [apply Funcs_lastRegistered|]. rewrite Funcs_lastRegistered.
  unfold lastRegistered. split.
  - intros g Hg.
    destruct (last (List.filter (registeredAs n) (allFunctions ms))) as [F|] eqn:Hlast;
      [|discriminate]. injection Hg as <-.
    apply last_Some_elem_of in Hlast. apply list_elem_of_In in Hlast.
    apply filter_In in Hlast as [Hin Hreg].
    apply registeredAs_true in Hreg as (? & ? & ?).
    exists F. split; [|auto]. apply functionOf_allFunctions, list_elem_of_In. exact Hin.
  - intros F HF Hext Hbody Hname.
    assert (Hin : In F (List.filter (registeredAs n) (allFunctions ms))).
    { apply filter_In. split.
      - apply list_elem_of_In, functionOf_allFunctions. exact HF.
      - apply registeredAs_true. auto. }
    destruct (last (List.filter (registeredAs n) (allFunctions ms))) as [G|] eqn:Hlast;
      [simpl; eauto|].
    apply last_None in Hlast. rewrite Hlast in Hin. inversion Hin.
Qed.

(** *** Direct calls *)

Lemma initialized_loadModules (ms : list Module) :
  Modules (initialized (loadModules ms)) = ms
  /\ Funcs (initialized (loadModules ms)) = Funcs (loadModules ms)
  /\ Callees (initialized (loadModules ms)) = ∅.
Proof.
  destruct (loadModules_effect ms) as (Hms & _ & Hcallees & _).
  destruct (initialized_effect (loadModules ms)) as (Hm & Hf & Hc & _).
  repeat split; congruence.
Qed.

(** The callee set of a direct or inline-assembly call in a context the
    phase returned. *)
Lemma direct_call_callees_when_done (fuel : nat) (ms : list Module)
    (c' : GlobalContext) (Fn : Function) (ins : Instruction) (CB : CallBase) :
  wfModules ms = true -> callGraphPhase fuel ms = Done c' ->
  functionOf ms Fn -> inInitText Fn = false -> ins ∈ instructions Fn ->
  icall ins = Some CB ->
  (calledOperand CB = CalledInlineAsm -> calleesOf c' (iid ins) = ∅)
  /\ (forall CF, calledOperand CB = CalledFunction CF ->
        exists M Fr,
          findFunction CF ms = Some (M, Fr)
          /\ calleesOf c' (iid ins)
             = if isIntrinsic Fr then ∅
               else {[ default CF (lastRegistered ms (getScopeName M Fr)) ]}).
Proof.
  intros Hwf Hrun HFn Hinit Hins Hcall.
  destruct (callGraphPhase_key fuel ms c' ins Hwf Hrun
              (analyzedInstructions_elem ms Fn ins HFn Hinit Hins))
    as (o & Hkey & Hcallees).
  destruct (initialized_loadModules ms) as (Hm & Hf & Hc).
  unfold keyResult in Hkey. rewrite Hcall, Hm, Hc, lookup_empty in Hkey.
  destruct Hkey as (intr & Hintr & Hkey).
  unfold callsIntrinsic, isInlineAsm, getCalledFunction in *.
  split.
  - intros Hop. rewrite Hop in *. simpl in Hkey. subst o. exact Hcallees.
  - intros CF Hop. rewrite Hop in *.
    destruct (derefFunction ms CF) as [[M Fr]| |] eqn:Hderef; try discriminate.
    simpl in Hintr. injection Hintr as <-.
    exists M, Fr. split.
    { unfold derefFunction, ofOption in Hderef.
      destruct (findFunction CF ms) as [p|]; [|discriminate]. congruence. }
    rewrite Hcallees. simpl in Hkey.
    destruct (isIntrinsic Fr); [subst o; reflexivity|].
    destruct Hkey as (FS' & Hres & ->). simpl.
    unfold resolved, getCalledFunction in Hres. rewrite Hop in Hres.
    unfold getFuncDef in Hres. rewrite Hm, Hderef, Hf in Hres. simpl in Hres.
    rewrite Funcs_lastRegistered in Hres.
    unfold calleesOf in Hres. rewrite Hc, lookup_empty in Hres. simpl in Hres.
    destruct (lastRegistered ms (getScopeName M Fr)); simpl in *;
      injection Hres as <-; apply (right_id_L ∅ (∪)).
Qed.

(** X18: the callee set of a call site in a function outside
    [.init.text] when the phase is over, which it is on every program on
    which its code is defined.  An inline-assembly call has no callee.
    A direct call has one callee, unless the called function is an
    intrinsic, when it has none: the callee is the last definition
    registered under the scope name of the called function, and the
    called function itself when none is registered. *)
Theorem direct_call_single_callee (fuel : nat) (ms : list Module)
    (Fn : Function) (ins : Instruction) (CB : CallBase) :
  phaseDefined ms = true ->
  functionOf ms Fn -> inInitText Fn = false -> ins ∈ instructions Fn ->
  icall ins = Some CB ->
  exists c',
    callGraphPhase (S fuel) ms = Done c'
    /\ (calledOperand CB = CalledInlineAsm -> calleesOf c' (iid ins) = ∅)
    /\ (forall CF, calledOperand CB = CalledFunction CF ->
          exists M Fr,
            findFunction CF ms = Some (M, Fr)
            /\ calleesOf c' (iid ins)
               = if isIntrinsic Fr then ∅
                 else {[ default CF (lastRegistered ms (getScopeName M Fr)) ]}).
Proof.
  intros Hdef HFn Hinit Hins Hcall.
  apply (callGraphPhase_total fuel ms _ Hdef). intros c' Hrun.
  destruct (phaseDefined_elim ms Hdef) as (Hwf & _).
  exact (direct_call_callees_when_done _ ms c' Fn ins CB Hwf Hrun HFn Hinit Hins Hcall).
Qed.

Lemma direct_call_single_callee_witness :
  phaseDefined progCycle = true
  /\ exists c',
       callGraphPhase 1 progCycle = Done c'
       /\ (calledOperand (callTo 2 voidTy []) = CalledInlineAsm ->
           calleesOf c' (iid (directCall 1 2 voidTy [])) = ∅)
       /\ (forall CF, calledOperand (callTo 2 voidTy []) = CalledFunction CF ->
             exists M Fr,
               findFunction CF progCycle = Some (M, Fr)
               /\ calleesOf c' (iid (directCall 1 2 voidTy []))
                  = if isIntrinsic Fr then ∅
                    else {[ default CF (lastRegistered progCycle (getScopeName M Fr)) ]}).
Proof.
  split; [vm_compute; reflexivity|].
  apply (direct_call_single_callee 0 progCycle
           (function 1 "f" voidTy [] false false [block 1 [directCall 1 2 voidTy []]])
           (directCall 1 2 voidTy []) (callTo 2 voidTy [])).
  - vm_compute. reflexivity.
  - apply functionOf_single. simpl. auto.
  - reflexivity.
  - left.
  - reflexivity.
Defined.

(** *** The keys of [Callees] *)

Lemma findInstInBlocks_Some (id : InstId) (bs : list BasicBlock) (BB : BasicBlock)
    (ins : Instruction) :
  findInstInBlocks id bs = Some (BB, ins) ->
  BB ∈ bs /\ ins ∈ insts BB /\ iid ins = id.
Proof.
  induction bs as [|B bs IH]; simpl; [discriminate|].
  destruct (List.find _ (insts B)) as [i|] eqn:Hfind.
  - intros [= <- <-]. apply find_some in Hfind as [Hin Heq].
    apply Pos.eqb_eq in Heq. apply list_elem_of_In in Hin.
    split; [apply list_elem_of_here | auto].
  - intros H. apply IH in H as (? & ? & ?).
    split; [apply list_elem_of_further; assumption | auto].
Qed.

Lemma findInstInFunctions_Some (id : InstId) (fs : list Function) (F : Function)
    (BB : BasicBlock) (ins : Instruction) :
  findInstInFunctions id fs = Some (F, BB, ins) ->
  F ∈ fs /\ BB ∈ blocks F /\ ins ∈ insts BB /\ iid ins = id.
Proof.
  induction fs as [|G fs IH]; simpl; [discriminate|].
  destruct (findInstInBlocks id (blocks G)) as [[B i]|] eqn:Hfind.
  - intros [= <- <- <-]. apply findInstInBlocks_Some in Hfind as (? & ? & ?).
    split; [apply list_elem_of_here | auto].
  - intros H. apply IH in H as (? & ? & ? & ?).
    split; [apply list_elem_of_further; assumption | auto].
Qed.

Lemma findInstInBlocks_is_Some (bs : list BasicBlock) (ins : Instruction) :
  ins ∈ flat_map insts bs -> is_Some (findInstInBlocks (iid ins) bs).
Proof.
  induction bs as [|B bs IH]; simpl; [inversion 1|].
  destruct (List.find _ (insts B)) as [i|] eqn:Hfind; [eauto|].
  rewrite elem_of_app. intros [Hin | Hin]; [|auto].
  exfalso. apply list_elem_of_In in Hin. apply (find_none _ _ Hfind) in Hin.
  simpl in Hin. rewrite Pos.eqb_refl in Hin. discriminate.
Qed.

Lemma findInstInFunctions_is_Some (fs : list Function) (ins : Instruction) :
  ins ∈ flat_map instructions fs -> is_Some (findInstInFunctions (iid ins) fs).
Proof.
  induction fs as [|G fs IH]; simpl; [inversion 1|].
  destruct (findInstInBlocks (iid ins) (blocks G)) as [[B i]|] eqn:Hfind; [eauto|].
  rewrite elem_of_app. intros [Hin | Hin]; [|auto].
  apply findInstInBlocks_is_Some in Hin. rewrite Hfind in Hin.
  destruct Hin as [? Hin]. discriminate Hin.
Qed.




Lemma runOnInstructions_keys (L : list Instruction) (c c' : GlobalContext) :
  foldM runOnInstruction L c = Done c' ->
  forall k, is_Some (Callees c' !! k) ->
    is_Some (Callees c !! k)
    \/ exists ins, ins ∈ L /\ iid ins = k /\ finalizedCall (Modules c) ins.
Proof.
  intros Hrun.
  apply (foldM_invariant
           (fun c' => sameProgram c c' /\
              forall k, is_Some (Callees c' !! k) ->
                is_Some (Callees c !! k)
                \/ exists ins, ins ∈ L /\ iid ins = k /\ finalizedCall (Modules c) ins)
           runOnInstruction L c c'); [ | | exact Hrun].
  - intros x t t' Hx (Hsame & Hinv) Hstep.
    apply runOnInstruction_effect in Hstep as (Hsame' & _ & Hother & Hkey).
    split; [eapply sameProgram_trans; eassumption|].
    intros k Hk. destruct (decide (k = iid x)) as [->|Hne].
    + unfold keyResult in Hkey.
      destruct (icall x) as [CB|] eqn:Hcall.
      * destruct Hkey as (intr & Hintr & Hkey).
        destruct (isInlineAsm CB || intr) eqn:Hskip.
        -- apply Hinv. rewrite <- Hkey. exact Hk.
        -- right. exists x. split; [exact Hx|]. split; [reflexivity|].
           exists CB. split; [exact Hcall|].
           apply callsIntrinsic_false_not_dbg.
           destruct Hsame as (-> & _). rewrite Hintr.
           apply orb_false_iff in Hskip as [_ ->]. reflexivity.
      * apply Hinv. rewrite <- Hkey. exact Hk.
    + apply Hinv. rewrite <- Hother by exact Hne. exact Hk.
  - split; [apply sameProgram_refl | auto].
Qed.

Lemma finalizeInstruction_keys (ins : Instruction) (c c' : GlobalContext) :
  finalizeInstruction ins c = Done c' ->
  forall k, is_Some (Callees c' !! k) <->
    is_Some (Callees c !! k) \/ (k = iid ins /\ finalizedCall (Modules c) ins).
Proof.
  unfold finalizeInstruction, finalizedCall.
  destruct (icall ins) as [CB|].
  2:{ intros [= <-] k. split; [tauto|].
      intros [H | (_ & CB & ? & _)]; [exact H | discriminate]. }
  destruct (isDbgInfoIntrinsic (Modules c) CB) as [dbg| |] eqn:Hdbg;
    simpl; try discriminate.
  destruct dbg; simpl.
  { intros [= <-] k. split; [tauto|].
    intros [H | (_ & CB' & [= <-] & ?)]; [exact H | congruence]. }
  intros [= <-] k.
  pose proof (insertCallers_effect (iid ins) (elements (calleesOf c (iid ins)))
    (setCallees (<[iid ins := calleesOf c (iid ins)]> (Callees c)) c))
    as (_ & Hcallees & _).
  rewrite Hcallees. simpl.
  destruct (decide (k = iid ins)) as [->|Hne].
  - rewrite lookup_insert_eq. split; [|eauto]. intros _. right. eauto.
  - rewrite lookup_insert_ne by congruence. split; [tauto|].
    intros [H | [H _]]; [exact H | contradiction].
Qed.

Lemma finalizeInstructions_keys (L : list Instruction) :
  forall c c' : GlobalContext,
    foldM finalizeInstruction L c = Done c' ->
    forall k, is_Some (Callees c' !! k) <->
      is_Some (Callees c !! k)
      \/ exists ins, ins ∈ L /\ iid ins = k /\ finalizedCall (Modules c) ins.
Proof.
  induction L as [|x L IH]; intros c c' Hrun k; simpl in Hrun.
  - injection Hrun as <-. split; [tauto|].
    intros [H | (ins & Hin & _)]; [exact H | inversion Hin].
  - apply obind_Done in Hrun as (c1 & Hx & Hrest).
    pose proof (finalizeInstruction_effect _ _ _ Hx) as ((Hm & _) & _).
    rewrite (IH _ _ Hrest k), (finalizeInstruction_keys _ _ _ Hx k), <- Hm.
    split.
    + intros [[H | [-> Hfin]] | (ins & Hin & Hid & Hfin)].
      * left. exact H.
      * right. exists x. split; [left | auto].
      * right. exists ins. split; [right; exact Hin | auto].
    + intros [H | (ins & Hin & Hid & Hfin)]; [left; left; exact H|].
      apply elem_of_cons in Hin as [-> | Hin].
      * left. right. auto.
      * right. exists ins. auto.
Qed.

Lemma callGraphPhase_keys (fuel : nat) (ms : list Module) (c' : GlobalContext) :
  callGraphPhase fuel ms = Done c' ->
  Modules c' = ms /\ forall k, is_Some (Callees c' !! k) <-> callSite ms k.
Proof.
  unfold callGraphPhase. intros Hrun.
  apply run_phases in Hrun as (c2 & Hproc & Hfin & Hsame).
  destruct (initialized_loadModules ms) as (Hm & _ & Hc).
  destruct (loadModules_effect ms) as (Hms & _).
  rewrite Hms in *.
  pose proof (runOnInstructions_keys _ _ _ Hproc) as Hkeys2.
  pose proof (finalizeInstructions_keys _ _ _ Hfin) as Hkeys.
  pose proof (finalizeInstructions_effect _ _ _ Hfin) as ((Hm' & _) & _).
  destruct Hsame as (Hm2 & _). rewrite Hm in Hm2. rewrite <- Hm2 in *.
  rewrite Hm in Hkeys2.
  split; [congruence|]. intros k. rewrite Hkeys. unfold callSite. split.
  - intros [H | H]; [|exact H].
    apply Hkeys2 in H as [H | (ins & Hin & Hid & Hfc)].
    + rewrite Hc, lookup_empty in H. destruct H as [? H]. discriminate H.
    + exists ins. split; [apply analyzedInstructions_subset; exact Hin | auto].
  - intros H. right. exact H.
Qed.

(** X19: on a program on which the code of the phase is defined the
    phase returns, and [Callees] has then an entry, which may be empty,
    for exactly the call-like instructions of the program that are no
    debug intrinsics, whether or not their function lies in
    [.init.text]: the finalisation makes the entries the instruction
    loop left out. *)
Theorem Callees_keys_are_call_sites (fuel : nat) (ms : list Module) (k : InstId) :
  phaseDefined ms = true ->
  exists c',
    callGraphPhase (S fuel) ms = Done c'
    /\ (is_Some (Callees c' !! k) <-> callSite ms k).
Proof.
  intros Hdef. apply (callGraphPhase_total fuel ms _ Hdef).
  intros c' Hrun. apply (callGraphPhase_keys _ ms c' Hrun).
Qed.

Lemma Callees_keys_are_call_sites_witness :
  phaseDefined progDirect = true
  /\ exists c', callGraphPhase 1 progDirect = Done c'
       /\ (is_Some (Callees c' !! 1%positive) <-> callSite progDirect 1).
Proof.
  split; [vm_compute; reflexivity|].
  apply (Callees_keys_are_call_sites 0 progDirect). vm_compute. reflexivity.
Defined.

(** *** [dumpCallees] *)








(* ===================================================================== *)
(** ** Functions in [.init.text], as callers and as callees *)
(* ===================================================================== *)






(* ===================================================================== *)
(** ** Reachability inside a function ([intraCanReach]) *)
(* ===================================================================== *)

Lemma findBlockInFunctions_Some (id : BlockId) (fs : list Function) (F : Function)
    (BB : BasicBlock) :
  findBlockInFunctions id fs = Some (F, BB) ->
  F ∈ fs /\ BB ∈ blocks F /\ bid BB = id.
Proof.
  induction fs as [|G fs IH]; simpl; [discriminate|].
  unfold findBlockIn.
  destruct (List.find _ (blocks G)) as [B|] eqn:Hfind.
  - intros [= <- <-]. apply find_some in Hfind as [Hin Heq].
    apply Pos.eqb_eq in Heq. apply list_elem_of_In in Hin.
    split; [apply list_elem_of_here | auto].
  - intros H. apply IH in H as (? & ? & ?).
    split; [apply list_elem_of_further; assumption | auto].
Qed.

Lemma elem_of_rev {A : Type} (l : list A) (x : A) : x ∈ rev l <-> x ∈ l.
Proof. rewrite !list_elem_of_In. symmetry. apply in_rev. Qed.

Lemma allBlocks_elem (ms : list Module) (F : Function) (BB : BasicBlock) :
  F ∈ allFunctions ms -> BB ∈ blocks F -> BB ∈ allBlocks ms.
Proof.
  intros HF HBB. unfold allBlocks. rewrite list_elem_of_In, in_flat_map.
  exists F. rewrite <- !list_elem_of_In. auto.
Qed.

Lemma pending_le (bs : list BasicBlock) (visited : gset BlockId) (x : BlockId) :
  (Graph.pending bs ({[x]} ∪ visited) <= Graph.pending bs visited)%nat.
Proof.
  induction bs as [|BB bs IH]; simpl; [lia|].
  destruct (bool_decide_reflect (bid BB ∈ visited)) as [Hin | Hout].
  - rewrite bool_decide_eq_true_2 by (apply elem_of_union_r; exact Hin). lia.
  - destruct (bool_decide (bid BB ∈ {[x]} ∪ visited)); lia.
Qed.

(** Visiting a block takes its successor edges off the pending ones. *)
Lemma pending_visit (bs : list BasicBlock) (visited : gset BlockId) (BB : BasicBlock) :
  BB ∈ bs -> bid BB ∉ visited ->
  (Graph.pending bs ({[bid BB]} ∪ visited) + length (bsuccessors BB)
   <= Graph.pending bs visited)%nat.
Proof.
  intros Hin Hout. induction bs as [|B bs IH]; [inversion Hin|].
  simpl. apply elem_of_cons in Hin as [<- | Hin].
  - rewrite (bool_decide_eq_false_2 _ Hout).
    rewrite bool_decide_eq_true_2
      by (apply elem_of_union_l, elem_of_singleton; reflexivity).
    pose proof (pending_le bs visited (bid BB)). lia.
  - specialize (IH Hin).
    destruct (bool_decide_reflect (bid B ∈ visited)) as [HB | HB].
    + rewrite bool_decide_eq_true_2 by (apply elem_of_union_r; exact HB). lia.
    + destruct (bool_decide (bid B ∈ {[bid BB]} ∪ visited)); lia.
Qed.

Lemma successorsValid_elim (ms : list Module) (a b : BlockId) :
  Graph.successorsValid ms = true -> Graph.succOf ms a b ->
  is_Some (findBlockInFunctions b (allFunctions ms)).
Proof.
  unfold Graph.successorsValid. rewrite forallb_forall.
  intros Hall (F & BB & Hfind & Hb).
  apply findBlockInFunctions_Some in Hfind as (HF & HBB & _).
  specialize (Hall BB). rewrite forallb_forall in Hall.
  apply (bool_decide_unpack _). apply Is_true_true. apply Hall.
  - apply list_elem_of_In. eapply allBlocks_elem; eassumption.
  - apply list_elem_of_In. exact Hb.
Qed.

(** The loop returns when the fuel covers the stack and the pending
    edges and every pointer on the stack or in a successor list
    designates a block. *)
Lemma intraCanReachLoop_returns (ms : list Module) (dst : BlockId) (fuel : nat) :
  Graph.successorsValid ms = true ->
  forall (toVisit : list BlockId) (visited : gset BlockId),
    (forall x, x ∈ toVisit -> is_Some (findBlockInFunctions x (allFunctions ms))) ->
    (length toVisit + Graph.pending (allBlocks ms) visited <= fuel)%nat ->
    exists b, intraCanReachLoop fuel ms dst visited toVisit = Done b.
Proof.
  intros Hvalid. induction fuel as [|fuel IH]; intros [|current toVisit] visited Hstack Hfuel;
    simpl in *; eauto; [lia|].
  destruct (bool_decide_reflect (current ∈ visited)) as [Hin | Hout].
  - apply IH; [|lia]. intros x Hx. apply Hstack. apply list_elem_of_further. exact Hx.
  - destruct (Pos.eqb current dst); [eauto|].
    destruct (Hstack current (list_elem_of_here _ _)) as [[F BBr] Hfind].
    unfold derefBlock. rewrite Hfind. cbn [ofOption obind].
    pose proof (findBlockInFunctions_Some _ _ _ _ Hfind) as (HF & HBB & Hid).
    apply IH.
    + intros x Hx. apply elem_of_app in Hx as [Hx | Hx].
      * rewrite elem_of_rev in Hx.
        apply (successorsValid_elim ms current x Hvalid). exists F, BBr. auto.
      * apply Hstack. apply list_elem_of_further. exact Hx.
    + rewrite length_app, length_rev.
      pose proof (pending_visit (allBlocks ms) visited BBr
                    (allBlocks_elem ms F BBr HF HBB)) as Hp.
      rewrite Hid in Hp. specialize (Hp Hout). lia.
Qed.

(** When the loop answers yes, some block of the stack leads to [dst]. *)
Lemma intraCanReachLoop_true (ms : list Module) (dst : BlockId) (fuel : nat) :
  forall (toVisit : list BlockId) (visited : gset BlockId),
    intraCanReachLoop fuel ms dst visited toVisit = Done true ->
    exists x, x ∈ toVisit /\ Graph.cfgReach ms x dst.
Proof.
  induction fuel as [|fuel IH]; intros [|current toVisit] visited; simpl;
    try discriminate.
  destruct (bool_decide (current ∈ visited)).
  - intros H. apply IH in H as (x & Hx & Hreach).
    exists x. split; [apply list_elem_of_further; exact Hx | exact Hreach].
  - destruct (Pos.eqb_spec current dst) as [-> | Hne].
    + intros _. exists dst. split; [apply list_elem_of_here | apply rtc_refl].
    + intros H. apply obind_Done in H as ([F BBr] & Hderef & H).
      unfold derefBlock, ofOption in Hderef.
      destruct (findBlockInFunctions current (allFunctions ms)) as [p|] eqn:Hfind;
        [|discriminate]. injection Hderef as ->.
      apply IH in H as (x & Hx & Hreach).
      apply elem_of_app in Hx as [Hx | Hx].
      * rewrite elem_of_rev in Hx. exists current.
        split; [apply list_elem_of_here|].
        eapply rtc_l; [|exact Hreach]. exists F, BBr. auto.
      * exists x. split; [apply list_elem_of_further; exact Hx | exact Hreach].
Qed.

(** When the loop answers no, the visited blocks and the stack lie in a
    set that is closed under successors and does not hold [dst]. *)
Lemma intraCanReachLoop_false (ms : list Module) (dst : BlockId) (fuel : nat) :
  forall (toVisit : list BlockId) (visited : gset BlockId),
    intraCanReachLoop fuel ms dst visited toVisit = Done false ->
    dst ∉ visited ->
    (forall a b, a ∈ visited -> Graph.succOf ms a b -> b ∈ visited \/ b ∈ toVisit) ->
    exists V : gset BlockId,
      visited ⊆ V /\ (forall x, x ∈ toVisit -> x ∈ V) /\ (dst ∉ V)
      /\ forall a b, a ∈ V -> Graph.succOf ms a b -> b ∈ V.
Proof.
  induction fuel as [|fuel IH]; intros [|current toVisit] visited; simpl;
    try discriminate.
  - intros _ Hdst Hclosed. exists visited. split; [reflexivity|].
    split; [intros x Hx; inversion Hx|]. split; [exact Hdst|].
    intros a b Ha Hab. destruct (Hclosed a b Ha Hab) as [H | H]; [exact H | inversion H].
  - intros _ Hdst Hclosed. exists visited. split; [reflexivity|].
    split; [intros x Hx; inversion Hx|]. split; [exact Hdst|].
    intros a b Ha Hab. destruct (Hclosed a b Ha Hab) as [H | H]; [exact H | inversion H].
  - destruct (bool_decide_reflect (current ∈ visited)) as [Hin | Hout].
    + intros H Hdst Hclosed.
      destruct (IH toVisit visited H Hdst) as (V & HV & Hstack & HdV & HcV).
      { intros a b Ha Hab. destruct (Hclosed a b Ha Hab) as [Hb | Hb]; [auto|].
        apply elem_of_cons in Hb as [-> | Hb]; auto. }
      exists V. split; [exact HV|]. split; [|auto].
      intros x Hx. apply elem_of_cons in Hx as [-> | Hx]; [apply HV; exact Hin | auto].
    + destruct (Pos.eqb_spec current dst) as [-> | Hne]; [discriminate|].
      intros H Hdst Hclosed.
      apply obind_Done in H as ([F BBr] & Hderef & H).
      unfold derefBlock, ofOption in Hderef.
      destruct (findBlockInFunctions current (allFunctions ms)) as [p|] eqn:Hfind;
        [|discriminate]. injection Hderef as ->.
      destruct (IH _ _ H) as (V & HV & Hstack & HdV & HcV).
      { rewrite elem_of_union, elem_of_singleton. intros [Heq | Hd]; auto. }
      { intros a b Ha Hab. rewrite elem_of_union, elem_of_singleton in Ha.
        rewrite elem_of_app, elem_of_rev, elem_of_union, elem_of_singleton.
        destruct Ha as [-> | Ha].
        - destruct Hab as (F' & BB' & Hfind' & Hb).
          rewrite Hfind in Hfind'. injection Hfind' as <- <-. auto.
        - destruct (Hclosed a b Ha Hab) as [Hb | Hb]; [auto|].
          apply elem_of_cons in Hb as [-> | Hb]; auto. }
      exists V. split; [|split; [|auto]].
      * intros x Hx. apply HV. apply elem_of_union_r. exact Hx.
      * intros x Hx. apply elem_of_cons in Hx as [-> | Hx].
        -- apply HV. apply elem_of_union_l, elem_of_singleton. reflexivity.
        -- apply Hstack. apply elem_of_app. right. exact Hx.
Qed.

(** X21: [intraCanReach] decides reachability in the control-flow
    graph.  When the pointers in the successor lists and [src] designate
    blocks and the fuel exceeds the number of successor edges of the
    program, it returns, loops in the graph or not, and it returns true
    exactly when [dst] is reached from [src] along successor edges. *)
Theorem intraCanReach_decides (fuel : nat) (ms : list Module) (src dst : BlockId) :
  Graph.successorsValid ms = true ->
  is_Some (findBlockInFunctions src (allFunctions ms)) ->
  (Graph.edgeCount ms < fuel)%nat ->
  exists b, intraCanReach fuel ms src dst = Done b
            /\ (b = true <-> Graph.cfgReach ms src dst).
Proof.
  intros Hvalid Hsrc Hfuel. unfold intraCanReach.
  destruct (intraCanReachLoop_returns ms dst fuel Hvalid [src] ∅) as (b & Hrun).
  { intros x Hx. apply list_elem_of_singleton in Hx as ->. exact Hsrc. }
  { unfold Graph.edgeCount in Hfuel. simpl. lia. }
  exists b. split; [exact Hrun|]. destruct b.
  - split; [|reflexivity]. intros _.
    apply intraCanReachLoop_true in Hrun as (x & Hx & Hreach).
    apply list_elem_of_singleton in Hx as ->. exact Hreach.
  - split; [discriminate|]. intros Hreach. exfalso.
    destruct (intraCanReachLoop_false ms dst fuel [src] ∅ Hrun)
      as (V & _ & Hstack & HdV & HcV).
    { apply not_elem_of_empty. }
    { intros a b Ha. exfalso.
      exact (not_elem_of_empty (C := gset BlockId) a Ha). }
    assert (Hall : forall x y, rtc (Graph.succOf ms) x y -> x ∈ V -> y ∈ V).
    { induction 1 as [|x y z Hxy _ IH]; [auto|]. intros Hx. apply IH.
      exact (HcV x y Hx Hxy). }
    apply HdV. apply (Hall src dst Hreach). apply Hstack. apply list_elem_of_here.
Qed.

Lemma intraCanReach_decides_witness :
  Graph.successorsValid Ex2.progLoop = true
  /\ exists b, intraCanReach 5 Ex2.progLoop 2 1 = Done b
               /\ (b = true <-> Graph.cfgReach Ex2.progLoop 2 1).
Proof.
  split; [vm_compute; reflexivity|].
  apply (intraCanReach_decides 5 Ex2.progLoop 2 1).
  - vm_compute. reflexivity.
  - vm_compute. eauto.
  - vm_compute. lia.
Defined.

(* ===================================================================== *)
(** ** The driver *)
(* ===================================================================== *)








(* ===================================================================== *)
(** ** The backward slice is made of whole functions *)
(* ===================================================================== *)

Lemma sameSlice_refl (s : Slicing) : sameSlice s s.
Proof. repeat split. Qed.

Lemma sameSlice_trans (s1 s2 s3 : Slicing) :
  sameSlice s1 s2 -> sameSlice s2 s3 -> sameSlice s1 s3.
Proof. unfold sameSlice. intuition congruence. Qed.

Lemma foldM_sameSlice {A : Type} (f : A -> Slicing -> outcome Slicing) (l : list A) :
  (forall x t t', x ∈ l -> f x t = Done t' -> sameSlice t t') ->
  forall s s', foldM f l s = Done s' -> sameSlice s s'.
Proof.
  intros Hstep s s' Hrun.
  apply (foldM_invariant (sameSlice s) f l s s'); [ | apply sameSlice_refl | exact Hrun].
  intros x t t' Hx Ht Hf. eapply sameSlice_trans; [exact Ht | eauto].
Qed.

Lemma addToVerboseInst_sameSlice (fuel : nat) (fBB : BlockId) (BB : BasicBlock)
    (ins : Instruction) (s s' : Slicing) :
  addToVerboseInst fuel fBB BB ins s = Done s' -> sameSlice s s'.
Proof.
  unfold addToVerboseInst. destruct (icall ins) as [CB|].
  2:{ intros [= <-]. apply sameSlice_refl. }
  destruct (isIntrinsicInst (modules s) CB) as [[|]| |]; simpl; try discriminate.
  { intros [= <-]. apply sameSlice_refl. }
  destruct (intraCanReach fuel (modules s) (bid BB) fBB) as [[|]| |]; simpl;
    try discriminate.
  - destruct (getCalledFunction CB); intros [= <-]; repeat split.
  - intros [= <-]. apply sameSlice_refl.
Qed.

Lemma addToVerbose_sameSlice (fuel : nat) (F : FuncId) (s s' : Slicing) :
  addToVerbose fuel F s = Done s' -> sameSlice s s'.
Proof.
  unfold addToVerbose. destruct (bool_decide (F ∈ verboseF_ s)).
  { intros [= <-]. apply sameSlice_refl. }
  intros Hrun. eapply sameSlice_trans; [|eapply foldM_sameSlice; [|exact Hrun]].
  - repeat split.
  - intros CB t t' _ Hstep.
    apply obind_Done in Hstep as ([[enclosingF fBB] ?] & _ & Hstep).
    eapply foldM_sameSlice; [|exact Hstep].
    intros BB u u' _ Hbb. eapply foldM_sameSlice; [|exact Hbb].
    intros ins v v' _. apply addToVerboseInst_sameSlice.
Qed.

Lemma enqueueCallees_sameSlice (ins : Instruction) (sq sq' : Slicing * list BlockId) :
  enqueueCallees ins sq = Done sq' -> sameSlice (fst sq) (fst sq').
Proof.
  unfold enqueueCallees. destruct (icall ins).
  2:{ intros [= <-]. apply sameSlice_refl. }
  destruct (Callees (Ctx_ (fst sq)) !! iid ins) as [funcSet|].
  2:{ intros [= <-]. apply sameSlice_refl. }
  intros Hrun.
  apply (foldM_invariant (fun t => sameSlice (fst sq) (fst t)) enqueueCallee
           (elements funcSet) sq sq'); [ | apply sameSlice_refl | exact Hrun].
  intros x [t q] t' _ Ht Hx. eapply sameSlice_trans; [exact Ht|].
  unfold enqueueCallee in Hx.
  destruct (bool_decide (x ∈ fVisitedF_ t)).
  { injection Hx as <-. apply sameSlice_refl. }
  apply obind_Done in Hx as ([M Cr] & _ & [= <-]). repeat split.
Qed.

Lemma forwardLoop_sameSlice (fuel : nat) :
  forall (toVisit : list BlockId) (visited : gset BlockId) (s s' : Slicing),
    forwardLoop fuel toVisit visited s = Done s' -> sameSlice s s'.
Proof.
  induction fuel as [|fuel IH]; intros [|current toVisit] visited s s'; simpl;
    try discriminate; try (intros [= <-]; apply sameSlice_refl).
  destruct (bool_decide (current ∈ visited)).
  - intros Hrun. eapply sameSlice_trans; [|eapply IH; exact Hrun]. repeat split.
  - intros Hrun. apply obind_Done in Hrun as ([Fp BBr] & _ & Hrun).
    apply obind_Done in Hrun as ([s1 q] & Henq & Hrun).
    eapply sameSlice_trans; [|eapply IH; exact Hrun].
    apply (foldM_invariant
             (fun t => sameSlice s (fst t)) enqueueCallees (insts BBr) _ _)
      in Henq; [exact Henq | | repeat split].
    intros x t t' _ Ht Hx. eapply sameSlice_trans; [exact Ht|].
    eapply enqueueCallees_sameSlice. exact Hx.
Qed.

Lemma forwardSlicingFunction_sameSlice (fuel : nat) (F : FuncId) (s s' : Slicing) :
  forwardSlicingFunction fuel F s = Done s' -> sameSlice s s'.
Proof.
  unfold forwardSlicingFunction. intros Hrun.
  apply obind_Done in Hrun as ([M Fr] & _ & Hrun).
  eapply forwardLoop_sameSlice. exact Hrun.
Qed.

Lemma forwardSlicingFunctionStub_sameSlice (fuel : nat) (name : string)
    (s s' : Slicing) :
  forwardSlicingFunctionStub fuel name s = Done s' -> sameSlice s s'.
Proof.
  unfold forwardSlicingFunctionStub. destruct (getFunctionByName name (modules s)).
  - apply forwardSlicingFunction_sameSlice.
  - intros [= <-]. apply sameSlice_refl.
Qed.

Lemma wholeFunctions_sameSlice (s s' : Slicing) :
  sameSlice s s' -> wholeFunctions s -> wholeFunctions s'.
Proof.
  intros (HF & HBB & Hm) Hwhole b. unfold wholeFunctions in Hwhole.
  rewrite HF, HBB, Hm. apply Hwhole.
Qed.

Lemma pushPredecessors_elem (preds : list BlockId) :
  forall (lastPred : option BlockId) (visitedBB : gset BlockId)
         (toVisit : list BlockId) (x : BlockId),
    x ∈ pushPredecessors preds lastPred visitedBB toVisit ->
    x ∈ preds \/ x ∈ toVisit.
Proof.
  induction preds as [|Pred preds IH]; intros lastPred visitedBB toVisit x; simpl;
    [auto|].
  destruct (bool_decide (lastPred = Some Pred)); [auto|].
  intros Hx. apply IH in Hx as [Hx | Hx].
  - left. apply list_elem_of_further. exact Hx.
  - destruct (bool_decide (Pred ∈ visitedBB)); [auto|].
    apply elem_of_cons in Hx as [-> | Hx]; [left; apply list_elem_of_here | auto].
Qed.

Lemma predecessorsLocal_elim (ms : list Module) (Fr : Function) (BB : BasicBlock)
    (p : BlockId) :
  Graph.predecessorsLocal ms = true -> Fr ∈ allFunctions ms -> BB ∈ blocks Fr ->
  p ∈ bpredecessors BB -> exists B, B ∈ blocks Fr /\ bid B = p.
Proof.
  unfold Graph.predecessorsLocal. rewrite forallb_forall.
  intros Hall HF HBB Hp.
  specialize (Hall Fr (proj1 (list_elem_of_In _ _) HF)).
  rewrite forallb_forall in Hall.
  specialize (Hall BB (proj1 (list_elem_of_In _ _) HBB)).
  rewrite forallb_forall in Hall.
  specialize (Hall p (proj1 (list_elem_of_In _ _) Hp)).
  apply existsb_exists in Hall as (B & HB & Heq).
  exists B. split; [apply list_elem_of_In; exact HB | apply Pos.eqb_eq; exact Heq].
Qed.

Section WholeFunctions.

Variable ms : list Module.
Hypothesis Hwf : wfModules ms = true.
Hypothesis Hlocal : Graph.predecessorsLocal ms = true.

(** The loop of [backtracking] stays inside the function of the blocks
    it starts from. *)
Lemma backtrackingLoop_local (f : FuncId) (fuel : nat) :
  forall (toVisit : list BlockId) (s s' : Slicing),
    backtrackingLoop fuel toVisit s = Done s' -> modules s = ms ->
    (forall x, x ∈ toVisit -> blockOf ms f x) ->
    modules s' = ms /\ visitedF_ s' = visitedF_ s
    /\ visitedBB_ s ⊆ visitedBB_ s'
    /\ forall b, b ∈ visitedBB_ s' -> b ∈ visitedBB_ s \/ blockOf ms f b.
Proof.
  induction fuel as [|fuel IH]; intros [|current toVisit] s s'; simpl;
    try discriminate.
  - intros [= <-] Hm _. repeat split; auto.
  - intros [= <-] Hm _. repeat split; auto.
  - intros Hrun Hm Hstack. rewrite Hm in Hrun.
    apply obind_Done in Hrun as ([Fp BBr] & Hderef & Hrun).
    assert (Hrest : forall x, x ∈ toVisit -> blockOf ms f x).
    { intros x Hx. apply Hstack. apply list_elem_of_further. exact Hx. }
    destruct (bool_decide (current ∈ visitedBB_ s)).
    { apply (IH _ _ _ Hrun Hm Hrest). }
    destruct (Hstack current (list_elem_of_here _ _)) as (M & Fr & BB & Hfind & HBB & Hid).
    pose proof (wf_block_owner ms f M Fr BB Hwf Hfind HBB) as Howner.
    rewrite Hid in Howner. unfold derefBlock in Hderef. rewrite Howner in Hderef.
    injection Hderef as <- <-.
    apply IH in Hrun as (Hm' & HF' & Hsub & Hnew); [|exact Hm|].
    + split; [exact Hm'|]. split; [exact HF'|]. split.
      * etransitivity; [|exact Hsub]. simpl. apply union_subseteq_r.
      * intros b Hb. destruct (Hnew b Hb) as [H | H]; [|auto].
        simpl in H. apply elem_of_union in H as [H | H]; [|auto].
        apply elem_of_singleton in H as ->. right. exists M, Fr, BB. auto.
    + intros x Hx. apply pushPredecessors_elem in Hx as [Hx | Hx]; [|auto].
      destruct (predecessorsLocal_elim ms Fr BB x Hlocal) as (B & HB & HidB);
        [ | exact HBB | exact Hx | ].
      * apply functionOf_allFunctions. eapply findFunction_functionOf. exact Hfind.
      * exists M, Fr, B. auto.
Qed.

(** The two halves of [wholeFunctions], the second with room for the
    blocks of [F], which [sliceFunction] is about to add. *)
Lemma slicing_whole (fuel : nat) :
  (forall F s s',
      sliceFunction fuel F s = Done s' -> modules s = ms ->
      (forall G b, G ∈ visitedF_ s -> blockOf ms G b -> b ∈ visitedBB_ s) ->
      (forall b, b ∈ visitedBB_ s ->
         (exists G, G ∈ visitedF_ s /\ blockOf ms G b) \/ blockOf ms F b) ->
      modules s' = ms /\ wholeFunctions s')
  /\ (forall BB s s',
        backtracking fuel BB s = Done s' -> modules s = ms -> wholeFunctions s ->
        modules s' = ms /\ wholeFunctions s').
Proof.
  induction fuel as [|fuel [IHs IHb]]; [split; discriminate|]. split.
  - intros F s s'. rewrite sliceFunction_unfold.
    destruct (bool_decide_reflect (F ∈ visitedF_ s)) as [Hin | Hout].
    { intros [= <-] Hm Hhalf1 Hhalf2. split; [exact Hm|]. intros b. rewrite Hm. split.
      - intros Hb. destruct (Hhalf2 b Hb) as [H | H]; [exact H | eauto].
      - intros (G & HG & Hb). eauto. }
    cbn zeta. intros Hrun Hm Hhalf1 Hhalf2.
    apply obind_Done in Hrun as ([M Fr] & Hderef & Hrun).
    apply obind_Done in Hrun as (s1 & Hverbose & Hrun).
    apply obind_Done in Hrun as (matchingCBS & _ & Hrun).
    assert (HFr : findFunction F ms = Some (M, Fr)).
    { change (modules (setVisitedF _ s)) with (modules s) in Hderef.
      rewrite Hm in Hderef. unfold derefFunction, ofOption in Hderef.
      destruct (findFunction F ms); [congruence | discriminate]. }
    apply addToVerbose_sameSlice in Hverbose.
    assert (H1 : modules s1 = ms /\ wholeFunctions s1).
    { split; [destruct Hverbose as (_ & _ & ->); exact Hm|].
      apply (wholeFunctions_sameSlice _ _ Hverbose). intros b. simpl.
      change (modules _) with (modules s). rewrite Hm.
      rewrite elem_of_union, elem_of_list_to_set. split.
      - intros [Hb | Hb].
        + apply list_elem_of_fmap in Hb as (BB & -> & HBB).
          exists F. split; [apply elem_of_union_l, elem_of_singleton; reflexivity|].
          exists M, Fr, BB. auto.
        + destruct (Hhalf2 b Hb) as [(G & HG & HbG) | HbF].
          * exists G. split; [apply elem_of_union_r; exact HG | exact HbG].
          * exists F. split; [apply elem_of_union_l, elem_of_singleton; reflexivity|].
            exact HbF.
      - intros (G & HG & HbG). apply elem_of_union in HG as [HG | HG].
        + apply elem_of_singleton in HG as ->.
          destruct HbG as (M' & Fr' & BB & Hfind' & HBB & <-).
          rewrite HFr in Hfind'. injection Hfind' as <- <-.
          left. apply list_elem_of_fmap_2. exact HBB.
        + right. eauto. }
    destruct matchingCBS as [|CBS rest].
    { injection Hrun as <-. exact H1. }
    apply obind_Done in Hrun as (toProcess & _ & Hrun).
    apply obind_Done in Hrun as (s2 & Hback & Hrun).
    assert (H2 : modules s2 = ms /\ wholeFunctions s2).
    { apply (foldM_invariant (fun t => modules t = ms /\ wholeFunctions t)
               (backtracking fuel) toProcess s1 s2); [ | exact H1 | exact Hback].
      intros BB t t' _ [Htm Htw] Hstep. exact (IHb BB t t' Hstep Htm Htw). }
    destruct (existsb _ _); injection Hrun as <-; [|exact H2].
    destruct H2 as [Hm2 Hw2]. split; [exact Hm2|].
    apply (wholeFunctions_sameSlice s2); [repeat split | exact Hw2].
  - intros BB s s'. rewrite backtracking_unfold. intros Hrun Hm Hwhole.
    apply obind_Done in Hrun as (s1 & Hloop & Hrun).
    apply obind_Done in Hrun as ([Fp BBr] & Hderef & Hrun).
    (* the loop ran without touching the modules *)
    pose proof (backtrackingLoop_extends _ _ _ _ Hloop) as Hext.
    assert (Hm1 : modules s1 = ms).
    { destruct Hext as (_ & _ & _ & _ & _ & _ & Hmod & _). unfold modules.
      rewrite Hmod. exact Hm. }
    unfold derefBlock, ofOption in Hderef. rewrite Hm1 in Hderef.
    destruct (findBlockInFunctions BB (allFunctions ms)) as [[Fp' BBr']|] eqn:Hfind;
      [|discriminate]. injection Hderef as -> ->.
    pose proof (findBlockInFunctions_Some _ _ _ _ Hfind) as (HFp & HBBr & Hid).
    apply wfModules_NoDup in Hwf as Hnd. destruct Hnd as (Hndf & _).
    destruct (findFunction_unique ms Fp Hndf) as (M & HfindF);
      [apply functionOf_allFunctions; exact HFp|].
    destruct (backtrackingLoop_local (fid Fp) (S fuel) [BB] s s1 Hloop Hm)
      as (_ & HF1 & Hsub & Hnew).
    { intros x Hx. apply list_elem_of_singleton in Hx as ->.
      exists M, Fp, BBr. auto. }
    apply (IHs _ _ _ Hrun Hm1).
    + intros G b HG Hb. apply Hsub. rewrite HF1 in HG.
      apply Hwhole. rewrite Hm. eauto.
    + intros b Hb. destruct (Hnew b Hb) as [H | H]; [|auto].
      left. apply Hwhole in H as (G & HG & HbG). rewrite Hm in HbG.
      exists G. rewrite HF1. auto.
Qed.

End WholeFunctions.

(** X23: the sliced blocks are the blocks of the sliced functions.  On
    a program whose objects have distinct pointers and whose
    predecessor lists stay inside their function, [sliceFunction],
    [backtracking] and the slicing [main] does for a target keep
    [visitedBB_] equal to the set of the blocks of the functions in
    [visitedF_]: whatever block the walk over the predecessors marks,
    the function around it is sliced right after and all its blocks are
    marked, so the slice is made of whole functions. *)
Theorem slice_is_whole_functions (fuel : nat) (s s' : Slicing) :
  wfModules (modules s) = true -> Graph.predecessorsLocal (modules s) = true ->
  wholeFunctions s ->
  (forall F, sliceFunction fuel F s = Done s' -> wholeFunctions s')
  /\ (forall BB, backtracking fuel BB s = Done s' -> wholeFunctions s')
  /\ (forall F, sliceTarget fuel F s = Done s' -> wholeFunctions s').
Proof.
  intros Hwf Hlocal Hwhole.
  destruct (slicing_whole (modules s) Hwf Hlocal fuel) as [Hs Hb].
  assert (Hslice : forall F t, sliceFunction fuel F s = Done t ->
                               modules t = modules s /\ wholeFunctions t).
  { intros F t Hrun. apply (Hs F s t Hrun eq_refl).
    - intros G b HG Hb'. apply Hwhole. eauto.
    - intros b Hb'. left. apply Hwhole. exact Hb'. }
  split; [|split].
  - intros F Hrun. apply (Hslice F s' Hrun).
  - intros BB Hrun. apply (Hb BB s s' Hrun eq_refl Hwhole).
  - intros F Hrun. unfold sliceTarget in Hrun.
    apply obind_Done in Hrun as (s1 & H1 & Hrun).
    apply obind_Done in Hrun as (s2 & H2 & Hrun).
    apply obind_Done in Hrun as (s3 & H3 & Hrun).
    apply obind_Done in Hrun as (s4 & H4 & H5).
    apply forwardSlicingFunction_sameSlice in H2.
    apply forwardSlicingFunctionStub_sameSlice in H3, H4, H5.
    apply (wholeFunctions_sameSlice s1); [|apply (Hslice F s1 H1)].
    repeat (eapply sameSlice_trans; [eassumption|]). apply sameSlice_refl.
Qed.

Lemma wholeFunctions_new (c : GlobalContext) (srcRoot : string) :
  wholeFunctions (newSlicing c srcRoot).
Proof.
  intros b. simpl. split.
  - intros Hb. exfalso. exact (not_elem_of_empty (C := gset BlockId) b Hb).
  - intros (F & HF & _). exfalso. exact (not_elem_of_empty (C := gset FuncId) F HF).
Qed.

Lemma slice_is_whole_functions_witness :
  exists c s',
    callGraphPhase 1 progCycle = Done c
    /\ sliceTarget 8 3 (newSlicing c "/src") = Done s'
    /\ ((forall F, sliceFunction 8 F (newSlicing c "/src") = Done s' ->
                   wholeFunctions s')
        /\ (forall BB, backtracking 8 BB (newSlicing c "/src") = Done s' ->
                       wholeFunctions s')
        /\ (forall F, sliceTarget 8 F (newSlicing c "/src") = Done s' ->
                      wholeFunctions s')).
Proof.
  eexists. eexists. split; [vm_compute; reflexivity|].
  split; [vm_compute; reflexivity|].
  apply (slice_is_whole_functions 8).
  - vm_compute. reflexivity.
  - vm_compute. reflexivity.
  - apply wholeFunctions_new.
Defined.

(* ===================================================================== *)
(** ** Forward slicing enters what the target reaches *)
(* ===================================================================== *)

Lemma findBlockInFunctions_is_Some (fs : list Function) (F : Function) (b : BasicBlock) :
  F ∈ fs -> b ∈ blocks F -> is_Some (findBlockInFunctions (bid b) fs).
Proof.
  induction fs as [|G fs IH]; intros HF Hb; [inversion HF|]. simpl.
  unfold findBlockIn.
  destruct (List.find _ (blocks G)) as [B|] eqn:Hfind; [eauto|].
  apply elem_of_cons in HF as [-> | HF]; [|auto].
  exfalso. apply list_elem_of_In in Hb. apply (find_none _ _ Hfind) in Hb.
  simpl in Hb. rewrite Pos.eqb_refl in Hb. discriminate.
Qed.

Lemma pendingBlocks_le (fs : list Function) (entered : gset FuncId) (x : FuncId) :
  (pendingBlocks fs ({[x]} ∪ entered) <= pendingBlocks fs entered)%nat.
Proof.
  induction fs as [|F fs IH]; simpl; [lia|].
  destruct (bool_decide_reflect (fid F ∈ entered)) as [Hin | Hout].
  - rewrite bool_decide_eq_true_2 by (apply elem_of_union_r; exact Hin). lia.
  - destruct (bool_decide (fid F ∈ {[x]} ∪ entered)); lia.
Qed.

(** Entering a function takes its blocks off the pending ones. *)
Lemma pendingBlocks_enter (fs : list Function) (entered : gset FuncId) (F : Function) :
  F ∈ fs -> fid F ∉ entered ->
  (pendingBlocks fs ({[fid F]} ∪ entered) + length (blocks F)
   <= pendingBlocks fs entered)%nat.
Proof.
  intros Hin Hout. induction fs as [|G fs IH]; [inversion Hin|].
  simpl. apply elem_of_cons in Hin as [<- | Hin].
  - rewrite (bool_decide_eq_false_2 _ Hout).
    rewrite bool_decide_eq_true_2
      by (apply elem_of_union_l, elem_of_singleton; reflexivity).
    pose proof (pendingBlocks_le fs entered (fid F)). lia.
  - specialize (IH Hin).
    destruct (bool_decide_reflect (fid G ∈ entered)) as [HG | HG].
    + rewrite bool_decide_eq_true_2 by (apply elem_of_union_r; exact HG). lia.
    + destruct (bool_decide (fid G ∈ {[fid F]} ∪ entered)); lia.
Qed.

Lemma pendingBlocks_all (fs : list Function) (entered : gset FuncId) :
  (pendingBlocks fs entered <= length (flat_map blocks fs))%nat.
Proof.
  induction fs as [|F fs IH]; simpl; [lia|]. rewrite length_app.
  destruct (bool_decide (fid F ∈ entered)); lia.
Qed.

Lemma blocks_le_all (ms : list Module) (M : Module) (F : FuncId) (Fr : Function) :
  findFunction F ms = Some (M, Fr) -> (length (blocks Fr) <= length (allBlocks ms))%nat.
Proof.
  intros Hfind. apply findFunction_functionOf in Hfind as [HF _].
  apply functionOf_allFunctions in HF. unfold allBlocks.
  induction (allFunctions ms) as [|G fs IH]; [inversion HF|].
  simpl. rewrite length_app. apply elem_of_cons in HF as [-> | HF]; [lia|].
  specialize (IH HF). lia.
Qed.

(** *** The loop returns *)

Section ForwardReturns.

Variable c : GlobalContext.
Hypothesis Hvalid : calleesValid c = true.

Lemma enqueueCallee_fits (K : nat) (callee : FuncId) (sq : Slicing * list BlockId) :
  is_Some (findFunction callee (Modules c)) -> fits c K sq ->
  exists sq', enqueueCallee callee sq = Done sq' /\ fits c K sq'.
Proof.
  destruct sq as [s q]. intros [[M Cr] Hfind] (Hctx & Hq & Hlen). simpl in *.
  unfold enqueueCallee.
  destruct (bool_decide_reflect (callee ∈ fVisitedF_ s)) as [Hin | Hout].
  { eexists. split; [reflexivity|]. repeat split; assumption. }
  change (modules (setFVisitedF ({[callee]} ∪ fVisitedF_ s) s)) with (Modules (Ctx_ s)).
  rewrite Hctx. unfold derefFunction. rewrite Hfind. cbn [ofOption obind].
  eexists. split; [reflexivity|].
  pose proof (findFunction_functionOf _ _ _ _ Hfind) as [HF Hid].
  apply functionOf_allFunctions in HF.
  split; [exact Hctx|]. split; simpl.
  - intros x Hx. apply elem_of_app in Hx as [Hx | Hx]; [auto|].
    apply list_elem_of_fmap in Hx as (b & -> & Hb).
    eapply findBlockInFunctions_is_Some; eassumption.
  - rewrite length_app, length_map.
    pose proof (pendingBlocks_enter (allFunctions (Modules c)) (fVisitedF_ s) Cr HF)
      as Hp. rewrite Hid in Hp. specialize (Hp Hout). lia.
Qed.

Lemma enqueueCallees_fits (K : nat) (ins : Instruction) (sq : Slicing * list BlockId) :
  fits c K sq -> exists sq', enqueueCallees ins sq = Done sq' /\ fits c K sq'.
Proof.
  intros Hfits. unfold enqueueCallees.
  destruct (icall ins); [|eauto].
  destruct (Callees (Ctx_ (fst sq)) !! iid ins) as [funcSet|] eqn:Hset; [|eauto].
  apply (foldM_total (fits c K)); [|exact Hfits].
  intros G t HG Ht. apply enqueueCallee_fits; [|exact Ht].
  destruct Hfits as (Hctx & _). rewrite Hctx in Hset.
  eapply calleesValid_elim; [exact Hvalid | exact Hset|].
  apply elem_of_elements. exact HG.
Qed.

Lemma forwardLoop_returns (fuel : nat) :
  forall (toVisit : list BlockId) (visited : gset BlockId) (s : Slicing),
    fits c fuel (s, toVisit) -> exists s', forwardLoop fuel toVisit visited s = Done s'.
Proof.
  induction fuel as [|fuel IH]; intros [|current toVisit] visited s (Hctx & Hq & Hlen);
    simpl in *; eauto; [lia|].
  destruct (bool_decide (current ∈ visited)).
  - apply IH. repeat split; simpl; [exact Hctx | | lia].
    intros x Hx. apply Hq. apply list_elem_of_further. exact Hx.
  - change (modules (setVerboseBB ({[current]} ∪ verboseBB_ s) s))
      with (Modules (Ctx_ s)).
    rewrite Hctx. unfold derefBlock.
    destruct (Hq current (list_elem_of_here _ _)) as [[Fp BBr] Hfind].
    rewrite Hfind. cbn [ofOption obind].
    destruct (foldM_total (fits c fuel) enqueueCallees (insts BBr))
      with (s := (setVerboseBB ({[current]} ∪ verboseBB_ s) s, toVisit))
      as ([s1 q1] & Hfold & Hfits1).
    + intros ins t _ Ht. apply enqueueCallees_fits. exact Ht.
    + repeat split; simpl; [exact Hctx | | lia].
      intros x Hx. apply Hq. apply list_elem_of_further. exact Hx.
    + rewrite Hfold. cbn [obind]. apply IH. exact Hfits1.
Qed.

End ForwardReturns.

(** *** What the loop enters *)

Lemma reachIn_snoc (c : GlobalContext) (n : nat) (F G H : FuncId) :
  reachIn c n F G -> callsTo c G H -> reachIn c (S n) F H.
Proof.
  intros Hreach Hcall. induction Hreach as [F | n F G0 G Hhop Hreach IH].
  - eapply reach_hop; [exact Hcall | apply reach_here].
  - eapply reach_hop; [exact Hhop | apply IH; exact Hcall].
Qed.

Lemma fromTarget_hop (c : GlobalContext) (F g G : FuncId) :
  fromTarget c F g -> callsTo c g G -> reachedFrom c F G.
Proof.
  intros [-> | [n Hreach]] Hcall.
  - exists O. eapply reach_hop; [exact Hcall | apply reach_here].
  - exists (S n). eapply reachIn_snoc; eassumption.
Qed.

Lemma enqueueCallee_enteredFrom (c : GlobalContext) (F : FuncId) (old : gset FuncId)
    (callee : FuncId) (sq sq' : Slicing * list BlockId) :
  reachedFrom c F callee -> enteredFrom c F old sq ->
  enqueueCallee callee sq = Done sq' -> enteredFrom c F old sq'.
Proof.
  destruct sq as [s q]. intros Hreach (Hctx & Hold & Hq). simpl in *.
  unfold enqueueCallee.
  destruct (bool_decide (callee ∈ fVisitedF_ s)).
  { intros [= <-]. repeat split; assumption. }
  intros Hrun. apply obind_Done in Hrun as ([M Cr] & Hderef & Hrun).
  injection Hrun as <-. unfold derefFunction, ofOption in Hderef.
  change (modules (setFVisitedF ({[callee]} ∪ fVisitedF_ s) s)) with (Modules (Ctx_ s))
    in Hderef.
  rewrite Hctx in Hderef.
  destruct (findFunction callee (Modules c)) as [[M' Cr']|] eqn:Hfind; [|discriminate].
  injection Hderef as -> ->.
  split; [exact Hctx|]. split; simpl.
  - intros G HG. apply elem_of_union in HG as [HG | HG]; [|auto].
    apply elem_of_singleton in HG. subst G. right. exact Hreach.
  - intros x Hx. apply elem_of_app in Hx as [Hx | Hx]; [auto|].
    apply list_elem_of_fmap in Hx as (b & -> & Hb).
    exists callee. split; [|right; exact Hreach]. exists M, Cr, b. auto.
Qed.

Lemma enqueueCallees_enteredFrom (c : GlobalContext) (F : FuncId) (old : gset FuncId)
    (g : FuncId) (M : Module) (Gr : Function) (ins : Instruction)
    (sq sq' : Slicing * list BlockId) :
  fromTarget c F g -> findFunction g (Modules c) = Some (M, Gr) ->
  ins ∈ instructions Gr -> enteredFrom c F old sq ->
  enqueueCallees ins sq = Done sq' -> enteredFrom c F old sq'.
Proof.
  intros Hg Hfind Hins Hsq. unfold enqueueCallees.
  destruct (icall ins) as [CB|] eqn:Hcall; [|intros [= <-]; exact Hsq].
  destruct (Callees (Ctx_ (fst sq)) !! iid ins) as [funcSet|] eqn:Hset;
    [|intros [= <-]; exact Hsq].
  apply foldM_invariant; [|exact Hsq].
  intros G t t' HG Ht. apply enqueueCallee_enteredFrom; [|exact Ht].
  apply (fromTarget_hop c F g G Hg).
  destruct Hsq as (Hctx & _). rewrite Hctx in Hset.
  exists M, Gr, ins, CB, funcSet. apply elem_of_elements in HG. auto.
Qed.

Lemma block_instructions (Fr : Function) (b : BasicBlock) (ins : Instruction) :
  b ∈ blocks Fr -> ins ∈ insts b -> ins ∈ instructions Fr.
Proof.
  intros Hb Hins. unfold instructions. rewrite list_elem_of_In, in_flat_map.
  exists b. rewrite <- !list_elem_of_In. auto.
Qed.

Lemma forwardLoop_enteredFrom (c : GlobalContext) (F : FuncId) (old : gset FuncId)
    (fuel : nat) :
  wfModules (Modules c) = true ->
  forall (toVisit : list BlockId) (visited : gset BlockId) (s s' : Slicing),
    forwardLoop fuel toVisit visited s = Done s' ->
    enteredFrom c F old (s, toVisit) -> enteredFrom c F old (s', []).
Proof.
  intros Hwf.
  induction fuel as [|fuel IH]; intros [|current toVisit] visited s s'; simpl;
    try discriminate.
  - intros [= <-]. auto.
  - intros [= <-]. auto.
  - intros Hrun (Hctx & Hold & Hq). simpl in *.
    assert (Hrest : enteredFrom c F old
                      (setVerboseBB ({[current]} ∪ verboseBB_ s) s, toVisit)).
    { repeat split; simpl; [exact Hctx | exact Hold |].
      intros x Hx. apply Hq. apply list_elem_of_further. exact Hx. }
    destruct (bool_decide (current ∈ visited)); [eapply IH; eassumption|].
    apply obind_Done in Hrun as ([Fp BBr] & Hderef & Hrun).
    apply obind_Done in Hrun as ([s1 q1] & Hfold & Hrun).
    eapply IH; [exact Hrun|].
    destruct (Hq current (list_elem_of_here _ _))
      as (g & (M & Gr & BB & Hfind & HBB & Hbid) & Hg).
    unfold derefBlock, ofOption in Hderef.
    change (modules (setVerboseBB ({[current]} ∪ verboseBB_ s) s))
      with (Modules (Ctx_ s)) in Hderef.
    rewrite Hctx, <- Hbid, (wf_block_owner _ _ _ _ _ Hwf Hfind HBB) in Hderef.
    injection Hderef as <- <-.
    eapply foldM_invariant; [| exact Hrest | exact Hfold].
    intros ins t t' Hins Ht. eapply enqueueCallees_enteredFrom; try eassumption.
    eapply block_instructions; eassumption.
Qed.

(** *** The callees of what the loop enters *)

Lemma calleesEntered_mono (s s' : Slicing) (b : BlockId) :
  Ctx_ s' = Ctx_ s -> fVisitedF_ s ⊆ fVisitedF_ s' ->
  calleesEntered s b -> calleesEntered s' b.
Proof.
  unfold calleesEntered. intros Hctx Hsub H G HG. rewrite Hctx in HG.
  apply Hsub. apply H. exact HG.
Qed.

Lemma enqueueCallee_pending (cur : option BlockId) (callee : FuncId)
    (sq sq' : Slicing * list BlockId) :
  blocksPending (fst sq) (snd sq) cur -> enqueueCallee callee sq = Done sq' ->
  blocksPending (fst sq') (snd sq') cur.
Proof.
  destruct sq as [s q]. simpl. intros Hp. unfold enqueueCallee.
  destruct (bool_decide (callee ∈ fVisitedF_ s)); [intros [= <-]; exact Hp|].
  intros Hrun. apply obind_Done in Hrun as ([M Cr] & Hderef & Hrun).
  injection Hrun as <-. unfold derefFunction, ofOption in Hderef.
  change (modules (setFVisitedF ({[callee]} ∪ fVisitedF_ s) s)) with (modules s)
    in Hderef.
  destruct (findFunction callee (modules s)) as [[M' Cr']|] eqn:Hfind; [|discriminate].
  injection Hderef as -> ->. simpl.
  intros g M0 Gr b Hg Hfg Hb. simpl in Hg.
  change (modules (setFVisitedF ({[callee]} ∪ fVisitedF_ s) s)) with (modules s) in Hfg.
  apply elem_of_union in Hg as [Hg | Hg].
  - apply elem_of_singleton in Hg. subst g. rewrite Hfind in Hfg.
    injection Hfg as <- <-. left. apply elem_of_app. right.
    apply list_elem_of_fmap_2. exact Hb.
  - destruct (Hp g M0 Gr b Hg Hfg Hb) as [H | [H | H]].
    + left. apply elem_of_app. left. exact H.
    + right. left. exact H.
    + right. right. revert H. apply calleesEntered_mono; [reflexivity|].
      simpl. apply union_subseteq_r.
Qed.

Lemma enqueueCallees_pending (cur : option BlockId) (ins : Instruction)
    (sq sq' : Slicing * list BlockId) :
  blocksPending (fst sq) (snd sq) cur -> enqueueCallees ins sq = Done sq' ->
  blocksPending (fst sq') (snd sq') cur.
Proof.
  intros Hp. unfold enqueueCallees.
  destruct (icall ins); [|intros [= <-]; exact Hp].
  destruct (Callees (Ctx_ (fst sq)) !! iid ins); [|intros [= <-]; exact Hp].
  apply (foldM_invariant (fun t => blocksPending (fst t) (snd t) cur)); [|exact Hp].
  intros G t t' _ Ht. apply enqueueCallee_pending. exact Ht.
Qed.

Lemma forwardLoop_pending (fuel : nat) :
  forall (toVisit : list BlockId) (visited : gset BlockId) (s s' : Slicing),
    forwardLoop fuel toVisit visited s = Done s' ->
    blocksPending s toVisit None ->
    (forall b, b ∈ visited -> calleesEntered s b) ->
    blocksPending s' [] None.
Proof.
  induction fuel as [|fuel IH]; intros [|current toVisit] visited s s'; simpl;
    try discriminate.
  - intros [= <-]. auto.
  - intros [= <-]. auto.
  - intros Hrun Hp Hvis.
    set (s0 := setVerboseBB ({[current]} ∪ verboseBB_ s) s) in *.
    assert (Hp0 : blocksPending s0 toVisit (Some current)).
    { intros g M Gr b Hg Hfg Hb.
      destruct (Hp g M Gr b Hg Hfg Hb) as [H | [H | H]]; [|discriminate|].
      - apply elem_of_cons in H as [H | H]; [right; left; congruence | left; exact H].
      - right. right. exact H. }
    destruct (bool_decide_reflect (current ∈ visited)) as [Hin | Hout].
    + eapply IH; [exact Hrun | | exact Hvis].
      intros g M Gr b Hg Hfg Hb.
      destruct (Hp0 g M Gr b Hg Hfg Hb) as [H | [H | H]]; [left; exact H | | right; right; exact H].
      injection H as H. right. right. rewrite <- H. apply (Hvis current Hin).
    + apply obind_Done in Hrun as ([Fp BBr] & Hderef & Hrun).
      apply obind_Done in Hrun as ([s1 q1] & Hfold & Hrun).
      destruct (enqueueBlock_spec _ _ _ Hfold) as [Hstep Hcallees].
      pose proof (enqueueStep_Ctx _ _ Hstep) as Hctx. simpl in Hctx.
      assert (Hsub : fVisitedF_ s ⊆ fVisitedF_ s1).
      { intros G HG. apply (enqueueStep_fVisited _ _ G Hstep). exact HG. }
      assert (Hcur : calleesEntered s1 current).
      { intros G (F0 & BB0 & ins & Hfind & Hins & HG). rewrite Hctx in Hfind, HG.
        unfold derefBlock, ofOption in Hderef.
        change (modules s0) with (Modules (Ctx_ s)) in Hderef.
        change (Ctx_ s0) with (Ctx_ s) in Hfind, HG.
        rewrite Hfind in Hderef. injection Hderef as <- <-.
        apply (Hcallees ins G Hins). exact HG. }
      eapply IH; [exact Hrun | |].
      * assert (Hp1 : blocksPending s1 q1 (Some current)).
        { apply (foldM_invariant (fun t => blocksPending (fst t) (snd t) (Some current))
                   enqueueCallees (insts BBr) (s0, toVisit) (s1, q1));
            [| exact Hp0 | exact Hfold].
          intros ins t t' _ Ht. apply enqueueCallees_pending. exact Ht. }
        intros g M Gr b Hg Hfg Hb.
        destruct (Hp1 g M Gr b Hg Hfg Hb) as [H | [H | H]];
          [left; exact H | | right; right; exact H].
        injection H as H. right. right. rewrite <- H. exact Hcur.
      * intros b Hb. apply elem_of_union in Hb as [Hb | Hb].
        -- apply elem_of_singleton in Hb. subst b. exact Hcur.
        -- apply (calleesEntered_mono s s1); [exact Hctx | exact Hsub | auto].
Qed.

Lemma calleeClosed_pending (s : Slicing) (q : list BlockId) :
  wfModules (modules s) = true -> calleeClosed s -> blocksPending s q None.
Proof.
  intros Hwf Hclosed g M Gr b Hg Hfg Hb. right. right.
  intros G (F0 & BB0 & ins & Hfind & Hins & CB & funcSet & Hcall & Hset & HG).
  change (Modules (Ctx_ s)) with (modules s) in Hfind.
  rewrite (wf_block_owner _ _ _ _ _ Hwf Hfg Hb) in Hfind. injection Hfind as <- <-.
  apply (Hclosed g G Hg). exists M, Gr, ins, CB, funcSet.
  split; [exact Hfg|]. split; [eapply block_instructions; eassumption | auto].
Qed.

Lemma pending_calleeClosed (s : Slicing) :
  wfModules (modules s) = true -> blocksPending s [] None -> calleeClosed s.
Proof.
  intros Hwf Hp g G Hg Hcall.
  destruct (callsTo_blockCallee _ _ _ Hwf Hcall) as (M & Fr & b & Hfind & Hb & HG).
  destruct (Hp g M Fr b Hg Hfind Hb) as [H | [H | H]];
    [inversion H | discriminate | exact (H G HG)].
Qed.

Lemma calleeClosed_reachIn (s : Slicing) (n : nat) (g G : FuncId) :
  calleeClosed s -> reachIn (Ctx_ s) n g G -> g ∈ fVisitedF_ s -> G ∈ fVisitedF_ s.
Proof.
  intros Hclosed Hreach. induction Hreach as [g | n g h G Hhop Hreach IH]; [auto|].
  intros Hg. apply IH. apply (Hclosed g h Hg Hhop).
Qed.

(** [forwardSlicingFunction] returns, and what it enters. *)
Lemma forwardSlicingFunction_returns (fuel : nat) (F : FuncId) (s : Slicing) :
  wfModules (modules s) = true ->
  calleesValid (Ctx_ s) = true ->
  is_Some (findFunction F (modules s)) ->
  calleeClosed s ->
  (2 * length (allBlocks (modules s)) <= fuel)%nat ->
  exists s',
    forwardSlicingFunction fuel F s = Done s'
    /\ (forall G, G ∈ fVisitedF_ s' <->
                  G ∈ fVisitedF_ s \/ reachedFrom (Ctx_ s) F G)
    /\ calleeClosed s'
    /\ (forall b, blockOf (modules s) F b -> b ∈ verboseBB_ s').
Proof.
  intros Hwf Hvalid [[M Fr] Hfind] Hclosed Hfuel.
  assert (Hrun : exists s', forwardSlicingFunction fuel F s = Done s').
  { unfold forwardSlicingFunction, derefFunction. rewrite Hfind. cbn [ofOption obind].
    apply (forwardLoop_returns (Ctx_ s) Hvalid). repeat split; simpl.
    - intros x Hx. apply list_elem_of_fmap in Hx as (b & -> & Hb).
      eapply findBlockInFunctions_is_Some; [|exact Hb].
      apply functionOf_allFunctions. eapply findFunction_functionOf. exact Hfind.
    - rewrite length_map.
      pose proof (blocks_le_all _ _ _ _ Hfind).
      pose proof (pendingBlocks_all (allFunctions (Modules (Ctx_ s))) (fVisitedF_ s)).
      unfold allBlocks, modules in *. lia. }
  destruct Hrun as [s' Hrun]. exists s'. split; [exact Hrun|].
  destruct (forwardSlicingFunction_spec _ _ _ _ Hrun)
    as (Hstep & _ & M' & Fr' & Hfind' & Hverbose & Hcallees).
  rewrite Hfind in Hfind'. injection Hfind' as <- <-.
  destruct Hstep as (Hctx & _ & _ & _ & Hsub & _).
  unfold forwardSlicingFunction, derefFunction in Hrun. rewrite Hfind in Hrun.
  cbn [ofOption obind] in Hrun.
  assert (Hclosed' : calleeClosed s').
  { apply pending_calleeClosed; [unfold modules; rewrite Hctx; exact Hwf|].
    eapply forwardLoop_pending; [exact Hrun | | intros b Hb].
    - apply calleeClosed_pending; assumption.
    - exfalso. exact (not_elem_of_empty (C := gset BlockId) b Hb). }
  split; [|split; [exact Hclosed'|]].
  - intros G. split.
    + destruct (forwardLoop_enteredFrom (Ctx_ s) F (fVisitedF_ s) fuel Hwf _ _ _ _ Hrun)
        as (_ & Hold & _); [|exact (Hold G)].
      split; [reflexivity|]. split; simpl; [auto|].
      intros x Hx. apply list_elem_of_fmap in Hx as (b & -> & Hb).
      exists F. split; [exists M, Fr, b; auto | left; reflexivity].
    + intros [HG | [n Hreach]]; [apply Hsub; exact HG|].
      inversion Hreach as [|n' F' H G' Hhop Hrest]; subst.
      rewrite <- Hctx in Hrest. apply (calleeClosed_reachIn s' n H G Hclosed' Hrest).
      destruct (callsTo_blockCallee _ _ _ Hwf Hhop) as (M1 & Fr1 & b & Hf1 & Hb & HG).
      change (Modules (Ctx_ s)) with (modules s) in Hf1.
      rewrite Hfind in Hf1. injection Hf1 as <- <-.
      apply (Hcallees b H Hb HG).
  - intros b (M1 & Fr1 & BB & Hf1 & HBB & <-).
    rewrite Hfind in Hf1. injection Hf1 as <- <-. apply Hverbose. exact HBB.
Qed.

(** X24: forward slicing from [F] returns, and it enters the functions
    reached from [F] by one call or more, and no other: with the
    callees of every function entered before entered as well, the
    functions entered afterwards are the ones entered before and the
    ones reached from [F] along the call graph, their callees are
    entered, and every block of [F] is a verbose block.  [F] itself is
    not entered unless it was or it is reached from itself.  The loop
    needs no more steps than twice the number of blocks of the
    program. *)
Theorem forwardSlicingFunction_enters_reached (fuel : nat) (F : FuncId) (s : Slicing) :
  wfModules (modules s) = true ->
  calleesValid (Ctx_ s) = true ->
  is_Some (findFunction F (modules s)) ->
  calleeClosed s ->
  (2 * length (allBlocks (modules s)) <= fuel)%nat ->
  exists s',
    forwardSlicingFunction fuel F s = Done s'
    /\ (forall G, G ∈ fVisitedF_ s' <->
                  G ∈ fVisitedF_ s \/ reachedFrom (Ctx_ s) F G)
    /\ calleeClosed s'
    /\ (forall b, blockOf (modules s) F b -> b ∈ verboseBB_ s').
Proof. apply forwardSlicingFunction_returns. Qed.

Lemma forwardSlicingFunction_enters_reached_witness :
  exists c,
    callGraphPhase 1 progCycle = Done c
    /\ exists s',
         forwardSlicingFunction 8 1 (newSlicing c "/src") = Done s'
         /\ (forall G, G ∈ fVisitedF_ s' <->
                       G ∈ fVisitedF_ (newSlicing c "/src")
                       \/ reachedFrom (Ctx_ (newSlicing c "/src")) 1 G)
         /\ calleeClosed s'
         /\ (forall b, blockOf (modules (newSlicing c "/src")) 1 b -> b ∈ verboseBB_ s').
Proof.
  eexists. split; [vm_compute; reflexivity|].
  apply (forwardSlicingFunction_enters_reached 8 1).
  - vm_compute. reflexivity.
  - vm_compute. reflexivity.
  - vm_compute. eexists. reflexivity.
  - intros g G Hg. exfalso. exact (not_elem_of_empty (C := gset FuncId) g Hg).
  - vm_compute. lia.
Defined.

(* ===================================================================== *)
(** ** The backward slice holds the callers of the target *)
(* ===================================================================== *)

(** *** Counting *)

Lemma unsliced_mono (fs : list Function) (V V' : gset FuncId) :
  V ⊆ V' -> (unsliced fs V' <= unsliced fs V)%nat.
Proof.
  intros Hsub. induction fs as [|F fs IH]; simpl; [lia|].
  destruct (bool_decide_reflect (fid F ∈ V)) as [Hin | Hout].
  - rewrite bool_decide_eq_true_2 by (apply Hsub; exact Hin). lia.
  - destruct (bool_decide (fid F ∈ V')); lia.
Qed.

Lemma unsliced_enter (fs : list Function) (V : gset FuncId) (F : Function) :
  F ∈ fs -> fid F ∉ V -> (unsliced fs ({[fid F]} ∪ V) + 1 <= unsliced fs V)%nat.
Proof.
  intros Hin Hout. induction fs as [|G fs IH]; [inversion Hin|].
  simpl. apply elem_of_cons in Hin as [<- | Hin].
  - rewrite (bool_decide_eq_false_2 _ Hout).
    rewrite bool_decide_eq_true_2
      by (apply elem_of_union_l, elem_of_singleton; reflexivity).
    pose proof (unsliced_mono fs V ({[fid F]} ∪ V) (union_subseteq_r _ _)). lia.
  - specialize (IH Hin).
    destruct (bool_decide_reflect (fid G ∈ V)) as [HG | HG].
    + rewrite bool_decide_eq_true_2 by (apply elem_of_union_r; exact HG). lia.
    + destruct (bool_decide (fid G ∈ {[fid F]} ∪ V)); lia.
Qed.

Lemma unsliced_all (fs : list Function) (V : gset FuncId) :
  (unsliced fs V <= length fs)%nat.
Proof.
  induction fs as [|F fs IH]; simpl; [lia|].
  destruct (bool_decide (fid F ∈ V)); lia.
Qed.

Lemma pendingPreds_mono (bs : list BasicBlock) (V V' : gset BlockId) :
  V ⊆ V' -> (pendingPreds bs V' <= pendingPreds bs V)%nat.
Proof.
  intros Hsub. induction bs as [|B bs IH]; simpl; [lia|].
  destruct (bool_decide_reflect (bid B ∈ V)) as [Hin | Hout].
  - rewrite bool_decide_eq_true_2 by (apply Hsub; exact Hin). lia.
  - destruct (bool_decide (bid B ∈ V')); lia.
Qed.

Lemma pendingPreds_visit (bs : list BasicBlock) (V : gset BlockId) (BB : BasicBlock) :
  BB ∈ bs -> bid BB ∉ V ->
  (pendingPreds bs ({[bid BB]} ∪ V) + length (bpredecessors BB)
   <= pendingPreds bs V)%nat.
Proof.
  intros Hin Hout. induction bs as [|B bs IH]; [inversion Hin|].
  simpl. apply elem_of_cons in Hin as [<- | Hin].
  - rewrite (bool_decide_eq_false_2 _ Hout).
    rewrite bool_decide_eq_true_2
      by (apply elem_of_union_l, elem_of_singleton; reflexivity).
    pose proof (pendingPreds_mono bs V ({[bid BB]} ∪ V) (union_subseteq_r _ _)). lia.
  - specialize (IH Hin).
    destruct (bool_decide_reflect (bid B ∈ V)) as [HB | HB].
    + rewrite bool_decide_eq_true_2 by (apply elem_of_union_r; exact HB). lia.
    + destruct (bool_decide (bid B ∈ {[bid BB]} ∪ V)); lia.
Qed.

Lemma pushPredecessors_length (preds : list BlockId) :
  forall (lastPred : option BlockId) (visitedBB : gset BlockId) (toVisit : list BlockId),
    (length (pushPredecessors preds lastPred visitedBB toVisit)
     <= length preds + length toVisit)%nat.
Proof.
  induction preds as [|Pred preds IH]; intros lastPred visitedBB toVisit; simpl; [lia|].
  destruct (bool_decide (lastPred = Some Pred)); [lia|].
  etransitivity; [apply IH|].
  destruct (bool_decide (Pred ∈ visitedBB)); simpl; lia.
Qed.

(** *** Pointers *)

Lemma callersValid_key (c : GlobalContext) (k : FuncId) :
  callersValid c = true -> is_Some (Callers c !! k) ->
  is_Some (findFunction k (Modules c)).
Proof.
  unfold callersValid. rewrite bool_decide_eq_true. intros Hall [CBS Hk].
  exact (proj1 (Hall k CBS Hk)).
Qed.

Lemma callersValid_site (c : GlobalContext) (f : FuncId) (CB : InstId) :
  callersValid c = true -> CB ∈ callersOf c f ->
  is_Some (findInstInFunctions CB (allFunctions (Modules c))).
Proof.
  unfold callersValid, callersOf. rewrite bool_decide_eq_true. intros Hall HCB.
  destruct (Callers c !! f) as [CBS|] eqn:Hf; simpl in HCB.
  - exact (proj2 (Hall f CBS Hf) CB HCB).
  - exfalso. exact (not_elem_of_empty (C := gset InstId) CB HCB).
Qed.

Lemma calledValid_elim (ms : list Module) (ins : Instruction) (CB : CallBase)
    (CF : FuncId) :
  calledValid ms = true -> ins ∈ allInstructions ms -> icall ins = Some CB ->
  cbKind CB = CallInstKind -> getCalledFunction CB = Some CF ->
  is_Some (findFunction CF ms).
Proof.
  unfold calledValid. rewrite forallb_forall. intros Hall Hin Hcall Hkind Hcalled.
  specialize (Hall ins (proj1 (list_elem_of_In _ _) Hin)).
  rewrite Hcall, Hkind, Hcalled in Hall.
  apply (bool_decide_unpack _). apply Is_true_true. exact Hall.
Qed.

Lemma allInstructions_block_elem (ms : list Module) (F : Function) (BB : BasicBlock)
    (ins : Instruction) :
  F ∈ allFunctions ms -> BB ∈ blocks F -> ins ∈ insts BB -> ins ∈ allInstructions ms.
Proof.
  intros HF HBB Hins. unfold allInstructions, instructions.
  rewrite list_elem_of_In, in_flat_map. exists F.
  rewrite in_flat_map. split; [apply list_elem_of_In; exact HF|].
  exists BB. rewrite <- !list_elem_of_In. auto.
Qed.

Lemma pointersValid_elim (c : GlobalContext) :
  pointersValid c = true ->
  Graph.successorsValid (Modules c) = true
  /\ Graph.predecessorsLocal (Modules c) = true
  /\ calledValid (Modules c) = true /\ callersValid c = true.
Proof. unfold pointersValid. rewrite !andb_true_iff. tauto. Qed.

(** The function around a block is one. *)
Lemma blockOf_unique (ms : list Module) (F G : FuncId) (b : BlockId) :
  wfModules ms = true -> blockOf ms F b -> blockOf ms G b -> F = G.
Proof.
  intros Hwf (M1 & F1 & B1 & Hf1 & HB1 & Hid1) (M2 & F2 & B2 & Hf2 & HB2 & Hid2).
  pose proof (wf_block_owner ms F M1 F1 B1 Hwf Hf1 HB1) as H1.
  pose proof (wf_block_owner ms G M2 F2 B2 Hwf Hf2 HB2) as H2.
  rewrite Hid1 in H1. rewrite Hid2, H1 in H2. injection H2 as <- <-.
  apply findFunction_functionOf in Hf1 as [_ <-].
  apply findFunction_functionOf in Hf2 as [_ <-]. reflexivity.
Qed.

(** The block of a call site, looked up by its pointer. *)
Lemma findInst_block (ms : list Module) (CB : InstId) (Gr : Function) (BB : BasicBlock)
    (ins : Instruction) :
  wfModules ms = true ->
  findInstInFunctions CB (allFunctions ms) = Some (Gr, BB, ins) ->
  findBlockInFunctions (bid BB) (allFunctions ms) = Some (Gr, BB)
  /\ exists M, findFunction (fid Gr) ms = Some (M, Gr).
Proof.
  intros Hwf Hfind.
  apply findInstInFunctions_Some in Hfind as (HG & HBB & _ & _).
  pose proof (wfModules_NoDup ms Hwf) as (Hndf & _).
  destruct (findFunction_unique ms Gr Hndf) as (M & HfindG);
    [apply functionOf_allFunctions; exact HG|].
  split; [eapply wf_block_owner; eassumption | eauto].
Qed.

(** *** The loops return *)

Lemma foldM_total_each {A S : Type} (I : S -> Prop) (R : S -> S -> Prop)
    (Q : A -> S -> Prop) (f : A -> S -> outcome S) (l : list A) :
  (forall t, R t t) -> (forall t1 t2 t3, R t1 t2 -> R t2 t3 -> R t1 t3) ->
  (forall x t t', Q x t -> R t t' -> Q x t') ->
  (forall x t, x ∈ l -> I t -> exists t', f x t = Done t' /\ I t' /\ R t t' /\ Q x t') ->
  forall s, I s ->
    exists s', foldM f l s = Done s' /\ I s' /\ R s s' /\ forall x, x ∈ l -> Q x s'.
Proof.
  intros Hrefl Htrans Hkeep. induction l as [|x l IH]; intros Hstep s Hs; simpl.
  - exists s. repeat split; auto. intros x Hx. inversion Hx.
  - destruct (Hstep x s (list_elem_of_here _ _) Hs) as (t & Hx & Ht & HR & HQ).
    rewrite Hx. cbn [obind].
    destruct (IH (fun y u Hy => Hstep y u (list_elem_of_further _ _ _ Hy)) t Ht)
      as (s' & Hrun & Hs' & HR' & HQ').
    exists s'. split; [exact Hrun|]. split; [exact Hs'|].
    split; [eapply Htrans; eassumption|].
    intros y Hy. apply elem_of_cons in Hy as [-> | Hy]; [|auto].
    eapply Hkeep; eassumption.
Qed.

Lemma verboseOnly_refl (s : Slicing) : verboseOnly s s.
Proof. repeat split. Qed.

Lemma verboseOnly_trans (s1 s2 s3 : Slicing) :
  verboseOnly s1 s2 -> verboseOnly s2 s3 -> verboseOnly s1 s3.
Proof. unfold verboseOnly. intuition congruence. Qed.

Section BackwardReturns.

Variable c : GlobalContext.
Hypothesis Hwf : wfModules (Modules c) = true.
Hypothesis Hvalid : pointersValid c = true.

Lemma addToVerboseInst_returns (fuel : nat) (fBB : BlockId) (F : Function)
    (BB : BasicBlock) (ins : Instruction) (s : Slicing) :
  modules s = Modules c ->
  is_Some (findBlockInFunctions fBB (allFunctions (Modules c))) ->
  F ∈ allFunctions (Modules c) -> BB ∈ blocks F -> ins ∈ insts BB ->
  (loopFuel (Modules c) <= fuel)%nat ->
  exists s', addToVerboseInst fuel fBB BB ins s = Done s' /\ verboseOnly s s'.
Proof.
  intros Hm HfBB HF HBB Hins Hfuel.
  destruct (pointersValid_elim c Hvalid) as (Hsucc & _ & Hcalled & _).
  unfold addToVerboseInst. rewrite Hm.
  destruct (icall ins) as [CB_|] eqn:Hcall; [|exists s; split; [reflexivity|apply verboseOnly_refl]].
  assert (Hintr : exists b, isIntrinsicInst (Modules c) CB_ = Done b).
  { unfold isIntrinsicInst. destruct (cbKind CB_) eqn:Hkind; eauto.
    destruct (getCalledFunction CB_) as [CF|] eqn:Hcalledf; [|eauto].
    destruct (calledValid_elim (Modules c) ins CB_ CF Hcalled) as [[M Fr] Hfind];
      [eapply allInstructions_block_elem; eassumption | exact Hcall | exact Hkind
      | exact Hcalledf |].
    unfold derefFunction. rewrite Hfind. cbn [ofOption obind]. eauto. }
  destruct Hintr as [b ->]. cbn [obind].
  destruct b; [exists s; split; [reflexivity|apply verboseOnly_refl]|].
  destruct (intraCanReachLoop_returns (Modules c) fBB fuel Hsucc [bid BB] ∅)
    as [r Hr].
  { intros x Hx. apply list_elem_of_singleton in Hx as ->.
    eapply findBlockInFunctions_is_Some; eassumption. }
  { unfold loopFuel, Graph.edgeCount in Hfuel. simpl. lia. }
  unfold intraCanReach. rewrite Hr. cbn [obind].
  destruct r; [|exists s; split; [reflexivity|apply verboseOnly_refl]].
  destruct (getCalledFunction CB_);
    eexists; (split; [reflexivity|]); repeat split.
Qed.

Lemma runsOn_modules (s : Slicing) : runsOn c s -> modules s = Modules c.
Proof. intros (H & _). exact H. Qed.

Lemma runsOn_verboseOnly (s s' : Slicing) :
  verboseOnly s s' -> runsOn c s -> runsOn c s'.
Proof. intros (Hctx & _) H. unfold runsOn. rewrite Hctx. exact H. Qed.

Lemma addToVerbose_returns (fuel : nat) (F : FuncId) (s : Slicing) :
  runsOn c s -> is_Some (findFunction F (Modules c)) ->
  (loopFuel (Modules c) <= fuel)%nat ->
  exists s', addToVerbose fuel F s = Done s' /\ runsOn c s'
             /\ visitedF_ s' = visitedF_ s /\ visitedBB_ s' = visitedBB_ s.
Proof.
  intros Hruns HF Hfuel. unfold addToVerbose.
  destruct (bool_decide (F ∈ verboseF_ s)); [exists s; auto|].
  cbn zeta.
  change (Ctx_ (setVerboseF ({[F]} ∪ verboseF_ s) s)) with (Ctx_ s).
  set (s0 := setCtx _ _).
  destruct (pointersValid_elim c Hvalid) as (_ & _ & _ & Hcallers).
  assert (H0 : runsOn c s0).
  { destruct Hruns as (Hm & Hcs & Hkeys). split; [exact Hm|]. split.
    - intros f. unfold callersOf at 1. simpl.
      destruct (decide (f = F)) as [-> | Hne].
      + rewrite lookup_insert_eq. simpl. apply Hcs.
      + rewrite lookup_insert_ne by congruence. apply Hcs.
    - intros k. simpl. destruct (decide (k = F)) as [-> | Hne]; [auto|].
      rewrite lookup_insert_ne by congruence. apply Hkeys. }
  destruct (foldM_total (fun t => verboseOnly s0 t)
              (fun CB s =>
                 let* (enclosingF, fBB, _) := derefInst (modules s) CB in
                 foldM (fun BB s =>
                          foldM (addToVerboseInst fuel (bid fBB) BB) (insts BB) s)
                       (blocks enclosingF) s)
              (elements (callersOf (Ctx_ s) F))) with (s := s0) as (s' & Hrun & Hs').
  - intros CB t HCB Ht. apply elem_of_elements in HCB.
    destruct Hruns as (_ & Hcs & _). rewrite Hcs in HCB.
    destruct (callersValid_site c F CB Hcallers HCB) as [[[Gr fBB] i] Hfind].
    pose proof (runsOn_modules t (runsOn_verboseOnly s0 t Ht H0)) as Hmt.
    unfold derefInst. rewrite Hmt, Hfind. cbn [ofOption obind].
    destruct (findInst_block _ _ _ _ _ Hwf Hfind) as (HfBB & _).
    apply findInstInFunctions_Some in Hfind as (HG & _).
    destruct (foldM_total (fun u => verboseOnly s0 u)
                (fun BB s => foldM (addToVerboseInst fuel (bid fBB) BB) (insts BB) s)
                (blocks Gr)) with (s := t) as (t' & Hrun & Ht'); [|exact Ht|eauto].
    intros BB u HBB Hu.
    apply (foldM_total (fun v => verboseOnly s0 v)); [|exact Hu].
    intros ins v Hins Hv.
    destruct (addToVerboseInst_returns fuel (bid fBB) Gr BB ins v) as (v' & Hrun & Hv');
      try assumption.
    + apply runsOn_modules. apply (runsOn_verboseOnly s0 v Hv H0).
    + rewrite HfBB. eauto.
    + exists v'. split; [exact Hrun|]. eapply verboseOnly_trans; eassumption.
  - apply verboseOnly_refl.
  - exists s'. split; [exact Hrun|]. split; [apply (runsOn_verboseOnly s0 s' Hs' H0)|].
    destruct Hs' as (_ & HFs & HBs). rewrite HFs, HBs. split; reflexivity.
Qed.

Lemma matchingCallers_entries (name : string) (entries : list (FuncId * gset InstId)) :
  forall acc : list (gset InstId),
    (forall e, e ∈ entries -> is_Some (findFunction e.1 (Modules c))) ->
    exists l,
      foldM (fun '(storedFunc, CBS) acc =>
               let* (_, Sr) := derefFunction (Modules c) storedFunc in
               if String.eqb (fname Sr) name then Done (acc ++ [CBS])%list else Done acc)
            entries acc = Done l
      /\ forall CBS, CBS ∈ l <->
           CBS ∈ acc
           \/ exists stored Ms Sr,
                (stored, CBS) ∈ entries
                /\ findFunction stored (Modules c) = Some (Ms, Sr) /\ fname Sr = name.
Proof.
  induction entries as [|[stored CBS0] entries IH]; intros acc Hkeys; simpl.
  - exists acc. split; [reflexivity|]. intros CBS. split; [auto|].
    intros [H | (? & ? & ? & H & _)]; [exact H | inversion H].
  - destruct (Hkeys (stored, CBS0) (list_elem_of_here _ _)) as [[Ms Sr] Hfind].
    simpl in Hfind. unfold derefFunction. rewrite Hfind. cbn [ofOption obind].
    assert (Hrest : forall e, e ∈ entries -> is_Some (findFunction e.1 (Modules c))).
    { intros e He. apply Hkeys. apply list_elem_of_further. exact He. }
    destruct (String.eqb_spec (fname Sr) name) as [Heq | Hne]; cbn [obind].
    + destruct (IH (acc ++ [CBS0])%list Hrest) as (l & Hrun & Hl).
      exists l. split; [exact Hrun|]. intros CBS. rewrite Hl, elem_of_app.
      rewrite list_elem_of_singleton. split.
      * intros [[H | ->] | (st & Ms' & Sr' & H & Hf & Hn)]; [auto | |].
        -- right. exists stored, Ms, Sr. split; [apply list_elem_of_here | auto].
        -- right. exists st, Ms', Sr'. split; [apply list_elem_of_further; exact H | auto].
      * intros [H | (st & Ms' & Sr' & H & Hf & Hn)]; [auto|].
        apply elem_of_cons in H as [[= -> ->] | H]; [auto|].
        right. exists st, Ms', Sr'. auto.
    + destruct (IH acc Hrest) as (l & Hrun & Hl).
      exists l. split; [exact Hrun|]. intros CBS. rewrite Hl. split.
      * intros [H | (st & Ms' & Sr' & H & Hf & Hn)]; [auto|].
        right. exists st, Ms', Sr'. split; [apply list_elem_of_further; exact H | auto].
      * intros [H | (st & Ms' & Sr' & H & Hf & Hn)]; [auto|].
        apply elem_of_cons in H as [[= -> ->] | H].
        -- rewrite Hfind in Hf. injection Hf as <- <-. contradiction.
        -- right. exists st, Ms', Sr'. auto.
Qed.

Lemma matchingCallers_returns (s : Slicing) (name : string) :
  runsOn c s ->
  exists l,
    matchingCallers (Ctx_ s) name = Done l
    /\ forall CBS, CBS ∈ l <->
         exists stored Ms Sr,
           Callers (Ctx_ s) !! stored = Some CBS
           /\ findFunction stored (Modules c) = Some (Ms, Sr) /\ fname Sr = name.
Proof.
  intros (Hm & _ & Hkeys). unfold matchingCallers. rewrite Hm.
  destruct (matchingCallers_entries name (map_to_list (Callers (Ctx_ s))) [])
    as (l & Hrun & Hl).
  { intros [k CBS] He. apply elem_of_map_to_list in He. apply Hkeys. simpl. eauto. }
  exists l. split; [exact Hrun|]. intros CBS. rewrite Hl. split.
  - intros [H | (st & Ms & Sr & H & Hf & Hn)]; [inversion H|].
    apply elem_of_map_to_list in H. eauto 6.
  - intros (st & Ms & Sr & H & Hf & Hn). right. exists st, Ms, Sr.
    split; [apply elem_of_map_to_list; exact H | auto].
Qed.

Lemma blocksToProcess_sites (s : Slicing) (CBs : list InstId) :
  modules s = Modules c ->
  forall q0 : list BlockId,
    (forall CB, CB ∈ CBs ->
       is_Some (findInstInFunctions CB (allFunctions (Modules c)))) ->
    exists q,
      foldM (fun CB q =>
               let* (_, BB, _) := derefInst (modules s) CB in
               if bool_decide (bid BB ∈ visitedBB_ s) then Done q
               else Done (q ++ [bid BB])%list)
            CBs q0 = Done q
      /\ forall b, b ∈ q <-> b ∈ q0 \/ exists CB, CB ∈ CBs /\ unvisitedSite c s CB b.
Proof.
  intros Hm. induction CBs as [|CB CBs IH]; intros q0 Hsites; simpl.
  - exists q0. split; [reflexivity|]. intros b. split; [auto|].
    intros [H | (? & H & _)]; [exact H | inversion H].
  - destruct (Hsites CB (list_elem_of_here _ _)) as [[[Gr BB] ins] Hfind].
    unfold derefInst. rewrite Hm, Hfind. cbn [ofOption obind].
    assert (Hrest : forall CB', CB' ∈ CBs ->
              is_Some (findInstInFunctions CB' (allFunctions (Modules c)))).
    { intros CB' H. apply Hsites. apply list_elem_of_further. exact H. }
    destruct (bool_decide_reflect (bid BB ∈ visitedBB_ s)) as [Hin | Hout]; cbn [obind].
    + destruct (IH q0 Hrest) as (q & Hrun & Hq). unfold derefInst in Hrun.
      rewrite Hm in Hrun. exists q. split; [exact Hrun|].
      intros b. rewrite Hq. split.
      * intros [H | (CB' & H & Hu)]; [auto|].
        right. exists CB'. split; [apply list_elem_of_further; exact H | exact Hu].
      * intros [H | (CB' & H & Hu)]; [auto|].
        apply elem_of_cons in H as [-> | H]; [|right; eauto].
        destruct Hu as (Gr' & BB' & ins' & Hf & Hb & Hnot).
        rewrite Hfind in Hf. injection Hf as <- <- <-. subst b. contradiction.
    + destruct (IH (q0 ++ [bid BB])%list Hrest) as (q & Hrun & Hq).
      unfold derefInst in Hrun. rewrite Hm in Hrun. exists q. split; [exact Hrun|].
      intros b. rewrite Hq, elem_of_app, list_elem_of_singleton. split.
      * intros [[H | ->] | (CB' & H & Hu)]; [auto | |].
        -- right. exists CB. split; [apply list_elem_of_here|]. exists Gr, BB, ins. auto.
        -- right. exists CB'. split; [apply list_elem_of_further; exact H | exact Hu].
      * intros [H | (CB' & H & Hu)]; [auto|].
        apply elem_of_cons in H as [-> | H]; [|right; eauto].
        destruct Hu as (Gr' & BB' & ins' & Hf & Hb & Hnot).
        rewrite Hfind in Hf. injection Hf as <- <- <-. auto.
Qed.

Lemma blocksToProcess_returns (s : Slicing) (l : list (gset InstId)) :
  modules s = Modules c ->
  (forall CBS CB, CBS ∈ l -> CB ∈ CBS ->
     is_Some (findInstInFunctions CB (allFunctions (Modules c)))) ->
  exists q,
    blocksToProcess s l = Done q
    /\ forall b, b ∈ q <->
         exists CBS CB, CBS ∈ l /\ CB ∈ CBS /\ unvisitedSite c s CB b.
Proof.
  intros Hm. unfold blocksToProcess.
  assert (Hgen : forall q0,
    (forall CBS CB, CBS ∈ l -> CB ∈ CBS ->
       is_Some (findInstInFunctions CB (allFunctions (Modules c)))) ->
    exists q,
      foldM (fun CBS q =>
               foldM (fun CB q =>
                        let* (_, BB, _) := derefInst (modules s) CB in
                        if bool_decide (bid BB ∈ visitedBB_ s) then Done q
                        else Done (q ++ [bid BB])%list)
                     (elements CBS) q)
            l q0 = Done q
      /\ forall b, b ∈ q <->
           b ∈ q0 \/ exists CBS CB, CBS ∈ l /\ CB ∈ CBS /\ unvisitedSite c s CB b).
  { induction l as [|CBS l IH]; intros q0 Hsites; simpl.
    - exists q0. split; [reflexivity|]. intros b. split; [auto|].
      intros [H | (? & ? & H & _)]; [exact H | inversion H].
    - destruct (blocksToProcess_sites s (elements CBS) Hm q0) as (q1 & Hrun1 & Hq1).
      { intros CB HCB. apply elem_of_elements in HCB.
        apply (Hsites CBS CB (list_elem_of_here _ _) HCB). }
      rewrite Hrun1. cbn [obind].
      destruct (IH q1) as (q & Hrun & Hq).
      { intros CBS' CB H. apply Hsites. apply list_elem_of_further. exact H. }
      exists q. split; [exact Hrun|]. intros b. rewrite Hq, Hq1. split.
      + intros [[H | (CB & HCB & Hu)] | (CBS' & CB & H & HCB & Hu)]; [auto | |].
        * right. exists CBS, CB. apply elem_of_elements in HCB.
          split; [apply list_elem_of_here | auto].
        * right. exists CBS', CB. split; [apply list_elem_of_further; exact H | auto].
      + intros [H | (CBS' & CB & H & HCB & Hu)]; [auto|].
        apply elem_of_cons in H as [-> | H].
        * left. right. exists CB. split; [apply elem_of_elements; exact HCB | exact Hu].
        * right. exists CBS', CB. auto. }
  intros Hsites. destruct (Hgen [] Hsites) as (q & Hrun & Hq).
  exists q. split; [exact Hrun|]. intros b. rewrite Hq. split.
  - intros [H | H]; [inversion H | exact H].
  - auto.
Qed.

Lemma backtrackingLoop_returns (fuel : nat) :
  forall (toVisit : list BlockId) (s : Slicing),
    modules s = Modules c ->
    (forall x, x ∈ toVisit ->
       is_Some (findBlockInFunctions x (allFunctions (Modules c)))) ->
    (length toVisit + pendingPreds (allBlocks (Modules c)) (visitedBB_ s) <= fuel)%nat ->
    exists s', backtrackingLoop fuel toVisit s = Done s'.
Proof.
  destruct (pointersValid_elim c Hvalid) as (_ & Hlocal & _).
  induction fuel as [|fuel IH]; intros [|current toVisit] s Hm Hstack Hfuel;
    simpl in *; eauto; [lia|].
  destruct (Hstack current (list_elem_of_here _ _)) as [[Fp BBr] Hfind].
  unfold derefBlock. rewrite Hm, Hfind. cbn [ofOption obind].
  assert (Hrest : forall x, x ∈ toVisit ->
            is_Some (findBlockInFunctions x (allFunctions (Modules c)))).
  { intros x Hx. apply Hstack. apply list_elem_of_further. exact Hx. }
  destruct (bool_decide_reflect (current ∈ visitedBB_ s)) as [Hin | Hout].
  - apply IH; [exact Hm | exact Hrest | lia].
  - pose proof (findBlockInFunctions_Some _ _ _ _ Hfind) as (HF & HBB & Hid).
    apply IH; [exact Hm | |].
    + intros x Hx. apply pushPredecessors_elem in Hx as [Hx | Hx]; [|auto].
      destruct (predecessorsLocal_elim _ Fp BBr x Hlocal HF HBB Hx) as (B & HB & <-).
      eapply findBlockInFunctions_is_Some; eassumption.
    + simpl.
      pose proof (pushPredecessors_length (bpredecessors BBr) None
                    ({[current]} ∪ visitedBB_ s) toVisit).
      pose proof (pendingPreds_visit (allBlocks (Modules c)) (visitedBB_ s) BBr
                    (allBlocks_elem _ Fp BBr HF HBB)) as Hp.
      rewrite Hid in Hp. specialize (Hp Hout). lia.
Qed.

Lemma backtrackingLoop_Ctx (fuel : nat) :
  forall (toVisit : list BlockId) (s s' : Slicing),
    backtrackingLoop fuel toVisit s = Done s' -> Ctx_ s' = Ctx_ s.
Proof.
  induction fuel as [|fuel IH]; intros [|current toVisit] s s'; simpl;
    try discriminate; try (intros [= <-]; reflexivity).
  intros Hrun. apply obind_Done in Hrun as ([Fp BBr] & _ & Hrun).
  destruct (bool_decide (current ∈ visitedBB_ s)).
  - eapply IH. exact Hrun.
  - apply IH in Hrun. exact Hrun.
Qed.

End BackwardReturns.

(** *** What the walk slices *)

Section BackwardSlice.

Variable c : GlobalContext.
Hypothesis Hwf : wfModules (Modules c) = true.
Hypothesis Hvalid : pointersValid c = true.

(** A caller by name, seen from the [Callers] of a state on [c]. *)
Lemma callerByName_site (s : Slicing) (F G : FuncId) (M : Module) (Fr : Function) :
  runsOn c s -> findFunction F (Modules c) = Some (M, Fr) -> callerByName c F G ->
  exists stored Ms Sr CBS CB Gr BB ins,
    Callers (Ctx_ s) !! stored = Some CBS
    /\ findFunction stored (Modules c) = Some (Ms, Sr) /\ fname Sr = fname Fr
    /\ CB ∈ CBS
    /\ findInstInFunctions CB (allFunctions (Modules c)) = Some (Gr, BB, ins)
    /\ fid Gr = G.
Proof.
  intros (_ & Hcs & _) Hfind
         (M' & Fr' & stored & Ms & Sr & CB & Gr & BB & ins & Hf & Hst & Hn & HCB & Hi & HG).
  rewrite Hfind in Hf. injection Hf as <- <-.
  rewrite <- Hcs in HCB. unfold callersOf in HCB.
  destruct (Callers (Ctx_ s) !! stored) as [CBS|] eqn:Hk; simpl in HCB.
  - exists stored, Ms, Sr, CBS, CB, Gr, BB, ins. auto 10.
  - exfalso. exact (not_elem_of_empty (C := gset InstId) CB HCB).
Qed.

Lemma site_callerByName (s : Slicing) (F : FuncId) (M : Module) (Fr : Function)
    (stored : FuncId) (Ms : Module) (Sr : Function) (CBS : gset InstId) (CB : InstId) :
  runsOn c s -> findFunction F (Modules c) = Some (M, Fr) ->
  Callers (Ctx_ s) !! stored = Some CBS ->
  findFunction stored (Modules c) = Some (Ms, Sr) -> fname Sr = fname Fr ->
  CB ∈ CBS ->
  CB ∈ callersOf c stored
  /\ forall Gr BB ins,
       findInstInFunctions CB (allFunctions (Modules c)) = Some (Gr, BB, ins) ->
       callerByName c F (fid Gr).
Proof.
  intros (_ & Hcs & _) Hfind Hk Hst Hn HCB.
  assert (H : CB ∈ callersOf c stored).
  { rewrite <- Hcs. unfold callersOf. rewrite Hk. exact HCB. }
  split; [exact H|]. intros Gr BB ins Hi.
  exists M, Fr, stored, Ms, Sr, CB, Gr, BB, ins. auto 10.
Qed.

Lemma pendingPreds_count (V : gset BlockId) :
  (pendingPreds (allBlocks (Modules c)) V <= predCount (Modules c))%nat.
Proof. apply pendingPreds_mono. apply empty_subseteq. Qed.

Lemma slicing_callers (fuel : nat) :
  (forall F s V0 T A,
      runsOn c s -> is_Some (findFunction F (Modules c)) ->
      (forall G b, G ∈ visitedF_ s -> blockOf (Modules c) G b -> b ∈ visitedBB_ s) ->
      (forall b, b ∈ visitedBB_ s ->
         (exists G, G ∈ visitedF_ s /\ blockOf (Modules c) G b)
         \/ blockOf (Modules c) F b) ->
      callerClosed c A (visitedF_ s) ->
      (forall G, G ∈ visitedF_ s -> G ∈ V0 \/ callersFrom c T G) ->
      callersFrom c T F ->
      (2 * unsliced (allFunctions (Modules c)) (visitedF_ s) + loopFuel (Modules c)
       < fuel)%nat ->
      exists s',
        sliceFunction fuel F s = Done s' /\ sliceInv c T V0 A s'
        /\ visitedF_ s ⊆ visitedF_ s' /\ F ∈ visitedF_ s')
  /\ (forall BB Fp BBr s V0 T A,
        sliceInv c T V0 A s ->
        findBlockInFunctions BB (allFunctions (Modules c)) = Some (Fp, BBr) ->
        callersFrom c T (fid Fp) ->
        (2 * unsliced (allFunctions (Modules c)) (visitedF_ s) + loopFuel (Modules c) + 1
         < fuel)%nat ->
        exists s',
          backtracking fuel BB s = Done s' /\ sliceInv c T V0 A s'
          /\ visitedF_ s ⊆ visitedF_ s' /\ fid Fp ∈ visitedF_ s').
Proof.
  destruct (pointersValid_elim c Hvalid) as (_ & Hlocal & _ & Hcallers).
  induction fuel as [|fuel [IHs IHb]]; [split; intros; lia|]. split.
  - intros F s V0 T A Hruns [[M Fr] Hfind] Hhalf1 Hhalf2 Hclosed Hsound HTF Hfuel.
    pose proof (runsOn_modules c s Hruns) as Hm.
    rewrite sliceFunction_unfold.
    destruct (bool_decide_reflect (F ∈ visitedF_ s)) as [Hin | Hout].
    { exists s. split; [reflexivity|]. split; [|split; [reflexivity | exact Hin]].
      split; [exact Hruns|]. split; [|split; assumption].
      intros b. rewrite Hm. split.
      - intros Hb. destruct (Hhalf2 b Hb) as [H | H]; [exact H | eauto].
      - intros (G & HG & Hb). eauto. }
    cbn zeta. change (modules (setVisitedF ({[F]} ∪ visitedF_ s) s)) with (modules s).
    rewrite Hm. unfold derefFunction. rewrite Hfind. cbn [ofOption obind].
    set (s1 := setVisitedBB _ _).
    assert (Hruns1 : runsOn c s1) by exact Hruns.
    destruct (addToVerbose_returns c Hwf Hvalid (S fuel) F s1 Hruns1)
      as (s2 & Hverbose & Hruns2 & HF2 & HBB2); [eauto | lia |].
    rewrite Hverbose. cbn [obind].
    pose proof (runsOn_modules c s2 Hruns2) as Hm2.
    assert (HF2' : visitedF_ s2 = {[F]} ∪ visitedF_ s) by exact HF2.
    assert (HBB2' : visitedBB_ s2
                    = list_to_set (map bid (blocks Fr)) ∪ visitedBB_ s) by exact HBB2.
    assert (Hwhole2 : wholeFunctions s2).
    { intros b. rewrite Hm2, HF2', HBB2'.
      rewrite elem_of_union, elem_of_list_to_set. split.
      - intros [Hb | Hb].
        + apply list_elem_of_fmap in Hb as (BB & -> & HBB).
          exists F. split; [apply elem_of_union_l, elem_of_singleton; reflexivity|].
          exists M, Fr, BB. auto.
        + destruct (Hhalf2 b Hb) as [(G & HG & HbG) | HbF].
          * exists G. split; [apply elem_of_union_r; exact HG | exact HbG].
          * exists F. split; [apply elem_of_union_l, elem_of_singleton; reflexivity|].
            exact HbF.
      - intros (G & HG & HbG). apply elem_of_union in HG as [HG | HG].
        + apply elem_of_singleton in HG as ->.
          destruct HbG as (M' & Fr' & BB & Hfind' & HBB & <-).
          rewrite Hfind in Hfind'. injection Hfind' as <- <-.
          left. apply list_elem_of_fmap_2. exact HBB.
        + right. eauto. }
    assert (Hsound2 : forall G, G ∈ visitedF_ s2 -> G ∈ V0 \/ callersFrom c T G).
    { intros G HG. rewrite HF2' in HG. apply elem_of_union in HG as [HG | HG]; [|auto].
      apply elem_of_singleton in HG as ->. right. exact HTF. }
    assert (Hclosed2 : callerClosed c ({[F]} ∪ A) (visitedF_ s2)).
    { intros g G Hg HgA Hcall. rewrite HF2' in Hg |- *.
      apply elem_of_union in Hg as [Hg | Hg].
      - exfalso. apply HgA. apply elem_of_union_l. exact Hg.
      - apply elem_of_union_r. apply (Hclosed g G Hg); [|exact Hcall].
        intros H. apply HgA. apply elem_of_union_r. exact H. }
    destruct (matchingCallers_returns c s2 (fname Fr) Hruns2) as (l & Hl & Hlspec).
    rewrite Hl. cbn [obind].
    assert (Hto : forall G, callerByName c F G ->
              exists CBS CB Gr BB ins,
                CBS ∈ l /\ CB ∈ CBS
                /\ findInstInFunctions CB (allFunctions (Modules c)) = Some (Gr, BB, ins)
                /\ fid Gr = G).
    { intros G Hcall.
      destruct (callerByName_site s2 F G M Fr Hruns2 Hfind Hcall)
        as (st & Ms & Sr & CBS & CB & Gr & BB & ins & Hk & Hst & Hn & HCB & Hi & HG).
      exists CBS, CB, Gr, BB, ins. split; [|auto].
      apply Hlspec. exists st, Ms, Sr. auto. }
    assert (Hfrom : forall CBS CB, CBS ∈ l -> CB ∈ CBS ->
              is_Some (findInstInFunctions CB (allFunctions (Modules c)))
              /\ forall Gr BB ins,
                   findInstInFunctions CB (allFunctions (Modules c))
                   = Some (Gr, BB, ins) -> callerByName c F (fid Gr)).
    { intros CBS CB HCBS HCB. apply Hlspec in HCBS as (st & Ms & Sr & Hk & Hst & Hn).
      destruct (site_callerByName s2 F M Fr st Ms Sr CBS CB Hruns2 Hfind Hk Hst Hn HCB)
        as [Hsite Hcall].
      split; [eapply callersValid_site; eassumption | exact Hcall]. }
    destruct (blocksToProcess_returns c s2 l Hm2) as (q & Hq & Hqspec).
    { intros CBS CB HCBS HCB. apply (Hfrom CBS CB HCBS HCB). }
    assert (Hrun : exists s3,
              foldM (backtracking fuel) q s2 = Done s3
              /\ (sliceInv c T V0 ({[F]} ∪ A) s3 /\ visitedF_ s2 ⊆ visitedF_ s3)
              /\ visitedF_ s2 ⊆ visitedF_ s3
              /\ forall BB, BB ∈ q ->
                   forall Fp BBr,
                     findBlockInFunctions BB (allFunctions (Modules c))
                     = Some (Fp, BBr) -> fid Fp ∈ visitedF_ s3).
    { apply (foldM_total_each
               (fun t => sliceInv c T V0 ({[F]} ∪ A) t /\ visitedF_ s2 ⊆ visitedF_ t)
               (fun t t' => visitedF_ t ⊆ visitedF_ t')
               (fun BB t => forall Fp BBr,
                    findBlockInFunctions BB (allFunctions (Modules c)) = Some (Fp, BBr) ->
                    fid Fp ∈ visitedF_ t)).
      - intros t. reflexivity.
      - intros t1 t2 t3 H1 H2. etransitivity; eassumption.
      - intros BB t t' HQ HR Fp BBr Hb. apply HR. eapply HQ. exact Hb.
      - intros BB t HBB [Hinv Hsub].
        apply Hqspec in HBB as (CBS & CB & HCBS & HCB & Gr & BB0 & ins & Hi & Hid & _).
        destruct (Hfrom CBS CB HCBS HCB) as [_ Hcall]. specialize (Hcall Gr BB0 ins Hi).
        destruct (findInst_block _ _ _ _ _ Hwf Hi) as (Hblock & _).
        rewrite Hid in Hblock.
        destruct (IHb BB Gr BB0 t V0 T ({[F]} ∪ A) Hinv Hblock)
          as (t' & Hrun & Hinv' & Hsub' & HG).
        + eapply rtc_r; eassumption.
        + pose proof (unsliced_mono (allFunctions (Modules c)) _ _ Hsub) as H1.
          pose proof (unsliced_enter (allFunctions (Modules c)) (visitedF_ s) Fr) as H2.
          apply findFunction_functionOf in Hfind as [HFr Hid'].
          apply functionOf_allFunctions in HFr. rewrite Hid' in H2.
          specialize (H2 HFr Hout). rewrite HF2' in H1. lia.
        + exists t'. split; [exact Hrun|]. split; [|split; [exact Hsub'|]].
          * split; [exact Hinv' | etransitivity; eassumption].
          * intros Fp BBr Hb. rewrite Hblock in Hb. injection Hb as <- <-. exact HG.
      - split; [|reflexivity]. split; [exact Hruns2|]. split; [exact Hwhole2|].
        split; [exact Hclosed2 | exact Hsound2]. }
    destruct Hrun as (s3 & Hrun & [(Hruns3 & Hwhole3 & Hclosed3 & Hsound3) _] & Hsub3 & HQ).
    assert (HF3 : F ∈ visitedF_ s3).
    { apply Hsub3. rewrite HF2'. apply elem_of_union_l, elem_of_singleton. reflexivity. }
    assert (Hfinal : sliceInv c T V0 A s3 /\ visitedF_ s ⊆ visitedF_ s3
                     /\ F ∈ visitedF_ s3).
    { split; [|split; [|exact HF3]].
      2:{ etransitivity; [|exact Hsub3]. rewrite HF2'. apply union_subseteq_r. }
      split; [exact Hruns3|]. split; [exact Hwhole3|]. split; [|exact Hsound3].
      intros g G Hg HgA Hcall. destruct (decide (g = F)) as [-> | Hne].
      - destruct (Hto G Hcall) as (CBS & CB & Gr & BB & ins & HCBS & HCB & Hi & <-).
        destruct (findInst_block _ _ _ _ _ Hwf Hi) as (Hblock & Mg & HfindG).
        pose proof (findInstInFunctions_Some _ _ _ _ _ Hi) as (_ & HBB & _).
        destruct (decide (bid BB ∈ visitedBB_ s2)) as [Hvis | Hnot].
        + apply Hsub3. apply Hwhole2 in Hvis as (G' & HG' & Hb'). rewrite Hm2 in Hb'.
          assert (Heq : G' = fid Gr).
          { apply (blockOf_unique (Modules c) G' (fid Gr) (bid BB) Hwf Hb').
            exists Mg, Gr, BB. auto. }
          rewrite <- Heq. exact HG'.
        + apply (HQ (bid BB)) with (BBr := BB); [|exact Hblock].
          apply Hqspec. exists CBS, CB. split; [exact HCBS|]. split; [exact HCB|].
          exists Gr, BB, ins. auto.
      - apply (Hclosed3 g G Hg); [|exact Hcall].
        intros H. apply elem_of_union in H as [H | H]; [|contradiction].
        apply elem_of_singleton in H. contradiction. }
    destruct l as [|CBS0 rest].
    { exists s2. split; [reflexivity|].
      split; [|split; [rewrite HF2'; apply union_subseteq_r
                      | rewrite HF2'; apply elem_of_union_l, elem_of_singleton;
                        reflexivity]].
      split; [exact Hruns2|]. split; [exact Hwhole2|]. split; [|exact Hsound2].
      intros g G Hg HgA Hcall. destruct (decide (g = F)) as [-> | Hne].
      - destruct (Hto G Hcall) as (CBS & ? & ? & ? & ? & H & _). inversion H.
      - apply (Hclosed2 g G Hg); [|exact Hcall].
        intros H. apply elem_of_union in H as [H | H]; [|contradiction].
        apply elem_of_singleton in H. contradiction. }
    rewrite Hq. cbn [obind]. rewrite Hrun. cbn [obind].
    destruct (existsb _ _); eexists; (split; [reflexivity|]); exact Hfinal.
  - intros BB Fp BBr s V0 T A (Hruns & Hwhole & Hclosed & Hsound) Hblock HTF Hfuel.
    pose proof (runsOn_modules c s Hruns) as Hm.
    rewrite backtracking_unfold.
    destruct (backtrackingLoop_returns c Hvalid (S fuel) [BB] s Hm) as (s1 & Hloop).
    { intros x Hx. apply list_elem_of_singleton in Hx as ->. rewrite Hblock. eauto. }
    { pose proof (pendingPreds_count (visitedBB_ s)). unfold loopFuel in Hfuel.
      simpl. lia. }
    rewrite Hloop. cbn [obind].
    pose proof (backtrackingLoop_Ctx _ _ _ _ Hloop) as Hctx.
    assert (Hruns1 : runsOn c s1) by (unfold runsOn; rewrite Hctx; exact Hruns).
    pose proof (runsOn_modules c s1 Hruns1) as Hm1.
    unfold derefBlock. rewrite Hm1, Hblock. cbn [ofOption obind].
    pose proof (findBlockInFunctions_Some _ _ _ _ Hblock) as (HFp & HBBr & Hid).
    pose proof (wfModules_NoDup _ Hwf) as (Hndf & _).
    destruct (findFunction_unique (Modules c) Fp Hndf) as (M & HfindF);
      [apply functionOf_allFunctions; exact HFp|].
    destruct (backtrackingLoop_local (Modules c) Hwf Hlocal (fid Fp) (S fuel) [BB] s s1
                Hloop Hm) as (_ & HF1 & Hsub & Hnew).
    { intros x Hx. apply list_elem_of_singleton in Hx as ->.
      exists M, Fp, BBr. auto. }
    destruct (IHs (fid Fp) s1 V0 T A Hruns1) as (s' & Hrun & Hinv & Hsub' & HG).
    + eauto.
    + intros G b HG Hb. apply Hsub. rewrite HF1 in HG.
      apply Hwhole. rewrite Hm. eauto.
    + intros b Hb. destruct (Hnew b Hb) as [H | H]; [|auto].
      left. apply Hwhole in H as (G & HG & HbG). rewrite Hm in HbG.
      exists G. rewrite HF1. auto.
    + rewrite HF1. exact Hclosed.
    + rewrite HF1. exact Hsound.
    + exact HTF.
    + rewrite HF1. lia.
    + exists s'. split; [exact Hrun|]. split; [exact Hinv|].
      split; [rewrite <- HF1; exact Hsub' | exact HG].
Qed.

End BackwardSlice.

Lemma callerClosed_callersFrom (c : GlobalContext) (V : gset FuncId) (F G : FuncId) :
  callerClosed c ∅ V -> callersFrom c F G -> F ∈ V -> G ∈ V.
Proof.
  intros Hclosed Hreach. induction Hreach as [g | g h G Hstep Hreach IH]; [auto|].
  intros Hg. apply IH. apply (Hclosed g h Hg); [|exact Hstep].
  apply not_elem_of_empty.
Qed.

(** [sliceFunction] returns, and what it slices. *)
Lemma sliceFunction_returns (fuel : nat) (F : FuncId) (s : Slicing) :
  wfModules (modules s) = true ->
  pointersValid (Ctx_ s) = true ->
  is_Some (findFunction F (modules s)) ->
  wholeFunctions s ->
  callerClosed (Ctx_ s) ∅ (visitedF_ s) ->
  (sliceFuel (modules s) <= fuel)%nat ->
  exists s',
    sliceFunction fuel F s = Done s'
    /\ (forall G, G ∈ visitedF_ s' <->
                  G ∈ visitedF_ s \/ callersFrom (Ctx_ s) F G)
    /\ callerClosed (Ctx_ s) ∅ (visitedF_ s')
    /\ wholeFunctions s'.
Proof.
  intros Hwf Hvalid HF Hwhole Hclosed Hfuel.
  destruct (pointersValid_elim _ Hvalid) as (_ & _ & _ & Hcallers).
  assert (Hruns : runsOn (Ctx_ s) s).
  { split; [reflexivity|]. split; [reflexivity|].
    intros k. apply callersValid_key. exact Hcallers. }
  destruct (slicing_callers (Ctx_ s) Hwf Hvalid fuel) as [Hs _].
  destruct (Hs F s (visitedF_ s) F ∅ Hruns HF)
    as (s' & Hrun & (_ & Hwhole' & Hclosed' & Hsound') & Hsub & HF').
  - intros G b HG Hb. apply Hwhole. eauto.
  - intros b Hb. left. apply Hwhole. exact Hb.
  - exact Hclosed.
  - auto.
  - apply rtc_refl.
  - pose proof (unsliced_all (allFunctions (Modules (Ctx_ s))) (visitedF_ s)).
    unfold sliceFuel, modules in Hfuel. lia.
  - exists s'. split; [exact Hrun|]. split; [|split; assumption].
    intros G. split; [apply Hsound'|].
    intros [HG | Hreach]; [apply Hsub; exact HG|].
    exact (callerClosed_callersFrom _ _ F G Hclosed' Hreach HF').
Qed.

(** X25: the backward slice of [F] is made of [F] and the functions
    that call it, directly or through other functions.  A caller of a
    function is the function around a call site that [Callers] records
    for any function of the same name.  On a program whose objects have
    distinct pointers and whose pointers designate objects, from a
    state of whole functions in which the callers of the sliced
    functions are sliced, [sliceFunction] returns: the recursion through
    [backtracking] comes to an end on every call graph, cycles
    included.  The functions sliced afterwards are the ones sliced
    before and the ones [F] is called from, the callers of every sliced
    function are sliced, and the sliced blocks are the blocks of the
    sliced functions. *)
Theorem sliceFunction_callers_of_target (fuel : nat) (F : FuncId) (s : Slicing) :
  wfModules (modules s) = true ->
  pointersValid (Ctx_ s) = true ->
  is_Some (findFunction F (modules s)) ->
  wholeFunctions s ->
  callerClosed (Ctx_ s) ∅ (visitedF_ s) ->
  (sliceFuel (modules s) <= fuel)%nat ->
  exists s',
    sliceFunction fuel F s = Done s'
    /\ (forall G, G ∈ visitedF_ s' <->
                  G ∈ visitedF_ s \/ callersFrom (Ctx_ s) F G)
    /\ callerClosed (Ctx_ s) ∅ (visitedF_ s')
    /\ wholeFunctions s'.
Proof. apply sliceFunction_returns. Qed.

Lemma sliceFunction_callers_of_target_witness :
  exists c,
    callGraphPhase 1 progCycle = Done c
    /\ exists s',
         sliceFunction 11 3 (newSlicing c "/src") = Done s'
         /\ (forall G, G ∈ visitedF_ s' <->
                       G ∈ visitedF_ (newSlicing c "/src")
                       \/ callersFrom (Ctx_ (newSlicing c "/src")) 3 G)
         /\ callerClosed (Ctx_ (newSlicing c "/src")) ∅ (visitedF_ s')
         /\ wholeFunctions s'.
Proof.
  eexists. split; [vm_compute; reflexivity|].
  apply (sliceFunction_callers_of_target 11 3).
  - vm_compute. reflexivity.
  - vm_compute. reflexivity.
  - vm_compute. eexists. reflexivity.
  - apply wholeFunctions_new.
  - intros g G Hg. exfalso. exact (not_elem_of_empty (C := gset FuncId) g Hg).
  - vm_compute. lia.
Defined.

(* ===================================================================== *)
(** ** The slice of a target *)
(* ===================================================================== *)

Lemma backwardOnly_refl (s : Slicing) : backwardOnly s s.
Proof. repeat split. Qed.

Lemma backwardOnly_trans (s1 s2 s3 : Slicing) :
  backwardOnly s1 s2 -> backwardOnly s2 s3 -> backwardOnly s1 s3.
Proof. unfold backwardOnly. intuition congruence. Qed.

Lemma foldM_backwardOnly {A : Type} (f : A -> Slicing -> outcome Slicing) (l : list A) :
  (forall x t t', x ∈ l -> f x t = Done t' -> backwardOnly t t') ->
  forall s s', foldM f l s = Done s' -> backwardOnly s s'.
Proof.
  intros Hstep s s' Hrun.
  apply (foldM_invariant (backwardOnly s) f l s s');
    [ | apply backwardOnly_refl | exact Hrun].
  intros x t t' Hx Ht Hf. eapply backwardOnly_trans; [exact Ht | eauto].
Qed.

Lemma addToVerboseInst_backwardOnly (fuel : nat) (fBB : BlockId) (BB : BasicBlock)
    (ins : Instruction) (s s' : Slicing) :
  addToVerboseInst fuel fBB BB ins s = Done s' -> backwardOnly s s'.
Proof.
  unfold addToVerboseInst. destruct (icall ins) as [CB|].
  2:{ intros [= <-]. apply backwardOnly_refl. }
  destruct (isIntrinsicInst (modules s) CB) as [[|]| |]; simpl; try discriminate.
  { intros [= <-]. apply backwardOnly_refl. }
  destruct (intraCanReach fuel (modules s) (bid BB) fBB) as [[|]| |]; simpl;
    try discriminate.
  - destruct (getCalledFunction CB); intros [= <-]; repeat split.
  - intros [= <-]. apply backwardOnly_refl.
Qed.

Lemma addToVerbose_backwardOnly (fuel : nat) (F : FuncId) (s s' : Slicing) :
  addToVerbose fuel F s = Done s' -> backwardOnly s s'.
Proof.
  unfold addToVerbose. destruct (bool_decide (F ∈ verboseF_ s)).
  { intros [= <-]. apply backwardOnly_refl. }
  intros Hrun. eapply backwardOnly_trans; [|eapply foldM_backwardOnly; [|exact Hrun]].
  - repeat split.
  - intros CB t t' _ Hstep.
    apply obind_Done in Hstep as ([[enclosingF fBB] ?] & _ & Hstep).
    eapply foldM_backwardOnly; [|exact Hstep].
    intros BB u u' _ Hbb. eapply foldM_backwardOnly; [|exact Hbb].
    intros ins v v' _. apply addToVerboseInst_backwardOnly.
Qed.

Lemma backtrackingLoop_backwardOnly (fuel : nat) :
  forall (toVisit : list BlockId) (s s' : Slicing),
    backtrackingLoop fuel toVisit s = Done s' -> backwardOnly s s'.
Proof.
  induction fuel as [|fuel IH]; intros [|current toVisit] s s'; simpl;
    try discriminate; try (intros [= <-]; apply backwardOnly_refl).
  intros Hrun. apply obind_Done in Hrun as ([Fp BBr] & _ & Hrun).
  destruct (bool_decide (current ∈ visitedBB_ s)).
  - eapply IH. exact Hrun.
  - eapply backwardOnly_trans; [|eapply IH; exact Hrun]. repeat split.
Qed.

(** The backward slice leaves the forward sets, the program and its
    callee sets alone. *)
Lemma slicing_backwardOnly (fuel : nat) :
  (forall F s s', sliceFunction fuel F s = Done s' -> backwardOnly s s')
  /\ (forall BB s s', backtracking fuel BB s = Done s' -> backwardOnly s s').
Proof.
  induction fuel as [|fuel [IHs IHb]]; [split; discriminate|]. split.
  - intros F s s'. rewrite sliceFunction_unfold.
    destruct (bool_decide (F ∈ visitedF_ s)).
    { intros [= <-]. apply backwardOnly_refl. }
    cbn zeta. intros Hrun.
    apply obind_Done in Hrun as ([M Fr] & _ & Hrun).
    apply obind_Done in Hrun as (s1 & Hverbose & Hrun).
    apply addToVerbose_backwardOnly in Hverbose.
    apply obind_Done in Hrun as (matchingCBS & _ & Hrun).
    assert (H0 : backwardOnly s s1).
    { eapply backwardOnly_trans; [|exact Hverbose]. repeat split. }
    destruct matchingCBS as [|CBS rest].
    { injection Hrun as <-. exact H0. }
    apply obind_Done in Hrun as (toProcess & _ & Hrun).
    apply obind_Done in Hrun as (s2 & Hback & Hrun).
    assert (H1 : backwardOnly s1 s2).
    { eapply foldM_backwardOnly; [|exact Hback]. intros BB t t' _. apply IHb. }
    destruct (existsb _ _); injection Hrun as <-.
    + eapply backwardOnly_trans; [exact H0|]. eapply backwardOnly_trans; [exact H1|].
      repeat split.
    + eapply backwardOnly_trans; eassumption.
  - intros BB s s'. rewrite backtracking_unfold. intros Hrun.
    apply obind_Done in Hrun as (s1 & Hloop & Hrun).
    apply backtrackingLoop_backwardOnly in Hloop.
    apply obind_Done in Hrun as ([Fp BBr] & _ & Hrun).
    eapply backwardOnly_trans; [exact Hloop | eapply IHs; exact Hrun].
Qed.

(** Calls and what is reached depend on the program and the callee sets
    only. *)
Lemma callsTo_ext (c c' : GlobalContext) (F G : FuncId) :
  Modules c' = Modules c -> Callees c' = Callees c -> callsTo c F G -> callsTo c' F G.
Proof.
  intros Hm Hc (M & Fr & ins & CB & fs & H). exists M, Fr, ins, CB, fs.
  rewrite Hm, Hc. exact H.
Qed.

Lemma reachIn_ext (c c' : GlobalContext) (n : nat) (F G : FuncId) :
  Modules c' = Modules c -> Callees c' = Callees c -> reachIn c n F G -> reachIn c' n F G.
Proof.
  intros Hm Hc Hreach. induction Hreach as [F | n F H G Hhop Hreach IH].
  - apply reach_here.
  - eapply reach_hop; [eapply callsTo_ext; eassumption | exact IH].
Qed.

Lemma reachedFrom_ext (c c' : GlobalContext) (F G : FuncId) :
  Modules c' = Modules c -> Callees c' = Callees c ->
  reachedFrom c F G <-> reachedFrom c' F G.
Proof.
  intros Hm Hc. split; intros [n Hreach]; exists n.
  - eapply reachIn_ext; eassumption.
  - eapply reachIn_ext; [symmetry; exact Hm | symmetry; exact Hc | exact Hreach].
Qed.

Lemma getFunctionByName_valid (name : string) (ms : list Module) (E : FuncId) :
  getFunctionByName name ms = Some E -> is_Some (findFunction E ms).
Proof.
  intros Hget.
  assert (H : exists Er, functionOf ms Er /\ fid Er = E).
  { induction ms as [|M ms IH]; simpl in Hget; [discriminate|].
    destruct (List.find _ (functions M)) as [Er|] eqn:Hfind.
    - injection Hget as <-. apply find_some in Hfind as [Hin _].
      exists Er. split; [|reflexivity]. exists M.
      split; [apply list_elem_of_here | apply list_elem_of_In; exact Hin].
    - destruct (IH Hget) as (Er & (M' & HM' & HEr) & Hid).
      exists Er. split; [|exact Hid]. exists M'.
      split; [apply list_elem_of_further; exact HM' | exact HEr]. }
  destruct H as (Er & HEr & <-). apply findFunction_is_Some. exact HEr.
Qed.

(** A fuzzer entry point: nothing when the program does not hold it,
    forward slicing otherwise. *)
Lemma forwardSlicingFunctionStub_returns (fuel : nat) (name : string) (s : Slicing) :
  wfModules (modules s) = true ->
  calleesValid (Ctx_ s) = true ->
  calleeClosed s ->
  (2 * length (allBlocks (modules s)) <= fuel)%nat ->
  exists s',
    forwardSlicingFunctionStub fuel name s = Done s'
    /\ Ctx_ s' = Ctx_ s /\ sameSlice s s' /\ calleeClosed s'
    /\ (forall G, G ∈ fVisitedF_ s' <->
                  G ∈ fVisitedF_ s
                  \/ exists E, getFunctionByName name (modules s) = Some E
                               /\ reachedFrom (Ctx_ s) E G).
Proof.
  intros Hwf Hvalid Hclosed Hfuel. unfold forwardSlicingFunctionStub.
  destruct (getFunctionByName name (modules s)) as [E|] eqn:Hget.
  - destruct (forwardSlicingFunction_returns fuel E s Hwf Hvalid) as (s' & Hrun & Hin & Hc & _);
      [eapply getFunctionByName_valid; exact Hget | exact Hclosed | exact Hfuel |].
    exists s'. split; [exact Hrun|].
    destruct (forwardSlicingFunction_spec _ _ _ _ Hrun) as ((Hctx & _) & _).
    split; [exact Hctx|].
    split; [eapply forwardSlicingFunction_sameSlice; exact Hrun|].
    split; [exact Hc|]. intros G. rewrite Hin. split.
    + intros [H | H]; [auto | right; exists E; auto].
    + intros [H | (E' & [= <-] & H)]; auto.
  - exists s. split; [reflexivity|]. split; [reflexivity|].
    split; [apply sameSlice_refl|]. split; [exact Hclosed|].
    intros G. split; [auto|]. intros [H | (E & HE & _)]; [exact H | discriminate].
Qed.

Lemma calleesValid_ext (c c' : GlobalContext) :
  Modules c' = Modules c -> Callees c' = Callees c ->
  calleesValid c = true -> calleesValid c' = true.
Proof. unfold calleesValid. intros -> ->. auto. Qed.

(** What [main] does for a target: the steps return one after the
    other, the backward slice on the state it finds and the forward
    slices on the state the step before left. *)
Lemma sliceTarget_returns (fuel : nat) (F : FuncId) (s : Slicing) :
  wfModules (modules s) = true ->
  pointersValid (Ctx_ s) = true ->
  calleesValid (Ctx_ s) = true ->
  is_Some (findFunction F (modules s)) ->
  wholeFunctions s ->
  callerClosed (Ctx_ s) ∅ (visitedF_ s) ->
  calleeClosed s ->
  (targetFuel (modules s) <= fuel)%nat ->
  exists s',
    sliceTarget fuel F s = Done s'
    /\ (forall G, G ∈ visitedF_ s' <->
                  G ∈ visitedF_ s \/ callersFrom (Ctx_ s) F G)
    /\ (forall G, G ∈ fVisitedF_ s' <->
                  G ∈ fVisitedF_ s
                  \/ exists E, forwardRoot (modules s) F E /\ reachedFrom (Ctx_ s) E G).
Proof.
  intros Hwf Hvalid Hcallees HF Hwhole Hclosed Hfwd Hfuel.
  unfold targetFuel in Hfuel.
  destruct (sliceFunction_returns fuel F s Hwf Hvalid HF Hwhole Hclosed)
    as (s1 & Hrun1 & Hback & _); [lia|].
  destruct (slicing_backwardOnly fuel) as [Hframe _].
  destruct (Hframe F s s1 Hrun1) as (Hf1 & _ & Hm1 & Hc1).
  assert (Hmod1 : modules s1 = modules s) by exact Hm1.
  assert (Hreach1 : forall E G, reachedFrom (Ctx_ s1) E G <-> reachedFrom (Ctx_ s) E G).
  { intros E G. symmetry. apply reachedFrom_ext; assumption. }
  assert (Hfwd1 : calleeClosed s1).
  { intros g G Hg Hcall. rewrite Hf1 in Hg |- *. apply (Hfwd g G Hg).
    eapply callsTo_ext; [symmetry; exact Hm1 | symmetry; exact Hc1 | exact Hcall]. }
  assert (Hcallees1 : calleesValid (Ctx_ s1) = true)
    by (eapply calleesValid_ext; eassumption).
  destruct (forwardSlicingFunction_returns fuel F s1) as (s2 & Hrun2 & Hin2 & Hfwd2 & _);
    try assumption; try (rewrite Hmod1; assumption); [rewrite Hmod1; lia|].
  destruct (forwardSlicingFunction_spec _ _ _ _ Hrun2) as ((Hctx2 & _) & _).
  pose proof (forwardSlicingFunction_sameSlice _ _ _ _ Hrun2) as (HF2 & _ & Hmod2).
  assert (Hstub : forall name t,
            Ctx_ t = Ctx_ s1 -> calleeClosed t ->
            exists t',
              forwardSlicingFunctionStub fuel name t = Done t'
              /\ Ctx_ t' = Ctx_ s1 /\ visitedF_ t' = visitedF_ t /\ calleeClosed t'
              /\ (forall G, G ∈ fVisitedF_ t' <->
                            G ∈ fVisitedF_ t
                            \/ exists E, getFunctionByName name (modules s) = Some E
                                         /\ reachedFrom (Ctx_ s) E G)).
  { intros name t Hctx Hct.
    assert (Hmt : modules t = modules s) by (unfold modules; rewrite Hctx; exact Hm1).
    destruct (forwardSlicingFunctionStub_returns fuel name t)
      as (t' & Hrun & Hctx' & (HFt & _) & Hct' & Hin); try assumption.
    - rewrite Hmt. exact Hwf.
    - rewrite Hctx. exact Hcallees1.
    - rewrite Hmt. lia.
    - exists t'. split; [exact Hrun|]. split; [congruence|]. split; [exact HFt|].
      split; [exact Hct'|]. intros G. rewrite Hin, Hmt, Hctx.
      split; (intros [H | (E & HE & H)]; [auto | right; exists E; split; [exact HE|]]);
        apply Hreach1; exact H. }
  destruct (Hstub "LLVMFuzzerInitialize" s2 Hctx2 Hfwd2)
    as (s3 & Hrun3 & Hctx3 & HF3 & Hfwd3 & Hin3).
  destruct (Hstub "LLVMFuzzerTestOneInput" s3 Hctx3 Hfwd3)
    as (s4 & Hrun4 & Hctx4 & HF4 & Hfwd4 & Hin4).
  destruct (Hstub "LLVMFuzzerRunDriver" s4 Hctx4 Hfwd4)
    as (s5 & Hrun5 & Hctx5 & HF5 & Hfwd5 & Hin5).
  exists s5. unfold sliceTarget.
  rewrite Hrun1. cbn [obind]. rewrite Hrun2. cbn [obind]. rewrite Hrun3. cbn [obind].
  rewrite Hrun4. cbn [obind]. split; [exact Hrun5|]. split.
  - intros G. rewrite HF5, HF4, HF3, HF2. apply Hback.
  - intros G. rewrite Hin5, Hin4, Hin3, Hin2, Hf1, Hreach1.
    unfold forwardRoot, entryPoints. split.
    + intros [[[[H | H] | (E & HE & H)] | (E & HE & H)] | (E & HE & H)]; [auto | ..].
      * right. exists F. split; [left; reflexivity | exact H].
      * right. exists E. split; [|exact H].
        right. exists "LLVMFuzzerInitialize". split; [|exact HE].
        apply list_elem_of_here.
      * right. exists E. split; [|exact H].
        right. exists "LLVMFuzzerTestOneInput". split; [|exact HE].
        apply list_elem_of_further, list_elem_of_here.
      * right. exists E. split; [|exact H].
        right. exists "LLVMFuzzerRunDriver". split; [|exact HE].
        do 2 apply list_elem_of_further. apply list_elem_of_here.
    + intros [H | (E & [-> | (name & Hname & HE)] & H)]; [auto 6 | auto 6 |].
      repeat (apply elem_of_cons in Hname as [-> | Hname]); [| | |inversion Hname].
      * left. left. right. eauto.
      * left. right. eauto.
      * right. eauto.
Qed.

(** X26: the slice [main] computes for a target [F] from the state of
    a new slicer.  On a program whose objects have distinct pointers
    and whose pointers designate objects, the five steps return.  The
    sliced functions are then [F] and the functions it is called from,
    directly or through other functions, and the functions entered by
    forward slicing are the ones reached by one call or more from [F]
    or from a fuzzer entry point ([LLVMFuzzerInitialize],
    [LLVMFuzzerTestOneInput], [LLVMFuzzerRunDriver]) the program
    holds. *)
Theorem sliceTarget_callers_and_reached (fuel : nat) (F : FuncId) (s : Slicing) :
  wfModules (modules s) = true ->
  pointersValid (Ctx_ s) = true ->
  calleesValid (Ctx_ s) = true ->
  is_Some (findFunction F (modules s)) ->
  cleared s ->
  (targetFuel (modules s) <= fuel)%nat ->
  exists s',
    sliceTarget fuel F s = Done s'
    /\ (forall G, G ∈ visitedF_ s' <-> callersFrom (Ctx_ s) F G)
    /\ (forall G, G ∈ fVisitedF_ s' <->
                  exists E, forwardRoot (modules s) F E /\ reachedFrom (Ctx_ s) E G).
Proof.
  intros Hwf Hvalid Hcallees HF (HVF & _ & HVBB & HFV & _) Hfuel.
  destruct (sliceTarget_returns fuel F s Hwf Hvalid Hcallees HF) as (s' & Hrun & Hb & Hf).
  - intros b. rewrite HVF, HVBB. split.
    + intros Hb. exfalso. exact (not_elem_of_empty (C := gset BlockId) b Hb).
    + intros (G & HG & _). exfalso. exact (not_elem_of_empty (C := gset FuncId) G HG).
  - intros g G Hg. rewrite HVF in Hg.
    exfalso. exact (not_elem_of_empty (C := gset FuncId) g Hg).
  - intros g G Hg. rewrite HFV in Hg.
    exfalso. exact (not_elem_of_empty (C := gset FuncId) g Hg).
  - exact Hfuel.
  - exists s'. split; [exact Hrun|]. split.
    + intros G. rewrite Hb, HVF. split; [|auto].
      intros [H | H]; [|exact H].
      exfalso. exact (not_elem_of_empty (C := gset FuncId) G H).
    + intros G. rewrite Hf, HFV. split; [|auto].
      intros [H | H]; [|exact H].
      exfalso. exact (not_elem_of_empty (C := gset FuncId) G H).
Qed.

Lemma sliceTarget_callers_and_reached_witness :
  exists c,
    callGraphPhase 1 progCycle = Done c
    /\ exists s',
         sliceTarget 11 3 (newSlicing c "/src") = Done s'
         /\ (forall G, G ∈ visitedF_ s' <->
                       callersFrom (Ctx_ (newSlicing c "/src")) 3 G)
         /\ (forall G, G ∈ fVisitedF_ s' <->
                       exists E, forwardRoot (modules (newSlicing c "/src")) 3 E
                                 /\ reachedFrom (Ctx_ (newSlicing c "/src")) E G).
Proof.
  eexists. split; [vm_compute; reflexivity|].
  apply (sliceTarget_callers_and_reached 11 3).
  - vm_compute. reflexivity.
  - vm_compute. reflexivity.
  - vm_compute. reflexivity.
  - vm_compute. eexists. reflexivity.
  - repeat split.
  - vm_compute. lia.
Defined.

(** X30: slicing from a block, as [main] does for a target line, gives
    the slice of the function around the block.  Under the conditions
    of the backward slice, [backtracking] returns, the functions sliced
    afterwards are the ones sliced before, the function around the
    block and the functions it is called from, and both the sliced
    functions and the sliced blocks are the ones [sliceFunction] leaves
    for that function: the walk over the predecessors of the block adds
    nothing to the slice. *)
Theorem backtracking_slices_function (fuel : nat) (BB : BlockId) (Fp : Function)
    (BBr : BasicBlock) (s : Slicing) :
  wfModules (modules s) = true ->
  pointersValid (Ctx_ s) = true ->
  findBlockInFunctions BB (allFunctions (modules s)) = Some (Fp, BBr) ->
  wholeFunctions s ->
  callerClosed (Ctx_ s) ∅ (visitedF_ s) ->
  (sliceFuel (modules s) <= fuel)%nat ->
  exists s' s'',
    backtracking fuel BB s = Done s'
    /\ sliceFunction fuel (fid Fp) s = Done s''
    /\ (forall G, G ∈ visitedF_ s' <->
                  G ∈ visitedF_ s \/ callersFrom (Ctx_ s) (fid Fp) G)
    /\ visitedF_ s' = visitedF_ s'' /\ visitedBB_ s' = visitedBB_ s''.
Proof.
  intros Hwf Hvalid Hblock Hwhole Hclosed Hfuel.
  destruct (pointersValid_elim _ Hvalid) as (_ & _ & _ & Hcallers).
  assert (Hruns : runsOn (Ctx_ s) s).
  { split; [reflexivity|]. split; [reflexivity|].
    intros k. apply callersValid_key. exact Hcallers. }
  pose proof (findBlockInFunctions_Some _ _ _ _ Hblock) as (HFp & _).
  assert (HF : is_Some (findFunction (fid Fp) (modules s))).
  { apply findFunction_is_Some. apply functionOf_allFunctions. exact HFp. }
  destruct (sliceFunction_returns fuel (fid Fp) s Hwf Hvalid HF Hwhole Hclosed Hfuel)
    as (s'' & Hrun'' & Hin'' & _ & Hwhole'').
  destruct (slicing_callers (Ctx_ s) Hwf Hvalid fuel) as [_ Hb].
  destruct (Hb BB Fp BBr s (visitedF_ s) (fid Fp) ∅)
    as (s' & Hrun' & (Hruns' & Hwhole' & Hclosed' & Hsound') & Hsub & HF').
  - split; [exact Hruns|]. split; [exact Hwhole|]. split; [exact Hclosed | auto].
  - exact Hblock.
  - apply rtc_refl.
  - pose proof (unsliced_all (allFunctions (Modules (Ctx_ s))) (visitedF_ s)).
    unfold sliceFuel, modules in Hfuel. lia.
  - assert (Hin' : forall G, G ∈ visitedF_ s' <->
                             G ∈ visitedF_ s \/ callersFrom (Ctx_ s) (fid Fp) G).
    { intros G. split; [apply Hsound'|].
      intros [HG | Hreach]; [apply Hsub; exact HG|].
      exact (callerClosed_callersFrom _ _ (fid Fp) G Hclosed' Hreach HF'). }
    assert (HVF : visitedF_ s' = visitedF_ s'').
    { apply set_eq. intros G. rewrite Hin', Hin''. reflexivity. }
    exists s', s''. split; [exact Hrun'|]. split; [exact Hrun''|].
    split; [exact Hin'|]. split; [exact HVF|].
    apply set_eq. intros b. rewrite (Hwhole' b), (Hwhole'' b), HVF.
    destruct (slicing_backwardOnly fuel) as [Hfs Hfb].
    destruct (Hfs _ _ _ Hrun'') as (_ & _ & Hm'' & _).
    destruct (Hfb _ _ _ Hrun') as (_ & _ & Hm' & _).
    unfold modules. rewrite Hm', Hm''. reflexivity.
Qed.

Lemma backtracking_slices_function_witness :
  exists c,
    callGraphPhase 1 progCycle = Done c
    /\ exists Fp BBr,
         findBlockInFunctions 3 (allFunctions (modules (newSlicing c "/src")))
         = Some (Fp, BBr)
         /\ exists s' s'',
              backtracking 11 3 (newSlicing c "/src") = Done s'
              /\ sliceFunction 11 (fid Fp) (newSlicing c "/src") = Done s''
              /\ (forall G, G ∈ visitedF_ s' <->
                            G ∈ visitedF_ (newSlicing c "/src")
                            \/ callersFrom (Ctx_ (newSlicing c "/src")) (fid Fp) G)
              /\ visitedF_ s' = visitedF_ s'' /\ visitedBB_ s' = visitedBB_ s''.
Proof.
  eexists. split; [vm_compute; reflexivity|].
  eexists. eexists. split; [vm_compute; reflexivity|].
  eapply (backtracking_slices_function 11 3).
  - vm_compute. reflexivity.
  - vm_compute. reflexivity.
  - vm_compute. reflexivity.
  - apply wholeFunctions_new.
  - intros g G Hg. exfalso. exact (not_elem_of_empty (C := gset FuncId) g Hg).
  - vm_compute. lia.
Defined.

(* ===================================================================== *)
(** ** The files of [dump] *)
(* ===================================================================== *)

Lemma forwardClosed_backwardOnly (s s' : Slicing) :
  backwardOnly s s' -> forwardClosed s -> forwardClosed s'.
Proof.
  intros (Hf & Hv & Hm & _) Hclosed g M Gr b Hg Hfind Hb.
  unfold modules in Hfind. rewrite Hm in Hfind. rewrite Hf in Hg. rewrite Hv.
  exact (Hclosed g M Gr b Hg Hfind Hb).
Qed.

Lemma forwardSlicingFunctionStub_forwardClosed (fuel : nat) (name : string)
    (s s' : Slicing) :
  forwardSlicingFunctionStub fuel name s = Done s' ->
  forwardClosed s -> forwardClosed s'.
Proof.
  unfold forwardSlicingFunctionStub. destruct (getFunctionByName name (modules s)).
  - intros Hrun. apply forwardSlicingFunction_spec in Hrun as (_ & H & _). exact H.
  - intros [= <-]. auto.
Qed.

Lemma sliceTarget_forwardClosed (fuel : nat) (F : FuncId) (s s' : Slicing) :
  sliceTarget fuel F s = Done s' -> forwardClosed s -> forwardClosed s'.
Proof.
  unfold sliceTarget. intros Hrun Hclosed.
  apply obind_Done in Hrun as (s1 & H1 & Hrun).
  apply obind_Done in Hrun as (s2 & H2 & Hrun).
  apply obind_Done in Hrun as (s3 & H3 & Hrun).
  apply obind_Done in Hrun as (s4 & H4 & H5).
  apply (proj1 (slicing_backwardOnly fuel)) in H1.
  apply forwardSlicingFunction_spec in H2 as (_ & H2 & _).
  apply (forwardSlicingFunctionStub_forwardClosed _ _ _ _ H5).
  apply (forwardSlicingFunctionStub_forwardClosed _ _ _ _ H4).
  apply (forwardSlicingFunctionStub_forwardClosed _ _ _ _ H3).
  apply H2. exact (forwardClosed_backwardOnly s s1 H1 Hclosed).
Qed.

Lemma multiTargetStep_forwardClosed (fuel : nat) (target : string * string)
    (s s' : Slicing) :
  multiTargetStep fuel target s = Done s' -> forwardClosed s -> forwardClosed s'.
Proof.
  destruct target as [file_ func_]. unfold multiTargetStep.
  destruct (findTargetByFunctionName s file_ func_).
  - apply sliceTarget_forwardClosed.
  - intros [= <-]. auto.
Qed.

(** A new slicer has entered no function. *)
Lemma newSlicing_forwardClosed (c : GlobalContext) (srcRoot : string) :
  forwardClosed (cacheAllLLVMObjects (newSlicing c srcRoot)).
Proof.
  intros g M Gr b Hg. exfalso. exact (not_elem_of_empty (C := gset FuncId) g Hg).
Qed.

(** Whichever way [main] comes to [dump], forward slicing has left no
    block of an entered function behind, and the program is the one the
    slicer was made for. *)
Lemma handedToDump_forwardClosed (fuel : nat) (c : GlobalContext) (srcRoot : string)
    (s : Slicing) :
  handedToDump fuel c srcRoot s -> forwardClosed s /\ modules s = Modules c.
Proof.
  unfold handedToDump.
  pose proof (newSlicing_forwardClosed c srcRoot) as Hnew.
  set (Sl := cacheAllLLVMObjects (newSlicing c srcRoot)) in *.
  assert (Hm : forall t, extends Sl t -> modules t = Modules c).
  { intros t (_ & _ & _ & _ & _ & _ & Hm & _). exact Hm. }
  intros [(pairs & Hrun) | [(targetBB & Hrun) | (targetFunc & Hrun)]].
  - split.
    + apply (foldM_invariant forwardClosed (multiTargetStep fuel) pairs Sl s);
        [|exact Hnew|exact Hrun].
      intros target t t' _ Ht Hstep.
      exact (multiTargetStep_forwardClosed fuel target t t' Hstep Ht).
    + apply Hm. eapply foldM_extends; [|exact Hrun].
      intros target t t' _. apply multiTargetStep_extends.
  - split.
    + apply (forwardClosed_backwardOnly Sl s); [|exact Hnew].
      exact (proj2 (slicing_backwardOnly fuel) targetBB Sl s Hrun).
    + apply Hm. exact (proj2 (slicing_extends fuel) targetBB Sl s Hrun).
  - split.
    + exact (sliceTarget_forwardClosed fuel targetFunc Sl s Hrun Hnew).
    + apply Hm. exact (proj1 (sliceTarget_extends fuel targetFunc Sl s Hrun)).
Qed.

(** C6, amended: on every state [main] calls [dump] on, whichever of
    the three modes led to it, the lines of the slice file and of the
    verbose slice file are the same, so the second holds every line of
    the first; and a function name written to the function file is also
    in the verbose function file unless it is the name of a function
    without a basic block.  The verbose function file is filled from
    basic blocks only, so a declaration that reaches the function file
    as a member of [verboseF_] or as a callee of one is missing from
    it. *)
Theorem dump_verbose_superset (fuel fuel' : nat) (EC : bool) (c : GlobalContext)
    (srcRoot : string) (s s' : Slicing) (files : SliceFiles) :
  wfModules (Modules c) = true ->
  handedToDump fuel c srcRoot s ->
  dump fuel' EC s = Done (s', files) ->
  sliceFile files = sliceVerboseFile files
  /\ forall line, line ∈ funcFile files ->
       line ∈ funcVerboseFile files \/ bodylessName (Modules c) line.
Proof.
  intros Hwf Hmain Hdump.
  destruct (handedToDump_forwardClosed fuel c srcRoot s Hmain) as [Hclosed Hm].
  rewrite <- Hm in Hwf |- *.
  exact (dump_files_of_closed_state fuel' EC s s' files Hwf Hclosed Hdump).
Qed.

(** The dump after slicing on [t], which calls the declared [ext]. *)
Lemma dump_verbose_superset_witness :
  exists c s s' files,
    callGraphPhase 1 progDecl = Done c
    /\ sliceTarget 5 1 (cacheAllLLVMObjects (newSlicing c "/src")) = Done s
    /\ dump 5 false s = Done (s', files)
    /\ (sliceFile files = sliceVerboseFile files
        /\ forall line, line ∈ funcFile files ->
             line ∈ funcVerboseFile files \/ bodylessName (Modules c) line).
Proof.
  eexists. eexists. eexists. eexists.
  split; [vm_compute; reflexivity|]. split; [vm_compute; reflexivity|].
  split; [vm_compute; reflexivity|].
  eapply (dump_verbose_superset 5 5 false _ "/src").
  - vm_compute. reflexivity.
  - right. right. exists 1%positive. vm_compute. reflexivity.
  - vm_compute. reflexivity.
Defined.

(** C6, counterexample: [t] calls [ext], of which the program holds a
    declaration only.  After slicing on [t] the dump writes the name of
    [ext] to the function file, as a callee of the member [t] of
    [verboseF_], and does not write it to the verbose function file; the
    slice file holds the line of the block of [t]. *)
Lemma func_file_name_missing_from_verbose :
  exists c s s' files,
    callGraphPhase 1 progDecl = Done c
    /\ sliceTarget 5 1 (cacheAllLLVMObjects (newSlicing c "/src")) = Done s
    /\ dump 5 false s = Done (s', files)
    /\ "block:/src/d.c:7:100" ++ Str.nl ∈ sliceFile files
    /\ "ext" ++ Str.nl ∈ funcFile files
    /\ "ext" ++ Str.nl ∉ funcVerboseFile files.
Proof.
  eexists. eexists. eexists. eexists.
  split; [vm_compute; reflexivity|]. split; [vm_compute; reflexivity|].
  split; [vm_compute; reflexivity|].
  repeat split; apply (bool_decide_unpack _); vm_compute; exact I.
Qed.

(* ===================================================================== *)
(** ** The pointers the call-graph phase leaves *)
(* ===================================================================== *)

(** Every key of [Callers] has a call site. *)
Lemma insertCaller_inhabited (CB : InstId) (CF : FuncId) (c : GlobalContext) :
  (forall F CBS, Callers c !! F = Some CBS -> exists t, t ∈ CBS) ->
  forall F CBS, Callers (insertCaller CB CF c) !! F = Some CBS -> exists t, t ∈ CBS.
Proof.
  intros Hinv F CBS. unfold insertCaller. simpl.
  destruct (decide (F = CF)) as [-> | Hne].
  - rewrite lookup_insert_eq. intros [= <-]. exists CB.
    apply elem_of_union_l, elem_of_singleton. reflexivity.
  - rewrite lookup_insert_ne by congruence. apply Hinv.
Qed.

Lemma insertCallers_inhabited (CB : InstId) (l : list FuncId) :
  forall c : GlobalContext,
    (forall F CBS, Callers c !! F = Some CBS -> exists t, t ∈ CBS) ->
    forall F CBS,
      Callers (fold_left (fun c CF => insertCaller CB CF c) l c) !! F = Some CBS ->
      exists t, t ∈ CBS.
Proof.
  induction l as [|CF l IH]; intros c Hinv; simpl; [exact Hinv|].
  apply IH. apply insertCaller_inhabited. exact Hinv.
Qed.

Lemma finalizeInstruction_inhabited (ins : Instruction) (c c' : GlobalContext) :
  finalizeInstruction ins c = Done c' ->
  (forall F CBS, Callers c !! F = Some CBS -> exists t, t ∈ CBS) ->
  forall F CBS, Callers c' !! F = Some CBS -> exists t, t ∈ CBS.
Proof.
  unfold finalizeInstruction. destruct (icall ins) as [CB|]; [|intros [= <-]; auto].
  intros Hrun. apply obind_Done in Hrun as (dbg & _ & Hrun).
  destruct dbg; injection Hrun as <-; [auto|].
  intros Hinv. apply insertCallers_inhabited. exact Hinv.
Qed.

(** The finalisation looks the called function of every call
    instruction up. *)
Lemma finalizeInstructions_called (L : list Instruction) :
  forall c c' : GlobalContext,
    foldM finalizeInstruction L c = Done c' ->
    forall ins CB CF,
      ins ∈ L -> icall ins = Some CB -> cbKind CB = CallInstKind ->
      getCalledFunction CB = Some CF -> is_Some (findFunction CF (Modules c)).
Proof.
  induction L as [|x L IH]; intros c c' Hrun ins CB CF Hin; [inversion Hin|].
  simpl in Hrun. apply obind_Done in Hrun as (c1 & Hx & Hrest).
  intros Hcall Hkind Hcalled. apply elem_of_cons in Hin as [-> | Hin].
  - unfold finalizeInstruction in Hx. rewrite Hcall in Hx.
    apply obind_Done in Hx as (dbg & Hdbg & _).
    unfold isDbgInfoIntrinsic in Hdbg. rewrite Hkind, Hcalled in Hdbg.
    apply obind_Done in Hdbg as ([M Fr] & Hderef & _).
    unfold derefFunction, ofOption in Hderef.
    destruct (findFunction CF (Modules c)); [eauto | discriminate].
  - pose proof (finalizeInstruction_effect _ _ _ Hx) as ((Hm & _) & _).
    rewrite Hm. eapply IH; eassumption.
Qed.

(** The pointers of [Callers] and the called functions after the phase. *)
Lemma callGraphPhase_pointers (fuel : nat) (ms : list Module)
    (c' : GlobalContext) :
  callGraphPhase fuel ms = Done c' ->
  callersValid c' = true /\ calledValid (Modules c') = true
  /\ forall F CBS, Callers c' !! F = Some CBS -> exists CB, CB ∈ CBS.
Proof.
  intros Hrun.
  pose proof (callGraphPhase_steps _ _ _ Hrun)
    as (c2 & Hproc & Hsame1 & Hsame2 & Hcallees & Hcallers).
  destruct (loadModules_effect ms) as (Hms & _ & Hcallees0 & Hcallers0).
  destruct (initialized_effect (loadModules ms)) as (Hm1 & Hf1 & Hcallees1 & Hcallers1 & _).
  assert (Hm2 : Modules c2 = ms).
  { destruct Hsame1 as (H1 & _). congruence. }
  assert (Hmods : Modules c' = ms).
  { destruct Hsame2 as (H2 & _). congruence. }
  unfold callGraphPhase in Hrun.
  apply run_phases in Hrun as (c2' & Hproc' & Hfin & _).
  rewrite Hms in Hproc', Hfin. rewrite Hproc in Hproc'. injection Hproc' as <-.
  pose proof (runOnInstructions_effect _ _ _ Hproc) as (_ & Hcallers2 & _).
  assert (Hinh : forall F CBS, Callers c' !! F = Some CBS -> exists CB, CB ∈ CBS).
  { apply (foldM_invariant
             (fun c => forall F CBS, Callers c !! F = Some CBS -> exists t, t ∈ CBS)
             finalizeInstruction (allInstructions ms) c2 c'); [ | | exact Hfin].
    - intros x t t' _ Ht Hx. eapply finalizeInstruction_inhabited; eassumption.
    - intros F CBS. rewrite Hcallers2, Hcallers1, Hcallers0, lookup_empty.
      discriminate. }
  pose proof (runOnInstructions_valid
                (analyzedInstructions ms) (initialized (loadModules ms)) c2) as Hvalid.
  rewrite Hm1, Hms, Hf1 in Hvalid.
  specialize (Hvalid (loadModules_valid ms)).
  assert (Hcalleesv : forall s G, G ∈ calleesOf c' s -> is_Some (findFunction G ms)).
  { intros s G HG. apply (Hvalid) with (s := s).
    - intros t H. unfold calleesOf. rewrite Hcallees1, Hcallees0, lookup_empty.
      simpl. intros HH. exfalso. exact (not_elem_of_empty (C := gset FuncId) H HH).
    - exact Hproc.
    - rewrite <- Hcallees. exact HG. }
  assert (Hsite : forall F CB, CB ∈ callersOf c' F ->
            is_Some (findFunction F ms)
            /\ is_Some (findInstInFunctions CB (allFunctions ms))).
  { intros F CB HCB. apply Hcallers in HCB as (HF & ins & Hin & <- & _). split.
    - apply (Hcalleesv (iid ins)). rewrite Hcallees. exact HF.
    - apply findInstInFunctions_is_Some. exact Hin. }
  split; [|split; [|exact Hinh]].
  - unfold callersValid. rewrite bool_decide_eq_true, Hmods.
    intros F CBS HF. split.
    + destruct (Hinh F CBS HF) as [CB HCB].
      apply (Hsite F CB). unfold callersOf. rewrite HF. exact HCB.
    + intros CB HCB. apply (Hsite F CB). unfold callersOf. rewrite HF. exact HCB.
  - unfold calledValid. rewrite Hmods. apply forallb_forall. intros ins Hin.
    apply list_elem_of_In in Hin.
    destruct (icall ins) as [CB|] eqn:Hcall; [|reflexivity].
    destruct (cbKind CB) eqn:Hkind; try reflexivity.
    destruct (getCalledFunction CB) as [CF|] eqn:Hcalled; [|reflexivity].
    apply bool_decide_eq_true. rewrite <- Hm2.
    eapply finalizeInstructions_called; eassumption.
Qed.

(** X27: the pointers of [Callers] designate objects of the program.
    On a program on which the code of the phase is defined the phase
    returns, and then every key of [Callers] is a function of the
    program with at least one call site, and every call site in
    [Callers] is an instruction of the program. *)
Theorem callGraphPhase_callersValid (fuel : nat) (ms : list Module) :
  phaseDefined ms = true ->
  exists c',
    callGraphPhase (S fuel) ms = Done c'
    /\ callersValid c' = true
    /\ forall F CBS, Callers c' !! F = Some CBS -> exists CB, CB ∈ CBS.
Proof.
  intros Hdef. apply (callGraphPhase_total fuel ms _ Hdef). intros c' Hrun.
  destruct (callGraphPhase_pointers _ ms c' Hrun) as (Hcallers & _ & Hinh).
  split; assumption.
Qed.

Lemma callGraphPhase_callersValid_witness :
  phaseDefined progCycle = true
  /\ exists c',
       callGraphPhase 1 progCycle = Done c'
       /\ callersValid c' = true
       /\ forall F CBS, Callers c' !! F = Some CBS -> exists CB, CB ∈ CBS.
Proof.
  split; [vm_compute; reflexivity|].
  apply (callGraphPhase_callersValid 0 progCycle). vm_compute. reflexivity.
Defined.

(* ===================================================================== *)
(** ** [dumpCallers] and the context *)
(* ===================================================================== *)







(* ===================================================================== *)
(** ** The verbose functions *)
(* ===================================================================== *)

(** The answer of [intraCanReach], when there is one. *)
Lemma intraCanReach_answer (fuel : nat) (ms : list Module) (src dst : BlockId) (b : bool) :
  intraCanReach fuel ms src dst = Done b -> (b = true <-> Graph.cfgReach ms src dst).
Proof.
  unfold intraCanReach. intros Hrun. destruct b.
  - split; [|reflexivity]. intros _.
    apply intraCanReachLoop_true in Hrun as (x & Hx & Hreach).
    apply list_elem_of_singleton in Hx as ->. exact Hreach.
  - split; [discriminate|]. intros Hreach. exfalso.
    destruct (intraCanReachLoop_false ms dst fuel [src] ∅ Hrun)
      as (V & _ & Hstack & HdV & HcV).
    { apply not_elem_of_empty. }
    { intros a b Ha. exfalso.
      exact (not_elem_of_empty (C := gset BlockId) a Ha). }
    assert (Hall : forall x y, rtc (Graph.succOf ms) x y -> x ∈ V -> y ∈ V).
    { induction 1 as [|x y z Hxy _ IH]; [auto|]. intros Hx. apply IH.
      exact (HcV x y Hx Hxy). }
    apply HdV. apply (Hall src dst Hreach). apply Hstack. apply list_elem_of_here.
Qed.

(** A loop that adds to [verboseF_] what each of its items brings. *)
Lemma foldM_verbose {A : Type} (c : GlobalContext) (H : A -> FuncId -> Prop)
    (f : A -> Slicing -> outcome Slicing) (l : list A) :
  (forall x t t', x ∈ l -> Ctx_ t = c -> f x t = Done t' ->
     Ctx_ t' = c /\ forall G, G ∈ verboseF_ t' <-> G ∈ verboseF_ t \/ H x G) ->
  forall s s', Ctx_ s = c -> foldM f l s = Done s' ->
    Ctx_ s' = c
    /\ forall G, G ∈ verboseF_ s' <-> G ∈ verboseF_ s \/ exists x, x ∈ l /\ H x G.
Proof.
  induction l as [|x l IH]; intros Hstep s s' Hs Hrun; simpl in Hrun.
  - injection Hrun as <-. split; [exact Hs|]. intros G. split; [auto|].
    intros [HG | (x & Hx & _)]; [exact HG | inversion Hx].
  - apply obind_Done in Hrun as (t & Hx & Hrest).
    destruct (Hstep x s t (list_elem_of_here _ _) Hs Hx) as [Ht HtG].
    destruct (IH (fun y u u' Hy => Hstep y u u' (list_elem_of_further _ _ _ Hy))
                 t s' Ht Hrest) as [Hs' HG'].
    split; [exact Hs'|]. intros G. rewrite HG', HtG. split.
    + intros [[HG | HG] | (y & Hy & HG)]; [auto | |].
      * right. exists x. split; [apply list_elem_of_here | exact HG].
      * right. exists y. split; [apply list_elem_of_further; exact Hy | exact HG].
    + intros [HG | (y & Hy & HG)]; [auto|].
      apply elem_of_cons in Hy as [-> | Hy]; [auto|]. right. eauto.
Qed.

Lemma addToVerboseInst_verbose (fuel : nat) (fBB : BlockId) (BB : BasicBlock)
    (ins : Instruction) (s s' : Slicing) :
  addToVerboseInst fuel fBB BB ins s = Done s' ->
  Ctx_ s' = Ctx_ s
  /\ forall G, G ∈ verboseF_ s' <->
               G ∈ verboseF_ s \/ callsBefore (modules s) fBB BB ins G.
Proof.
  unfold addToVerboseInst, callsBefore. destruct (icall ins) as [CB_|].
  2:{ intros [= <-]. split; [reflexivity|]. intros G. split; [auto|].
      intros [HG | (? & ? & _)]; [exact HG | discriminate]. }
  intros Hrun. apply obind_Done in Hrun as (intr & Hintr & Hrun). destruct intr.
  { injection Hrun as <-. split; [reflexivity|]. intros G. split; [auto|].
    intros [HG | (CB' & [= <-] & Hi & _)]; [exact HG | congruence]. }
  apply obind_Done in Hrun as (canReach & Hreach & Hrun).
  apply intraCanReach_answer in Hreach. destruct canReach.
  - destruct (getCalledFunction CB_) as [otherF|] eqn:Hcalled; injection Hrun as <-.
    + split; [reflexivity|]. intros G. simpl.
      rewrite elem_of_union, elem_of_singleton. split.
      * intros [-> | HG]; [|auto]. right. exists CB_.
        split; [reflexivity|]. split; [exact Hintr|].
        split; [apply Hreach; reflexivity | exact Hcalled].
      * intros [HG | (CB' & [= <-] & _ & _ & Hc)]; [auto|]. left. congruence.
    + split; [reflexivity|]. intros G. split; [auto|].
      intros [HG | (CB' & [= <-] & _ & _ & Hc)]; [exact HG | congruence].
  - injection Hrun as <-. split; [reflexivity|]. intros G. split; [auto|].
    intros [HG | (CB' & [= <-] & _ & Hr & _)]; [exact HG|].
    apply Hreach in Hr. discriminate.
Qed.

(** X29: [addToVerbose] on a function [F] that is not yet verbose makes
    verbose [F] and the functions called, by a call that is no
    intrinsic call, in a function around a call site of [F] from a
    block that leads to the block of the call site; on a function that
    is verbose already it adds nothing.  It returns on a program whose
    pointers designate objects, and the call sites [Callers] holds for
    each function are the same afterwards, although [operator[]] may
    have made an entry for [F]. *)
Theorem addToVerbose_called_before (fuel : nat) (F : FuncId) (s : Slicing) :
  wfModules (modules s) = true ->
  pointersValid (Ctx_ s) = true ->
  is_Some (findFunction F (modules s)) ->
  (loopFuel (modules s) <= fuel)%nat ->
  exists s',
    addToVerbose fuel F s = Done s'
    /\ (forall G, G ∈ verboseF_ s' <->
                  G ∈ verboseF_ s
                  \/ ((F ∉ verboseF_ s) /\ (G = F \/ calledBefore (Ctx_ s) F G)))
    /\ (forall f, callersOf (Ctx_ s') f = callersOf (Ctx_ s) f).
Proof.
  intros Hwf Hvalid HF Hfuel.
  destruct (pointersValid_elim _ Hvalid) as (_ & _ & _ & Hcallers).
  assert (Hruns : runsOn (Ctx_ s) s).
  { split; [reflexivity|]. split; [reflexivity|].
    intros k. apply callersValid_key. exact Hcallers. }
  destruct (addToVerbose_returns (Ctx_ s) Hwf Hvalid fuel F s Hruns HF Hfuel)
    as (s' & Hrun & (_ & Hcs & _) & _).
  exists s'. split; [exact Hrun|]. split; [|exact Hcs].
  unfold addToVerbose in Hrun.
  destruct (bool_decide_reflect (F ∈ verboseF_ s)) as [Hin | Hout].
  { injection Hrun as <-. intros G. split; [auto|].
    intros [HG | [Hnot _]]; [exact HG | contradiction]. }
  cbn zeta in Hrun.
  change (Ctx_ (setVerboseF ({[F]} ∪ verboseF_ s) s)) with (Ctx_ s) in Hrun.
  set (c1 := setCallers _ (Ctx_ s)) in Hrun.
  apply (foldM_verbose c1
           (fun CB G =>
              exists enclosingF fBB i BB ins,
                findInstInFunctions CB (allFunctions (Modules (Ctx_ s)))
                = Some (enclosingF, fBB, i)
                /\ BB ∈ blocks enclosingF /\ ins ∈ insts BB
                /\ callsBefore (Modules (Ctx_ s)) (bid fBB) BB ins G)) in Hrun
    as [_ HG]; [ | | reflexivity].
  - intros G. rewrite HG. simpl. rewrite elem_of_union, elem_of_singleton.
    unfold calledBefore. split.
    + intros [[-> | H] | (CB & HCB & eF & fBB & i & BB & ins & H)]; [auto | auto |].
      right. split; [exact Hout|]. right. apply elem_of_elements in HCB.
      exists CB, eF, fBB, i, BB, ins. auto.
    + intros [H | [_ [-> | (CB & eF & fBB & i & BB & ins & HCB & H)]]]; [auto | auto |].
      right. exists CB. split; [apply elem_of_elements; exact HCB|].
      exists eF, fBB, i, BB, ins. exact H.
  - intros CB t t' _ Ht Hstep.
    apply obind_Done in Hstep as ([[enclosingF fBB] i] & Hderef & Hstep).
    unfold derefInst, ofOption, modules in Hderef. rewrite Ht in Hderef.
    change (Modules c1) with (Modules (Ctx_ s)) in Hderef.
    destruct (findInstInFunctions CB (allFunctions (Modules (Ctx_ s))))
      as [[[eF' fBB'] i']|] eqn:Hfind; [|discriminate].
    injection Hderef as -> -> ->.
    apply (foldM_verbose c1
             (fun BB G => exists ins,
                  ins ∈ insts BB
                  /\ callsBefore (Modules (Ctx_ s)) (bid fBB) BB ins G)) in Hstep
      as [Ht' HG]; [ | | exact Ht].
    + split; [exact Ht'|]. intros G. rewrite HG. split.
      * intros [H | (BB & HBB & ins & Hins & H)]; [auto|].
        right. exists enclosingF, fBB, i, BB, ins. auto.
      * intros [H | (eF & fBB' & i' & BB & ins & [= <- <- <-] & HBB & Hins & H)];
          [auto|]. right. exists BB. split; [exact HBB|]. exists ins. auto.
    + intros BB u u' _ Hu Hbb.
      apply (foldM_verbose c1
               (fun ins G => callsBefore (Modules (Ctx_ s)) (bid fBB) BB ins G)) in Hbb
        as [Hu' HG]; [ | | exact Hu].
      * split; [exact Hu'|]. intros G. rewrite HG. split.
        -- intros [H | (ins & Hins & H)]; [auto | right; exists ins; auto].
        -- intros [H | (ins & Hins & H)]; [auto | right; exists ins; auto].
      * intros ins v v' _ Hv Hins.
        apply addToVerboseInst_verbose in Hins as [Hctx HG].
        split; [congruence|]. intros G. rewrite HG. unfold modules. rewrite Hv.
        reflexivity.
Qed.

Lemma addToVerbose_called_before_witness :
  exists c,
    callGraphPhase 1 progCycle = Done c
    /\ exists s',
         addToVerbose 1 3 (newSlicing c "/src") = Done s'
         /\ (forall G, G ∈ verboseF_ s' <->
                       G ∈ verboseF_ (newSlicing c "/src")
                       \/ ((3%positive ∉ verboseF_ (newSlicing c "/src"))
                           /\ (G = 3%positive
                               \/ calledBefore (Ctx_ (newSlicing c "/src")) 3 G)))
         /\ (forall f, callersOf (Ctx_ s') f
                       = callersOf (Ctx_ (newSlicing c "/src")) f).
Proof.
  eexists. split; [vm_compute; reflexivity|].
  apply (addToVerbose_called_before 1 3).
  - vm_compute. reflexivity.
  - vm_compute. reflexivity.
  - vm_compute. eexists. reflexivity.
  - vm_compute. lia.
Defined.
(* ===================================================================== *)
(** ** The run of [main] *)
(* ===================================================================== *)

(** *** The verbose sets hold functions and blocks of the program *)

Section VerboseValid.

Variable ms : list Module.
Hypothesis Hdesignated : calleesDesignated ms = true.





(** Forward slicing keeps the verbose blocks among the blocks of the
    program: a block enters the queue as a block of a function. *)
Lemma enqueueCallee_onProgram (callee : FuncId) (sq sq' : Slicing * list BlockId) :
  enqueueCallee callee sq = Done sq' -> queueOnProgram ms sq -> queueOnProgram ms sq'.
Proof.
  destruct sq as [s q]. unfold enqueueCallee.
  destruct (bool_decide (callee ∈ fVisitedF_ s)); [intros [= <-]; auto|].
  cbn zeta. intros Hrun (Hs & Hq). simpl in *.
  apply obind_Done in Hrun as ([M Cr] & Hderef & [= <-]).
  change (modules (setFVisitedF ({[callee]} ∪ fVisitedF_ s) s)) with (modules s) in Hderef.
  unfold derefFunction, ofOption in Hderef. rewrite (proj1 Hs) in Hderef.
  destruct (findFunction callee ms) as [[M' Cr']|] eqn:Hfind; [|discriminate].
  injection Hderef as -> ->.
  split; [exact Hs|]. simpl. intros x Hx.
  apply elem_of_app in Hx as [Hx | Hx]; [auto|].
  apply list_elem_of_fmap in Hx as (b & -> & Hb).
  eapply findBlockInFunctions_is_Some; [|exact Hb].
  apply functionOf_allFunctions. eapply findFunction_functionOf. exact Hfind.
Qed.

Lemma enqueueCallees_onProgram (ins : Instruction) (sq sq' : Slicing * list BlockId) :
  enqueueCallees ins sq = Done sq' -> queueOnProgram ms sq -> queueOnProgram ms sq'.
Proof.
  unfold enqueueCallees. destruct (icall ins); [|intros [= <-]; auto].
  destruct (Callees (Ctx_ (fst sq)) !! iid ins); [|intros [= <-]; auto].
  intros Hrun Hsq.
  apply (foldM_invariant (queueOnProgram ms) _ _ _ _) with (3 := Hrun); [|exact Hsq].
  intros G t t' _ Ht Hstep. eapply enqueueCallee_onProgram; eassumption.
Qed.

Lemma forwardLoop_onProgram (fuel : nat) :
  forall (toVisit : list BlockId) (visited : gset BlockId) (s s' : Slicing),
    forwardLoop fuel toVisit visited s = Done s' ->
    queueOnProgram ms (s, toVisit) -> onProgram ms s'.
Proof.
  induction fuel as [|fuel IH]; intros [|current toVisit] visited s s'; simpl;
    try discriminate; try (intros [= <-] [H _]; exact H).
  intros Hrun (Hs & Hq). simpl in *.
  assert (H1 : queueOnProgram ms (setVerboseBB ({[current]} ∪ verboseBB_ s) s, toVisit)).
  { destruct Hs as (Hm & HF & HB). split; [split; [exact Hm|split; [exact HF|]]|].
    - intros b. simpl. rewrite elem_of_union, elem_of_singleton.
      intros [-> | Hb]; [|auto]. apply Hq. apply list_elem_of_here.
    - simpl. intros x Hx. apply Hq. apply list_elem_of_further. exact Hx. }
  destruct (bool_decide (current ∈ visited)).
  - eapply IH; eassumption.
  - apply obind_Done in Hrun as ([Fp BBr] & _ & Hrun).
    apply obind_Done in Hrun as ([s1 q1] & Hfold & Hrun).
    eapply IH; [exact Hrun|].
    apply (foldM_invariant (queueOnProgram ms) _ _ _ _) with (3 := Hfold); [|exact H1].
    intros ins t t' _ Ht Hstep. eapply enqueueCallees_onProgram; eassumption.
Qed.

Lemma forwardSlicingFunction_onProgram (fuel : nat) (F : FuncId) (s s' : Slicing) :
  forwardSlicingFunction fuel F s = Done s' -> onProgram ms s -> onProgram ms s'.
Proof.
  unfold forwardSlicingFunction. intros Hrun Hs.
  apply obind_Done in Hrun as ([M Fr] & Hderef & Hrun).
  unfold derefFunction, ofOption in Hderef. rewrite (proj1 Hs) in Hderef.
  destruct (findFunction F ms) as [[M' Fr']|] eqn:Hfind; [|discriminate].
  injection Hderef as -> ->.
  eapply forwardLoop_onProgram; [exact Hrun|]. split; [exact Hs|]. simpl.
  intros x Hx. apply list_elem_of_fmap in Hx as (b & -> & Hb).
  eapply findBlockInFunctions_is_Some; [|exact Hb].
  apply functionOf_allFunctions. eapply findFunction_functionOf. exact Hfind.
Qed.

Lemma forwardSlicingFunctionStub_onProgram (fuel : nat) (name : string)
    (s s' : Slicing) :
  forwardSlicingFunctionStub fuel name s = Done s' -> onProgram ms s -> onProgram ms s'.
Proof.
  unfold forwardSlicingFunctionStub. destruct (getFunctionByName name (modules s)).
  - apply forwardSlicingFunction_onProgram.
  - intros [= <-]. auto.
Qed.

End VerboseValid.

(** *** The steps of [main] return *)

Section MainReturns.

Variable c : GlobalContext.
Hypothesis Hwf : wfModules (Modules c) = true.
Hypothesis Hvalid : pointersValid c = true.
Hypothesis Hcallees : calleesValid c = true.
Hypothesis Hdesignated : calleesDesignated (Modules c) = true.















(** *** [dump] returns *)







End MainReturns.

(** *** [main] returns *)





